(** * lite-shooter: the load runner's measurement and reporting core

    A shallow embedding of the Go sources (the runner and metrics files and
    [report.go]) and the properties of the engine stated over it.

    Conventions of the embedding:
    - Go's [int] and [int64] are 64-bit (the binary is built for
      [GOARCH=amd64]); they are modelled as [Z] with the wrap-around written
      out where an operation can overflow.  [int32] likewise.
    - [float64] is IEEE-754 binary64, modelled by the standard library's
      [spec_float] at precision 53 and [emax = 1024], so every floating-point
      operation rounds as the hardware does.
    - Strings are byte strings; [strings.ToLower] and [strings.TrimSpace] are
      modelled on their ASCII paths.
    - Goroutines are modelled by step relations over an explicit shared
      state; wall-clock readings and operation outcomes are inputs of the
      steps. *)

From Stdlib Require Import ZArith List Bool Lia Ascii String Permutation Sorted Finite.
From Stdlib Require Import SpecFloat.
Import ListNotations.

Local Open Scope Z_scope.

(* ================================================================= *)
(** * Part I: the embedding *)

(* ----------------------------------------------------------------- *)
(** ** Machine integers *)

Definition wrap_bits (w : Z) (z : Z) : Z :=
  (z + 2 ^ (w - 1)) mod 2 ^ w - 2 ^ (w - 1).

Definition wrap_int32 : Z -> Z := wrap_bits 32.
Definition wrap_int64 : Z -> Z := wrap_bits 64.

Definition in_int32 (z : Z) : Prop := - 2 ^ 31 <= z < 2 ^ 31.
Definition in_int64 (z : Z) : Prop := - 2 ^ 63 <= z < 2 ^ 63.

Definition MinInt64 : Z := - 2 ^ 63.
Definition MaxInt64 : Z := 2 ^ 63 - 1.

(* ----------------------------------------------------------------- *)
(** ** Error taxonomy ([report.go], [classifyError]) *)

Local Open Scope string_scope.

(** ASCII white space as [strings.TrimSpace] sees it: tab, line feed,
    vertical tab, form feed, carriage return and space. *)
Definition is_space (c : ascii) : bool :=
  let n := nat_of_ascii c in
  (Nat.eqb n 32 || (Nat.leb 9 n && Nat.leb n 13))%bool.

Fixpoint TrimLeft (s : string) : string :=
  match s with
  | EmptyString => EmptyString
  | String c s' => if is_space c then TrimLeft s' else s
  end.

Fixpoint TrimRight (s : string) : string :=
  match s with
  | EmptyString => EmptyString
  | String c s' =>
      match TrimRight s' with
      | EmptyString => if is_space c then EmptyString else String c EmptyString
      | t => String c t
      end
  end.

(** [strings.TrimSpace] on its ASCII path.  Go also strips the white
    space of Unicode beyond ASCII (U+0085, U+00A0 and others), which this
    model leaves in place: the two agree on every text without such a
    character at its ends. *)
Definition TrimSpace (s : string) : string := TrimRight (TrimLeft s).

(** [strings.ToLower] on its ASCII path: the letters [A] to [Z].  Go also
    maps the capitals beyond ASCII (U+212A to [k], U+0130 to [i], ...); the
    two agree on every ASCII text. *)
Definition lower_ascii (c : ascii) : ascii :=
  let n := nat_of_ascii c in
  if (Nat.leb 65 n && Nat.leb n 90)%bool then ascii_of_nat (n + 32) else c.

Fixpoint ToLower (s : string) : string :=
  match s with
  | EmptyString => EmptyString
  | String c s' => String (lower_ascii c) (ToLower s')
  end.

(** [strings.HasPrefix s sub]. *)
Fixpoint HasPrefix (s sub : string) : bool :=
  match sub, s with
  | EmptyString, _ => true
  | String _ _, EmptyString => false
  | String a sub', String b s' => (Ascii.eqb a b && HasPrefix s' sub')%bool
  end.

(** [strings.Contains s sub]: [sub] occurs in [s] at some offset. *)
Fixpoint Contains (s sub : string) : bool :=
  if HasPrefix s sub then true
  else match s with
       | EmptyString => false
       | String _ s' => Contains s' sub
       end.

(** The [switch] of [classifyError] on the normalised text [v]. *)
Definition classifyNormalized (v : string) : string :=
  if String.eqb v "" then "unknown"
  else if (Contains v "context deadline exceeded" || Contains v "timeout")%bool then "timeout"
  else if Contains v "unknown query" then "unknown_query"
  else if Contains v "connection reset" then "conn_reset"
  else if Contains v "broken pipe" then "broken_pipe"
  else if Contains v "eof" then "eof"
  else if Contains v "canceled" then "canceled"
  else if Contains v "not found" then "not_found"
  else "other".

Definition classifyError (s : string) : string :=
  classifyNormalized (ToLower (TrimSpace s)).

(** The taxonomy as the specification words it: an ordered table of codes,
    each with the phrases that select it; the first matching row wins. *)
Definition taxonomy : list (string * list string) :=
  [ ("timeout", ["context deadline exceeded"; "timeout"]);
    ("unknown_query", ["unknown query"]);
    ("conn_reset", ["connection reset"]);
    ("broken_pipe", ["broken pipe"]);
    ("eof", ["eof"]);
    ("canceled", ["canceled"]);
    ("not_found", ["not found"]) ].

Definition row_matches (v : string) (row : string * list string) : bool :=
  existsb (Contains v) (snd row).

Definition first_match (v : string) : option string :=
  option_map fst (find (row_matches v) taxonomy).

Definition classify_by_priority (v : string) : string :=
  if String.eqb v "" then "unknown"
  else match first_match v with
       | Some code => code
       | None => "other"
       end.

Definition error_codes : list string :=
  ["timeout"; "unknown_query"; "conn_reset"; "broken_pipe"; "eof";
   "canceled"; "not_found"; "other"; "unknown"].

Local Close Scope string_scope.

(* ----------------------------------------------------------------- *)
(** ** The shared random source ([lockedRand]) *)

(** The generator behind [math/rand]: an unbounded sequence of raw outputs
    and the position of the next one.  For [n > 0], [Intn n] is the next raw
    output reduced into [[0, n)]; every value of that interval is the
    reduction of some raw output, so no behaviour of the library is lost. *)
Record Source : Type := mkSource { raw : nat -> Z; pos : nat }.

Definition advance (g : Source) : Source := mkSource (raw g) (S (pos g)).

(** A call that may panic. *)
Inductive outcome (A : Type) : Type :=
| Returns (a : A)
| Panics.
Arguments Returns {A} a.
Arguments Panics {A}.

(** [Intn] of [math/rand]: panics when [n <= 0]. *)
Definition rand_Intn (g : Source) (n : Z) : outcome (Z * Source) :=
  if n <=? 0 then Panics
  else Returns (raw g (pos g) mod n, advance g).

(** [lockedRand.Intn]: the guard returns before the lock is taken; the
    lock is held only around the library call. *)
Definition lockedRand_Intn (lr : Source) (n : Z) : outcome (Z * Source) :=
  if n <=? 0 then Returns (0, lr)
  else rand_Intn lr n.

(* ----------------------------------------------------------------- *)
(** ** Work-item selector ([blockPicker]) *)

(** [refresh], [lastRefresh] and the clock are in nanoseconds. *)
Record blockPicker : Type := mkPicker {
  mode : string;
  from : Z;
  to : Z;
  window : Z;
  refresh : Z;
  lastRefresh : Z;
  latest : Z;
  rng : Source
}.

Definition set_rng (p : blockPicker) (g : Source) : blockPicker :=
  mkPicker (mode p) (from p) (to p) (window p) (refresh p) (lastRefresh p) (latest p) g.

Definition set_latest (p : blockPicker) (l now : Z) : blockPicker :=
  mkPicker (mode p) (from p) (to p) (window p) (refresh p) now l (rng p).

(** What [pick] hands back: a sequence number, or the error of the bound
    lookup. *)
Inductive pickResult :=
| Picked (seq : Z)
| PickError.

(** [p.rng.Intn(span)] followed by [start + int32(...)]. *)
Definition draw_from (p : blockPicker) (start span : Z)
  : outcome (pickResult * blockPicker) :=
  match lockedRand_Intn (rng p) span with
  | Panics => Panics
  | Returns (r, g) => Returns (Picked (wrap_int32 (start + wrap_int32 r)), set_rng p g)
  end.

(** [blockPicker.pick].  [now] is the reading of [time.Now()]; [fetch] is
    what [GetMasterchainInfo] answers if it is called: the last sequence
    number (a [uint32]) or [None] for an error. *)
Definition pick (p : blockPicker) (now : Z) (fetch : option Z)
  : outcome (pickResult * blockPicker) :=
  if String.eqb (mode p) "range" then
      let span := wrap_int32 (wrap_int32 (to p - from p) + 1) in
      if span <=? 1 then Returns (Picked (from p), p)
      else draw_from p (from p) span
  else
      let stale :=
        ((latest p =? 0) || ((0 <? refresh p) && (refresh p <=? now - lastRefresh p)))%bool in
      let refreshed :=
        if stale then
          match fetch with
          | None => None
          | Some seqno => Some (set_latest p (wrap_int32 seqno) now)
          end
        else Some p in
      match refreshed with
      | None => Returns (PickError, p)
      | Some p1 =>
          let start0 := wrap_int32 (wrap_int32 (latest p1 - window p1) + 1) in
          let start := if start0 <? 1 then 1 else start0 in
          let span := wrap_int32 (wrap_int32 (latest p1 - start) + 1) in
          if span <=? 1 then Returns (Picked (latest p1), p1)
          else draw_from p1 start span
      end.

(** The interval the specification gives for a windowed pick. *)
Definition window_low (bound win : Z) : Z := Z.max 1 (bound - win + 1).

(* ----------------------------------------------------------------- *)
(** ** float64 *)

Definition float64 : Type := spec_float.

Definition prec : Z := 53.
Definition emax : Z := 1024.

Definition f64_mul : float64 -> float64 -> float64 := SFmul prec emax.
Definition f64_div : float64 -> float64 -> float64 := SFdiv prec emax.
Definition f64_leb : float64 -> float64 -> bool := SFleb.

(** The conversion [float64(v)] of an integer: round to nearest, ties to
    even. *)
Definition f64_of_int (v : Z) : float64 := binary_normalize prec emax v 0 false.

Definition f64_zero : float64 := S754_zero false.

(** The integer [ceil x] of the finite number [(-1)^s * m * 2^e]. *)
Definition ceil_finite (s : bool) (m : positive) (e : Z) : Z :=
  let v := if s then Zneg m else Zpos m in
  if 0 <=? e then v * 2 ^ e else - ((- v) / 2 ^ (- e)).

(** [math.Ceil]: zeros, infinities and NaN are returned as they are; a
    number with a non-negative exponent is already integral; a negative
    fraction above [-1] gives the negative zero. *)
Definition math_Ceil (x : float64) : float64 :=
  match x with
  | S754_finite s m e =>
      if 0 <=? e then x
      else let c := ceil_finite s m e in
           if c =? 0 then S754_zero s else f64_of_int c
  | _ => x
  end.

(** Truncation toward zero of a finite number. *)
Definition trunc_finite (s : bool) (m : positive) (e : Z) : Z :=
  let t := if 0 <=? e then Zpos m * 2 ^ e else Zpos m / 2 ^ (- e) in
  if s then - t else t.

(** The conversion [int(x)] on amd64: truncation when the result fits in 64
    bits; otherwise, and for infinities and NaN, the instruction's
    "integer indefinite" value, [MinInt64]. *)
Definition int_of_float64 (x : float64) : Z :=
  match x with
  | S754_zero _ => 0
  | S754_finite s m e =>
      let t := trunc_finite s m e in
      if ((MinInt64 <=? t) && (t <=? MaxInt64))%bool then t else MinInt64
  | _ => MinInt64
  end.

(* ----------------------------------------------------------------- *)
(** ** Metrics engine ([computeMetrics], [percentile], [percentileSeries]) *)

Definition len {A : Type} (l : list A) : Z := Z.of_nat (List.length l).

(** [sort.Slice(vals, less)] with [less] the order of the integers: the
    ascending rearrangement of [vals]. *)
Fixpoint insert_sorted (x : Z) (l : list Z) : list Z :=
  match l with
  | [] => [x]
  | y :: l' => if x <=? y then x :: l else y :: insert_sorted x l'
  end.

Fixpoint sort_int64 (l : list Z) : list Z :=
  match l with
  | [] => []
  | x :: l' => insert_sorted x (sort_int64 l')
  end.

(** The index [percentile] reads, from the product [y = (p/100.0) * n]:
    [int(math.Ceil(y)) - 1], raised to 0 and lowered to [n - 1]. *)
Definition index_of_product (n : Z) (y : float64) : Z :=
  let idx := wrap_int64 (int_of_float64 (math_Ceil y) - 1) in
  let idx := if idx <? 0 then 0 else idx in
  if idx >=? n then n - 1 else idx.

Definition percentile_index (n : Z) (p : float64) : Z :=
  index_of_product n (f64_mul (f64_div p (f64_of_int 100)) (f64_of_int n)).

Definition percentile (vals : list Z) (p : float64) : float64 :=
  if len vals =? 0 then f64_zero
  else f64_of_int (nth (Z.to_nat (percentile_index (len vals) p)) vals 0).

Record metrics : Type := mkMetrics {
  m_avg : float64;
  m_p50 : float64;
  m_p90 : float64;
  m_p95 : float64;
  m_p99 : float64;
  m_max : float64
}.

Definition zero_metrics : metrics :=
  mkMetrics f64_zero f64_zero f64_zero f64_zero f64_zero f64_zero.

(** The failed samples carry the sentinel [-1]; [computeMetrics] skips every
    negative entry. *)
Definition successful (d : Z) : bool := negb (d <? 0).

Definition sum_int64 (vals : list Z) : Z :=
  fold_left (fun s v => wrap_int64 (s + v)) vals 0.

(** [computeMetrics].  [make([]int64, 0, successCount)] panics on a negative
    capacity. *)
Definition computeMetrics (durations : list Z) (successCount : Z) : outcome metrics :=
  if successCount =? 0 then Returns zero_metrics
  else if successCount <? 0 then Panics
  else
    let vals := filter successful durations in
    if len vals =? 0 then Returns zero_metrics
    else
      let vals := sort_int64 vals in
      Returns
        (mkMetrics
           (f64_div (f64_of_int (sum_int64 vals)) (f64_of_int (len vals)))
           (percentile vals (f64_of_int 50))
           (percentile vals (f64_of_int 90))
           (percentile vals (f64_of_int 95))
           (percentile vals (f64_of_int 99))
           (f64_of_int (nth (Z.to_nat (len vals - 1)) vals 0))).

Definition percentileSeries (perSec : list (list Z))
  : list float64 * list float64 * list float64 * list float64 :=
  let at_p (p : Z) (b : list Z) :=
    if len b =? 0 then f64_zero else percentile (sort_int64 b) (f64_of_int p) in
  (map (at_p 50) perSec, map (at_p 90) perSec,
   map (at_p 95) perSec, map (at_p 99) perSec).

(** The index of the code without the conversion to [int]:
    [ceil(x) - 1] clamped into [[0, n-1]] for the float64 product
    [x = p/100 * n] the code computes, the ceiling being the mathematical
    one (an integer, or an infinity for an infinite product).  It is used
    to show that the conversion and the two tests of the clamp lose
    nothing; it is not the nearest rank of exact arithmetic. *)
Inductive extended := NegInfinity | Finite (z : Z) | PosInfinity.

Definition ceil_ext (x : float64) : option extended :=
  match x with
  | S754_nan => None
  | S754_zero _ => Some (Finite 0)
  | S754_infinity s => Some (if s then NegInfinity else PosInfinity)
  | S754_finite s m e => Some (Finite (ceil_finite s m e))
  end.

Definition clamp_ext (lo hi : Z) (x : extended) : Z :=
  match x with
  | NegInfinity => lo
  | PosInfinity => hi
  | Finite z => Z.max lo (Z.min hi z)
  end.

Definition pred_ext (x : extended) : extended :=
  match x with
  | Finite z => Finite (z - 1)
  | _ => x
  end.

Definition float_rank_index (n : Z) (p : float64) : option Z :=
  option_map (fun c => clamp_ext 0 (n - 1) (pred_ext c))
    (ceil_ext (f64_mul (f64_div p (f64_of_int 100)) (f64_of_int n))).

(** The nearest-rank rule as the specification words it, for a whole
    percentage [p]: the index [ceil(p/100 * n) - 1] clamped into
    [[0, n-1]], in exact arithmetic ([ceil(p * n / 100)] is
    [(p * n + 99) / 100] on the integers). *)
Definition exact_rank_index (n p : Z) : Z :=
  Z.max 0 (Z.min (n - 1) ((p * n + 99) / 100 - 1)).

(* ----------------------------------------------------------------- *)
(** ** Report synthesizer: downsampling ([sampleIndices] and its users) *)

Record Result : Type := mkResult {
  Config : string;
  Targets : string;
  Mode : string;
  Concurrency : Z;
  Total : Z;
  Success : Z;
  Errors : Z;
  Duration : Z;
  RPS : float64;
  AvgMs : float64;
  P50Ms : float64;
  P90Ms : float64;
  P95Ms : float64;
  P99Ms : float64;
  MaxMs : float64;
  SeriesSec : list Z;
  SeriesRPS : list float64;
  SeriesErr : list float64;
  SeriesP50 : list float64;
  SeriesP90 : list float64;
  SeriesP95 : list float64;
  SeriesP99 : list float64;
  SeriesStart : Z
}.

(** The loop [for i := 0; i < n; i += step]; [fuel] bounds the number of
    iterations. *)
Fixpoint stride_loop (fuel : nat) (n step i : Z) : list Z :=
  match fuel with
  | O => []
  | S fuel' =>
      if i <? n then i :: stride_loop fuel' n step (wrap_int64 (i + step))
      else []
  end.

Definition sample_step (n maxPoints : Z) : Z :=
  let step :=
    int_of_float64 (math_Ceil (f64_div (f64_of_int n) (f64_of_int maxPoints))) in
  if step <? 1 then 1 else step.

Definition sampleIndices (n maxPoints : Z) : list Z :=
  if n <=? 0 then []
  else if ((maxPoints <=? 0) || (n <=? maxPoints))%bool then
    map Z.of_nat (seq 0 (Z.to_nat n))
  else
    let step := sample_step n maxPoints in
    let idxs := stride_loop (Z.to_nat n) n step 0 in
    if last idxs 0 =? n - 1 then idxs else idxs ++ [n - 1].

(** [sampleInts] and [sampleFloats]: the elements at the kept indices, an
    index outside the source being skipped. *)
Definition sample_at {A : Type} (src : list A) (idxs : list Z) : list A :=
  if ((len src =? 0) || (len idxs =? 0))%bool then []
  else
    flat_map
      (fun idx =>
         if ((0 <=? idx) && (idx <? len src))%bool then
           match nth_error src (Z.to_nat idx) with
           | Some x => [x]
           | None => []
           end
         else [])
      idxs.

Definition sampleInts : list Z -> list Z -> list Z := sample_at.
Definition sampleFloats : list float64 -> list Z -> list float64 := sample_at.

Definition with_series (r : Result) (idxs : list Z) : Result :=
  mkResult (Config r) (Targets r) (Mode r) (Concurrency r) (Total r)
    (Success r) (Errors r) (Duration r) (RPS r) (AvgMs r) (P50Ms r)
    (P90Ms r) (P95Ms r) (P99Ms r) (MaxMs r)
    (sampleInts (SeriesSec r) idxs)
    (sampleFloats (SeriesRPS r) idxs)
    (sampleFloats (SeriesErr r) idxs)
    (sampleFloats (SeriesP50 r) idxs)
    (sampleFloats (SeriesP90 r) idxs)
    (sampleFloats (SeriesP95 r) idxs)
    (sampleFloats (SeriesP99 r) idxs)
    (SeriesStart r).

Definition downsampleResult (maxPoints : Z) (r : Result) : Result :=
  if ((len (SeriesSec r) =? 0) || (len (SeriesSec r) <=? maxPoints))%bool then r
  else with_series r (sampleIndices (len (SeriesSec r)) maxPoints).

Definition downsampleResults (results : list Result) (maxPoints : Z) : list Result :=
  if ((maxPoints <=? 0) || (len results =? 0))%bool then results
  else map (downsampleResult maxPoints) results.

(** The index selection as the specification words it: the multiples of
    [step] below [n], and then [n - 1] unless it is the last of them. *)
Definition multiples_below (n step : Z) : list Z :=
  map (fun k => Z.of_nat k * step) (seq 0 (Z.to_nat ((n + step - 1) / step))).

Definition kept_indices (n step : Z) : list Z :=
  let ms := multiples_below n step in
  if last ms 0 =? n - 1 then ms else ms ++ [n - 1].

Definition ceil_div (n m : Z) : Z := (n + m - 1) / m.

(* ----------------------------------------------------------------- *)
(** ** Job runner, FixedCount mode ([runJobs]) *)

Fixpoint update_nth {A : Type} (n : nat) (x : A) (l : list A) : list A :=
  match l, n with
  | [], _ => []
  | _ :: l', O => x :: l'
  | y :: l', S n' => y :: update_nth n' x l'
  end.

(** The clamp at the head of [runJobs]. *)
Definition effective_conc (total conc : Z) : Z :=
  let conc := if conc >? total then total else conc in
  if conc <=? 0 then 1 else conc.

(** A worker goroutine is waiting on the channel, is inside [fn(idx)], or
    has left its [range] loop. *)
Inductive worker : Type :=
| Idle
| Busy (idx : Z)
| Exited.

(** The state shared by the dispatcher and the workers.  [j_next] is the
    dispatcher's loop variable, [j_jobs] the content of the buffered
    channel.  [j_calls] is history only: the indices [fn] has been called
    on and has returned for. *)
Record jobsState : Type := mkJobs {
  j_next : Z;
  j_jobs : list Z;
  j_closed : bool;
  j_workers : list worker;
  j_durations : list Z;
  j_successes : Z;
  j_errors : Z;
  j_calls : list Z
}.

Definition jobs_init (total conc : Z) : jobsState :=
  mkJobs 0 [] false
    (repeat Idle (Z.to_nat (effective_conc total conc)))
    (repeat 0 (Z.to_nat total)) 0 0 [].

(** What [fn(idx)] and the clock give back: an error, or the elapsed
    milliseconds. *)
Inductive callResult : Type :=
| Failed
| Succeeded (d : Z).

Definition record_job (s : jobsState) (w : nat) (idx : Z) (r : callResult) : jobsState :=
  match r with
  | Failed =>
      mkJobs (j_next s) (j_jobs s) (j_closed s)
        (update_nth w Idle (j_workers s))
        (update_nth (Z.to_nat idx) (-1) (j_durations s))
        (j_successes s) (j_errors s + 1) (idx :: j_calls s)
  | Succeeded d =>
      mkJobs (j_next s) (j_jobs s) (j_closed s)
        (update_nth w Idle (j_workers s))
        (update_nth (Z.to_nat idx) d (j_durations s))
        (j_successes s + 1) (j_errors s) (idx :: j_calls s)
  end.

(** One atomic action of one goroutine.  [total] is the item count and
    [cap] the channel capacity (the effective worker count). *)
Inductive jobs_step (total cap : Z) : jobsState -> jobsState -> Prop :=
| step_send : forall s,
    j_next s < total -> len (j_jobs s) < cap -> j_closed s = false ->
    jobs_step total cap s
      (mkJobs (j_next s + 1) (j_jobs s ++ [j_next s]) (j_closed s)
         (j_workers s) (j_durations s) (j_successes s) (j_errors s) (j_calls s))
| step_close : forall s,
    total <= j_next s -> j_closed s = false ->
    jobs_step total cap s
      (mkJobs (j_next s) (j_jobs s) true
         (j_workers s) (j_durations s) (j_successes s) (j_errors s) (j_calls s))
| step_recv : forall s w idx rest,
    nth_error (j_workers s) w = Some Idle -> j_jobs s = idx :: rest ->
    jobs_step total cap s
      (mkJobs (j_next s) rest (j_closed s)
         (update_nth w (Busy idx) (j_workers s))
         (j_durations s) (j_successes s) (j_errors s) (j_calls s))
| step_finish : forall s w idx r,
    nth_error (j_workers s) w = Some (Busy idx) ->
    (forall d, r = Succeeded d -> 0 <= d) ->
    jobs_step total cap s (record_job s w idx r)
| step_exit : forall s w,
    nth_error (j_workers s) w = Some Idle -> j_jobs s = [] -> j_closed s = true ->
    jobs_step total cap s
      (mkJobs (j_next s) (j_jobs s) (j_closed s)
         (update_nth w Exited (j_workers s))
         (j_durations s) (j_successes s) (j_errors s) (j_calls s)).

Inductive jobs_steps (total cap : Z) : jobsState -> jobsState -> Prop :=
| steps_refl : forall s, jobs_steps total cap s s
| steps_more : forall s1 s2 s3,
    jobs_steps total cap s1 s2 -> jobs_step total cap s2 s3 ->
    jobs_steps total cap s1 s3.

(** The indices the workers are inside [fn] for. *)
Definition busy_of (ws : list worker) : list Z :=
  flat_map (fun w => match w with Busy idx => [idx] | _ => [] end) ws.

Definition iota (n : Z) : list Z := map Z.of_nat (seq 0 (Z.to_nat n)).

(** The number of entries of the results array that carry the failure
    sentinel. *)
Definition count_failed (durations : list Z) : Z :=
  len (filter (fun d => d <? 0) durations).

(** [wg.Wait()] returns when every worker has left its loop. *)
Definition jobs_done (s : jobsState) : Prop :=
  Forall (fun w => w = Exited) (j_workers s).

(** A run of [runJobs total conc fn] that returns with the final state [s]. *)
Definition runJobs_returns (total conc : Z) (s : jobsState) : Prop :=
  jobs_steps total (effective_conc total conc) (jobs_init total conc) s /\ jobs_done s.

(** The number of atomic actions left before every run has returned. *)
Definition worker_weight (w : worker) : Z :=
  match w with
  | Idle => 1
  | Busy _ => 2
  | Exited => 0
  end.

Definition weights (ws : list worker) : Z :=
  fold_right (fun w acc => worker_weight w + acc) 0 ws.

Definition jobs_measure (total : Z) (s : jobsState) : Z :=
  4 * (total - j_next s) + 3 * len (j_jobs s) + weights (j_workers s)
  + (if j_closed s then 0 else 1).

(* ----------------------------------------------------------------- *)
(** ** Job runner, TimeBoxed mode ([runTimedJobs]) *)

(** Where a worker stands in its loop body: before the deadline check,
    inside [fn(i)], holding an outcome whose second [sec] has been read,
    between the bucket update and the totals update, or returned. *)
Inductive timedWorker : Type :=
| AtCheck
| Calling (i : Z)
| Bucketing (ok : bool) (d sec : Z)
| Totalling (ok : bool) (d : Z)
| Stopped.

(** [t_log] is history only: every completed operation with its success
    flag, latency and the second it completed in. *)
Record timedState : Type := mkTimed {
  t_idx : Z;
  t_workers : list timedWorker;
  t_perSec : list (list Z);
  t_okCounts : list Z;
  t_errCounts : list Z;
  t_durations : list Z;
  t_successes : Z;
  t_errors : Z;
  t_log : list (bool * Z * Z)
}.

(** [time.Duration.Seconds] of a duration of [d] nanoseconds. *)
Definition duration_Seconds (d : Z) : float64 :=
  SFadd prec emax
    (f64_of_int (Z.quot d 1000000000))
    (f64_div (f64_of_int (Z.rem d 1000000000)) (f64_of_int 1000000000)).

Definition timed_buckets (duration : Z) : Z :=
  let b := int_of_float64 (math_Ceil (duration_Seconds duration)) in
  if b <? 1 then 1 else b.

Definition timed_conc (conc : Z) : Z := if conc <=? 0 then 1 else conc.

Definition timed_init (buckets conc : Z) : timedState :=
  mkTimed 0 (repeat AtCheck (Z.to_nat (timed_conc conc)))
    (repeat [] (Z.to_nat buckets))
    (repeat 0 (Z.to_nat buckets)) (repeat 0 (Z.to_nat buckets))
    [] 0 0 [].

Definition bump (sec : Z) (counts : list Z) : list Z :=
  update_nth (Z.to_nat sec) (nth (Z.to_nat sec) counts 0 + 1) counts.

Definition push (sec d : Z) (perSec : list (list Z)) : list (list Z) :=
  update_nth (Z.to_nat sec) (nth (Z.to_nat sec) perSec [] ++ [d]) perSec.

(** The per-second part of the recording: guarded by
    [sec >= 0 && sec < buckets]. *)
Definition record_bucket (buckets : Z) (s : timedState) (w : nat)
    (ok : bool) (d sec : Z) : timedState :=
  let ws := update_nth w (Totalling ok d) (t_workers s) in
  if ((0 <=? sec) && (sec <? buckets))%bool then
    if ok then
      mkTimed (t_idx s) ws (push sec d (t_perSec s)) (bump sec (t_okCounts s))
        (t_errCounts s) (t_durations s) (t_successes s) (t_errors s) (t_log s)
    else
      mkTimed (t_idx s) ws (t_perSec s) (t_okCounts s)
        (bump sec (t_errCounts s)) (t_durations s) (t_successes s) (t_errors s) (t_log s)
  else
    mkTimed (t_idx s) ws (t_perSec s) (t_okCounts s)
      (t_errCounts s) (t_durations s) (t_successes s) (t_errors s) (t_log s).

(** The run-wide part of the recording, under [mu]. *)
Definition record_total (s : timedState) (w : nat) (ok : bool) (d : Z) : timedState :=
  let ws := update_nth w AtCheck (t_workers s) in
  if ok then
    mkTimed (t_idx s) ws (t_perSec s) (t_okCounts s) (t_errCounts s)
      (t_durations s ++ [d]) (t_successes s + 1) (t_errors s) (t_log s)
  else
    mkTimed (t_idx s) ws (t_perSec s) (t_okCounts s) (t_errCounts s)
      (t_durations s ++ [-1]) (t_successes s) (t_errors s + 1) (t_log s).

Definition set_worker (s : timedState) (w : nat) (st : timedWorker) : timedState :=
  mkTimed (t_idx s) (update_nth w st (t_workers s)) (t_perSec s) (t_okCounts s)
    (t_errCounts s) (t_durations s) (t_successes s) (t_errors s) (t_log s).

(** [int(atomic.AddUint64(&idx, 1) - 1) % itemCount]. *)
Definition claimed_index (idx itemCount : Z) : Z :=
  Z.rem (wrap_int64 (idx mod 2 ^ 64)) itemCount.

(** One atomic action of one worker.  The deadline check and the readings
    of the clock are inputs: [timed_stop] is a check that found the deadline
    passed, and [timed_return] carries the latency [d] and the second
    [sec = int(time.Since(start).Seconds())] read after [fn] returned. *)
Inductive timed_step (itemCount buckets : Z) : timedState -> timedState -> Prop :=
| timed_stop : forall s w,
    nth_error (t_workers s) w = Some AtCheck ->
    timed_step itemCount buckets s (set_worker s w Stopped)
| timed_claim : forall s w,
    nth_error (t_workers s) w = Some AtCheck ->
    timed_step itemCount buckets s
      (mkTimed ((t_idx s + 1) mod 2 ^ 64)
         (update_nth w (Calling (claimed_index (t_idx s) itemCount)) (t_workers s))
         (t_perSec s) (t_okCounts s) (t_errCounts s) (t_durations s)
         (t_successes s) (t_errors s) (t_log s))
| timed_return : forall s w i ok d sec,
    nth_error (t_workers s) w = Some (Calling i) ->
    0 <= d ->
    timed_step itemCount buckets s
      (mkTimed (t_idx s)
         (update_nth w (Bucketing ok d sec) (t_workers s))
         (t_perSec s) (t_okCounts s) (t_errCounts s) (t_durations s)
         (t_successes s) (t_errors s) ((ok, d, sec) :: t_log s))
| timed_bucket : forall s w ok d sec,
    nth_error (t_workers s) w = Some (Bucketing ok d sec) ->
    timed_step itemCount buckets s (record_bucket buckets s w ok d sec)
| timed_total : forall s w ok d,
    nth_error (t_workers s) w = Some (Totalling ok d) ->
    timed_step itemCount buckets s (record_total s w ok d).

Inductive timed_steps (itemCount buckets : Z) : timedState -> timedState -> Prop :=
| tsteps_refl : forall s, timed_steps itemCount buckets s s
| tsteps_more : forall s1 s2 s3,
    timed_steps itemCount buckets s1 s2 -> timed_step itemCount buckets s2 s3 ->
    timed_steps itemCount buckets s1 s3.

Definition timed_done (s : timedState) : Prop :=
  Forall (fun w => w = Stopped) (t_workers s).

(** A run of [runTimedJobs itemCount conc duration fn], for [itemCount > 0],
    that returns with the final state [s]. *)
Definition runTimedJobs_returns (itemCount conc duration : Z) (s : timedState) : Prop :=
  0 < itemCount /\
  timed_steps itemCount (timed_buckets duration)
    (timed_init (timed_buckets duration) conc) s /\
  timed_done s.

Definition sumZ (l : list Z) : Z := fold_right Z.add 0 l.

(** The bucket the specification assigns to an outcome: the elapsed second
    clamped into [[0, buckets - 1]]. *)
Definition clamped_bucket (buckets sec : Z) : Z :=
  Z.max 0 (Z.min (buckets - 1) sec).

(** Counts over the history of a run. *)
Definition completed (ok : bool) (log : list (bool * Z * Z)) : Z :=
  len (filter (fun e => Bool.eqb (fst (fst e)) ok) log).

Definition completed_in (ok : bool) (b : Z) (log : list (bool * Z * Z)) : Z :=
  len (filter (fun e => (Bool.eqb (fst (fst e)) ok && (snd e =? b))%bool) log).

Definition completed_within (ok : bool) (buckets : Z) (log : list (bool * Z * Z)) : Z :=
  len (filter (fun e => (Bool.eqb (fst (fst e)) ok
                         && (0 <=? snd e) && (snd e <? buckets))%bool) log).

(** [applyMetrics]: the six statistics of [computeMetrics] written into the
    result, and the rate once the duration is known. *)
Definition applyMetrics (r : Result) (durations : list Z) : outcome Result :=
  match computeMetrics durations (Success r) with
  | Panics => Panics
  | Returns m =>
      Returns
        (mkResult (Config r) (Targets r) (Mode r) (Concurrency r) (Total r)
           (Success r) (Errors r) (Duration r)
           (if 0 <? Duration r
            then f64_div (f64_of_int (Success r)) (duration_Seconds (Duration r))
            else RPS r)
           (m_avg m) (m_p50 m) (m_p90 m) (m_p95 m) (m_p99 m) (m_max m)
           (SeriesSec r) (SeriesRPS r) (SeriesErr r) (SeriesP50 r)
           (SeriesP90 r) (SeriesP95 r) (SeriesP99 r) (SeriesStart r))
  end.

(** The six latency statistics of a result. *)
Definition statistics (r : Result) : metrics :=
  mkMetrics (AvgMs r) (P50Ms r) (P90Ms r) (P95Ms r) (P99Ms r) (MaxMs r).

(** What holds of the shared state throughout a run of [runJobs]. *)
Record jobs_inv (total cap : Z) (s : jobsState) : Prop := mkJobsInv {
  inv_next : 0 <= j_next s <= total;
  inv_closed : j_closed s = true -> j_next s = total;
  inv_perm :
    Permutation (j_calls s ++ busy_of (j_workers s) ++ j_jobs s) (iota (j_next s));
  inv_counts : j_successes s + j_errors s = len (j_calls s);
  inv_len : len (j_durations s) = total;
  inv_fresh : forall i, 0 <= i < total -> ~ In i (j_calls s) ->
                        nth (Z.to_nat i) (j_durations s) 0 = 0;
  inv_failed : j_errors s = count_failed (j_durations s);
  inv_workers : len (j_workers s) = cap;
  inv_exited : In Exited (j_workers s) -> j_closed s = true /\ j_jobs s = []
}.

(** Outcomes a worker holds that have not reached the per-second counters,
    and outcomes that have not reached the run totals. *)
Definition awaits_bucket (ok : bool) (b : Z) (w : timedWorker) : bool :=
  match w with
  | Bucketing ok' _ sec => (Bool.eqb ok' ok && (sec =? b))%bool
  | _ => false
  end.

Definition awaits_total (ok : bool) (w : timedWorker) : bool :=
  match w with
  | Bucketing ok' _ _ => Bool.eqb ok' ok
  | Totalling ok' _ => Bool.eqb ok' ok
  | _ => false
  end.

Definition count_workers (P : timedWorker -> bool) (ws : list timedWorker) : Z :=
  len (filter P ws).

Definition counts_of (ok : bool) (s : timedState) : list Z :=
  if ok then t_okCounts s else t_errCounts s.

Definition total_of (ok : bool) (s : timedState) : Z :=
  if ok then t_successes s else t_errors s.

(** What holds of the shared state throughout a run of [runTimedJobs]. *)
Record timed_inv (buckets : Z) (s : timedState) : Prop := mkTimedInv {
  tinv_len : forall ok, len (counts_of ok s) = buckets;
  tinv_bucket : forall ok b, 0 <= b < buckets ->
    nth (Z.to_nat b) (counts_of ok s) 0
    + count_workers (awaits_bucket ok b) (t_workers s)
    = completed_in ok b (t_log s);
  tinv_total : forall ok,
    total_of ok s + count_workers (awaits_total ok) (t_workers s)
    = completed ok (t_log s)
}.

(** The run in which the one operation started before the deadline of a
    three-second run returns 250 ms later, in second 3. *)
Definition late_run_final : timedState :=
  mkTimed 1 [Stopped] [[]; []; []] [0; 0; 0] [0; 0; 0] [250] 1 0 [(true, 250, 3)].

(** The run in which the one operation of a three-second run completes in
    second 1. *)
Definition early_run_final : timedState :=
  mkTimed 1 [Stopped] [[]; [250]; []] [0; 1; 0] [0; 0; 0] [250] 1 0 [(true, 250, 1)].

(* ----------------------------------------------------------------- *)
(** ** Rounding to nearest even, in integers

    The standard library computes a rounding by shifting a record of a
    mantissa, a round bit and a sticky bit.  The functions below state the
    same computation on the pair [(h, s)] where [h = 2 * mantissa + round
    bit]: shifting by [k] bits divides [h] by [2 ^ k] and turns every bit
    shifted out into stickiness. *)

Definition halves (mrs : shr_record) : Z := 2 * shr_m mrs + Z.b2z (shr_r mrs).

Definition shift_halves (k : Z) (h : Z) : Z := h / 2 ^ k.

Definition shift_sticky (k : Z) (h : Z) (s : bool) : bool :=
  (s || negb (h mod 2 ^ k =? 0))%bool.

(** The mantissa the pair [(h, s)] rounds to. *)
Definition rne (h : Z) (s : bool) : Z :=
  let q := h / 2 in
  if Z.odd h then (if s then q + 1 else if Z.even q then q else q + 1) else q.

(** The rounding of [(mantissa M, exponent E, location l)] when the result
    is a normal number: [M] has at least 53 digits; [k] bits are shifted
    out, and a carry up to [2 ^ 53] costs one more. *)
Definition round_normal (M E : Z) (l : location) : Z * Z :=
  let k := Zdigits2 M - 53 in
  let mrs := shr_record_of_loc M l in
  let m1 := rne (shift_halves k (halves mrs)) (shift_sticky k (halves mrs) (shr_s mrs)) in
  if m1 =? 2 ^ 53 then (2 ^ 52, E + k + 1) else (m1, E + k).

(** The two shifts of [binary_round_aux], the rounding between them, on
    a mantissa [M], an exponent [E] and a location [l]: the rounded mantissa
    and its exponent. *)
Definition round_formula (M E : Z) (l : location) : Z * Z :=
  let mrs := shr_record_of_loc M l in
  let k1 := Z.max 0 (fexp prec emax (Zdigits2 M + E) - E) in
  let m1 := rne (shift_halves k1 (halves mrs)) (shift_sticky k1 (halves mrs) (shr_s mrs)) in
  let e1 := E + k1 in
  let k2 := Z.max 0 (fexp prec emax (Zdigits2 m1 + e1) - e1) in
  (m1 / 2 ^ k2, e1 + k2).

Definition float_of_rounded (sx : bool) (me : Z * Z) : float64 :=
  match fst me with
  | Z0 => S754_zero sx
  | Zpos m => if snd me <=? 971 then S754_finite sx m (snd me) else S754_infinity sx
  | Zneg _ => S754_nan
  end.

(** The mantissa and exponent of [float64(v)] for [v > 0]: [v] itself,
    normalised to 53 digits, when it has at most 53 digits, and its
    rounding otherwise. *)
Definition of_int_parts (v : Z) : Z * Z :=
  let d := Zdigits2 v in
  if d <=? 53 then (v * 2 ^ (53 - d), d - 53) else round_normal v 0 loc_Exact.

(** A percentile is a non-negative number: a zero, a positive finite number
    or the positive infinity. *)
Definition f64_nonneg (p : float64) : bool :=
  match p with
  | S754_zero _ => true
  | S754_infinity s => negb s
  | S754_finite s _ _ => negb s
  | S754_nan => false
  end.

(** A finite number is bounded when its mantissa has at most 53 digits. *)
Definition f64_bounded (y : float64) : Prop :=
  match y with
  | S754_finite _ m _ => Zpos m < 2 ^ 53
  | _ => True
  end.

(** The number [m * 2 ^ e] that a mantissa [M] with at least 53 digits
    rounds to. *)
Definition rounded_value (M : Z) : Z :=
  fst (round_normal M 0 loc_Exact) * 2 ^ snd (round_normal M 0 loc_Exact).

(** The number [float64(v)] stands for, for [v > 0]. *)
Definition of_int_value (v : Z) : Z :=
  if Zdigits2 v <=? 53 then v else rounded_value v.

(** The index [percentile] reads for a fraction [mc * 2 ^ -53] of [[1/2, 1)]
    and [n] samples, through the rounded product of the two mantissas. *)
Definition scaled_index (n mc : Z) : Z :=
  let mn := fst (of_int_parts n) in
  let en := snd (of_int_parts n) in
  Z.min (n - 1) (- ((- rounded_value (mc * mn)) / 2 ^ (53 - en)) - 1).

(** The mantissas of the float64 numbers 50/100, 90/100, 95/100 and
    99/100, all with the exponent -53. *)
Definition fraction_mantissa (p : Z) : Z :=
  if p =? 50 then 4503599627370496
  else if p =? 90 then 8106479329266893
  else if p =? 95 then 8556839292003942
  else 8917127262193582.

(** Where the exact quotient lies between [q] and [q + 1], from the
    remainder [r] of the division by [m]: on [q], below the middle, on it,
    or above it. *)
Definition quotient_location (m r : Z) : location :=
  if r =? 0 then loc_Exact else loc_Inexact (Z.compare (2 * r) m).

(** The number the quotient [a / m] rounds to, in units of the last place
    of [a]. *)
Definition quotient_rounded (a m : Z) : Z :=
  let l := quotient_location m (a mod m) in
  fst (round_normal (a / m) 0 l) * 2 ^ snd (round_normal (a / m) 0 l).

(* ----------------------------------------------------------------- *)
(** ** Fixtures *)

(** A picker over the last 200 blocks with the bound 1000 cached one second
    ago and a refresh interval of five seconds. *)
Definition picker_fixture : blockPicker :=
  mkPicker "last" 0 0 200 5000000000 0 1000 (mkSource (fun k => 12345 + Z.of_nat k) 0).

(** The ten sorted samples of the percentile fixture, in milliseconds. *)
Definition fixture_1_to_10 : list Z := [1; 2; 3; 4; 5; 6; 7; 8; 9; 10].

(** A hundred sorted samples, 1 to 100 ms. *)
Definition fixture_1_to_100 : list Z := map (fun i => i + 1) (iota 100).

(** The selector [main] builds for [-blocks last:2147483648]: the count
    passes the test [n <= 0] as an [int] and is narrowed to [int32]
    afterwards, which gives the window [-2147483648]. *)
Definition picker_narrowed_window : blockPicker :=
  mkPicker "last" 0 0 (wrap_int32 2147483648) 5000000000 0 0
    (mkSource (fun k => 12345 + Z.of_nat k) 0).

(** A selector over the last 200 blocks with nothing cached. *)
Definition picker_no_bound : blockPicker :=
  mkPicker "last" 0 0 200 5000000000 0 0 (mkSource (fun k => 12345 + Z.of_nat k) 0).

(* ----------------------------------------------------------------- *)
(** ** Seeding the random source ([binaryBigEndian], [newLockedRand]) *)

Definition byte_value (c : Byte.byte) : Z := Z.of_N (Byte.to_N c).

(** [binaryBigEndian]: [v = (v << 8) | uint64(c)] for every byte, on a
    64-bit unsigned accumulator. *)
Definition binaryBigEndian (b : list Byte.byte) : Z :=
  fold_left (fun v c => Z.lor (Z.shiftl v 8 mod 2 ^ 64) (byte_value c)) b 0.

(** The number a byte string denotes in base 256, the most significant
    byte first. *)
Definition big_endian_value (b : list Byte.byte) : Z :=
  fold_left (fun v c => 256 * v + byte_value c) b 0.

(** The seed of [newLockedRand]: the eight bytes read from the system's
    generator as an [int64], or the clock when the read fails. *)
Definition newLockedRand_seed (buf : option (list Byte.byte)) (now : Z) : Z :=
  match buf with
  | Some b => wrap_int64 (binaryBigEndian b)
  | None => now
  end.

(* ----------------------------------------------------------------- *)
(** ** Shuffling ([shuffleAccounts]) *)

(** [a[i], a[j] = a[j], a[i]]: both elements are read, then [a[i]] and
    [a[j]] are written, in this order; an index out of range panics. *)
Definition swap {A : Type} (a : list A) (i j : Z) : outcome (list A) :=
  if ((0 <=? i) && (i <? len a) && (0 <=? j) && (j <? len a))%bool then
    match nth_error a (Z.to_nat i), nth_error a (Z.to_nat j) with
    | Some x, Some y =>
        Returns (update_nth (Z.to_nat j) x (update_nth (Z.to_nat i) y a))
    | _, _ => Panics
    end
  else Panics.

(** The loop [for i := ...; i > 0; i--] of [shuffleAccounts], entered with
    the index [i]. *)
Fixpoint shuffle_from {A : Type} (i : nat) (a : list A) (g : Source)
  : outcome (list A * Source) :=
  match i with
  | O => Returns (a, g)
  | S i' =>
      match lockedRand_Intn g (Z.of_nat i + 1) with
      | Panics => Panics
      | Returns (j, g') =>
          match swap a (Z.of_nat i) j with
          | Panics => Panics
          | Returns a' => shuffle_from i' a' g'
          end
      end
  end.

Definition shuffleAccounts {A : Type} (accounts : list A) (rng : Source)
  : outcome (list A * Source) :=
  shuffle_from (Z.to_nat (len accounts - 1)) accounts rng.

(** A generator whose next raw outputs are [draws]. *)
Definition source_of (draws : list Z) : Source :=
  mkSource (fun k => nth k draws 0) 0.

(* ----------------------------------------------------------------- *)
(** ** The list of work items ([blockRange], [buildBlockSeqs],
       [newBlockPicker]) *)

Record blockRange : Type := mkRange {
  range_from : Z;
  range_to : Z;
  range_count : Z;
  range_mode : string
}.

(** The loop [for s := first; s <= last; s++ { seqs = append(seqs, s) }] on
    [int32]; [fuel] bounds the number of iterations, and [None] is a loop
    that has not ended within it. *)
Fixpoint seq_loop (fuel : nat) (s last : Z) : option (list Z) :=
  match fuel with
  | O => None
  | S fuel' =>
      if s <=? last then
        option_map (cons s) (seq_loop fuel' (wrap_int32 (s + 1)) last)
      else Some []
  end.

(** What [buildBlockSeqs] returns: the sequence numbers, or the error of
    the bound lookup. *)
Inductive built : Type :=
| Built (seqs : list Z)
| BuildError.

(** [buildBlockSeqs].  [fetch] is what [GetMasterchainInfo] answers if it
    is called: the last sequence number (a [uint32]) or [None] for an
    error. *)
Definition buildBlockSeqs (fuel : nat) (br : blockRange) (fetch : option Z)
  : option built :=
  if String.eqb (range_mode br) "range" then
    option_map Built (seq_loop fuel (range_from br) (range_to br))
  else
    match fetch with
    | None => Some BuildError
    | Some seqno =>
        let last := wrap_int32 seqno in
        let start0 := wrap_int32 (wrap_int32 (last - range_count br) + 1) in
        let start := if start0 <? 1 then 1 else start0 in
        option_map Built (seq_loop fuel start last)
    end.

(** [newBlockPicker]: no bound is cached yet ([latest] is 0), and
    [lastRefresh] is the zero [time.Time], the first instant of year 1. *)
Definition zero_time : Z := -62135596800000000000.

Definition newBlockPicker (br : blockRange) (refresh : Z) (rng : Source) : blockPicker :=
  mkPicker (range_mode br) (range_from br) (range_to br) (range_count br)
    refresh zero_time 0 rng.

(** The integers from [a] to [b], in ascending order. *)
Definition interval (a b : Z) : list Z :=
  map (fun k => a + Z.of_nat k) (seq 0 (Z.to_nat (b - a + 1))).

(* ----------------------------------------------------------------- *)
(** ** What a run hands back ([jobRun], [countsToFloat64], [runJobs],
       [runTimedJobs]) *)

Record jobRun : Type := mkJobRun {
  jr_result : Result;
  jr_durations : list Z;
  jr_seriesSec : list Z;
  jr_seriesRPS : list float64;
  jr_seriesErr : list float64;
  jr_seriesP50 : list float64;
  jr_seriesP90 : list float64;
  jr_seriesP95 : list float64;
  jr_seriesP99 : list float64;
  jr_seriesStart : Z
}.

(** [Result{Success: ..., Errors: ...}]: every other field has its zero
    value. *)
Definition counted_Result (successes errors : Z) : Result :=
  mkResult EmptyString EmptyString EmptyString 0 0 successes errors 0
    f64_zero f64_zero f64_zero f64_zero f64_zero f64_zero f64_zero
    [] [] [] [] [] [] [] 0.

Definition countsToFloat64 (counts : list Z) : list float64 :=
  if len counts =? 0 then [] else map f64_of_int counts.

(** The value [runJobs] returns from the final state of its goroutines. *)
Definition runJobs_result (s : jobsState) : jobRun :=
  mkJobRun (counted_Result (j_successes s) (j_errors s)) (j_durations s)
    [] [] [] [] [] [] [] 0.

(** [runJobs total conc fn] returns [jr]. *)
Inductive runJobs (total conc : Z) : jobRun -> Prop :=
| runJobs_done : forall s,
    runJobs_returns total conc s -> runJobs total conc (runJobs_result s).

(** The value [runTimedJobs] returns from the final state of its workers;
    [startMs] is [start.UTC().UnixMilli()]. *)
Definition runTimedJobs_result (buckets startMs : Z) (s : timedState) : jobRun :=
  let ps := percentileSeries (t_perSec s) in
  mkJobRun (counted_Result (t_successes s) (t_errors s)) (t_durations s)
    (map (fun i => i + 1) (iota buckets))
    (countsToFloat64 (t_okCounts s)) (countsToFloat64 (t_errCounts s))
    (fst (fst (fst ps))) (snd (fst (fst ps))) (snd (fst ps)) (snd ps)
    startMs.

(** [runTimedJobs itemCount conc duration fn] returns [jr]: at once, with
    one error, when there is no item. *)
Inductive runTimedJobs (itemCount conc duration : Z) : jobRun -> Prop :=
| runTimedJobs_no_item :
    itemCount <= 0 ->
    runTimedJobs itemCount conc duration
      (mkJobRun (counted_Result 0 1) [] [] [] [] [] [] [] [] 0)
| runTimedJobs_done : forall s startMs,
    runTimedJobs_returns itemCount conc duration s ->
    runTimedJobs itemCount conc duration
      (runTimedJobs_result (timed_buckets duration) startMs s).

(* ----------------------------------------------------------------- *)
(** ** The scenarios ([runBlockTest], [runAccountTest]) *)

(** What both scenarios do with the value of the runner: [mode] and
    [conc] are filled in, the total is the number of outcomes in TimeBoxed
    mode and the number of items otherwise, the series are copied in
    TimeBoxed mode, [elapsed] is [time.Since(start)], and [applyMetrics]
    computes the statistics. *)
Definition scenario_Result (mode : string) (items conc duration elapsed : Z)
    (jr : jobRun) : outcome Result :=
  let res := jr_result jr in
  applyMetrics
    (if 0 <? duration then
       mkResult (Config res) (Targets res) mode conc
         (wrap_int64 (Success res + Errors res)) (Success res) (Errors res) elapsed
         (RPS res) (AvgMs res) (P50Ms res) (P90Ms res) (P95Ms res) (P99Ms res)
         (MaxMs res)
         (jr_seriesSec jr) (jr_seriesRPS jr) (jr_seriesErr jr) (jr_seriesP50 jr)
         (jr_seriesP90 jr) (jr_seriesP95 jr) (jr_seriesP99 jr) (jr_seriesStart jr)
     else
       mkResult (Config res) (Targets res) mode conc
         items (Success res) (Errors res) elapsed
         (RPS res) (AvgMs res) (P50Ms res) (P90Ms res) (P95Ms res) (P99Ms res)
         (MaxMs res)
         (SeriesSec res) (SeriesRPS res) (SeriesErr res) (SeriesP50 res)
         (SeriesP90 res) (SeriesP95 res) (SeriesP99 res) (SeriesStart res))
    (jr_durations jr).

(** A scenario over [items] work items: the runner is chosen by
    [duration > 0]. *)
Inductive scenario (mode : string) (items conc duration elapsed : Z)
  : outcome Result -> Prop :=
| scenario_timed : forall jr,
    0 < duration -> runTimedJobs items conc duration jr ->
    scenario mode items conc duration elapsed
      (scenario_Result mode items conc duration elapsed jr)
| scenario_fixed : forall jr,
    duration <= 0 -> runJobs items conc jr ->
    scenario mode items conc duration elapsed
      (scenario_Result mode items conc duration elapsed jr).

(** [runBlockTest] over [len(seqs)] sequence numbers and [runAccountTest]
    over [len(accounts)] accounts. *)
Definition runBlockTest : Z -> Z -> Z -> Z -> outcome Result -> Prop :=
  scenario "blocks".

Definition runAccountTest : Z -> Z -> Z -> Z -> outcome Result -> Prop :=
  scenario "accounts".

(** The outcomes a worker holds carry a latency that was measured. *)
Definition measured (w : timedWorker) : Prop :=
  match w with
  | Bucketing _ d _ => 0 <= d
  | Totalling _ d => 0 <= d
  | _ => True
  end.

(** What holds of the run totals throughout a run of [runTimedJobs]. *)
Record timed_totals (buckets : Z) (s : timedState) : Prop := mkTimedTotals {
  tt_perSec : len (t_perSec s) = buckets;
  tt_len : len (t_durations s) = t_successes s + t_errors s;
  tt_failed : count_failed (t_durations s) = t_errors s;
  tt_successes : 0 <= t_successes s;
  tt_measured : Forall measured (t_workers s)
}.

(* ----------------------------------------------------------------- *)
(** ** Escaping ([htmlEsc]) *)

Local Open Scope string_scope.

Definition quote_char : ascii := "034"%char.

(** What the replacer of [htmlEsc] writes for one byte. *)
Definition escape_byte (c : ascii) : string :=
  if Ascii.eqb c "&" then "&amp;"
  else if Ascii.eqb c "<" then "&lt;"
  else if Ascii.eqb c ">" then "&gt;"
  else if Ascii.eqb c quote_char then "&quot;"
  else if Ascii.eqb c "'" then "&#39;"
  else String c EmptyString.

(** [htmlEsc]: every old string of the replacer is a single byte, so the
    replacement goes byte by byte. *)
Fixpoint htmlEsc (s : string) : string :=
  match s with
  | EmptyString => EmptyString
  | String c s' => escape_byte c ++ htmlEsc s'
  end.

(** The bytes with a meaning in markup. *)
Definition is_markup (c : ascii) : bool :=
  (Ascii.eqb c "&" || Ascii.eqb c "<" || Ascii.eqb c ">"
   || Ascii.eqb c quote_char || Ascii.eqb c "'")%bool.

Local Close Scope string_scope.

(* ----------------------------------------------------------------- *)
(** ** Sorting ([sort.Slice], [sort.Strings]) and [uniqueConfigs] *)

(** [sort.Slice(l, less)] for an order [less] that tells any two
    different elements apart: the ascending rearrangement of [l]. *)
Fixpoint insert_by {A : Type} (less : A -> A -> bool) (x : A) (l : list A) : list A :=
  match l with
  | [] => [x]
  | y :: l' => if less y x then y :: insert_by less x l' else x :: l
  end.

Fixpoint sort_by {A : Type} (less : A -> A -> bool) (l : list A) : list A :=
  match l with
  | [] => []
  | x :: l' => insert_by less x (sort_by less l')
  end.

(** The order [less] tells the elements of [l] apart: two of them that
    neither is less than the other are the same element. *)
Definition tells_apart {A : Type} (less : A -> A -> bool) (l : list A) : Prop :=
  forall x y, In x l -> In y l -> less x y = false -> less y x = false -> x = y.

(** [sort.Strings]: byte-wise lexicographic order. *)
Definition sort_Strings : list string -> list string := sort_by String.ltb.

(** The loop of [uniqueConfigs]: the configuration names in the order of
    their first appearance; [seen] is the set of names met so far. *)
Fixpoint first_appearances (seen : list string) (results : list Result) : list string :=
  match results with
  | [] => []
  | r :: rest =>
      if existsb (String.eqb (Config r)) seen then first_appearances seen rest
      else Config r :: first_appearances (Config r :: seen) rest
  end.

Definition uniqueConfigs (results : list Result) : list string :=
  if len results =? 0 then []
  else sort_Strings (first_appearances [] results).

(* ----------------------------------------------------------------- *)
(** ** Reading the command line ([parseIntList], [parseBlockRange]) *)

Local Open Scope string_scope.

(** [strings.Split(s, sep)] for a separator of one byte: the pieces
    between the separators, one more than there are separators. *)
Fixpoint Split (s : string) (sep : ascii) : list string :=
  match s with
  | EmptyString => [EmptyString]
  | String c s' =>
      if Ascii.eqb c sep then EmptyString :: Split s' sep
      else match Split s' sep with
           | [] => [String c EmptyString]
           | x :: xs => String c x :: xs
           end
  end.

Fixpoint drop (n : nat) (s : string) : string :=
  match n, s with
  | S n', String _ s' => drop n' s'
  | _, _ => s
  end.

(** [strings.TrimPrefix]. *)
Definition TrimPrefix (s prefix : string) : string :=
  if HasPrefix s prefix then drop (String.length prefix) s else s.

Definition digit_value (c : ascii) : option Z :=
  let n := nat_of_ascii c in
  if (Nat.leb 48 n && Nat.leb n 57)%bool then Some (Z.of_nat (n - 48)) else None.

Fixpoint digits_value (acc : Z) (s : string) : option Z :=
  match s with
  | EmptyString => Some acc
  | String c s' =>
      match digit_value c with
      | None => None
      | Some d => digits_value (10 * acc + d) s'
      end
  end.

(** [strconv.Atoi]: an optional sign and at least one decimal digit;
    [None] is an error, which a value outside [int] is too. *)
Definition Atoi (s : string) : option Z :=
  match s with
  | EmptyString => None
  | String c s' =>
      let neg := Ascii.eqb c "-" in
      let ds := if (neg || Ascii.eqb c "+")%bool then s' else s in
      match ds with
      | EmptyString => None
      | _ =>
          match digits_value 0 ds with
          | None => None
          | Some n =>
              let v := if neg then - n else n in
              if ((MinInt64 <=? v)%Z && (v <=? MaxInt64)%Z)%bool then Some v else None
          end
      end
  end.

(** The loop of [parseIntList] over the pieces; [None] is the error. *)
Fixpoint parseIntList_loop (parts : list string) (out : list Z) : option (list Z) :=
  match parts with
  | [] => Some out
  | p :: rest =>
      let p := TrimSpace p in
      if String.eqb p "" then parseIntList_loop rest out
      else
        match Atoi p with
        | None => None
        | Some i => if (i <=? 0)%Z then None else parseIntList_loop rest (out ++ [i])
        end
  end.

Definition parseIntList (v : string) : option (list Z) :=
  parseIntList_loop (Split v ",") [].

(** The fields [parseIntList] reads: the pieces between the commas,
    trimmed, the blank ones left out. *)
Definition int_fields (v : string) : list string :=
  filter (fun p => negb (String.eqb p "")) (map TrimSpace (Split v ",")).

(** [parseBlockRange]; [None] is the error. *)
Definition parseBlockRange (spec : string) : option blockRange :=
  let spec := ToLower (TrimSpace spec) in
  if String.eqb spec "" then None
  else if HasPrefix spec "last:" then
    match Atoi (TrimPrefix spec "last:") with
    | None => None
    | Some n =>
        if (n <=? 0)%Z then None else Some (mkRange 0 0 (wrap_int32 n) "last")
    end
  else if HasPrefix spec "range:" then
    match Split (TrimPrefix spec "range:") "-" with
    | [a; b] =>
        match Atoi (TrimSpace a), Atoi (TrimSpace b) with
        | Some from, Some to =>
            if ((from <=? 0)%Z || (to <=? 0)%Z || (from >? to)%Z)%bool then None
            else Some (mkRange (wrap_int32 from) (wrap_int32 to) 0 "range")
        | _, _ => None
        end
    | _ => None
    end
  else None.

Local Close Scope string_scope.

(* ----------------------------------------------------------------- *)
(** ** The environment file ([loadDotEnv]) *)

Local Open Scope string_scope.

(** The environment of the process: [os.LookupEnv]. *)
Definition Env : Type := string -> option string.

Definition has_byte (c : ascii) (s : string) : bool :=
  existsb (Ascii.eqb c) (list_ascii_of_string s).

(** [os.Setenv], its error ignored as [loadDotEnv] ignores it: an empty
    key, a key with [=] or a zero byte, and a value with a zero byte are
    refused. *)
Definition Setenv (env : Env) (key val : string) : Env :=
  if (String.eqb key "" || has_byte "=" key || has_byte zero key
      || has_byte zero val)%bool
  then env
  else fun k => if String.eqb k key then Some val else env k.

(** The two pieces of [strings.SplitN(s, sep, 2)] for a separator of one
    byte, when [sep] occurs in [s]. *)
Fixpoint cut (s : string) (sep : ascii) : option (string * string) :=
  match s with
  | EmptyString => None
  | String c s' =>
      if Ascii.eqb c sep then Some (EmptyString, s')
      else match cut s' sep with
           | Some (a, b) => Some (String c a, b)
           | None => None
           end
  end.

(** [strings.HasSuffix] and [strings.TrimSuffix]. *)
Definition HasSuffix (s suffix : string) : bool :=
  (Nat.leb (String.length suffix) (String.length s)
   && String.eqb (drop (String.length s - String.length suffix) s) suffix)%bool.

Definition TrimSuffix (s suffix : string) : string :=
  if HasSuffix s suffix
  then String.substring 0 (String.length s - String.length suffix) s
  else s.

(** [val[:1]] of a text that is not empty. *)
Definition first_byte (s : string) : string := String.substring 0 1 s.

Definition quote : string := String quote_char EmptyString.

(** The value of an assignment: a pair of surrounding double quotes or
    apostrophes is taken off. *)
Definition unquote (val : string) : string :=
  if ((HasPrefix val quote && HasSuffix val quote)
      || (HasPrefix val "'" && HasSuffix val "'"))%bool
  then TrimSuffix (TrimPrefix val (first_byte val)) (first_byte val)
  else val.

(** The body of the loop of [loadDotEnv] for one line of the file. *)
Definition loadDotEnv_line (env : Env) (text : string) : Env :=
  let line := TrimSpace text in
  if (String.eqb line "" || HasPrefix line "#")%bool then env
  else
    let line :=
      if HasPrefix line "export " then TrimSpace (TrimPrefix line "export ")
      else line in
    match cut line "=" with
    | None => env
    | Some (k, v) =>
        let key := TrimSpace k in
        let val := TrimSpace v in
        if String.eqb key "" then env
        else
          let val := unquote val in
          match env key with
          | Some _ => env
          | None => Setenv env key val
          end
    end.

(** [loadDotEnv].  [file] is what opening and scanning [path] gives: the
    lines, or [None] when the file cannot be opened. *)
Definition loadDotEnv (path : string) (file : option (list string)) (env : Env) : Env :=
  if String.eqb path "" then env
  else match file with
       | None => env
       | Some lines => fold_left loadDotEnv_line lines env
       end.

Local Close Scope string_scope.

(* ----------------------------------------------------------------- *)
(** ** The request log ([logEntry]) and the series read back from it
       ([buildMethodSeriesFromLog], [buildErrorSeriesFromLog]) *)

Module logEntry.
Record t : Type := mk {
  Ts : string;
  Config : string;
  Targets : string;
  Mode : string;
  Concurrency : Z;
  Request : string;
  RespBytes : Z;
  OK : bool;
  LatencyMs : Z;
  Error : string
}.
End logEntry.

Module methodKey.
Record t : Type := mk {
  Config : string;
  Mode : string;
  Concurrency : Z;
  Method : string
}.
Definition eqb (a b : t) : bool :=
  (String.eqb (Config a) (Config b) && String.eqb (Mode a) (Mode b)
   && (Concurrency a =? Concurrency b) && String.eqb (Method a) (Method b))%bool.
End methodKey.

Module methodSeries.
Record t : Type := mk {
  Sec : list Z;
  P50 : list float64;
  P90 : list float64;
  P95 : list float64;
  P99 : list float64;
  OK : list float64;
  Err : list float64;
  Total : Z;
  Start : Z
}.
End methodSeries.

Module errorSeriesKey.
Record t : Type := mk {
  Config : string;
  Mode : string;
  Concurrency : Z;
  Code : string
}.
Definition eqb (a b : t) : bool :=
  (String.eqb (Config a) (Config b) && String.eqb (Mode a) (Mode b)
   && (Concurrency a =? Concurrency b) && String.eqb (Code a) (Code b))%bool.
End errorSeriesKey.

Module errorSeries.
Record t : Type := mk {
  Start : Z;
  Sec : list Z;
  Cnt : list float64
}.
End errorSeries.

(** A Go map as the list of its entries, one for a key: [m[k]] and
    [m[k] = v]. *)
Fixpoint assoc_get {K V : Type} (eqb : K -> K -> bool) (k : K) (m : list (K * V))
  : option V :=
  match m with
  | [] => None
  | (k', v) :: m' => if eqb k' k then Some v else assoc_get eqb k m'
  end.

Fixpoint assoc_set {K V : Type} (eqb : K -> K -> bool) (k : K) (v : V)
    (m : list (K * V)) : list (K * V) :=
  match m with
  | [] => [(k, v)]
  | (k', v') :: m' =>
      if eqb k' k then (k, v) :: m' else (k', v') :: assoc_set eqb k v m'
  end.

(** Instants are nanoseconds since the Unix epoch.  [t.Sub(u)] is the
    difference as a [Duration], held at the ends of [int64] when it does
    not fit; [t.UTC().UnixMilli()] is the instant in milliseconds. *)
Definition time_Sub (t u : Z) : Z := Z.max MinInt64 (Z.min MaxInt64 (t - u)).

Definition UnixMilli (t : Z) : Z := wrap_int64 (t / 1000000).

(** [int(t.Sub(u).Seconds())]. *)
Definition seconds_between (t u : Z) : Z :=
  int_of_float64 (duration_Seconds (time_Sub t u)).

(** The first pass keeps the earliest and the latest instant of a key. *)
Definition note_time (t : Z) (b : option (Z * Z)) : Z * Z :=
  match b with
  | Some (lo, hi) => (if t <? lo then t else lo, if hi <? t then t else hi)
  | None => (t, t)
  end.

(** [secs := int(b.max.Sub(b.min).Seconds()) + 1], at least 1. *)
Definition span_seconds (b : Z * Z) : Z :=
  let secs := wrap_int64 (seconds_between (snd b) (fst b) + 1) in
  if secs <? 1 then 1 else secs.

(** The second an entry of the instant [t] is counted in: the seconds
    since [start], held within the [n] seconds of the series. *)
Definition clamp_second (t start n : Z) : Z :=
  let sec := seconds_between t start in
  let sec := if sec <? 0 then 0 else sec in
  if sec >=? n then n - 1 else sec.

Module methodAgg.
Record t : Type := mk {
  start : Z;
  per : list (list Z);
  ok : list Z;
  err : list Z;
  total : Z
}.
End methodAgg.

Module errorAgg.
Record t : Type := mk {
  start : Z;
  cnt : list Z
}.
End errorAgg.

Section RequestLog.

(** [json.Unmarshal] of a line into a [logEntry] and [time.Parse] of a
    time stamp in the layout [RFC3339Nano]; [None] is an error. *)
Variable Unmarshal : string -> option logEntry.t.
Variable time_Parse : string -> option Z.

Definition method_key (e : logEntry.t) : methodKey.t :=
  methodKey.mk (logEntry.Config e) (logEntry.Mode e) (logEntry.Concurrency e)
    (logEntry.Request e).

(** The body of the first loop of [buildMethodSeriesFromLog]. *)
Definition method_bounds_line (bounds : list (methodKey.t * (Z * Z))) (line : string)
  : list (methodKey.t * (Z * Z)) :=
  match Unmarshal line with
  | None => bounds
  | Some e =>
      match time_Parse (logEntry.Ts e) with
      | None => bounds
      | Some t =>
          let key := method_key e in
          assoc_set methodKey.eqb key
            (note_time t (assoc_get methodKey.eqb key bounds)) bounds
      end
  end.

Definition method_agg_of (b : Z * Z) : methodAgg.t :=
  let secs := Z.to_nat (span_seconds b) in
  methodAgg.mk (fst b) (repeat [] secs) (repeat 0 secs) (repeat 0 secs) 0.

(** What the third loop does to the aggregate of the key of an entry. *)
Definition method_count (a : methodAgg.t) (e : logEntry.t) (t : Z) : methodAgg.t :=
  let sec := clamp_second t (methodAgg.start a) (len (methodAgg.ok a)) in
  if logEntry.OK e then
    methodAgg.mk (methodAgg.start a)
      (push sec (logEntry.LatencyMs e) (methodAgg.per a))
      (bump sec (methodAgg.ok a)) (methodAgg.err a) (methodAgg.total a + 1)
  else
    methodAgg.mk (methodAgg.start a) (methodAgg.per a) (methodAgg.ok a)
      (bump sec (methodAgg.err a)) (methodAgg.total a + 1).

(** The body of the third loop of [buildMethodSeriesFromLog]. *)
Definition method_count_line (aggs : list (methodKey.t * methodAgg.t)) (line : string)
  : list (methodKey.t * methodAgg.t) :=
  match Unmarshal line with
  | None => aggs
  | Some e =>
      match time_Parse (logEntry.Ts e) with
      | None => aggs
      | Some t =>
          let key := method_key e in
          match assoc_get methodKey.eqb key aggs with
          | None => aggs
          | Some a => assoc_set methodKey.eqb key (method_count a e t) aggs
          end
      end
  end.

Definition method_series_of (a : methodAgg.t) : methodSeries.t :=
  let ps := percentileSeries (methodAgg.per a) in
  let n := len (methodAgg.ok a) in
  methodSeries.mk
    (map (fun i => i + 1) (iota n))
    (fst (fst (fst ps))) (snd (fst (fst ps))) (snd (fst ps)) (snd ps)
    (map (fun i => f64_of_int (nth (Z.to_nat i) (methodAgg.ok a) 0)) (iota n))
    (map (fun i => f64_of_int (nth (Z.to_nat i) (methodAgg.err a) 0)) (iota n))
    (methodAgg.total a)
    (UnixMilli (methodAgg.start a)).

Definition map_values {K V W : Type} (f : V -> W) (m : list (K * V)) : list (K * W) :=
  map (fun kv => (fst kv, f (snd kv))) m.

(** [buildMethodSeriesFromLog].  [file] is the lines of the log, or
    [None] when it cannot be opened or scanned; [None] is the error. *)
Definition buildMethodSeriesFromLog (file : option (list string))
  : option (list (methodKey.t * methodSeries.t)) :=
  match file with
  | None => None
  | Some lines =>
      let bounds := fold_left method_bounds_line lines [] in
      let aggs := map_values method_agg_of bounds in
      let aggs := fold_left method_count_line lines aggs in
      Some (map_values method_series_of aggs)
  end.

Definition error_key (e : logEntry.t) : errorSeriesKey.t :=
  errorSeriesKey.mk (logEntry.Config e) (logEntry.Mode e) (logEntry.Concurrency e)
    (classifyError (logEntry.Error e)).

(** The body of the first loop of [buildErrorSeriesFromLog]. *)
Definition error_bounds_line (bounds : list (errorSeriesKey.t * (Z * Z))) (line : string)
  : list (errorSeriesKey.t * (Z * Z)) :=
  match Unmarshal line with
  | None => bounds
  | Some e =>
      if logEntry.OK e then bounds
      else
        match time_Parse (logEntry.Ts e) with
        | None => bounds
        | Some t =>
            let key := error_key e in
            assoc_set errorSeriesKey.eqb key
              (note_time t (assoc_get errorSeriesKey.eqb key bounds)) bounds
        end
  end.

Definition error_agg_of (b : Z * Z) : errorAgg.t :=
  errorAgg.mk (fst b) (repeat 0 (Z.to_nat (span_seconds b))).

Definition error_count (a : errorAgg.t) (t : Z) : errorAgg.t :=
  errorAgg.mk (errorAgg.start a)
    (bump (clamp_second t (errorAgg.start a) (len (errorAgg.cnt a))) (errorAgg.cnt a)).

(** The body of the third loop of [buildErrorSeriesFromLog]. *)
Definition error_count_line (aggs : list (errorSeriesKey.t * errorAgg.t)) (line : string)
  : list (errorSeriesKey.t * errorAgg.t) :=
  match Unmarshal line with
  | None => aggs
  | Some e =>
      if logEntry.OK e then aggs
      else
        match time_Parse (logEntry.Ts e) with
        | None => aggs
        | Some t =>
            let key := error_key e in
            match assoc_get errorSeriesKey.eqb key aggs with
            | None => aggs
            | Some a => assoc_set errorSeriesKey.eqb key (error_count a t) aggs
            end
        end
  end.

Definition error_series_of (a : errorAgg.t) : errorSeries.t :=
  let n := len (errorAgg.cnt a) in
  errorSeries.mk (UnixMilli (errorAgg.start a))
    (map (fun i => i + 1) (iota n))
    (map (fun i => f64_of_int (nth (Z.to_nat i) (errorAgg.cnt a) 0)) (iota n)).

(** [buildErrorSeriesFromLog]. *)
Definition buildErrorSeriesFromLog (file : option (list string))
  : option (list (errorSeriesKey.t * errorSeries.t)) :=
  match file with
  | None => None
  | Some lines =>
      let bounds := fold_left error_bounds_line lines [] in
      let aggs := map_values error_agg_of bounds in
      let aggs := fold_left error_count_line lines aggs in
      Some (map_values error_series_of aggs)
  end.

(** The entries of the log that can be read, with their instants, in the
    order of the lines. *)
Definition read_line (line : string) : list (logEntry.t * Z) :=
  match Unmarshal line with
  | None => []
  | Some e =>
      match time_Parse (logEntry.Ts e) with
      | None => []
      | Some t => [(e, t)]
      end
  end.

Definition read_log (lines : list string) : list (logEntry.t * Z) :=
  flat_map read_line lines.

(** The readable entries of a method, and the readable failures of an
    error class. *)
Definition calls_of (k : methodKey.t) (lines : list string) : list (logEntry.t * Z) :=
  filter (fun et => methodKey.eqb (method_key (fst et)) k) (read_log lines).

Definition failures_of (k : errorSeriesKey.t) (lines : list string)
  : list (logEntry.t * Z) :=
  filter (fun et => (negb (logEntry.OK (fst et))
                     && errorSeriesKey.eqb (error_key (fst et)) k)%bool)
    (read_log lines).

End RequestLog.

Definition method_count_entry (a : methodAgg.t) (et : logEntry.t * Z) : methodAgg.t :=
  method_count a (fst et) (snd et).

(** The earliest and the latest of the instants [ts], after [b]. *)
Definition span (ts : list Z) (b : option (Z * Z)) : option (Z * Z) :=
  fold_left (fun b t => Some (note_time t b)) ts b.

(** An aggregate as the second loop makes it, and as the third loop keeps
    it: one counter of each kind for every second, at least one second, no
    counter negative. *)
Definition method_agg_ok (a : methodAgg.t) : Prop :=
  1 <= len (methodAgg.ok a)
  /\ len (methodAgg.err a) = len (methodAgg.ok a)
  /\ len (methodAgg.per a) = len (methodAgg.ok a)
  /\ Forall (fun v => 0 <= v) (methodAgg.ok a)
  /\ Forall (fun v => 0 <= v) (methodAgg.err a).

Definition error_agg_ok (a : errorAgg.t) : Prop :=
  1 <= len (errorAgg.cnt a) /\ Forall (fun v => 0 <= v) (errorAgg.cnt a).

(** A log of three lines: two calls of one method a second and a half
    apart, the second one failed, and between them a line that is not an
    entry. *)
Definition log_fixture_Unmarshal (line : string) : option logEntry.t :=
  if String.eqb line "first" then
    Some (logEntry.mk "t0" "cfg" "" "blocks" 5 "GetBlockRaw" 120 true 40 "")
  else if String.eqb line "second" then
    Some (logEntry.mk "t1" "cfg" "" "blocks" 5 "GetBlockRaw" 0 false 10000
            "context deadline exceeded")
  else None.

Definition log_fixture_Parse (ts : string) : option Z :=
  if String.eqb ts "t0" then Some 1700000000000000000
  else if String.eqb ts "t1" then Some 1700000001500000000
  else None.

Definition log_fixture : list string := ["first"; "not json"; "second"]%string.

(* ----------------------------------------------------------------- *)
(** ** Downsampling the series of the log ([downsampleMethodSeries],
       [downsampleErrorSeries]) and the rows of the method table *)

(** What the loop of [downsampleMethodSeries] stores for one series. *)
Definition downsampleMethod (maxPoints : Z) (v : methodSeries.t) : methodSeries.t :=
  if ((len (methodSeries.Sec v) =? 0) || (len (methodSeries.Sec v) <=? maxPoints))%bool
  then v
  else
    let idxs := sampleIndices (len (methodSeries.Sec v)) maxPoints in
    methodSeries.mk
      (sampleInts (methodSeries.Sec v) idxs)
      (sampleFloats (methodSeries.P50 v) idxs)
      (sampleFloats (methodSeries.P90 v) idxs)
      (sampleFloats (methodSeries.P95 v) idxs)
      (sampleFloats (methodSeries.P99 v) idxs)
      (sampleFloats (methodSeries.OK v) idxs)
      (sampleFloats (methodSeries.Err v) idxs)
      (methodSeries.Total v) (methodSeries.Start v).

Definition downsampleMethodSeries (methods : list (methodKey.t * methodSeries.t))
    (maxPoints : Z) : list (methodKey.t * methodSeries.t) :=
  if ((maxPoints <=? 0) || (len methods =? 0))%bool then methods
  else map_values (downsampleMethod maxPoints) methods.

(** What the loop of [downsampleErrorSeries] stores for one series. *)
Definition downsampleError (maxPoints : Z) (v : errorSeries.t) : errorSeries.t :=
  if ((len (errorSeries.Sec v) =? 0) || (len (errorSeries.Sec v) <=? maxPoints))%bool
  then v
  else
    let idxs := sampleIndices (len (errorSeries.Sec v)) maxPoints in
    errorSeries.mk (errorSeries.Start v)
      (sampleInts (errorSeries.Sec v) idxs)
      (sampleFloats (errorSeries.Cnt v) idxs).

Definition downsampleErrorSeries (errors : list (errorSeriesKey.t * errorSeries.t))
    (maxPoints : Z) : list (errorSeriesKey.t * errorSeries.t) :=
  if ((maxPoints <=? 0) || (len errors =? 0))%bool then errors
  else map_values (downsampleError maxPoints) errors.

(** The sums [okSum += int(n)] and [errSum += int(n)] of
    [buildMethodSummaryTable]. *)
Definition sum_ints (l : list float64) : Z :=
  fold_left (fun s n => wrap_int64 (s + int_of_float64 n)) l 0.

Module methodRow.
Record t : Type := mk {
  Mode : string;
  Conc : Z;
  Method : string;
  Total : Z;
  OK : Z;
  Err : Z;
  RPS : float64
}.
End methodRow.

(** The row [buildMethodSummaryTable] computes for one series. *)
Definition method_row (k : methodKey.t) (v : methodSeries.t) : methodRow.t :=
  let okSum := sum_ints (methodSeries.OK v) in
  let errSum := sum_ints (methodSeries.Err v) in
  let total := wrap_int64 (okSum + errSum) in
  let total := if 0 <? methodSeries.Total v then methodSeries.Total v else total in
  let secs := len (methodSeries.OK v) in
  let secs := if secs =? 0 then len (methodSeries.Sec v) else secs in
  let secs := if secs =? 0 then 1 else secs in
  methodRow.mk (methodKey.Mode k) (methodKey.Concurrency k) (methodKey.Method k)
    total okSum errSum (f64_div (f64_of_int total) (f64_of_int secs)).

(** A series whose seven sequences have one value for every second. *)
Definition method_aligned (v : methodSeries.t) : Prop :=
  len (methodSeries.P50 v) = len (methodSeries.Sec v)
  /\ len (methodSeries.P90 v) = len (methodSeries.Sec v)
  /\ len (methodSeries.P95 v) = len (methodSeries.Sec v)
  /\ len (methodSeries.P99 v) = len (methodSeries.Sec v)
  /\ len (methodSeries.OK v) = len (methodSeries.Sec v)
  /\ len (methodSeries.Err v) = len (methodSeries.Sec v).

(** The method series [writeHTMLReport] works with: a negative budget
    counts as none, and the series are downsampled before the summary
    tables and the charts are built from them. *)
Definition report_methods (methods : list (methodKey.t * methodSeries.t))
    (maxPoints : Z) : list (methodKey.t * methodSeries.t) :=
  downsampleMethodSeries methods (if maxPoints <? 0 then 0 else maxPoints).

(** A method called once in each of three seconds, as a series. *)
Definition three_second_series : methodSeries.t :=
  methodSeries.mk [1; 2; 3]
    [f64_of_int 40; f64_of_int 40; f64_of_int 40]
    [f64_of_int 40; f64_of_int 40; f64_of_int 40]
    [f64_of_int 40; f64_of_int 40; f64_of_int 40]
    [f64_of_int 40; f64_of_int 40; f64_of_int 40]
    [f64_of_int 1; f64_of_int 1; f64_of_int 1]
    [f64_of_int 0; f64_of_int 0; f64_of_int 0]
    3 0.

Definition three_second_key : methodKey.t :=
  methodKey.mk "cfg" "blocks" 5 "GetBlockRaw".

(* ----------------------------------------------------------------- *)
(** ** The series as the report lists them ([flattenMethodSeries],
       [flattenErrorSeries]) *)

Module methodSeriesEntry.
Record t : Type := mk {
  Config : string;
  Mode : string;
  Concurrency : Z;
  Method : string;
  Sec : list Z;
  P50 : list float64;
  P90 : list float64;
  P95 : list float64;
  P99 : list float64;
  OK : list float64;
  Err : list float64;
  Total : Z;
  StartMs : Z
}.
End methodSeriesEntry.

Module errorSeriesEntry.
Record t : Type := mk {
  Config : string;
  Mode : string;
  Concurrency : Z;
  Code : string;
  StartMs : Z;
  Sec : list Z;
  Cnt : list float64
}.
End errorSeriesEntry.

Definition method_entry (kv : methodKey.t * methodSeries.t) : methodSeriesEntry.t :=
  let k := fst kv in
  let v := snd kv in
  methodSeriesEntry.mk (methodKey.Config k) (methodKey.Mode k)
    (methodKey.Concurrency k) (methodKey.Method k)
    (methodSeries.Sec v) (methodSeries.P50 v) (methodSeries.P90 v)
    (methodSeries.P95 v) (methodSeries.P99 v) (methodSeries.OK v)
    (methodSeries.Err v) (methodSeries.Total v) (methodSeries.Start v).

(** The order of [flattenMethodSeries]: by mode, then configuration, then
    concurrency, then method. *)
Definition method_entry_less (a b : methodSeriesEntry.t) : bool :=
  if negb (String.eqb (methodSeriesEntry.Mode a) (methodSeriesEntry.Mode b)) then
    String.ltb (methodSeriesEntry.Mode a) (methodSeriesEntry.Mode b)
  else if negb (String.eqb (methodSeriesEntry.Config a) (methodSeriesEntry.Config b)) then
    String.ltb (methodSeriesEntry.Config a) (methodSeriesEntry.Config b)
  else if negb (methodSeriesEntry.Concurrency a =? methodSeriesEntry.Concurrency b) then
    methodSeriesEntry.Concurrency a <? methodSeriesEntry.Concurrency b
  else String.ltb (methodSeriesEntry.Method a) (methodSeriesEntry.Method b).

Definition flattenMethodSeries (methods : list (methodKey.t * methodSeries.t))
  : list methodSeriesEntry.t :=
  if len methods =? 0 then []
  else sort_by method_entry_less (map method_entry methods).

Definition error_entry (kv : errorSeriesKey.t * errorSeries.t) : errorSeriesEntry.t :=
  let k := fst kv in
  let v := snd kv in
  errorSeriesEntry.mk (errorSeriesKey.Config k) (errorSeriesKey.Mode k)
    (errorSeriesKey.Concurrency k) (errorSeriesKey.Code k)
    (errorSeries.Start v) (errorSeries.Sec v) (errorSeries.Cnt v).

(** The order of [flattenErrorSeries]: by mode, then configuration, then
    concurrency, then code. *)
Definition error_entry_less (a b : errorSeriesEntry.t) : bool :=
  if negb (String.eqb (errorSeriesEntry.Mode a) (errorSeriesEntry.Mode b)) then
    String.ltb (errorSeriesEntry.Mode a) (errorSeriesEntry.Mode b)
  else if negb (String.eqb (errorSeriesEntry.Config a) (errorSeriesEntry.Config b)) then
    String.ltb (errorSeriesEntry.Config a) (errorSeriesEntry.Config b)
  else if negb (errorSeriesEntry.Concurrency a =? errorSeriesEntry.Concurrency b) then
    errorSeriesEntry.Concurrency a <? errorSeriesEntry.Concurrency b
  else String.ltb (errorSeriesEntry.Code a) (errorSeriesEntry.Code b).

Definition flattenErrorSeries (errors : list (errorSeriesKey.t * errorSeries.t))
  : list errorSeriesEntry.t :=
  if len errors =? 0 then []
  else sort_by error_entry_less (map error_entry errors).

(** The four fields both orders compare, and the order on them. *)
Definition sort_key : Type := string * string * Z * string.

Definition sort_key_less (a b : sort_key) : bool :=
  let '(m1, c1, n1, x1) := a in
  let '(m2, c2, n2, x2) := b in
  if negb (String.eqb m1 m2) then String.ltb m1 m2
  else if negb (String.eqb c1 c2) then String.ltb c1 c2
  else if negb (n1 =? n2) then n1 <? n2
  else String.ltb x1 x2.

Definition method_sort_key (e : methodSeriesEntry.t) : sort_key :=
  (methodSeriesEntry.Mode e, methodSeriesEntry.Config e,
   methodSeriesEntry.Concurrency e, methodSeriesEntry.Method e).

Definition error_sort_key (e : errorSeriesEntry.t) : sort_key :=
  (errorSeriesEntry.Mode e, errorSeriesEntry.Config e,
   errorSeriesEntry.Concurrency e, errorSeriesEntry.Code e).

(* ----------------------------------------------------------------- *)
(** ** The error table of the log ([buildErrorSummaryFromLog]) *)

Module errorKey.
Record t : Type := mk {
  Config : string;
  Mode : string;
  Concurrency : Z;
  Request : string;
  Code : string;
  Error : string
}.
Definition eqb (a b : t) : bool :=
  (String.eqb (Config a) (Config b) && String.eqb (Mode a) (Mode b)
   && (Concurrency a =? Concurrency b) && String.eqb (Request a) (Request b)
   && String.eqb (Code a) (Code b) && String.eqb (Error a) (Error b))%bool.
End errorKey.

Module errorSummaryEntry.
Record t : Type := mk {
  Config : string;
  Mode : string;
  Concurrency : Z;
  Request : string;
  Code : string;
  Error : string;
  Count : Z
}.
End errorSummaryEntry.

Definition summary_key (e : logEntry.t) : errorKey.t :=
  errorKey.mk (logEntry.Config e) (logEntry.Mode e) (logEntry.Concurrency e)
    (logEntry.Request e) (classifyError (logEntry.Error e)) (logEntry.Error e).

(** [counts[key]], zero for a key the map does not hold. *)
Definition map_count (counts : list (errorKey.t * Z)) (key : errorKey.t) : Z :=
  match assoc_get errorKey.eqb key counts with
  | Some v => v
  | None => 0
  end.

Definition summary_entry (kv : errorKey.t * Z) : errorSummaryEntry.t :=
  let k := fst kv in
  errorSummaryEntry.mk (errorKey.Config k) (errorKey.Mode k) (errorKey.Concurrency k)
    (errorKey.Request k) (errorKey.Code k) (errorKey.Error k) (snd kv).

Definition entry_key (x : errorSummaryEntry.t) : errorKey.t :=
  errorKey.mk (errorSummaryEntry.Config x) (errorSummaryEntry.Mode x)
    (errorSummaryEntry.Concurrency x) (errorSummaryEntry.Request x)
    (errorSummaryEntry.Code x) (errorSummaryEntry.Error x).

(** The order of the table: the larger count first, then configuration,
    mode, concurrency and request ascending.  Code and error text are not
    compared. *)
Definition summary_less (a b : errorSummaryEntry.t) : bool :=
  if negb (errorSummaryEntry.Count a =? errorSummaryEntry.Count b) then
    errorSummaryEntry.Count b <? errorSummaryEntry.Count a
  else if negb (String.eqb (errorSummaryEntry.Config a) (errorSummaryEntry.Config b)) then
    String.ltb (errorSummaryEntry.Config a) (errorSummaryEntry.Config b)
  else if negb (String.eqb (errorSummaryEntry.Mode a) (errorSummaryEntry.Mode b)) then
    String.ltb (errorSummaryEntry.Mode a) (errorSummaryEntry.Mode b)
  else if negb (errorSummaryEntry.Concurrency a =? errorSummaryEntry.Concurrency b) then
    errorSummaryEntry.Concurrency a <? errorSummaryEntry.Concurrency b
  else String.ltb (errorSummaryEntry.Request a) (errorSummaryEntry.Request b).

Section ErrorSummary.

Variable Unmarshal : string -> option logEntry.t.

(** The body of the scanning loop. *)
Definition summary_count_line (counts : list (errorKey.t * Z)) (line : string)
  : list (errorKey.t * Z) :=
  match Unmarshal line with
  | None => counts
  | Some e =>
      if logEntry.OK e then counts
      else
        let key := summary_key e in
        assoc_set errorKey.eqb key (wrap_int64 (map_count counts key + 1)) counts
  end.

Definition summary_counts (lines : list string) : list (errorKey.t * Z) :=
  fold_left summary_count_line lines [].

(** [buildErrorSummaryFromLog].  The map is walked in an order the
    language leaves open and [sort.Slice] may leave entries that compare
    alike in any order, so the result is any rearrangement of the entries
    of the map in which no entry is less than one before it. *)
Inductive buildErrorSummaryFromLog
  : option (list string) -> option (list errorSummaryEntry.t) -> Prop :=
| buildErrorSummary_error : buildErrorSummaryFromLog None None
| buildErrorSummary_sorted : forall lines out,
    Permutation (map summary_entry (summary_counts lines)) out ->
    StronglySorted (fun a b => summary_less b a = false) out ->
    buildErrorSummaryFromLog (Some lines) (Some out).

(** The failed requests a line of the log holds, and those of the log. *)
Definition failed_line (line : string) : list logEntry.t :=
  match Unmarshal line with
  | None => []
  | Some e => if logEntry.OK e then [] else [e]
  end.

Definition failed_entries (lines : list string) : list logEntry.t :=
  flat_map failed_line lines.

End ErrorSummary.

(** The failed requests that fall into the row [k] of the table. *)
Definition summary_occurrences (k : errorKey.t) (es : list logEntry.t) : Z :=
  len (filter (fun e => errorKey.eqb (summary_key e) k) es).

(** What [summary_less] compares, and the order on it. *)
Definition summary_sort_key (x : errorSummaryEntry.t) : Z * sort_key :=
  (errorSummaryEntry.Count x,
   (errorSummaryEntry.Config x, errorSummaryEntry.Mode x,
    errorSummaryEntry.Concurrency x, errorSummaryEntry.Request x)).

Definition count_key_less (a b : Z * sort_key) : bool :=
  if negb (fst a =? fst b) then fst b <? fst a
  else sort_key_less (snd a) (snd b).

(** What the scanning loop keeps of the map [counts] after the failed
    requests [es]. *)
Definition summary_counts_ok (counts : list (errorKey.t * Z)) (es : list logEntry.t)
  : Prop :=
  NoDup (map fst counts)
  /\ (forall k, map_count counts k = summary_occurrences k es)
  /\ (forall k v, In (k, v) counts -> 1 <= v)
  /\ sumZ (map snd counts) = len es
  /\ (forall k v, In (k, v) counts ->
        errorKey.Code k = classifyError (errorKey.Error k)).

(* ----------------------------------------------------------------- *)
(** ** The configurations of a run ([resolveConfigPaths]) *)

Module configItem.
Record t : Type := mk {
  Path : string;
  Name : string
}.
End configItem.

Local Open Scope string_scope.

(** [strings.Index(s, sep)] for a separator of one byte. *)
Fixpoint Index (s : string) (sep : ascii) : Z :=
  match s with
  | EmptyString => -1
  | String c s' =>
      if Ascii.eqb c sep then 0
      else let i := Index s' sep in
           if (i <? 0)%Z then -1 else (i + 1)%Z
  end.

(** The name and the pattern of one piece of the list: [name=pattern]
    when [=] is not the first byte, else no name and the whole piece. *)
Definition name_and_pattern (p : string) : string * string :=
  let eq := Index p "=" in
  if (0 <? eq)%Z then
    (TrimSpace (String.substring 0 (Z.to_nat eq) p),
     TrimSpace (drop (Z.to_nat (eq + 1)) p))
  else ("", p).

Section ResolveConfigPaths.

(** [filepath.Glob], [None] for a malformed pattern, and
    [filepath.Base]. *)
Variable Glob : string -> option (list string).
Variable Base : string -> string.

(** The loop over the matches of one pattern; [count] is
    [len(matches)]. *)
Fixpoint resolve_matches (name : string) (count : Z) (matches : list string)
    (st : list string * list configItem.t) : list string * list configItem.t :=
  match matches with
  | [] => st
  | m :: rest =>
      if existsb (String.eqb m) (fst st) then resolve_matches name count rest st
      else
        let cfgName :=
          if negb (String.eqb name "") then
            if (count =? 1)%Z then name else name ++ ":" ++ Base m
          else Base m in
        resolve_matches name count rest
          (m :: fst st, (snd st ++ [configItem.mk m cfgName])%list)
  end.

(** The loop over the pieces of the list; the state is the set [seen] and
    the slice [out]. *)
Fixpoint resolve_parts (parts : list string) (st : list string * list configItem.t)
  : option (list string * list configItem.t) :=
  match parts with
  | [] => Some st
  | p :: rest =>
      let p := TrimSpace p in
      if String.eqb p "" then resolve_parts rest st
      else
        let np := name_and_pattern p in
        match Glob (snd np) with
        | None => None
        | Some matches =>
            let matches := if (len matches =? 0)%Z then [snd np] else matches in
            resolve_parts rest (resolve_matches (fst np) (len matches) matches st)
        end
  end.

Definition resolveConfigPaths (spec : string) : option (list configItem.t) :=
  option_map snd (resolve_parts (Split spec ",") ([], [])).

(** The patterns a list names, and the paths a pattern stands for: its
    matches, or the pattern itself when nothing matches. *)
Definition patterns_of (parts : list string) : list string :=
  flat_map (fun part =>
              let p := TrimSpace part in
              if String.eqb p "" then [] else [snd (name_and_pattern p)]) parts.

Definition paths_of (pattern : string) : list string :=
  match Glob pattern with
  | None => []
  | Some matches => if (len matches =? 0)%Z then [pattern] else matches
  end.

(** What the loops keep of [seen] and [out]. *)
Definition resolve_ok (st : list string * list configItem.t) : Prop :=
  NoDup (map configItem.Path (snd st))
  /\ forall m, In m (fst st) <-> In m (map configItem.Path (snd st)).

End ResolveConfigPaths.

Local Close Scope string_scope.

(* ================================================================= *)
(** * Part II: properties *)

(* ----------------------------------------------------------------- *)
(** ** Error taxonomy *)

Local Open Scope string_scope.

Lemma HasPrefix_app : forall sub s,
  HasPrefix s sub = true <-> exists rest, s = sub ++ rest.
Proof.
  induction sub as [|c sub IH]; intros s.
  - destruct s; simpl; split; eauto.
  - destruct s as [|c' s]; simpl.
    + split; [discriminate | intros [rest H]; discriminate].
    + rewrite andb_true_iff, IH. split.
      * intros [Hc [rest H]]. apply Ascii.eqb_eq in Hc. subst. eauto.
      * intros [rest H]. inversion H; subst. split; [apply Ascii.eqb_refl | eauto].
Qed.

(** [Contains] decides the occurrence of [sub] somewhere inside [s]. *)
Lemma Contains_occurs : forall s sub,
  Contains s sub = true <-> exists before rest, s = before ++ sub ++ rest.
Proof.
  induction s as [|c s IH]; intros sub; cbn [Contains].
  - destruct (HasPrefix "" sub) eqn:Hp.
    + split; [intros _ | reflexivity].
      apply HasPrefix_app in Hp as [rest H]. exists "", rest. exact H.
    + split; [discriminate|]. intros [before [rest H]].
      destruct before; [|discriminate]. simpl in H.
      assert (HasPrefix "" sub = true) by (apply HasPrefix_app; eauto). congruence.
  - destruct (HasPrefix (String c s) sub) eqn:Hp.
    + split; [intros _ | reflexivity].
      apply HasPrefix_app in Hp as [rest H]. exists "", rest. exact H.
    + rewrite IH. split.
      * intros [before [rest H]]. exists (String c before), rest. simpl. now rewrite H.
      * intros [before [rest H]]. destruct before as [|c' before].
        -- simpl in H.
           assert (HasPrefix (String c s) sub = true) by (apply HasPrefix_app; eauto).
           congruence.
        -- simpl in H. inversion H. eauto.
Qed.

Lemma classifyNormalized_priority : forall v,
  classifyNormalized v = classify_by_priority v.
Proof.
  intros v. unfold classifyNormalized, classify_by_priority, first_match, taxonomy.
  destruct (v =? "")%string; [reflexivity|].
  cbn [find row_matches snd existsb fst option_map].
  rewrite !orb_false_r.
  repeat match goal with
         | |- context [if ?b then _ else _] => destruct b; cbn [option_map fst]; try reflexivity
         end.
Qed.

Lemma classifyNormalized_codes : forall v, In (classifyNormalized v) error_codes.
Proof.
  intros v. unfold classifyNormalized, error_codes.
  repeat match goal with
         | |- context [if ?b then _ else _] => destruct b
         end; simpl; tauto.
Qed.

Lemma classifyNormalized_other : forall v,
  v <> "" ->
  (forall row phrase, In row taxonomy -> In phrase (snd row) -> Contains v phrase = false) ->
  classifyNormalized v = "other".
Proof.
  intros v Hne Hno. rewrite classifyNormalized_priority. unfold classify_by_priority.
  destruct (String.eqb_spec v ""); [contradiction|].
  unfold first_match.
  destruct (find (row_matches v) taxonomy) as [row|] eqn:Hf; [|reflexivity].
  apply find_some in Hf as [Hin Hm]. unfold row_matches in Hm.
  apply existsb_exists in Hm as [phrase [Hp Hc]].
  rewrite (Hno row phrase Hin Hp) in Hc. discriminate.
Qed.

(** C7: [classifyError] normalises the message (trim, lower-case) and gives
    it exactly one code of the taxonomy: [unknown] for the empty text,
    otherwise the first code, in the order timeout, unknown_query,
    conn_reset, broken_pipe, eof, canceled, not_found, one of whose phrases
    occurs in the text, and [other] when none does.  "context deadline
    exceeded" is a timeout, "EOF" is eof, the empty message is unknown. *)
Theorem C7_classifyError_taxonomy :
  (forall s, classifyError s = classify_by_priority (ToLower (TrimSpace s)))
  /\ (forall s, In (classifyError s) error_codes)
  /\ classifyError "context deadline exceeded" = "timeout"
  /\ classifyError "EOF" = "eof"
  /\ classifyError "" = "unknown"
  /\ (forall s,
        ToLower (TrimSpace s) <> "" ->
        (forall row phrase, In row taxonomy -> In phrase (snd row) ->
                            Contains (ToLower (TrimSpace s)) phrase = false) ->
        classifyError s = "other")
  /\ classifyError "some unexpected failure" = "other".
Proof.
  repeat split.
  - intros s. apply classifyNormalized_priority.
  - intros s. apply classifyNormalized_codes.
  - intros s. apply classifyNormalized_other.
Qed.

(** The order of the rows decides between codes whose phrases both occur,
    and surrounding white space and letter case do not matter. *)
Example classifyError_first_match_wins :
  classifyError "  Read TIMEOUT: connection reset by peer; unexpected EOF " = "timeout"
  /\ classifyError "connection reset by peer: EOF" = "conn_reset"
  /\ classifyError "unexpected EOF: block not found" = "eof"
  /\ classifyError "   " = "unknown".
Proof. repeat split. Qed.

Local Close Scope string_scope.

(* ----------------------------------------------------------------- *)
(** ** Machine integers *)

Lemma wrap_int32_id : forall z, in_int32 z -> wrap_int32 z = z.
Proof.
  intros z [Hlo Hhi]. unfold wrap_int32, wrap_bits.
  rewrite Z.mod_small; lia.
Qed.

Lemma wrap_int64_id : forall z, in_int64 z -> wrap_int64 z = z.
Proof.
  intros z [Hlo Hhi]. unfold wrap_int64, wrap_bits.
  rewrite Z.mod_small; lia.
Qed.

Lemma wrap_int32_range : forall z, in_int32 (wrap_int32 z).
Proof.
  intros z. unfold in_int32, wrap_int32, wrap_bits.
  pose proof (Z.mod_pos_bound (z + 2 ^ (32 - 1)) (2 ^ 32) ltac:(lia)). lia.
Qed.

Lemma wrap_int64_range : forall z, in_int64 (wrap_int64 z).
Proof.
  intros z. unfold in_int64, wrap_int64, wrap_bits.
  pose proof (Z.mod_pos_bound (z + 2 ^ (64 - 1)) (2 ^ 64) ltac:(lia)). lia.
Qed.

(* ----------------------------------------------------------------- *)
(** ** The shared random source and the selector *)

Lemma lockedRand_Intn_returns : forall lr n,
  exists v lr', lockedRand_Intn lr n = Returns (v, lr') /\ (0 < n -> 0 <= v < n).
Proof.
  intros lr n. unfold lockedRand_Intn, rand_Intn.
  destruct (n <=? 0) eqn:Hn.
  - exists 0, lr. split; [reflexivity | lia].
  - exists (raw lr (pos lr) mod n), (advance lr). split; [reflexivity|].
    intros Hpos. apply Z.mod_pos_bound. exact Hpos.
Qed.

Lemma draw_from_returns : forall p start span,
  exists r g,
    draw_from p start span
    = Returns (Picked (wrap_int32 (start + wrap_int32 r)), set_rng p g)
    /\ (0 < span -> 0 <= r < span).
Proof.
  intros p start span. unfold draw_from.
  destruct (lockedRand_Intn_returns (rng p) span) as [v [g [Heq Hr]]].
  rewrite Heq. eauto.
Qed.

Lemma pick_never_panics : forall p now fetch, pick p now fetch <> Panics.
Proof.
  intros p now fetch. unfold pick.
  repeat match goal with
         | |- context [match ?x with _ => _ end] =>
             lazymatch x with
             | draw_from _ _ _ => fail
             | _ => destruct x
             end
         | |- draw_from ?q ?a ?b <> _ =>
             destruct (draw_from_returns q a b) as [? [? [-> _]]]
         end; discriminate.
Qed.

(** C10: [lockedRand.Intn] is total.  For [n <= 0] it returns 0 and leaves
    the generator untouched, where the library's [Intn] panics; for [n > 0]
    it returns a value of [[0, n)].  Hence no [pick] panics, whatever the
    window or the range has collapsed to. *)
Theorem C10_lockedRand_Intn_total :
  (forall lr n, n <= 0 -> lockedRand_Intn lr n = Returns (0, lr))
  /\ (forall lr n, n <= 0 -> rand_Intn lr n = Panics)
  /\ (forall lr n, exists v lr',
        lockedRand_Intn lr n = Returns (v, lr') /\ (0 < n -> 0 <= v < n))
  /\ (forall p now fetch, pick p now fetch <> Panics).
Proof.
  repeat split.
  - intros lr n Hn. unfold lockedRand_Intn.
    destruct (Z.leb_spec n 0); [reflexivity | lia].
  - intros lr n Hn. unfold rand_Intn.
    destruct (Z.leb_spec n 0); [reflexivity | lia].
  - intros lr n. apply lockedRand_Intn_returns.
  - apply pick_never_panics.
Qed.

(** The bound a windowed pick selects under: the cached one, or the fetched
    one when the cache is empty or stale. *)
Lemma pick_window_bounds : forall p now fetch seq p',
  mode p <> "range"%string ->
  in_int32 (window p) -> in_int32 (latest p) -> 1 <= window p ->
  pick p now fetch = Returns (Picked seq, p') ->
  1 <= latest p' ->
  window_low (latest p') (window p) <= seq <= latest p'.
Proof.
  intros p now fetch seq p' Hmode Hw Hl Hw1 Hpick Hb.
  unfold pick in Hpick.
  destruct (String.eqb_spec (mode p) "range"); [contradiction|].
  set (stale := ((latest p =? 0)
                 || ((0 <? refresh p) && (refresh p <=? now - lastRefresh p)))%bool) in Hpick.
  assert (Hcore : forall p1,
    window p1 = window p -> in_int32 (latest p1) ->
    (let start0 := wrap_int32 (wrap_int32 (latest p1 - window p1) + 1) in
     let start := if start0 <? 1 then 1 else start0 in
     let span := wrap_int32 (wrap_int32 (latest p1 - start) + 1) in
     if span <=? 1 then Returns (Picked (latest p1), p1)
     else draw_from p1 start span) = Returns (Picked seq, p') ->
    1 <= latest p' ->
    window_low (latest p') (window p) <= seq <= latest p').
  { clear Hpick Hb. intros p1 Hweq Hl1 Hrun Hb. cbv zeta in Hrun.
    rewrite Hweq in Hrun. unfold window_low.
    assert (Hsame : latest p' = latest p1).
    { destruct (_ <=? 1) in Hrun.
      - now inversion Hrun.
      - match type of Hrun with draw_from ?q ?a ?b = _ =>
          destruct (draw_from_returns q a b) as [r [g [Hd _]]] end.
        rewrite Hd in Hrun. now inversion Hrun. }
    rewrite Hsame in *. unfold in_int32 in *.
    rewrite (wrap_int32_id (latest p1 - window p)) in Hrun by (unfold in_int32; lia).
    rewrite (wrap_int32_id (latest p1 - window p + 1)) in Hrun by (unfold in_int32; lia).
    set (start := if latest p1 - window p + 1 <? 1 then 1 else latest p1 - window p + 1) in *.
    assert (Hstart : start = Z.max 1 (latest p1 - window p + 1)).
    { unfold start. destruct (Z.ltb_spec (latest p1 - window p + 1) 1); lia. }
    rewrite (wrap_int32_id (latest p1 - start)) in Hrun by (unfold in_int32; lia).
    rewrite (wrap_int32_id (latest p1 - start + 1)) in Hrun by (unfold in_int32; lia).
    destruct (Z.leb_spec (latest p1 - start + 1) 1).
    - inversion Hrun; subst. lia.
    - destruct (draw_from_returns p1 start (latest p1 - start + 1)) as [r [g [Hd Hr]]].
      rewrite Hd in Hrun. inversion Hrun; subst.
      specialize (Hr ltac:(lia)).
      rewrite (wrap_int32_id r) by (unfold in_int32; lia).
      rewrite wrap_int32_id by (unfold in_int32; lia). lia. }
  destruct stale.
  - destruct fetch as [seqno|]; [|discriminate].
    apply (Hcore (set_latest p (wrap_int32 seqno) now)); auto.
    apply wrap_int32_range.
  - apply (Hcore p); auto.
Qed.

Lemma C8_narrowed_window_counterexample :
  parseBlockRange "last:2147483648" = Some (mkRange 0 0 (-2147483648) "last"%string)
  /\ window picker_narrowed_window = range_count (mkRange 0 0 (-2147483648) "last"%string)
  /\ mode picker_narrowed_window = range_mode (mkRange 0 0 (-2147483648) "last"%string)
  /\ (exists p', pick picker_narrowed_window 1000000000 (Some 1000)
                 = Returns (Picked 346, p') /\ latest p' = 1000)
  /\ window_low 1000 (-2147483648) = 2147484649
  /\ ~ (window_low 1000 (-2147483648) <= 346 <= 1000)
  /\ (exists p', pick picker_no_bound 1000000000 (Some 0)
                 = Returns (Picked 0, p') /\ latest p' = 0)
  /\ ~ (window_low 0 200 <= 0 <= 0).
Proof.
  split; [vm_compute; reflexivity|].
  split; [vm_compute; reflexivity|].
  split; [vm_compute; reflexivity|].
  split; [eexists; split; vm_compute; reflexivity|].
  split; [vm_compute; reflexivity|].
  split; [vm_compute; intros [H _]; apply H; reflexivity|].
  split; [eexists; split; vm_compute; reflexivity|].
  vm_compute. intros [H _]. apply H. reflexivity.
Qed.

(** C8 (as the code has it): a successful pick of the windowed selector
    lies in [[max(1, B-W+1), B]] when the bound [B] it selects under is at
    least 1 and the window [W] is at least 1; with [W = 200] and
    [B = 1000] it lies in [[801, 1000]].  The selector itself tests
    neither: a window that the narrowing to [int32] has made negative
    gives picks over [[1, B]], and a bound of 0 is handed back as the
    pick. *)
Theorem C8_windowed_pick_in_window : forall p now fetch seq p',
  mode p <> "range"%string ->
  in_int32 (window p) -> in_int32 (latest p) -> 1 <= window p ->
  pick p now fetch = Returns (Picked seq, p') ->
  1 <= latest p' ->
  window_low (latest p') (window p) <= seq <= latest p'
  /\ (window p = 200 -> latest p' = 1000 -> 801 <= seq <= 1000).
Proof.
  intros p now fetch seq p' Hmode Hw Hl Hw1 Hpick Hb.
  pose proof (pick_window_bounds p now fetch seq p' Hmode Hw Hl Hw1 Hpick Hb) as H.
  split; [exact H|].
  intros HW HB. rewrite HW, HB in H. unfold window_low in H. lia.
Qed.

Lemma C8_windowed_pick_witness :
  window_low 1000 200 <= 946 <= 1000 /\ (200 = 200 -> 1000 = 1000 -> 801 <= 946 <= 1000).
Proof.
  apply (C8_windowed_pick_in_window picker_fixture 1000000000 None 946
           (set_rng picker_fixture (advance (rng picker_fixture)))).
  - discriminate.
  - unfold in_int32; simpl; lia.
  - unfold in_int32; simpl; lia.
  - simpl; lia.
  - reflexivity.
  - simpl; lia.
Defined.

(* ----------------------------------------------------------------- *)
(** ** Metrics engine: the fixed fixture *)

Lemma C3_fixture_counterexample :
  percentile fixture_1_to_10 (f64_of_int 99) = f64_of_int 10
  /\ percentile_index 10 (f64_of_int 99) = 9
  /\ f64_of_int 10 <> f64_of_int 9.
Proof. repeat split. vm_compute. discriminate. Qed.

(** C3 (as the code has it): on the ten sorted samples 1..10 ms the median
    is the sample at index 4, 5 ms; the 90th percentile is the sample at
    index 8, 9 ms; the 99th percentile is the sample at index
    [ceil(9.9) - 1 = 9], 10 ms, the maximum. *)
Theorem C3_fixture_percentiles :
  percentile_index 10 (f64_of_int 50) = 4
  /\ percentile fixture_1_to_10 (f64_of_int 50) = f64_of_int 5
  /\ percentile_index 10 (f64_of_int 90) = 8
  /\ percentile fixture_1_to_10 (f64_of_int 90) = f64_of_int 9
  /\ percentile_index 10 (f64_of_int 99) = 9
  /\ percentile fixture_1_to_10 (f64_of_int 99) = f64_of_int 10
  /\ computeMetrics fixture_1_to_10 10
     = Returns (mkMetrics (f64_div (f64_of_int 55) (f64_of_int 10))
                  (f64_of_int 5) (f64_of_int 9) (f64_of_int 10)
                  (f64_of_int 10) (f64_of_int 10)).
Proof. repeat split. Qed.

(* ----------------------------------------------------------------- *)
(** ** Metrics engine: failed samples and empty sample sets *)

Lemma filter_successful_idem : forall l,
  filter successful (filter successful l) = filter successful l.
Proof.
  induction l as [|d l IH]; simpl; [reflexivity|].
  destruct (successful d) eqn:Hd; simpl; [rewrite Hd, IH|]; auto.
Qed.

Lemma filter_successful_failed : forall l,
  Forall (fun d => d < 0) l -> filter successful l = [].
Proof.
  induction 1 as [|d l Hd _ IH]; simpl; [reflexivity|].
  unfold successful. destruct (Z.ltb_spec d 0); [exact IH | lia].
Qed.

Lemma computeMetrics_successful_only : forall durations successCount,
  computeMetrics durations successCount
  = computeMetrics (filter successful durations) successCount.
Proof.
  intros. unfold computeMetrics. now rewrite filter_successful_idem.
Qed.

Lemma computeMetrics_no_success : forall durations successCount,
  0 <= successCount ->
  successCount = 0 \/ filter successful durations = [] ->
  computeMetrics durations successCount = Returns zero_metrics.
Proof.
  intros durations sc Hsc H. unfold computeMetrics.
  destruct (Z.eqb_spec sc 0); [reflexivity|].
  destruct (Z.ltb_spec sc 0); [lia|].
  destruct H as [H|H]; [contradiction|]. now rewrite H.
Qed.

(** C5: [computeMetrics] drops the failed samples (the negative sentinel)
    before it computes anything, and when no successful sample is left, or
    the success count is zero, it returns zero for avg, p50, p90, p95, p99
    and max; so a run without a single success still gets its result, with
    all six statistics at zero. *)
Theorem C5_computeMetrics_failed_and_empty :
  (forall durations successCount,
     computeMetrics durations successCount
     = computeMetrics (filter successful durations) successCount)
  /\ (forall before after successCount,
        computeMetrics (before ++ [-1] ++ after) successCount
        = computeMetrics (before ++ after) successCount)
  /\ (forall durations successCount,
        0 <= successCount ->
        successCount = 0 \/ filter successful durations = [] ->
        computeMetrics durations successCount = Returns zero_metrics)
  /\ (forall durations successCount,
        0 <= successCount -> Forall (fun d => d < 0) durations ->
        computeMetrics durations successCount = Returns zero_metrics)
  /\ (forall r durations,
        Success r = 0 ->
        exists r', applyMetrics r durations = Returns r'
                   /\ statistics r' = zero_metrics
                   /\ Success r' = 0 /\ Errors r' = Errors r /\ Total r' = Total r).
Proof.
  split; [exact computeMetrics_successful_only|].
  split.
  { intros before after sc.
    rewrite (computeMetrics_successful_only (before ++ [-1] ++ after)).
    rewrite (computeMetrics_successful_only (before ++ after)).
    now rewrite !filter_app. }
  split; [exact computeMetrics_no_success|].
  split.
  { intros durations sc Hsc Hall. apply computeMetrics_no_success; [exact Hsc|].
    right. now apply filter_successful_failed. }
  intros r durations Hs. unfold applyMetrics.
  rewrite (computeMetrics_no_success durations (Success r)) by lia.
  eexists. split; [reflexivity|]. cbn. auto.
Qed.

(* ----------------------------------------------------------------- *)
(** ** Lists updated by index *)

Lemma nth_error_update_split {A : Type} : forall (l : list A) n a b,
  nth_error l n = Some a ->
  exists l1 l2, l = l1 ++ a :: l2 /\ update_nth n b l = l1 ++ b :: l2.
Proof.
  induction l as [|x l IH]; destruct n; simpl; intros a b H; try discriminate.
  - inversion H; subst. exists [], l. auto.
  - destruct (IH _ _ b H) as [l1 [l2 [-> ->]]]. exists (x :: l1), l2. auto.
Qed.

Lemma update_nth_length {A : Type} : forall (l : list A) n x,
  List.length (update_nth n x l) = List.length l.
Proof.
  induction l; destruct n; simpl; intros; auto.
Qed.

Lemma nth_update_nth_same {A : Type} : forall (l : list A) n x d,
  (n < List.length l)%nat -> nth n (update_nth n x l) d = x.
Proof.
  induction l; destruct n; simpl; intros; try lia; auto.
  apply IHl. lia.
Qed.

Lemma nth_update_nth_other {A : Type} : forall (l : list A) n m x d,
  n <> m -> nth m (update_nth n x l) d = nth m l d.
Proof.
  induction l; destruct n, m; simpl; intros; try congruence; auto.
Qed.

Lemma len_app {A : Type} : forall (l1 l2 : list A), len (l1 ++ l2) = len l1 + len l2.
Proof. intros. unfold len. rewrite length_app. lia. Qed.

Lemma len_nonneg {A : Type} : forall (l : list A), 0 <= len l.
Proof. intros. unfold len. lia. Qed.

Lemma count_failed_update : forall l n v,
  (n < List.length l)%nat ->
  count_failed (update_nth n v l)
  = count_failed l - (if nth n l 0 <? 0 then 1 else 0) + (if v <? 0 then 1 else 0).
Proof.
  unfold count_failed, len.
  induction l as [|x l IH]; intros n v Hn; simpl in Hn; [lia|].
  destruct n; cbn [update_nth filter nth].
  - destruct (x <? 0), (v <? 0); cbn [List.length]; lia.
  - specialize (IH n v ltac:(lia)).
    destruct (x <? 0); cbn [List.length]; lia.
Qed.

Lemma iota_succ : forall n, 0 <= n -> iota (n + 1) = iota n ++ [n].
Proof.
  intros n Hn. unfold iota.
  replace (Z.to_nat (n + 1)) with (S (Z.to_nat n)) by lia.
  rewrite seq_S, map_app. simpl. now rewrite Z2Nat.id.
Qed.

Lemma iota_In : forall n i, In i (iota n) <-> 0 <= i < n.
Proof.
  intros n i. unfold iota. rewrite in_map_iff. split.
  - intros [k [<- Hk]]. apply in_seq in Hk. lia.
  - intros Hi. exists (Z.to_nat i). split; [lia|]. apply in_seq. lia.
Qed.

Lemma iota_NoDup : forall n, NoDup (iota n).
Proof.
  intros n. unfold iota. apply Finite.Injective_map_NoDup.
  - intros a b H. lia.
  - apply seq_NoDup.
Qed.

Lemma iota_len : forall n, 0 <= n -> len (iota n) = n.
Proof.
  intros n Hn. unfold len, iota. rewrite length_map, length_seq. lia.
Qed.

(* ----------------------------------------------------------------- *)
(** ** Job runner, FixedCount mode *)

Lemma effective_conc_clamp : forall total conc,
  0 <= total -> effective_conc total conc = Z.max 1 (Z.min conc total).
Proof.
  intros total conc Ht. unfold effective_conc.
  destruct (Z.gtb_spec conc total);
    match goal with |- context [?c <=? 0] => destruct (Z.leb_spec c 0) end; lia.
Qed.

Lemma busy_of_app : forall l1 l2, busy_of (l1 ++ l2) = busy_of l1 ++ busy_of l2.
Proof. intros. unfold busy_of. apply flat_map_app. Qed.

Lemma busy_of_repeat_Idle : forall n, busy_of (repeat Idle n) = [].
Proof. induction n; simpl; auto. Qed.

Lemma busy_of_all_Exited : forall ws,
  Forall (fun w => w = Exited) ws -> busy_of ws = [].
Proof. induction 1; subst; simpl; auto. Qed.

Lemma weights_app : forall l1 l2, weights (l1 ++ l2) = weights l1 + weights l2.
Proof.
  unfold weights. induction l1; intros; cbn [app fold_right]; [reflexivity|].
  rewrite IHl1. lia.
Qed.

Lemma weights_nonneg : forall ws, 0 <= weights ws.
Proof.
  unfold weights. induction ws as [|w ws IH]; cbn [fold_right]; [lia|].
  destruct w; cbn [worker_weight]; lia.
Qed.

Lemma count_failed_repeat_0 : forall n, count_failed (repeat 0 n) = 0.
Proof. induction n; simpl; auto. Qed.

Lemma jobs_inv_init : forall total conc,
  0 <= total ->
  jobs_inv total (effective_conc total conc) (jobs_init total conc).
Proof.
  intros total conc Ht.
  assert (Hc : 1 <= effective_conc total conc)
    by (rewrite effective_conc_clamp by lia; lia).
  constructor; cbn [jobs_init j_next j_closed j_calls j_workers j_jobs
                    j_successes j_errors j_durations].
  - lia.
  - discriminate.
  - rewrite busy_of_repeat_Idle. apply Permutation_refl.
  - reflexivity.
  - unfold len. rewrite repeat_length. lia.
  - intros i Hi _. apply nth_repeat.
  - now rewrite count_failed_repeat_0.
  - unfold len. rewrite repeat_length. lia.
  - intros Hin. apply repeat_spec in Hin. discriminate.
Qed.

Lemma In_update_nth {A : Type} : forall (l : list A) n x y,
  In y (update_nth n x l) -> y = x \/ In y l.
Proof.
  induction l as [|a l IH]; destruct n; simpl; intros x y H; auto.
  - destruct H; auto.
  - destruct H as [H|H]; auto. apply IH in H. tauto.
Qed.

Lemma perm_insert_middle : forall (c b1 b2 js : list Z) idx,
  Permutation (c ++ (b1 ++ idx :: b2) ++ js) (c ++ (b1 ++ b2) ++ idx :: js).
Proof.
  intros. apply Permutation_app_head.
  rewrite <- !app_assoc. apply Permutation_app_head.
  simpl. apply Permutation_middle.
Qed.

Lemma perm_finish : forall (c b1 b2 js : list Z) idx,
  Permutation ((idx :: c) ++ (b1 ++ b2) ++ js) (c ++ (b1 ++ idx :: b2) ++ js).
Proof.
  intros. rewrite <- !app_assoc. simpl.
  etransitivity; [|apply Permutation_app_head; apply Permutation_middle].
  apply Permutation_middle.
Qed.

Lemma NoDup_app_not_left {A : Type} : forall (l1 l2 : list A) x,
  NoDup (l1 ++ l2) -> In x l2 -> ~ In x l1.
Proof.
  induction l1 as [|a l1 IH]; intros l2 x Hnd Hin; [auto|].
  simpl in Hnd. inversion Hnd as [|? ? Hna Hnd']; subst.
  intros [->|Hx].
  - apply Hna. apply in_or_app. now right.
  - exact (IH l2 x Hnd' Hin Hx).
Qed.

Lemma jobs_inv_step : forall total cap s s',
  jobs_inv total cap s -> jobs_step total cap s s' -> jobs_inv total cap s'.
Proof.
  intros total cap s s' Hinv Hstep.
  destruct Hstep as [s Hlt Hroom Hopen | s Hge Hopen | s w idx rest Hw0 Hj
                    | s w idx r Hw0 Hd | s w Hw0 Hj Hcl];
    destruct Hinv as [Hn Hc Hp Hk Hl Hf He Hw Hx].
  - (* send *)
    constructor; cbn [j_next j_closed j_calls j_workers j_jobs
                      j_successes j_errors j_durations]; auto.
    + lia.
    + intros; congruence.
    + rewrite iota_succ by lia. rewrite !app_assoc. apply Permutation_app_tail.
      rewrite <- app_assoc. exact Hp.
    + intros Hin. destruct (Hx Hin). congruence.
  - (* close *)
    constructor; cbn [j_next j_closed j_calls j_workers j_jobs
                      j_successes j_errors j_durations]; auto.
    + intros _. lia.
    + intros Hin. destruct (Hx Hin). congruence.
  - (* receive *)
    destruct (nth_error_update_split _ _ _ (Busy idx) Hw0) as [l1 [l2 [E1 E2]]].
    constructor; cbn [j_next j_closed j_calls j_workers j_jobs
                      j_successes j_errors j_durations]; auto.
    + rewrite E2, busy_of_app. rewrite E1, Hj, busy_of_app in Hp.
      cbn [busy_of flat_map app] in *.
      etransitivity; [apply perm_insert_middle | exact Hp].
    + unfold len in *. now rewrite update_nth_length.
    + intros Hin. apply In_update_nth in Hin as [Hin|Hin]; [discriminate|].
      destruct (Hx Hin). congruence.
  - (* fn returns *)
    destruct (nth_error_update_split _ _ _ Idle Hw0) as [l1 [l2 [E1 E2]]].
    rewrite E1, busy_of_app in Hp. cbn [busy_of flat_map app] in Hp.
    assert (Hnd : NoDup (j_calls s ++ (busy_of l1 ++ idx :: busy_of l2) ++ j_jobs s)).
    { apply (Permutation_NoDup (Permutation_sym Hp)). apply iota_NoDup. }
    assert (Hidx : 0 <= idx < j_next s).
    { apply iota_In. apply (Permutation_in _ Hp).
      apply in_or_app; right. apply in_or_app; left.
      apply in_or_app; right. now left. }
    assert (Hnew : ~ In idx (j_calls s)).
    { apply (NoDup_app_not_left _ _ _ Hnd).
      apply in_or_app; left. apply in_or_app; right. now left. }
    assert (Hzero : nth (Z.to_nat idx) (j_durations s) 0 = 0) by (apply Hf; [lia | exact Hnew]).
    assert (Hin_range : (Z.to_nat idx < List.length (j_durations s))%nat)
      by (unfold len in Hl; lia).
    assert (Hinv' : forall v, (forall d, r = Succeeded d -> v = d /\ 0 <= d) ->
                              (r = Failed -> v = -1) ->
      jobs_inv total cap
        (mkJobs (j_next s) (j_jobs s) (j_closed s) (update_nth w Idle (j_workers s))
           (update_nth (Z.to_nat idx) v (j_durations s))
           (if v <? 0 then j_successes s else j_successes s + 1)
           (if v <? 0 then j_errors s + 1 else j_errors s)
           (idx :: j_calls s))).
    { intros v Hv1 Hv2.
      constructor; cbn [j_next j_closed j_calls j_workers j_jobs
                        j_successes j_errors j_durations]; auto.
      - rewrite E2, busy_of_app. cbn [busy_of flat_map app].
        etransitivity; [apply perm_finish | exact Hp].
      - unfold len in *. cbn [List.length]. destruct (v <? 0); lia.
      - unfold len in *. now rewrite update_nth_length.
      - intros i Hi Hni. rewrite nth_update_nth_other.
        + apply Hf; [exact Hi|]. intros Hc'. apply Hni. now right.
        + intros Heq. apply Hni. left. lia.
      - rewrite count_failed_update by exact Hin_range. rewrite Hzero.
        change (0 <? 0) with false. cbv iota. destruct (v <? 0); lia.
      - unfold len in *. now rewrite update_nth_length.
      - intros Hin. apply In_update_nth in Hin as [Hin|Hin]; [discriminate|].
        apply Hx. exact Hin. }
    destruct r as [|d]; unfold record_job.
    + apply (Hinv' (-1)); [discriminate | reflexivity].
    + specialize (Hd d eq_refl).
      specialize (Hinv' d).
      destruct (Z.ltb_spec d 0); [lia|].
      apply Hinv'; [|discriminate]. intros d' Hd'. inversion Hd'; subst. auto.
  - (* exit *)
    destruct (nth_error_update_split _ _ _ Exited Hw0) as [l1 [l2 [E1 E2]]].
    constructor; cbn [j_next j_closed j_calls j_workers j_jobs
                      j_successes j_errors j_durations]; auto.
    + rewrite E2, busy_of_app. rewrite E1, busy_of_app in Hp.
      cbn [busy_of flat_map app] in *. exact Hp.
    + unfold len in *. now rewrite update_nth_length.
Qed.

Lemma jobs_inv_steps : forall total cap s s',
  jobs_inv total cap s -> jobs_steps total cap s s' -> jobs_inv total cap s'.
Proof.
  intros total cap s s' Hinv Hsteps.
  induction Hsteps as [|s1 s2 s3 H12 IH H23]; [exact Hinv|].
  exact (jobs_inv_step _ _ _ _ (IH Hinv) H23).
Qed.

Lemma jobs_steps_trans : forall total cap s1 s2 s3,
  jobs_steps total cap s1 s2 -> jobs_steps total cap s2 s3 -> jobs_steps total cap s1 s3.
Proof.
  intros total cap s1 s2 s3 H12 H23.
  induction H23 as [|s2 s3 s4 H23 IH H34]; [exact H12|].
  exact (steps_more _ _ _ _ _ (IH H12) H34).
Qed.

Lemma jobs_done_facts : forall total cap s,
  1 <= cap -> jobs_inv total cap s -> jobs_done s ->
  Permutation (j_calls s) (iota total)
  /\ len (j_durations s) = total
  /\ j_successes s + j_errors s = total
  /\ j_errors s = count_failed (j_durations s)
  /\ len (j_workers s) = cap.
Proof.
  intros total cap s Hcap [Hn Hc Hp Hk Hl Hf He Hw Hx] Hdone.
  unfold jobs_done in Hdone.
  assert (Hex : In Exited (j_workers s)).
  { destruct (j_workers s) as [|w ws]; [unfold len in Hw; simpl in Hw; lia|].
    inversion Hdone; subst. now left. }
  destruct (Hx Hex) as [Hcl Hj]. specialize (Hc Hcl).
  rewrite (busy_of_all_Exited _ Hdone), Hj, Hc in Hp. simpl in Hp.
  rewrite app_nil_r in Hp.
  repeat split; auto.
  rewrite Hk. unfold len. rewrite (Permutation_length Hp).
  apply iota_len. lia.
Qed.

Lemma worker_eq_Exited_dec : forall w : worker, {w = Exited} + {w <> Exited}.
Proof. destruct w; (now left) || (right; discriminate). Qed.

Lemma jobs_progress : forall total cap s,
  1 <= cap -> jobs_inv total cap s ->
  jobs_done s \/ exists s', jobs_step total cap s s'.
Proof.
  intros total cap s Hcap Hinv. unfold jobs_done.
  destruct (Forall_Exists_dec (fun w => w = Exited) worker_eq_Exited_dec (j_workers s))
    as [Hall|Hex]; [now left | right].
  apply Exists_exists in Hex as [x [Hin Hx]].
  apply In_nth_error in Hin as [w Hw].
  destruct x as [|idx|]; [| |contradiction].
  - destruct (j_jobs s) as [|idx rest] eqn:Hj.
    + destruct (j_closed s) eqn:Hcl.
      * eexists. apply (step_exit total cap s w); assumption.
      * destruct (Z_lt_le_dec (j_next s) total).
        -- eexists. apply (step_send total cap s); auto.
           rewrite Hj. unfold len. simpl. lia.
        -- eexists. apply (step_close total cap s); auto.
    + eexists. apply (step_recv total cap s w idx rest); assumption.
  - eexists. apply (step_finish total cap s w idx Failed); [assumption|discriminate].
Qed.

Lemma weights_update : forall ws w a b,
  nth_error ws w = Some a ->
  weights (update_nth w b ws) = weights ws - worker_weight a + worker_weight b.
Proof.
  intros ws w a b H.
  destruct (nth_error_update_split _ _ _ b H) as [l1 [l2 [-> ->]]].
  rewrite !weights_app. unfold weights. cbn [fold_right]. lia.
Qed.

Lemma jobs_step_measure : forall total cap s s',
  jobs_step total cap s s' -> jobs_measure total s' < jobs_measure total s.
Proof.
  intros total cap s s' Hstep.
  destruct Hstep as [s Hlt Hroom Hopen | s Hge Hopen | s w idx rest Hw0 Hj
                    | s w idx r Hw0 Hd | s w Hw0 Hj Hcl];
    unfold jobs_measure.
  - cbn [j_next j_closed j_workers j_jobs]. rewrite len_app. unfold len at 2.
    cbn [List.length]. lia.
  - cbn [j_next j_closed j_workers j_jobs]. rewrite Hopen. lia.
  - cbn [j_next j_closed j_workers j_jobs].
    rewrite (weights_update _ _ _ _ Hw0), Hj. unfold len. cbn [List.length worker_weight]. lia.
  - destruct r; unfold record_job; cbn [j_next j_closed j_workers j_jobs];
      rewrite (weights_update _ _ _ _ Hw0); cbn [worker_weight]; lia.
  - cbn [j_next j_closed j_workers j_jobs].
    rewrite (weights_update _ _ _ _ Hw0). cbn [worker_weight]. lia.
Qed.

Lemma jobs_measure_nonneg : forall total cap s,
  jobs_inv total cap s -> 0 <= jobs_measure total s.
Proof.
  intros total cap s Hinv. unfold jobs_measure.
  pose proof (inv_next _ _ _ Hinv). pose proof (len_nonneg (j_jobs s)).
  pose proof (weights_nonneg (j_workers s)). destruct (j_closed s); lia.
Qed.

Lemma jobs_completes : forall total cap n s,
  1 <= cap -> jobs_inv total cap s -> jobs_measure total s <= Z.of_nat n ->
  exists s', jobs_steps total cap s s' /\ jobs_done s'.
Proof.
  intros total cap n. induction n as [|n IH]; intros s Hcap Hinv Hm.
  - destruct (jobs_progress total cap s Hcap Hinv) as [Hd|[s1 Hs]].
    + exists s. split; [apply steps_refl | exact Hd].
    + pose proof (jobs_step_measure _ _ _ _ Hs).
      pose proof (jobs_measure_nonneg _ _ _ (jobs_inv_step _ _ _ _ Hinv Hs)). lia.
  - destruct (jobs_progress total cap s Hcap Hinv) as [Hd|[s1 Hs]].
    + exists s. split; [apply steps_refl | exact Hd].
    + pose proof (jobs_step_measure _ _ _ _ Hs).
      destruct (IH s1 Hcap (jobs_inv_step _ _ _ _ Hinv Hs) ltac:(lia)) as [s' [Hss Hd]].
      exists s'. split; [|exact Hd].
      apply (jobs_steps_trans _ _ s s1 s'); [|exact Hss].
      eapply steps_more; [apply steps_refl | exact Hs].
Qed.

(** C9: in FixedCount mode the worker count is [min(conc, total)], at least
    1.  Every run that returns has called [fn] on every index of
    [0 .. total-1] exactly once, holds [total] entries in the results array
    and has counted [total] outcomes, successes plus errors, the errors
    being the entries that carry the sentinel.  Every run returns: each
    action of a goroutine lowers a bounded measure, and from every state a
    run reaches, it can go on to the end.  With 37 items and a requested
    concurrency of 50 there are 37 workers and 37 outcomes. *)
Theorem C9_fixed_count_each_item_once : forall total conc,
  0 <= total ->
  effective_conc total conc = Z.max 1 (Z.min conc total)
  /\ (forall s, runJobs_returns total conc s ->
        Permutation (j_calls s) (iota total)
        /\ len (j_durations s) = total
        /\ j_successes s + j_errors s = total
        /\ j_errors s = count_failed (j_durations s)
        /\ len (j_workers s) = effective_conc total conc)
  /\ (forall s,
        jobs_steps total (effective_conc total conc) (jobs_init total conc) s ->
        exists s', jobs_steps total (effective_conc total conc) s s' /\ jobs_done s')
  /\ (forall s s',
        jobs_step total (effective_conc total conc) s s' ->
        jobs_measure total s' < jobs_measure total s)
  /\ (forall s,
        jobs_steps total (effective_conc total conc) (jobs_init total conc) s ->
        0 <= jobs_measure total s)
  /\ effective_conc 37 50 = 37
  /\ (forall s, runJobs_returns 37 50 s ->
        len (j_workers s) = 37 /\ j_successes s + j_errors s = 37
        /\ len (j_durations s) = 37).
Proof.
  intros total conc Ht.
  assert (Hcap : forall t c, 0 <= t -> 1 <= effective_conc t c)
    by (intros t c H; rewrite effective_conc_clamp by lia; lia).
  split; [apply effective_conc_clamp; exact Ht|].
  split.
  { intros s [Hsteps Hdone].
    apply (jobs_done_facts total (effective_conc total conc)); auto.
    apply (jobs_inv_steps _ _ _ _ (jobs_inv_init total conc Ht) Hsteps). }
  split.
  { intros s Hsteps.
    pose proof (jobs_inv_steps _ _ _ _ (jobs_inv_init total conc Ht) Hsteps) as Hinv.
    apply (jobs_completes total _ (Z.to_nat (jobs_measure total s))); auto.
    pose proof (jobs_measure_nonneg _ _ _ Hinv). lia. }
  split; [intros s s'; apply jobs_step_measure|].
  split.
  { intros s Hsteps. apply (jobs_measure_nonneg total (effective_conc total conc)).
    apply (jobs_inv_steps _ _ _ _ (jobs_inv_init total conc Ht) Hsteps). }
  split; [reflexivity|].
  intros s [Hsteps Hdone].
  pose proof (jobs_inv_steps _ _ _ _ (jobs_inv_init 37 50 ltac:(lia)) Hsteps) as Hinv.
  destruct (jobs_done_facts 37 _ s (Hcap 37 50 ltac:(lia)) Hinv Hdone)
    as [_ [Hl [Hc [_ Hw]]]].
  repeat split; auto.
Qed.

Lemma C9_fixed_count_witness :
  effective_conc 37 50 = Z.max 1 (Z.min 50 37).
Proof.
  exact (proj1 (C9_fixed_count_each_item_once 37 50 ltac:(lia))).
Defined.

(* ----------------------------------------------------------------- *)
(** ** Job runner, TimeBoxed mode *)

Lemma count_workers_update : forall P ws w a b,
  nth_error ws w = Some a ->
  count_workers P (update_nth w b ws)
  = count_workers P ws - (if P a then 1 else 0) + (if P b then 1 else 0).
Proof.
  intros P ws w a b H.
  destruct (nth_error_update_split _ _ _ b H) as [l1 [l2 [-> ->]]].
  unfold count_workers. rewrite !filter_app, !len_app. cbn [filter].
  unfold len. destruct (P a), (P b); cbn [List.length]; lia.
Qed.

Lemma count_workers_repeat_AtCheck : forall P n,
  P AtCheck = false -> count_workers P (repeat AtCheck n) = 0.
Proof.
  intros P n HP. unfold count_workers.
  induction n as [|n IH]; cbn [repeat filter]; [reflexivity|]. now rewrite HP.
Qed.

Lemma count_workers_all_Stopped : forall P ws,
  P Stopped = false -> Forall (fun w => w = Stopped) ws -> count_workers P ws = 0.
Proof.
  intros P ws HP Hall. unfold count_workers.
  induction Hall as [|w ws Hw _ IH]; cbn [filter]; [reflexivity|].
  subst. now rewrite HP.
Qed.

Lemma nth_bump : forall counts sec b,
  0 <= sec < len counts -> 0 <= b ->
  nth (Z.to_nat b) (bump sec counts) 0
  = nth (Z.to_nat b) counts 0 + (if sec =? b then 1 else 0).
Proof.
  intros counts sec b Hsec Hb. unfold bump.
  destruct (Z.eqb_spec sec b) as [->|Hne].
  - rewrite nth_update_nth_same; [reflexivity | unfold len in Hsec; lia].
  - rewrite nth_update_nth_other; lia.
Qed.

Lemma len_bump : forall counts sec, len (bump sec counts) = len counts.
Proof. intros. unfold bump, len. now rewrite update_nth_length. Qed.

Lemma completed_in_cons : forall ok b ok' d sec log,
  completed_in ok b ((ok', d, sec) :: log)
  = (if (Bool.eqb ok' ok && (sec =? b))%bool then 1 else 0) + completed_in ok b log.
Proof.
  intros. unfold completed_in, len. cbn [filter fst snd].
  destruct (Bool.eqb ok' ok && (sec =? b))%bool; cbn [List.length]; lia.
Qed.

Lemma completed_cons : forall ok ok' d sec log,
  completed ok ((ok', d, sec) :: log)
  = (if Bool.eqb ok' ok then 1 else 0) + completed ok log.
Proof.
  intros. unfold completed, len. cbn [filter fst snd].
  destruct (Bool.eqb ok' ok); cbn [List.length]; lia.
Qed.

Lemma completed_within_cons : forall ok n ok' d sec log,
  completed_within ok n ((ok', d, sec) :: log)
  = (if (Bool.eqb ok' ok && (0 <=? sec) && (sec <? n))%bool then 1 else 0)
    + completed_within ok n log.
Proof.
  intros. unfold completed_within, len. cbn [filter fst snd].
  destruct (Bool.eqb ok' ok && (0 <=? sec) && (sec <? n))%bool; cbn [List.length]; lia.
Qed.

Lemma timed_inv_init : forall buckets conc,
  0 <= buckets -> timed_inv buckets (timed_init buckets conc).
Proof.
  intros buckets conc Hb. constructor.
  - intros []; cbn; unfold len; rewrite repeat_length; lia.
  - intros ok b Hbb. cbn [timed_init t_workers t_log].
    rewrite count_workers_repeat_AtCheck by reflexivity.
    destruct ok; cbn; rewrite nth_repeat; reflexivity.
  - intros ok. cbn [timed_init t_workers t_log].
    rewrite count_workers_repeat_AtCheck by reflexivity.
    destruct ok; reflexivity.
Qed.

Lemma timed_inv_step : forall itemCount buckets s s',
  timed_inv buckets s -> timed_step itemCount buckets s s' -> timed_inv buckets s'.
Proof.
  intros itemCount buckets s s' Hinv Hstep.
  destruct Hstep as [s w Hw | s w Hw | s w i ok d sec Hw Hd
                    | s w ok d sec Hw | s w ok d Hw];
    destruct Hinv as [Hlen Hbucket Htotal].
  - (* the deadline has passed *)
    constructor.
    + intros ok'. destruct ok'; [exact (Hlen true) | exact (Hlen false)].
    + intros ok' b Hb. specialize (Hbucket ok' b Hb).
      unfold set_worker; cbn [t_workers t_log].
      rewrite (count_workers_update _ _ _ _ _ Hw). cbn [awaits_bucket].
      destruct ok'; cbn [counts_of t_okCounts t_errCounts] in *; lia.
    + intros ok'. specialize (Htotal ok').
      unfold set_worker; cbn [t_workers t_log].
      rewrite (count_workers_update _ _ _ _ _ Hw). cbn [awaits_total].
      destruct ok'; cbn [total_of t_successes t_errors] in *; lia.
  - (* an index is claimed *)
    constructor.
    + intros ok'. destruct ok'; [exact (Hlen true) | exact (Hlen false)].
    + intros ok' b Hb. specialize (Hbucket ok' b Hb). cbn [t_workers t_log].
      rewrite (count_workers_update _ _ _ _ _ Hw). cbn [awaits_bucket].
      destruct ok'; cbn [counts_of t_okCounts t_errCounts] in *; lia.
    + intros ok'. specialize (Htotal ok'). cbn [t_workers t_log].
      rewrite (count_workers_update _ _ _ _ _ Hw). cbn [awaits_total].
      destruct ok'; cbn [total_of t_successes t_errors] in *; lia.
  - (* fn returns *)
    constructor.
    + intros ok'. destruct ok'; [exact (Hlen true) | exact (Hlen false)].
    + intros ok' b Hb. specialize (Hbucket ok' b Hb). cbn [t_workers t_log].
      rewrite (count_workers_update _ _ _ _ _ Hw), completed_in_cons.
      cbn [awaits_bucket].
      destruct ok'; cbn [counts_of t_okCounts t_errCounts] in *;
        destruct (Bool.eqb ok _ && (sec =? b))%bool; lia.
    + intros ok'. specialize (Htotal ok'). cbn [t_workers t_log].
      rewrite (count_workers_update _ _ _ _ _ Hw), completed_cons.
      cbn [awaits_total].
      destruct ok'; cbn [total_of t_successes t_errors] in *;
        destruct (Bool.eqb ok _); lia.
  - (* the per-second counters *)
    assert (Hws : forall ok' b,
      count_workers (awaits_bucket ok' b) (update_nth w (Totalling ok d) (t_workers s))
      = count_workers (awaits_bucket ok' b) (t_workers s)
        - (if (Bool.eqb ok ok' && (sec =? b))%bool then 1 else 0)).
    { intros. rewrite (count_workers_update _ _ _ _ _ Hw). cbn [awaits_bucket]. lia. }
    assert (Hwt : forall ok',
      count_workers (awaits_total ok') (update_nth w (Totalling ok d) (t_workers s))
      = count_workers (awaits_total ok') (t_workers s)).
    { intros. rewrite (count_workers_update _ _ _ _ _ Hw). cbn [awaits_total].
      destruct (Bool.eqb ok ok'); lia. }
    pose proof (Hlen true) as Hlok. pose proof (Hlen false) as Hlerr.
    cbn [counts_of] in Hlok, Hlerr.
    unfold record_bucket.
    destruct (Z.leb_spec 0 sec); destruct (Z.ltb_spec sec buckets); cbn [andb];
      try destruct ok;
      (constructor;
       [ intros ok'; destruct ok'; cbn [counts_of t_okCounts t_errCounts];
         rewrite ?len_bump; assumption
       | intros ok' b Hb; specialize (Hbucket ok' b Hb); cbn [t_workers t_log];
         rewrite Hws;
         destruct ok'; cbn [counts_of t_okCounts t_errCounts Bool.eqb andb] in *;
         rewrite ?nth_bump by lia;
         destruct (Z.eqb_spec sec b); lia
       | intros ok'; specialize (Htotal ok'); cbn [t_workers t_log];
         rewrite Hwt;
         destruct ok'; cbn [total_of t_successes t_errors] in *; lia ]).
  - (* the run totals *)
    unfold record_total.
    destruct ok;
      (constructor;
       [ intros ok'; destruct ok'; [exact (Hlen true) | exact (Hlen false)]
       | intros ok' b Hb; specialize (Hbucket ok' b Hb); cbn [t_workers t_log];
         rewrite (count_workers_update _ _ _ _ _ Hw); cbn [awaits_bucket];
         destruct ok'; cbn [counts_of t_okCounts t_errCounts] in *; lia
       | intros ok'; specialize (Htotal ok'); cbn [t_workers t_log];
         rewrite (count_workers_update _ _ _ _ _ Hw); cbn [awaits_total];
         destruct ok'; cbn [total_of t_successes t_errors Bool.eqb] in *; lia ]).
Qed.

Lemma timed_inv_steps : forall itemCount buckets s s',
  timed_inv buckets s -> timed_steps itemCount buckets s s' -> timed_inv buckets s'.
Proof.
  intros itemCount buckets s s' Hinv Hsteps.
  induction Hsteps as [|s1 s2 s3 H12 IH H23]; [exact Hinv|].
  exact (timed_inv_step _ _ _ _ (IH Hinv) H23).
Qed.

Lemma sumZ_app : forall l1 l2, sumZ (l1 ++ l2) = sumZ l1 + sumZ l2.
Proof.
  unfold sumZ. induction l1 as [|x l1 IH]; intros l2; cbn [app fold_right]; [lia|].
  rewrite IH. lia.
Qed.

Lemma sumZ_map_add : forall (f g : Z -> Z) l,
  sumZ (map (fun b => f b + g b) l) = sumZ (map f l) + sumZ (map g l).
Proof.
  unfold sumZ. induction l as [|x l IH]; cbn [map fold_right]; [lia|]. rewrite IH. lia.
Qed.

Lemma sumZ_map_zero : forall l, sumZ (map (fun _ : Z => 0) l) = 0.
Proof.
  unfold sumZ. induction l as [|x l IH]; cbn [map fold_right]; [lia|]. rewrite IH. lia.
Qed.

Lemma sumZ_nth : forall (f : Z -> Z) l,
  (forall b, 0 <= b < len l -> nth (Z.to_nat b) l 0 = f b) ->
  sumZ l = sumZ (map f (iota (len l))).
Proof.
  intros f l. induction l as [|x l IH] using rev_ind; intros H; [reflexivity|].
  rewrite len_app. change (len [x]) with 1.
  rewrite iota_succ by apply len_nonneg.
  rewrite map_app, !sumZ_app. cbn [map]. f_equal.
  - apply IH. intros b Hb. rewrite <- H by (rewrite len_app; change (len [x]) with 1; lia).
    rewrite app_nth1; [reflexivity | unfold len in Hb; lia].
  - rewrite <- H by (rewrite len_app; change (len [x]) with 1; pose proof (len_nonneg l); lia).
    unfold len. rewrite Nat2Z.id. now rewrite nth_middle.
Qed.

Lemma sumZ_indicator : forall x n,
  0 <= n ->
  sumZ (map (fun b => if x =? b then 1 else 0) (iota n))
  = if ((0 <=? x) && (x <? n))%bool then 1 else 0.
Proof.
  intros x n Hn. rewrite <- (Z2Nat.id n Hn). clear Hn.
  induction (Z.to_nat n) as [|k IH].
  - cbn. destruct (Z.leb_spec 0 x), (Z.ltb_spec x 0); cbn; lia.
  - rewrite Nat2Z.inj_succ, <- Z.add_1_r, iota_succ by lia.
    rewrite map_app, sumZ_app, IH. cbn [map sumZ fold_right].
    destruct (Z.leb_spec 0 x), (Z.ltb_spec x (Z.of_nat k)),
      (Z.ltb_spec x (Z.of_nat k + 1)), (Z.eqb_spec x (Z.of_nat k)); cbn [andb]; lia.
Qed.

Lemma sumZ_completed_in : forall ok n log,
  0 <= n ->
  sumZ (map (fun b => completed_in ok b log) (iota n)) = completed_within ok n log.
Proof.
  intros ok n log Hn. induction log as [|[[ok' d] sec] log IH].
  - apply sumZ_map_zero.
  - rewrite completed_within_cons, <- IH.
    rewrite (map_ext _ (fun b => (if (Bool.eqb ok' ok && (sec =? b))%bool then 1 else 0)
                                 + completed_in ok b log))
      by (intros; apply completed_in_cons).
    rewrite sumZ_map_add. f_equal.
    destruct (Bool.eqb ok' ok); cbn [andb].
    + rewrite sumZ_indicator by exact Hn. reflexivity.
    + apply sumZ_map_zero.
Qed.

Lemma completed_within_le : forall ok n log,
  completed_within ok n log <= completed ok log.
Proof.
  intros ok n log. induction log as [|[[ok' d] sec] log IH].
  - reflexivity.
  - rewrite completed_within_cons, completed_cons.
    destruct (Bool.eqb ok' ok); cbn [andb];
      [destruct ((0 <=? sec) && (sec <? n))%bool|]; lia.
Qed.

Lemma completed_within_all : forall ok n log,
  Forall (fun e => 0 <= snd e < n) log ->
  completed_within ok n log = completed ok log.
Proof.
  intros ok n log Hall. induction Hall as [|[[ok' d] sec] log He _ IH].
  - reflexivity.
  - rewrite completed_within_cons, completed_cons, IH. cbn [snd] in He.
    destruct (Bool.eqb ok' ok); cbn [andb]; [|reflexivity].
    destruct (Z.leb_spec 0 sec), (Z.ltb_spec sec n); cbn [andb]; lia.
Qed.

Lemma timed_buckets_pos : forall duration, 1 <= timed_buckets duration.
Proof.
  intros. unfold timed_buckets.
  destruct (Z.ltb_spec (int_of_float64 (math_Ceil (duration_Seconds duration))) 1); lia.
Qed.

Lemma timed_done_facts : forall buckets s ok,
  0 <= buckets -> timed_inv buckets s -> timed_done s ->
  len (counts_of ok s) = buckets
  /\ (forall b, 0 <= b < buckets ->
        nth (Z.to_nat b) (counts_of ok s) 0 = completed_in ok b (t_log s))
  /\ total_of ok s = completed ok (t_log s)
  /\ sumZ (counts_of ok s) = completed_within ok buckets (t_log s).
Proof.
  intros buckets s ok Hb [Hlen Hbucket Htotal] Hdone. unfold timed_done in Hdone.
  assert (Hnth : forall b, 0 <= b < buckets ->
            nth (Z.to_nat b) (counts_of ok s) 0 = completed_in ok b (t_log s)).
  { intros b Hbb. rewrite <- (Hbucket ok b Hbb).
    rewrite count_workers_all_Stopped by (auto; reflexivity). lia. }
  split; [apply Hlen|]. split; [exact Hnth|]. split.
  - rewrite <- (Htotal ok).
    rewrite count_workers_all_Stopped by (auto; reflexivity). lia.
  - rewrite (sumZ_nth (fun b => completed_in ok b (t_log s))).
    + rewrite Hlen. apply sumZ_completed_in. exact Hb.
    + intros b Hbb. apply Hnth. rewrite Hlen in Hbb. exact Hbb.
Qed.

Lemma timed_steps_head : forall itemCount buckets s1 s2 s3,
  timed_step itemCount buckets s1 s2 -> timed_steps itemCount buckets s2 s3 ->
  timed_steps itemCount buckets s1 s3.
Proof.
  intros itemCount buckets s1 s2 s3 H12 H23.
  induction H23 as [|s2 s3 s4 H23 IH H34].
  - eapply tsteps_more; [apply tsteps_refl | exact H12].
  - eapply tsteps_more; [exact (IH H12) | exact H34].
Defined.

(** The run of one worker on one item that performs a single operation,
    successful after 250 ms and completing in second [sec], and then finds
    the deadline passed. *)
Ltac single_operation_run sec :=
  split; [lia|]; split; [|repeat constructor];
  replace (timed_buckets 3000000000) with 3 by (vm_compute; reflexivity);
  eapply timed_steps_head;
    [eapply (timed_claim 1 3 _ 0%nat); reflexivity|];
  eapply timed_steps_head;
    [eapply (timed_return 1 3 _ 0%nat _ true 250 sec); [reflexivity | lia]|];
  eapply timed_steps_head;
    [eapply (timed_bucket 1 3 _ 0%nat true 250 sec); reflexivity|];
  eapply timed_steps_head;
    [eapply (timed_total 1 3 _ 0%nat true 250); reflexivity|];
  eapply timed_steps_head;
    [eapply (timed_stop 1 3 _ 0%nat); reflexivity|];
  apply tsteps_refl.

Lemma late_run_returns : runTimedJobs_returns 1 1 3000000000 late_run_final.
Proof. single_operation_run 3. Defined.

Lemma early_run_returns : runTimedJobs_returns 1 1 3000000000 early_run_final.
Proof. single_operation_run 1. Defined.

Lemma C1_late_completion_counterexample :
  runTimedJobs_returns 1 1 3000000000 late_run_final
  /\ timed_buckets 3000000000 = 3
  /\ t_log late_run_final = [(true, 250, 3)]
  /\ clamped_bucket 3 3 = 2
  /\ nth 2 (t_okCounts late_run_final) 0 = 0
  /\ sumZ (t_okCounts late_run_final) = 0
  /\ t_successes late_run_final = 1.
Proof.
  split; [exact late_run_returns|].
  split; [vm_compute; reflexivity|]. repeat split.
Qed.

(** C1 (as the code has it): in TimeBoxed mode an outcome is recorded into
    the per-second bucket of the second it completed in only when that
    second lies in [[0, buckets)]; an operation that completes later is
    counted in the run totals and in no bucket.  So in every run that
    returns, each bucket counts the outcomes that completed in its second,
    the sum of the per-bucket success counts is the number of successes
    that completed within the window, at most the total success count, and
    equal to it when every operation completed within the window; likewise
    for the errors. *)
Theorem C1_timed_buckets_within_window : forall itemCount conc duration s,
  runTimedJobs_returns itemCount conc duration s ->
  len (t_okCounts s) = timed_buckets duration
  /\ len (t_errCounts s) = timed_buckets duration
  /\ (forall b, 0 <= b < timed_buckets duration ->
        nth (Z.to_nat b) (t_okCounts s) 0 = completed_in true b (t_log s)
        /\ nth (Z.to_nat b) (t_errCounts s) 0 = completed_in false b (t_log s))
  /\ t_successes s = completed true (t_log s)
  /\ t_errors s = completed false (t_log s)
  /\ sumZ (t_okCounts s) = completed_within true (timed_buckets duration) (t_log s)
  /\ sumZ (t_errCounts s) = completed_within false (timed_buckets duration) (t_log s)
  /\ sumZ (t_okCounts s) <= t_successes s
  /\ sumZ (t_errCounts s) <= t_errors s
  /\ (Forall (fun e => 0 <= snd e < timed_buckets duration) (t_log s) ->
      sumZ (t_okCounts s) = t_successes s /\ sumZ (t_errCounts s) = t_errors s).
Proof.
  intros itemCount conc duration s [Hitems [Hsteps Hdone]].
  pose proof (timed_buckets_pos duration) as Hpos.
  assert (Hinv : timed_inv (timed_buckets duration) s).
  { apply (timed_inv_steps _ _ _ _ (timed_inv_init (timed_buckets duration) conc ltac:(lia)) Hsteps). }
  destruct (timed_done_facts (timed_buckets duration) s true ltac:(lia) Hinv Hdone) as [Hl1 [Hn1 [Ht1 Hs1]]].
  destruct (timed_done_facts (timed_buckets duration) s false ltac:(lia) Hinv Hdone) as [Hl2 [Hn2 [Ht2 Hs2]]].
  cbn [counts_of total_of] in *.
  repeat split; auto.
  - rewrite Hs1, Ht1. apply completed_within_le.
  - rewrite Hs2, Ht2. apply completed_within_le.
  - rewrite Hs1, Ht1. now apply completed_within_all.
  - rewrite Hs2, Ht2. now apply completed_within_all.
Qed.

Lemma C1_timed_buckets_witness :
  sumZ (t_okCounts early_run_final) = t_successes early_run_final
  /\ sumZ (t_okCounts late_run_final) <= t_successes late_run_final.
Proof.
  split.
  - destruct (C1_timed_buckets_within_window 1 1 3000000000 early_run_final
                early_run_returns) as [_ [_ [_ [_ [_ [_ [_ [_ [_ H]]]]]]]]].
    apply H. replace (timed_buckets 3000000000) with 3 by (vm_compute; reflexivity).
    repeat constructor; simpl; lia.
  - destruct (C1_timed_buckets_within_window 1 1 3000000000 late_run_final
                late_run_returns) as [_ [_ [_ [_ [_ [_ [_ [H _]]]]]]]].
    exact H.
Defined.

(* ----------------------------------------------------------------- *)
(** ** float64: digits and shifts *)

Lemma digits2_pos_size : forall p, digits2_pos p = Pos.size p.
Proof. induction p; simpl; congruence. Qed.

Lemma digits2_bounds : forall p,
  2 ^ (Zpos (digits2_pos p) - 1) <= Zpos p < 2 ^ Zpos (digits2_pos p).
Proof.
  intros p. rewrite digits2_pos_size. split.
  - pose proof (Pos.size_le p) as H.
    assert (H' : 2 ^ Zpos (Pos.size p) <= 2 * Zpos p).
    { change 2 with (Zpos 2) at 1. rewrite <- Pos2Z.inj_pow.
      change (2 * Zpos p) with (Zpos (p~0)). apply Pos2Z.pos_le_pos. exact H. }
    replace (Zpos (Pos.size p)) with (Zpos (Pos.size p) - 1 + 1) in H' by lia.
    rewrite Z.pow_add_r in H' by lia. lia.
  - pose proof (Pos.size_gt p) as H.
    change 2 with (Zpos 2). rewrite <- Pos2Z.inj_pow. apply Pos2Z.pos_lt_pos. exact H.
Qed.

Lemma pow2_lt_exponents : forall a b, 0 <= a -> 0 <= b -> 2 ^ a < 2 ^ b -> a < b.
Proof. intros a b Ha Hb H. apply (Z.pow_lt_mono_r_iff 2); lia. Qed.

Lemma digits2_unique : forall p d,
  2 ^ (d - 1) <= Zpos p < 2 ^ d -> Zpos (digits2_pos p) = d.
Proof.
  intros p d [Hlo Hhi]. pose proof (digits2_bounds p) as [Hlo' Hhi'].
  assert (Hd : 0 < d).
  { destruct (Z_lt_le_dec 0 d); [assumption|].
    assert (2 ^ d <= 1).
    { destruct (Z.eq_dec d 0) as [->|]; [simpl; lia|].
      rewrite Z.pow_neg_r by lia. lia. }
    lia. }
  assert (d - 1 < Zpos (digits2_pos p)) by (apply pow2_lt_exponents; lia).
  assert (Zpos (digits2_pos p) - 1 < d) by (apply pow2_lt_exponents; lia).
  lia.
Qed.

Lemma iter_pos_nat {A : Type} : forall (f : A -> A) p x,
  iter_pos f p x = Nat.iter (Pos.to_nat p) f x.
Proof.
  intros f p. induction p as [p IH|p IH|]; intros x; cbn [iter_pos].
  - rewrite !IH, Pos2Nat.inj_xI.
    replace (S (2 * Pos.to_nat p)) with (Pos.to_nat p + S (Pos.to_nat p))%nat by lia.
    rewrite Nat.iter_add. f_equal. now rewrite Nat.iter_succ_r.
  - rewrite !IH, Pos2Nat.inj_xO.
    replace (2 * Pos.to_nat p)%nat with (Pos.to_nat p + Pos.to_nat p)%nat by lia.
    now rewrite Nat.iter_add.
  - reflexivity.
Qed.

Lemma shr_1_halves : forall mrs,
  0 <= shr_m mrs ->
  0 <= shr_m (shr_1 mrs)
  /\ halves (shr_1 mrs) = halves mrs / 2
  /\ shr_s (shr_1 mrs) = (shr_s mrs || Z.odd (halves mrs))%bool.
Proof.
  intros [m r s] Hm. cbn [shr_m] in Hm. unfold halves. cbn [shr_m shr_r shr_s shr_1].
  assert (Hodd : Z.odd (2 * m + Z.b2z r) = r).
  { rewrite Z.add_comm, Z.odd_add_mul_2. now destruct r. }
  assert (Hdiv : (2 * m + Z.b2z r) / 2 = m).
  { rewrite Z.add_comm, Z.mul_comm, Z.div_add by lia. destruct r; simpl; lia. }
  rewrite Hodd, Hdiv.
  destruct m as [|p|p]; [| |lia].
  - cbn [shr_m shr_r shr_s]. repeat split; try lia. apply orb_comm.
  - destruct p as [p|p|]; cbn [shr_m shr_r shr_s Z.b2z];
      (split; [lia|]); (split; [lia | apply orb_comm]).
Qed.

Lemma shift_halves_0 : forall h, shift_halves 0 h = h.
Proof. intros. unfold shift_halves. simpl. apply Z.div_1_r. Qed.

Lemma shift_sticky_0 : forall h s, shift_sticky 0 h s = s.
Proof.
  intros. unfold shift_sticky. simpl. rewrite Z.mod_1_r. simpl. apply orb_false_r.
Qed.

Lemma shift_halves_succ : forall k h,
  0 <= k -> shift_halves (k + 1) h = shift_halves k h / 2.
Proof.
  intros k h Hk. unfold shift_halves.
  rewrite Z.pow_add_r, Z.pow_1_r by lia. rewrite Z.div_div by lia. reflexivity.
Qed.

Lemma shift_sticky_succ : forall k h s,
  0 <= k ->
  shift_sticky (k + 1) h s = (shift_sticky k h s || Z.odd (shift_halves k h))%bool.
Proof.
  intros k h s Hk. unfold shift_sticky, shift_halves.
  rewrite <- orb_assoc. f_equal.
  assert (Hp : 0 < 2 ^ k) by (apply Z.pow_pos_nonneg; lia).
  rewrite Z.pow_add_r, Z.pow_1_r by lia.
  rewrite Z.rem_mul_r by lia.
  pose proof (Z.mod_pos_bound h (2 ^ k) Hp).
  rewrite (Zmod_odd (h / 2 ^ k)).
  destruct (Z.odd (h / 2 ^ k)); rewrite ?orb_true_r, ?orb_false_r.
  - destruct (Z.eqb_spec (h mod 2 ^ k + 2 ^ k * 1) 0); [lia | reflexivity].
  - now rewrite Z.mul_0_r, Z.add_0_r.
Qed.

Lemma shr_iter_halves : forall n mrs,
  0 <= shr_m mrs ->
  0 <= shr_m (Nat.iter n shr_1 mrs)
  /\ halves (Nat.iter n shr_1 mrs) = shift_halves (Z.of_nat n) (halves mrs)
  /\ shr_s (Nat.iter n shr_1 mrs)
     = shift_sticky (Z.of_nat n) (halves mrs) (shr_s mrs).
Proof.
  induction n as [|n IH]; intros mrs Hm.
  - change (Nat.iter 0 shr_1 mrs) with mrs. change (Z.of_nat 0) with 0.
    now rewrite shift_halves_0, shift_sticky_0.
  - destruct (IH mrs Hm) as [H0 [Hh Hs]].
    rewrite Nat.iter_succ. destruct (shr_1_halves _ H0) as [H0' [Hh' Hs']].
    rewrite Nat2Z.inj_succ, <- Z.add_1_r.
    rewrite shift_halves_succ, shift_sticky_succ by lia.
    split; [exact H0'|]. split; [now rewrite Hh', Hh | now rewrite Hs', Hs, Hh].
Qed.

(** Shifting by [n] bits, or not at all when [n <= 0]. *)
Lemma shr_halves : forall mrs e n,
  0 <= shr_m mrs ->
  let k := Z.max 0 n in
  0 <= shr_m (fst (shr mrs e n))
  /\ halves (fst (shr mrs e n)) = shift_halves k (halves mrs)
  /\ shr_s (fst (shr mrs e n)) = shift_sticky k (halves mrs) (shr_s mrs)
  /\ snd (shr mrs e n) = e + k.
Proof.
  intros mrs e n Hm k. unfold shr. destruct n as [|p|p]; cbn [fst snd].
  - subst k. cbn [Z.max]. rewrite shift_halves_0, shift_sticky_0. repeat split; auto; lia.
  - rewrite iter_pos_nat. destruct (shr_iter_halves (Pos.to_nat p) mrs Hm) as [H0 [Hh Hs]].
    rewrite positive_nat_Z in Hh, Hs.
    subst k. replace (Z.max 0 (Zpos p)) with (Zpos p) by lia. auto.
  - subst k. replace (Z.max 0 (Zneg p)) with 0 by lia.
    rewrite shift_halves_0, shift_sticky_0. repeat split; auto; lia.
Qed.

(* ----------------------------------------------------------------- *)
(** ** float64: the rounding of [binary_round_aux] *)

Lemma shr_m_of_loc : forall m l, shr_m (shr_record_of_loc m l) = m.
Proof. intros m [|[]]; reflexivity. Qed.

Lemma shr_m_halves : forall mrs, shr_m mrs = halves mrs / 2.
Proof.
  intros [m r s]. unfold halves. cbn [shr_m shr_r].
  rewrite Z.add_comm, Z.mul_comm, Z.div_add by lia. destruct r; simpl; lia.
Qed.

Lemma halves_odd : forall mrs, Z.odd (halves mrs) = shr_r mrs.
Proof.
  intros [m r s]. unfold halves. cbn [shr_m shr_r].
  rewrite Z.add_comm, Z.odd_add_mul_2. now destruct r.
Qed.

Lemma halves_of_loc_bounds : forall m l,
  2 * m <= halves (shr_record_of_loc m l) <= 2 * m + 1.
Proof. intros m [|[]]; unfold halves; cbn; lia. Qed.

Lemma halves_of_loc_Exact : forall m, halves (shr_record_of_loc m loc_Exact) = 2 * m.
Proof. intros. unfold halves. cbn. lia. Qed.

Lemma round_record : forall mrs,
  round_nearest_even (shr_m mrs) (loc_of_shr_record mrs) = rne (halves mrs) (shr_s mrs).
Proof.
  intros mrs. unfold rne. rewrite halves_odd, <- shr_m_halves.
  destruct mrs as [m [] []]; reflexivity.
Qed.

Lemma rne_bounds : forall h s, h / 2 <= rne h s <= h / 2 + 1.
Proof.
  intros h s. unfold rne.
  destruct (Z.odd h), s, (Z.even (h / 2)); lia.
Qed.

Lemma shr_fexp_halves : forall m e l,
  0 <= m ->
  let mrs := shr_record_of_loc m l in
  let k := Z.max 0 (fexp prec emax (Zdigits2 m + e) - e) in
  0 <= shr_m (fst (shr_fexp prec emax m e l))
  /\ halves (fst (shr_fexp prec emax m e l)) = shift_halves k (halves mrs)
  /\ shr_s (fst (shr_fexp prec emax m e l)) = shift_sticky k (halves mrs) (shr_s mrs)
  /\ snd (shr_fexp prec emax m e l) = e + k.
Proof.
  intros m e l Hm. unfold shr_fexp. apply shr_halves. now rewrite shr_m_of_loc.
Qed.

Lemma shift_halves_nonneg : forall k h, 0 <= h -> 0 <= shift_halves k h.
Proof.
  intros k h Hh. unfold shift_halves.
  destruct (Z_lt_le_dec k 0).
  - rewrite Z.pow_neg_r by lia. now rewrite Z.div_0_r.
  - apply Z.div_pos; [exact Hh | apply Z.pow_pos_nonneg; lia].
Qed.

(** [binary_round_aux] in closed form. *)
Lemma binary_round_aux_formula : forall sx M E l,
  0 <= M ->
  binary_round_aux prec emax sx M E l = float_of_rounded sx (round_formula M E l)
  /\ 0 <= fst (round_formula M E l).
Proof.
  intros sx M E l HM. unfold binary_round_aux, round_formula.
  destruct (shr_fexp_halves M E l HM) as [H0 [Hh [Hs He]]].
  destruct (shr_fexp prec emax M E l) as [mrs1 e1]. cbn [fst snd] in *.
  rewrite round_record, Hh, Hs, He.
  set (m1 := rne _ _).
  assert (Hm1 : 0 <= m1).
  { pose proof (rne_bounds (shift_halves (Z.max 0 (fexp prec emax (Zdigits2 M + E) - E))
                              (halves (shr_record_of_loc M l)))
                  (shift_sticky (Z.max 0 (fexp prec emax (Zdigits2 M + E) - E))
                     (halves (shr_record_of_loc M l)) (shr_s (shr_record_of_loc M l)))) as Hb.
    fold m1 in Hb.
    pose proof (halves_of_loc_bounds M l).
    pose proof (shift_halves_nonneg (Z.max 0 (fexp prec emax (Zdigits2 M + E) - E))
                  (halves (shr_record_of_loc M l)) ltac:(lia)) as Hn.
    apply (Z.div_pos _ 2) in Hn; lia. }
  set (e1' := E + Z.max 0 (fexp prec emax (Zdigits2 M + E) - E)).
  destruct (shr_fexp_halves m1 e1' loc_Exact Hm1) as [H0' [Hh' [_ He']]].
  destruct (shr_fexp prec emax m1 e1' loc_Exact) as [mrs2 e2]. cbn [fst snd] in *.
  rewrite halves_of_loc_Exact in Hh'.
  assert (Hm2 : shr_m mrs2 = m1 / 2 ^ Z.max 0 (fexp prec emax (Zdigits2 m1 + e1') - e1')).
  { rewrite shr_m_halves, Hh'. unfold shift_halves.
    set (k2 := Z.max 0 _).
    assert (0 < 2 ^ k2) by (apply Z.pow_pos_nonneg; lia).
    rewrite Z.div_div by lia. rewrite (Z.mul_comm (2 ^ k2) 2).
    rewrite <- Z.div_div by lia. f_equal.
    rewrite Z.mul_comm, Z.div_mul by lia. reflexivity. }
  unfold float_of_rounded. cbn [fst snd]. rewrite <- Hm2, He'.
  split; [|exact H0'].
  destruct (shr_m mrs2); reflexivity.
Qed.

Lemma fexp_64 : forall e, fexp prec emax e = Z.max (e - 53) (-1074).
Proof. reflexivity. Qed.

Lemma Zdigits2_bounds : forall M,
  0 <= M -> 0 <= Zdigits2 M /\ M < 2 ^ Zdigits2 M.
Proof.
  intros [|p|p] HM; [simpl; lia| |lia].
  cbn [Zdigits2]. pose proof (digits2_bounds p). lia.
Qed.

Lemma Zdigits2_unique : forall M d,
  2 ^ (d - 1) <= M < 2 ^ d -> 0 < M -> Zdigits2 M = d.
Proof.
  intros [|p|p] d H HM; try lia. cbn [Zdigits2]. now apply digits2_unique.
Qed.

Lemma halves_shift_div : forall M l k,
  0 <= k ->
  shift_halves k (halves (shr_record_of_loc M l)) / 2 = M / 2 ^ k.
Proof.
  intros M l k Hk. unfold shift_halves.
  assert (Hp : 0 < 2 ^ k) by (apply Z.pow_pos_nonneg; lia).
  rewrite Z.div_div by lia. rewrite (Z.mul_comm (2 ^ k) 2), <- Z.div_div by lia.
  f_equal. pose proof (halves_of_loc_bounds M l).
  symmetry. apply (Z.div_unique _ 2 M (halves (shr_record_of_loc M l) - 2 * M)); lia.
Qed.

Lemma div_pow2_lt : forall M d k,
  0 <= M < 2 ^ d -> 0 <= k -> d <= 53 + k -> M / 2 ^ k < 2 ^ 53.
Proof.
  intros M d k HM Hk Hd.
  assert (Hp : 0 < 2 ^ k) by (apply Z.pow_pos_nonneg; lia).
  apply Z.div_lt_upper_bound; [exact Hp|].
  rewrite <- Z.pow_add_r by lia.
  apply (Z.lt_le_trans _ (2 ^ d)); [lia|].
  destruct (Z_lt_le_dec d 0).
  - rewrite (Z.pow_neg_r 2 d) by lia. apply Z.pow_nonneg. lia.
  - apply Z.pow_le_mono_r; lia.
Qed.

(** The rounded mantissa has at most 53 digits, whatever the range. *)
Lemma round_formula_bounded : forall M E l,
  0 <= M -> 0 <= fst (round_formula M E l) < 2 ^ 53.
Proof.
  intros M E l HM. split; [apply (binary_round_aux_formula false M E l HM)|].
  unfold round_formula. cbn [fst].
  set (k1 := Z.max 0 (fexp prec emax (Zdigits2 M + E) - E)).
  set (m1 := rne _ _).
  set (e1 := E + k1).
  destruct (Zdigits2_bounds M HM) as [Hd HMd].
  assert (Hk1 : 0 <= k1 /\ Zdigits2 M <= 53 + k1 /\ -1074 <= e1).
  { subst e1 k1. rewrite fexp_64. lia. }
  assert (Hq : 0 <= m1 <= 2 ^ 53).
  { pose proof (rne_bounds (shift_halves k1 (halves (shr_record_of_loc M l)))
                  (shift_sticky k1 (halves (shr_record_of_loc M l))
                     (shr_s (shr_record_of_loc M l)))) as Hb.
    fold m1 in Hb. rewrite halves_shift_div in Hb by lia.
    pose proof (div_pow2_lt M (Zdigits2 M) k1 ltac:(lia) ltac:(lia) ltac:(lia)).
    assert (0 <= M / 2 ^ k1) by (apply Z.div_pos; [lia | apply Z.pow_pos_nonneg; lia]).
    lia. }
  set (k2 := Z.max 0 _).
  assert (Hp2 : 0 < 2 ^ k2) by (apply Z.pow_pos_nonneg; lia).
  destruct (Z.eq_dec m1 (2 ^ 53)) as [Heq|Hne].
  - assert (Hk2 : k2 = 1).
    { subst k2. rewrite Heq. change (Zdigits2 (2 ^ 53)) with 54. rewrite fexp_64. lia. }
    rewrite Hk2, Heq. reflexivity.
  - apply (Z.le_lt_trans _ m1); [|lia].
    apply Z.div_le_upper_bound; [exact Hp2|]. nia.
Qed.

(** The rounding when the result is a normal number. *)
Lemma round_formula_normal : forall M E l,
  2 ^ 52 <= M -> -1074 <= E + Zdigits2 M - 53 ->
  round_formula M E l = round_normal M E l
  /\ 2 ^ 52 <= fst (round_normal M E l) < 2 ^ 53.
Proof.
  intros M E l HM HE. unfold round_formula, round_normal.
  destruct (Zdigits2_bounds M ltac:(lia)) as [Hd HMd].
  assert (Hd53 : 53 <= Zdigits2 M).
  { assert (52 < Zdigits2 M) by (apply pow2_lt_exponents; lia). lia. }
  assert (Hk1 : Z.max 0 (fexp prec emax (Zdigits2 M + E) - E) = Zdigits2 M - 53)
    by (rewrite fexp_64; lia).
  rewrite Hk1. set (k := Zdigits2 M - 53).
  set (m1 := rne _ _).
  assert (Hlow : 2 ^ (Zdigits2 M - 1) <= M).
  { destruct M as [|p|p]; try lia. cbn [Zdigits2]. apply digits2_bounds. }
  assert (Hq : 2 ^ 52 <= M / 2 ^ k < 2 ^ 53).
  { assert (Hp : 0 < 2 ^ k) by (apply Z.pow_pos_nonneg; lia).
    split.
    - apply Z.div_le_lower_bound; [exact Hp|].
      rewrite <- Z.pow_add_r by lia. replace (k + 52) with (Zdigits2 M - 1) by lia.
      exact Hlow.
    - apply (div_pow2_lt M (Zdigits2 M)); lia. }
  assert (Hm1 : 2 ^ 52 <= m1 <= 2 ^ 53).
  { pose proof (rne_bounds (shift_halves k (halves (shr_record_of_loc M l)))
                  (shift_sticky k (halves (shr_record_of_loc M l))
                     (shr_s (shr_record_of_loc M l)))) as Hb.
    fold m1 in Hb. rewrite halves_shift_div in Hb by lia. lia. }
  destruct (Z.eqb_spec m1 (2 ^ 53)) as [Heq|Hne].
  - rewrite Heq. change (Zdigits2 (2 ^ 53)) with 54. rewrite fexp_64.
    replace (Z.max 0 (Z.max (54 + (E + k) - 53) (-1074) - (E + k))) with 1 by lia.
    cbn [fst]. split; [reflexivity | lia].
  - assert (Hd1 : Zdigits2 m1 = 53) by (apply Zdigits2_unique; lia).
    rewrite Hd1, fexp_64.
    replace (Z.max 0 (Z.max (53 + (E + k) - 53) (-1074) - (E + k))) with 0 by lia.
    cbn [fst]. rewrite Z.pow_0_r, Z.div_1_r, Z.add_0_r. split; [reflexivity | lia].
Qed.

(* ----------------------------------------------------------------- *)
(** ** float64: the conversion of integers *)

Lemma pos_iter_xO : forall n p, Zpos (Pos.iter xO p n) = Zpos p * 2 ^ Zpos n.
Proof.
  intros n p. induction n as [|n IH] using Pos.peano_ind.
  - simpl. lia.
  - rewrite Pos.iter_succ, Pos2Z.inj_succ, Z.pow_succ_r by lia.
    rewrite Pos2Z.inj_xO, IH. lia.
Qed.

Lemma round_normal_53 : forall M E,
  2 ^ 52 <= M < 2 ^ 53 -> round_normal M E loc_Exact = (M, E).
Proof.
  intros M E HM. unfold round_normal.
  rewrite (Zdigits2_unique M 53) by lia.
  rewrite halves_of_loc_Exact. cbn [shr_record_of_loc shr_s].
  replace (53 - 53) with 0 by lia.
  rewrite shift_halves_0, shift_sticky_0. unfold rne.
  rewrite Z.mul_comm, Z.odd_mul, Z.div_mul by lia. cbn [Z.odd andb].
  rewrite andb_false_r.
  destruct (Z.eqb_spec M (2 ^ 53)); [lia|]. now rewrite Z.add_0_r.
Qed.

Lemma rounded_normal_finite : forall sx M E l,
  2 ^ 52 <= M -> -1074 <= E + Zdigits2 M - 53 ->
  snd (round_normal M E l) <= 971 ->
  binary_round_aux prec emax sx M E l
  = S754_finite sx (Z.to_pos (fst (round_normal M E l))) (snd (round_normal M E l)).
Proof.
  intros sx M E l HM HE Hsnd.
  destruct (binary_round_aux_formula sx M E l ltac:(lia)) as [-> _].
  destruct (round_formula_normal M E l HM HE) as [-> Hb].
  unfold float_of_rounded.
  destruct (fst (round_normal M E l)) as [|m|m] eqn:Hm; try lia.
  destruct (Z.leb_spec (snd (round_normal M E l)) 971); [reflexivity | lia].
Qed.

Lemma of_int_parts_bounds : forall v,
  0 < v ->
  2 ^ 52 <= fst (of_int_parts v) < 2 ^ 53
  /\ (Zdigits2 v <= 53 ->
      of_int_parts v = (v * 2 ^ (53 - Zdigits2 v), Zdigits2 v - 53))
  /\ Zdigits2 v - 53 <= snd (of_int_parts v) <= Z.max 0 (Zdigits2 v - 52).
Proof.
  intros v Hv. unfold of_int_parts.
  destruct v as [|p|p]; try lia. cbn [Zdigits2].
  pose proof (digits2_bounds p) as [Hlo Hhi].
  set (d := Zpos (digits2_pos p)) in *.
  destruct (Z.leb_spec d 53) as [Hd|Hd].
  - cbn [fst snd]. split; [|split; [reflexivity | lia]].
    replace 52 with ((d - 1) + (53 - d)) at 1 by lia.
    replace 53 with (d + (53 - d)) at 4 by lia.
    rewrite !Z.pow_add_r by lia.
    assert (0 < 2 ^ (53 - d)) by (apply Z.pow_pos_nonneg; lia). nia.
  - assert (H52 : 2 ^ 52 <= Zpos p).
    { apply (Z.le_trans _ (2 ^ (d - 1))); [apply Z.pow_le_mono_r; lia | exact Hlo]. }
    destruct (round_formula_normal (Zpos p) 0 loc_Exact H52) as [_ Hb].
    { cbn [Zdigits2]. fold d. lia. }
    split; [exact Hb|]. split; [lia|].
    unfold round_normal. cbn [Zdigits2]. fold d.
    destruct (_ =? 2 ^ 53); cbn [snd]; lia.
Qed.

(** [float64(v)] for a positive [v] below [2 ^ 1023]. *)
Lemma f64_of_int_pos : forall v,
  0 < v -> Zdigits2 v <= 1023 ->
  f64_of_int v
  = S754_finite false (Z.to_pos (fst (of_int_parts v))) (snd (of_int_parts v)).
Proof.
  intros v Hv Hd1023. pose proof (of_int_parts_bounds v Hv) as [Hb [Hsmall Hsnd]].
  unfold f64_of_int, binary_normalize, of_int_parts in *.
  destruct v as [|p|p]; try lia. cbn [Zdigits2] in *.
  pose proof (digits2_bounds p) as [Hlo Hhi].
  set (d := Zpos (digits2_pos p)) in *.
  unfold binary_round, shl_align. rewrite Z.add_0_r. fold d. rewrite fexp_64.
  replace (Z.max (d - 53) (-1074) - 0) with (d - 53) by lia.
  destruct (Z.leb_spec d 53) as [Hd|Hd].
  - cbn [fst snd].
    assert (HM : 2 ^ 52 <= Zpos p * 2 ^ (53 - d) < 2 ^ 53) by exact Hb.
    destruct (Z.eq_dec d 53) as [Heq|Hne].
    + rewrite Heq in *. change (53 - 53) with 0 in *.
      rewrite Z.pow_0_r, Z.mul_1_r in *. cbn [Z.to_pos].
      rewrite rounded_normal_finite; rewrite ?round_normal_53; cbn [fst snd Zdigits2];
        fold d; try lia.
      reflexivity.
    + destruct (d - 53) as [|q|q] eqn:Hq; try lia.
      assert (Hq' : Zpos q = 53 - d) by lia.
      assert (Hit : Zpos (Pos.iter xO p q) = Zpos p * 2 ^ (53 - d))
        by (rewrite pos_iter_xO, Hq'; reflexivity).
      replace (Z.max (Z.neg q) (-1074)) with (Z.neg q) by lia.
      rewrite rounded_normal_finite; rewrite Hit; rewrite ?round_normal_53;
        rewrite ?(Zdigits2_unique (Zpos p * 2 ^ (53 - d)) 53); cbn [fst snd]; try lia.
      rewrite <- Hit. reflexivity.
  - assert (H52 : 2 ^ 52 <= Zpos p).
    { apply (Z.le_trans _ (2 ^ (d - 1))); [apply Z.pow_le_mono_r; lia | exact Hlo]. }
    destruct (d - 53) as [|q|q] eqn:Hq; try lia.
    apply rounded_normal_finite; cbn [Zdigits2]; fold d; lia.
Qed.

(* ----------------------------------------------------------------- *)
(** ** float64: signs and shapes of quotients and products *)

Lemma float_of_rounded_shape : forall me,
  0 <= fst me < 2 ^ 53 ->
  f64_nonneg (float_of_rounded false me) = true
  /\ f64_bounded (float_of_rounded false me).
Proof.
  intros [m e] Hm. unfold float_of_rounded. cbn [fst snd] in *.
  destruct m as [|q|q]; try lia; cbn; auto.
  destruct (e <=? 971); cbn; auto. split; [reflexivity | lia].
Qed.

Lemma round_aux_shape : forall M E l,
  0 <= M ->
  f64_nonneg (binary_round_aux prec emax false M E l) = true
  /\ f64_bounded (binary_round_aux prec emax false M E l).
Proof.
  intros M E l HM.
  destruct (binary_round_aux_formula false M E l HM) as [-> _].
  apply float_of_rounded_shape. now apply round_formula_bounded.
Qed.

Lemma SFdiv_core_nonneg : forall mx ex my ey,
  0 <= fst (fst (SFdiv_core_binary prec emax (Zpos mx) ex (Zpos my) ey)).
Proof.
  intros mx ex my ey. unfold SFdiv_core_binary.
  set (s := _ - _ - _).
  set (m' := match s with Z0 => _ | Zpos _ => _ | Zneg _ => _ end).
  assert (Hm' : 0 <= m').
  { subst m'. destruct s; try lia. apply Z.shiftl_nonneg. lia. }
  pose proof (Z_div_mod m' (Zpos my) ltac:(lia)) as Hdm.
  destruct (Z.div_eucl m' (Zpos my)) as [q r]. cbn [fst].
  destruct Hdm as [Heq Hr]. nia.
Qed.

Lemma f64_div_nonneg : forall p my ey,
  f64_nonneg p = true ->
  f64_nonneg (f64_div p (S754_finite false my ey)) = true.
Proof.
  intros [s|s| |s mx ex] my ey Hp; cbn in Hp; try discriminate; cbn [f64_div SFdiv].
  - reflexivity.
  - destruct s; [discriminate | reflexivity].
  - destruct s; [discriminate|]. cbn [xorb].
    pose proof (SFdiv_core_nonneg mx ex my ey) as Hq.
    destruct (SFdiv_core_binary prec emax (Zpos mx) ex (Zpos my) ey) as [[mz ez] lz].
    cbn [fst] in Hq. now apply round_aux_shape.
Qed.

Lemma f64_mul_nonneg : forall y mn en,
  f64_nonneg y = true ->
  f64_nonneg (f64_mul y (S754_finite false mn en)) = true
  /\ f64_bounded (f64_mul y (S754_finite false mn en)).
Proof.
  intros [s|s| |s mx ex] mn en Hy; cbn in Hy; try discriminate; cbn [f64_mul SFmul].
  - split; [reflexivity | exact I].
  - destruct s; [discriminate | split; [reflexivity | exact I]].
  - destruct s; [discriminate|]. cbn [xorb]. apply round_aux_shape. lia.
Qed.

Lemma Zdigits2_le : forall v n, 0 < v < 2 ^ n -> Zdigits2 v <= n.
Proof.
  intros [|p|p] n Hv; try lia. cbn [Zdigits2].
  pose proof (digits2_bounds p) as [Hlo _].
  assert (0 <= n).
  { destruct (Z_lt_le_dec n 0); [|assumption]. rewrite Z.pow_neg_r in Hv; lia. }
  assert (Zpos (digits2_pos p) - 1 < n) by (apply pow2_lt_exponents; lia).
  lia.
Qed.

Lemma f64_of_int_finite : forall n,
  0 < n <= MaxInt64 ->
  f64_of_int n
  = S754_finite false (Z.to_pos (fst (of_int_parts n))) (snd (of_int_parts n)).
Proof.
  intros n Hn. apply f64_of_int_pos; [lia|].
  unfold MaxInt64 in Hn. pose proof (Zdigits2_le n 63 ltac:(lia)). lia.
Qed.

(** [int(math.Ceil(y))] for a positive bounded [y]: the ceiling when it fits
    in 64 bits. *)
Lemma int_ceil_finite : forall m e,
  Zpos m < 2 ^ 53 ->
  1 <= ceil_finite false m e
  /\ int_of_float64 (math_Ceil (S754_finite false m e))
     = if ceil_finite false m e <=? MaxInt64 then ceil_finite false m e else MinInt64.
Proof.
  intros m e Hm. unfold math_Ceil, ceil_finite.
  destruct (Z.leb_spec 0 e) as [He|He].
  - assert (Hp : 0 < 2 ^ e) by (apply Z.pow_pos_nonneg; lia).
    split; [nia|].
    unfold int_of_float64, trunc_finite.
    destruct (Z.leb_spec 0 e); [|lia].
    destruct (Z.leb_spec MinInt64 (Zpos m * 2 ^ e)); [|unfold MinInt64 in *; nia].
    reflexivity.
  - assert (Hp : 0 < 2 ^ (- e)) by (apply Z.pow_pos_nonneg; lia).
    set (c := - (- Zpos m / 2 ^ (- e))).
    assert (Hc : 1 <= c <= Zpos m).
    { subst c.
      assert (- Zpos m / 2 ^ (- e) < 0) by (apply Z.div_lt_upper_bound; lia).
      assert (- Zpos m <= - Zpos m / 2 ^ (- e)) by (apply Z.div_le_lower_bound; nia).
      lia. }
    split; [lia|].
    destruct (Z.eqb_spec c 0); [lia|].
    assert (Hdc : Zdigits2 c <= 53) by (apply Zdigits2_le; lia).
    rewrite f64_of_int_pos by lia.
    destruct (of_int_parts_bounds c ltac:(lia)) as [Hb [Hsmall _]].
    rewrite (Hsmall Hdc) in *. cbn [fst snd] in *.
    unfold int_of_float64, trunc_finite.
    rewrite Z2Pos.id by lia.
    assert (Hd0 : 0 < Zdigits2 c).
    { destruct c; try lia. reflexivity. }
    assert (Hval : (if 0 <=? Zdigits2 c - 53
                    then c * 2 ^ (53 - Zdigits2 c) * 2 ^ (Zdigits2 c - 53)
                    else c * 2 ^ (53 - Zdigits2 c) / 2 ^ (- (Zdigits2 c - 53))) = c).
    { destruct (Z.leb_spec 0 (Zdigits2 c - 53)).
      - replace (Zdigits2 c) with 53 by lia. simpl. lia.
      - replace (- (Zdigits2 c - 53)) with (53 - Zdigits2 c) by lia.
        apply Z.div_mul. apply Z.pow_nonzero; lia. }
    rewrite Hval. unfold MinInt64, MaxInt64 in *.
    destruct (Z.leb_spec (- 2 ^ 63) c); [|lia].
    destruct (Z.leb_spec c (2 ^ 63 - 1)); [reflexivity | lia].
Qed.

(* ----------------------------------------------------------------- *)
(** ** Metrics engine: the nearest-rank index *)

Lemma percentile_index_product : forall n p,
  percentile_index n p
  = index_of_product n (f64_mul (f64_div p (f64_of_int 100)) (f64_of_int n)).
Proof. reflexivity. Qed.

Lemma wrap_int64_below_min : wrap_int64 (MinInt64 - 1) = MaxInt64.
Proof. reflexivity. Qed.

Lemma index_of_product_spec : forall n y,
  1 <= n <= MaxInt64 -> f64_nonneg y = true -> f64_bounded y ->
  exists c, ceil_ext y = Some c
            /\ index_of_product n y = clamp_ext 0 (n - 1) (pred_ext c)
            /\ 0 <= index_of_product n y < n.
Proof.
  intros n y Hn Hy Hb. unfold index_of_product.
  destruct y as [s|s| |s m e]; cbn in Hy; try discriminate.
  - exists (Finite 0). split; [reflexivity|].
    cbn [math_Ceil int_of_float64 pred_ext clamp_ext].
    change (wrap_int64 (0 - 1)) with (-1). cbn [Z.ltb Z.compare].
    destruct (Z.geb_spec 0 n); lia.
  - destruct s; [discriminate|]. exists PosInfinity. split; [reflexivity|].
    cbn [math_Ceil int_of_float64 pred_ext clamp_ext].
    rewrite wrap_int64_below_min. unfold MaxInt64 in *.
    destruct (Z.ltb_spec (2 ^ 63 - 1) 0); [lia|].
    destruct (Z.geb_spec (2 ^ 63 - 1) n); lia.
  - destruct s; [discriminate|]. cbn [f64_bounded] in Hb.
    exists (Finite (ceil_finite false m e)). split; [reflexivity|].
    destruct (int_ceil_finite m e Hb) as [Hc ->].
    cbn [pred_ext clamp_ext]. set (c := ceil_finite false m e) in *.
    destruct (Z.leb_spec c MaxInt64) as [Hle|Hgt].
    + rewrite wrap_int64_id by (unfold in_int64, MaxInt64 in *; lia).
      destruct (Z.ltb_spec (c - 1) 0); [lia|].
      destruct (Z.geb_spec (c - 1) n); lia.
    + rewrite wrap_int64_below_min. unfold MaxInt64 in *.
      destruct (Z.ltb_spec (2 ^ 63 - 1) 0); [lia|].
      destruct (Z.geb_spec (2 ^ 63 - 1) n); lia.
Qed.

Lemma product_shape : forall n p,
  1 <= n <= MaxInt64 -> f64_nonneg p = true ->
  f64_nonneg (f64_mul (f64_div p (f64_of_int 100)) (f64_of_int n)) = true
  /\ f64_bounded (f64_mul (f64_div p (f64_of_int 100)) (f64_of_int n)).
Proof.
  intros n p Hn Hp. rewrite (f64_of_int_finite n) by lia.
  apply f64_mul_nonneg.
  change (f64_of_int 100) with (S754_finite false 7036874417766400 (-46)).
  now apply f64_div_nonneg.
Qed.

Lemma percentile_index_nearest_rank : forall n p,
  1 <= n <= MaxInt64 -> f64_nonneg p = true ->
  float_rank_index n p = Some (percentile_index n p)
  /\ 0 <= percentile_index n p < n.
Proof.
  intros n p Hn Hp. rewrite percentile_index_product. unfold float_rank_index.
  destruct (product_shape n p Hn Hp) as [Hy Hb].
  destruct (index_of_product_spec n _ Hn Hy Hb) as [c [-> [Hidx Hr]]].
  cbn [option_map]. rewrite Hidx in *. split; [reflexivity | exact Hr].
Qed.

(* ----------------------------------------------------------------- *)
(** ** float64: rounding is monotone *)

Lemma rne_mono_sticky : forall h, rne h false <= rne h true.
Proof.
  intros h. unfold rne. destruct (Z.odd h), (Z.even (h / 2)); lia.
Qed.

Lemma rne_mono_halves : forall h1 h2 s1 s2, h1 < h2 -> rne h1 s1 <= rne h2 s2.
Proof.
  intros h1 h2 s1 s2 Hlt.
  apply (Z.le_trans _ (h2 / 2)); [|apply rne_bounds].
  unfold rne. destruct (Z.odd h1) eqn:Hodd.
  - assert (Hup : h1 / 2 + 1 <= h2 / 2).
    { rewrite (Z.div_mod h1 2) in Hlt by lia. rewrite Zmod_odd, Hodd in Hlt.
      apply Z.div_le_lower_bound; lia. }
    destruct s1, (Z.even (h1 / 2)); lia.
  - apply Z.div_le_mono; lia.
Qed.

Lemma round_normal_shift : forall M E l,
  round_normal M E l
  = (fst (round_normal M 0 l), E + snd (round_normal M 0 l)).
Proof.
  intros M E l. unfold round_normal.
  destruct (_ =? 2 ^ 53); cbn [fst snd]; f_equal; lia.
Qed.

(** The rounded number as a rounded quotient times the weight of the bits
    shifted out. *)
Lemma rounded_value_eq : forall M,
  2 ^ 52 <= M ->
  let k := Zdigits2 M - 53 in
  0 <= k
  /\ rounded_value M
     = rne (shift_halves k (2 * M)) (shift_sticky k (2 * M) false) * 2 ^ k
  /\ 2 ^ (Zdigits2 M - 1) <= rounded_value M <= 2 ^ Zdigits2 M.
Proof.
  intros M HM k.
  destruct (Zdigits2_bounds M ltac:(lia)) as [Hd HMd].
  assert (Hd53 : 53 <= Zdigits2 M).
  { assert (52 < Zdigits2 M) by (apply pow2_lt_exponents; lia). lia. }
  assert (Hk : 0 <= k) by (subst k; lia).
  destruct (round_formula_normal M 0 loc_Exact HM ltac:(lia)) as [_ Hb].
  unfold rounded_value. unfold round_normal in *. fold k in Hb |- *.
  rewrite halves_of_loc_Exact in *. cbn [shr_record_of_loc shr_s] in *.
  set (m1 := rne _ _) in *.
  assert (Hp : 0 < 2 ^ k) by (apply Z.pow_pos_nonneg; lia).
  assert (Hpow : 2 ^ Zdigits2 M = 2 ^ 53 * 2 ^ k).
  { rewrite <- Z.pow_add_r by lia. f_equal. subst k. lia. }
  assert (Hpow' : 2 ^ (Zdigits2 M - 1) = 2 ^ 52 * 2 ^ k).
  { rewrite <- Z.pow_add_r by lia. f_equal. subst k. lia. }
  split; [exact Hk|].
  destruct (Z.eqb_spec m1 (2 ^ 53)) as [Heq|Hne]; cbn [fst snd] in *.
  - rewrite Heq. replace (0 + k + 1) with (k + 1) by lia.
    rewrite Z.pow_add_r by lia. split; [lia|]. rewrite Hpow, Hpow'. nia.
  - replace (0 + k) with k by lia. split; [reflexivity|]. rewrite Hpow, Hpow'. nia.
Qed.

Lemma rounded_value_mono_same_digits : forall M1 M2,
  2 ^ 52 <= M1 -> M1 <= M2 -> Zdigits2 M1 = Zdigits2 M2 ->
  rounded_value M1 <= rounded_value M2.
Proof.
  intros M1 M2 H1 H12 Hd.
  destruct (rounded_value_eq M1 H1) as [Hk [-> _]].
  destruct (rounded_value_eq M2 ltac:(lia)) as [_ [-> _]].
  rewrite <- Hd. set (k := Zdigits2 M1 - 53) in *.
  assert (Hp : 0 < 2 ^ k) by (apply Z.pow_pos_nonneg; lia).
  apply Z.mul_le_mono_nonneg_r; [lia|].
  unfold shift_halves, shift_sticky. cbn [orb].
  assert (Hdiv : 2 * M1 / 2 ^ k <= 2 * M2 / 2 ^ k) by (apply Z.div_le_mono; lia).
  destruct (Z.eq_dec (2 * M1 / 2 ^ k) (2 * M2 / 2 ^ k)) as [Heq|Hne].
  - rewrite <- Heq.
    destruct (Z.eqb_spec ((2 * M1) mod 2 ^ k) 0) as [Hz1|Hz1]; cbn [negb].
    + destruct (negb _); [apply rne_mono_sticky | lia].
    + destruct (Z.eqb_spec ((2 * M2) mod 2 ^ k) 0) as [Hz2|Hz2]; cbn [negb]; [|lia].
      pose proof (Z.div_mod (2 * M1) (2 ^ k) ltac:(lia)).
      pose proof (Z.div_mod (2 * M2) (2 ^ k) ltac:(lia)).
      pose proof (Z.mod_pos_bound (2 * M1) (2 ^ k) Hp). nia.
  - apply rne_mono_halves. lia.
Qed.

Lemma Zdigits2_mono : forall M1 M2, 0 < M1 <= M2 -> Zdigits2 M1 <= Zdigits2 M2.
Proof.
  intros M1 M2 H. destruct (Zdigits2_bounds M2 ltac:(lia)) as [_ H2].
  apply Zdigits2_le. lia.
Qed.

(** Rounding to nearest even is monotone. *)
Lemma rounded_value_mono : forall M1 M2,
  2 ^ 52 <= M1 -> M1 <= M2 -> rounded_value M1 <= rounded_value M2.
Proof.
  intros M1 M2 H1 H12.
  pose proof (Zdigits2_mono M1 M2 ltac:(lia)) as Hd.
  destruct (Z.eq_dec (Zdigits2 M1) (Zdigits2 M2)) as [Heq|Hne].
  - now apply rounded_value_mono_same_digits.
  - destruct (rounded_value_eq M1 H1) as [_ [_ [_ Hup]]].
    destruct (rounded_value_eq M2 ltac:(lia)) as [_ [_ [Hlo _]]].
    apply (Z.le_trans _ (2 ^ Zdigits2 M1)); [exact Hup|].
    apply (Z.le_trans _ (2 ^ (Zdigits2 M2 - 1))); [|exact Hlo].
    destruct (Zdigits2_bounds M1 ltac:(lia)).
    apply Z.pow_le_mono_r; lia.
Qed.

Lemma of_int_parts_value : forall v,
  0 < v ->
  fst (of_int_parts v) * 2 ^ (snd (of_int_parts v) + 52) = of_int_value v * 2 ^ 52
  /\ -52 <= snd (of_int_parts v).
Proof.
  intros v Hv. pose proof (of_int_parts_bounds v Hv) as [_ [Hsmall Hsnd]].
  assert (Hd : 0 < Zdigits2 v) by (destruct v; try lia; reflexivity).
  split; [|lia].
  unfold of_int_value. destruct (Z.leb_spec (Zdigits2 v) 53) as [Hle|Hgt].
  - rewrite (Hsmall Hle). cbn [fst snd].
    rewrite <- Z.mul_assoc, <- Z.pow_add_r by lia. do 2 f_equal. lia.
  - unfold of_int_parts. destruct (Z.leb_spec (Zdigits2 v) 53); [lia|].
    unfold rounded_value.
    assert (0 <= snd (round_normal v 0 loc_Exact)).
    { unfold round_normal. destruct (_ =? 2 ^ 53); cbn [snd]; lia. }
    rewrite Z.pow_add_r by lia. lia.
Qed.

Lemma of_int_value_mono : forall a b,
  0 < a -> a <= b -> of_int_value a <= of_int_value b.
Proof.
  intros a b Ha Hab. unfold of_int_value.
  pose proof (Zdigits2_mono a b ltac:(lia)) as Hd.
  assert (Hbig : forall v, 0 < v -> 53 < Zdigits2 v -> 2 ^ 53 <= v).
  { intros v Hv Hdv. destruct v as [|p|p]; try lia. cbn [Zdigits2] in Hdv.
    pose proof (digits2_bounds p) as [Hlo _].
    apply (Z.le_trans _ (2 ^ (Zpos (digits2_pos p) - 1))); [|exact Hlo].
    apply Z.pow_le_mono_r; lia. }
  destruct (Z.leb_spec (Zdigits2 a) 53) as [Ha53|Ha53];
    destruct (Z.leb_spec (Zdigits2 b) 53) as [Hb53|Hb53]; try lia.
  - destruct (Zdigits2_bounds a ltac:(lia)) as [_ Hau].
    destruct (rounded_value_eq b) as [_ [_ [Hlo _]]].
    { specialize (Hbig b ltac:(lia) Hb53). lia. }
    apply (Z.le_trans _ (2 ^ 53)).
    + apply Z.lt_le_incl, (Z.lt_le_trans _ (2 ^ Zdigits2 a)); [exact Hau|].
      apply Z.pow_le_mono_r; lia.
    + apply (Z.le_trans _ (2 ^ (Zdigits2 b - 1))); [|exact Hlo].
      apply Z.pow_le_mono_r; lia.
  - apply rounded_value_mono; [|exact Hab].
    specialize (Hbig a Ha Ha53). lia.
Qed.

(** The order of two positive normal numbers is the order of their
    values. *)
Lemma f64_leb_finite : forall m1 e1 m2 e2,
  2 ^ 52 <= Zpos m1 < 2 ^ 53 -> 2 ^ 52 <= Zpos m2 < 2 ^ 53 ->
  -52 <= e1 -> -52 <= e2 ->
  Zpos m1 * 2 ^ (e1 + 52) <= Zpos m2 * 2 ^ (e2 + 52) ->
  f64_leb (S754_finite false m1 e1) (S754_finite false m2 e2) = true.
Proof.
  intros m1 e1 m2 e2 H1 H2 He1 He2 Hle.
  unfold f64_leb, SFleb, SFcompare.
  destruct (Z.compare_spec e1 e2) as [Heq|Hlt|Hgt].
  - subst e2. assert (Hp : 0 < 2 ^ (e1 + 52)) by (apply Z.pow_pos_nonneg; lia).
    assert (Hm : Zpos m1 <= Zpos m2) by nia.
    change (Pos.compare_cont Eq m1 m2) with (Pos.compare m1 m2).
    destruct (Pos.compare_spec m1 m2); try reflexivity. lia.
  - reflexivity.
  - exfalso.
    assert (Hp : 0 < 2 ^ (e2 + 52)) by (apply Z.pow_pos_nonneg; lia).
    assert (Hpow : 2 * 2 ^ (e2 + 52) <= 2 ^ (e1 + 52)).
    { rewrite <- Z.pow_succ_r by lia. apply Z.pow_le_mono_r; lia. }
    nia.
Qed.

Lemma f64_of_int_mono : forall a b,
  0 <= a -> a <= b -> b <= MaxInt64 ->
  f64_leb (f64_of_int a) (f64_of_int b) = true.
Proof.
  intros a b Ha Hab Hb.
  destruct (Z.eq_dec b 0) as [->|Hb0].
  - replace a with 0 by lia. reflexivity.
  - rewrite (f64_of_int_finite b) by lia.
    destruct (Z.eq_dec a 0) as [->|Ha0]; [reflexivity|].
    rewrite (f64_of_int_finite a) by lia.
    destruct (of_int_parts_bounds a ltac:(lia)) as [Hba _].
    destruct (of_int_parts_bounds b ltac:(lia)) as [Hbb _].
    destruct (of_int_parts_value a ltac:(lia)) as [Hva Hsa].
    destruct (of_int_parts_value b ltac:(lia)) as [Hvb Hsb].
    apply f64_leb_finite; rewrite ?Z2Pos.id by lia; try assumption.
    rewrite Hva, Hvb. apply Z.mul_le_mono_nonneg_r; [lia|].
    apply of_int_value_mono; lia.
Qed.

(* ----------------------------------------------------------------- *)
(** ** Sorting *)

Lemma insert_sorted_perm : forall x l, Permutation (insert_sorted x l) (x :: l).
Proof.
  intros x l. induction l as [|y l IH]; cbn [insert_sorted]; [reflexivity|].
  destruct (x <=? y); [reflexivity|].
  rewrite IH. apply perm_swap.
Qed.

Lemma sort_int64_perm : forall l, Permutation (sort_int64 l) l.
Proof.
  induction l as [|x l IH]; cbn [sort_int64]; [reflexivity|].
  rewrite insert_sorted_perm. now apply perm_skip.
Qed.

Lemma insert_sorted_sorted : forall x l,
  StronglySorted Z.le l -> StronglySorted Z.le (insert_sorted x l).
Proof.
  intros x l Hs. induction Hs as [|y l Hs IH Hall]; cbn [insert_sorted].
  - repeat constructor.
  - destruct (Z.leb_spec x y) as [Hle|Hgt].
    + constructor; [now constructor|].
      constructor; [exact Hle|].
      eapply Forall_impl; [|exact Hall]. intros z Hz. cbn in Hz. lia.
    + constructor; [exact IH|].
      apply (Permutation_Forall (Permutation_sym (insert_sorted_perm x l))).
      constructor; [lia | exact Hall].
Qed.

Lemma sort_int64_sorted : forall l, StronglySorted Z.le (sort_int64 l).
Proof.
  induction l as [|x l IH]; cbn [sort_int64]; [constructor|].
  now apply insert_sorted_sorted.
Qed.

Lemma sorted_nth_mono : forall l i j,
  StronglySorted Z.le l -> (i <= j < List.length l)%nat ->
  nth i l 0 <= nth j l 0.
Proof.
  intros l i j Hs. revert i j.
  induction Hs as [|x l Hs IH Hall]; intros i j Hij; cbn [List.length] in Hij; [lia|].
  destruct i as [|i], j as [|j]; cbn [nth]; try lia.
  - rewrite Forall_forall in Hall. apply Hall. apply nth_In. lia.
  - apply IH. lia.
Qed.

(* ----------------------------------------------------------------- *)
(** ** Metrics engine: the percentiles are monotone *)

Lemma ceil_finite_scaled : forall m e e0,
  0 <= e0 -> 0 < e0 - e ->
  ceil_finite false m e = - ((- (Zpos m * 2 ^ e0)) / 2 ^ (e0 - e)).
Proof.
  intros m e e0 He0 Hd. unfold ceil_finite.
  assert (Hp0 : 0 < 2 ^ e0) by (apply Z.pow_pos_nonneg; lia).
  destruct (Z.leb_spec 0 e) as [He|He].
  - replace e0 with (e + (e0 - e)) at 1 by lia.
    rewrite Z.pow_add_r by lia.
    replace (- (Zpos m * (2 ^ e * 2 ^ (e0 - e)))) with (- (Zpos m * 2 ^ e) * 2 ^ (e0 - e)) by lia.
    rewrite Z.div_mul by (apply Z.pow_nonzero; lia). lia.
  - replace (e0 - e) with (- e + e0) by lia.
    rewrite Z.pow_add_r by lia.
    replace (- (Zpos m * 2 ^ e0)) with (- Zpos m * 2 ^ e0) by lia.
    rewrite Z.div_mul_cancel_r; [reflexivity | apply Z.pow_nonzero; lia | lia].
Qed.

Lemma index_of_product_finite : forall n m e,
  1 <= n <= MaxInt64 -> Zpos m < 2 ^ 53 ->
  index_of_product n (S754_finite false m e)
  = Z.min (n - 1) (ceil_finite false m e - 1).
Proof.
  intros n m e Hn Hm.
  destruct (index_of_product_spec n (S754_finite false m e) Hn eq_refl Hm)
    as [c [Hc [Hidx _]]].
  cbn [ceil_ext] in Hc. injection Hc as <-.
  rewrite Hidx. cbn [pred_ext clamp_ext].
  destruct (int_ceil_finite m e Hm) as [Hc1 _]. lia.
Qed.

Lemma index_of_product_scaled : forall n mc,
  1 <= n <= MaxInt64 -> 2 ^ 52 <= Zpos mc < 2 ^ 53 ->
  index_of_product n (f64_mul (S754_finite false mc (-53)) (f64_of_int n))
  = scaled_index n (Zpos mc).
Proof.
  intros n mc Hn Hmc. rewrite (f64_of_int_finite n) by lia.
  destruct (of_int_parts_bounds n ltac:(lia)) as [Hmn [_ Hen]].
  assert (Hdn : 0 < Zdigits2 n <= 63).
  { split; [destruct n; try lia; reflexivity|].
    unfold MaxInt64 in Hn. apply Zdigits2_le. lia. }
  unfold scaled_index.
  set (mn := fst (of_int_parts n)) in *. set (en := snd (of_int_parts n)) in *.
  cbn [f64_mul SFmul xorb].
  set (M := Zpos (mc * Z.to_pos mn)).
  assert (HM : M = Zpos mc * mn).
  { subst M. rewrite Pos2Z.inj_mul, Z2Pos.id by lia. reflexivity. }
  assert (HMb : 2 ^ 104 <= M < 2 ^ 106).
  { change (2 ^ 104) with (2 ^ 52 * 2 ^ 52). change (2 ^ 106) with (2 ^ 53 * 2 ^ 53). nia. }
  assert (HdM : 105 <= Zdigits2 M <= 106).
  { destruct (Zdigits2_bounds M ltac:(lia)) as [Hd0 Hup].
    assert (104 < Zdigits2 M) by (apply pow2_lt_exponents; lia).
    pose proof (Zdigits2_le M 106 ltac:(lia)). lia. }
  assert (Hsnd0 : 0 <= snd (round_normal M 0 loc_Exact) <= 54).
  { unfold round_normal. destruct (_ =? 2 ^ 53); cbn [snd]; lia. }
  assert (Hshift := round_normal_shift M (-53 + en) loc_Exact).
  destruct (round_formula_normal M (-53 + en) loc_Exact ltac:(lia) ltac:(lia)) as [_ Hb].
  rewrite rounded_normal_finite by (rewrite ?Hshift; cbn [snd]; lia).
  rewrite Hshift in *. cbn [fst snd] in *.
  set (m0 := fst (round_normal M 0 loc_Exact)) in *.
  set (e0 := snd (round_normal M 0 loc_Exact)) in *.
  rewrite index_of_product_finite by (rewrite ?Z2Pos.id; lia).
  rewrite (ceil_finite_scaled _ _ e0) by lia.
  rewrite Z2Pos.id by lia.
  replace (e0 - (-53 + en + e0)) with (53 - en) by lia.
  unfold rounded_value. fold m0 e0. rewrite <- HM. reflexivity.
Qed.

Lemma scaled_index_mono : forall n mc1 mc2,
  1 <= n <= MaxInt64 -> 2 ^ 52 <= mc1 -> mc1 <= mc2 ->
  scaled_index n mc1 <= scaled_index n mc2.
Proof.
  intros n mc1 mc2 Hn H1 H12. unfold scaled_index.
  destruct (of_int_parts_bounds n ltac:(lia)) as [Hmn [_ Hen]].
  assert (Hdn : Zdigits2 n <= 63).
  { unfold MaxInt64 in Hn. apply Zdigits2_le. lia. }
  set (mn := fst (of_int_parts n)) in *. set (en := snd (of_int_parts n)) in *.
  assert (Hv : rounded_value (mc1 * mn) <= rounded_value (mc2 * mn)).
  { apply rounded_value_mono; nia. }
  assert (Hp : 0 < 2 ^ (53 - en)) by (apply Z.pow_pos_nonneg; lia).
  assert (- rounded_value (mc2 * mn) / 2 ^ (53 - en)
          <= - rounded_value (mc1 * mn) / 2 ^ (53 - en))
    by (apply Z.div_le_mono; lia).
  lia.
Qed.

Lemma percentile_index_fraction : forall n p,
  1 <= n <= MaxInt64 -> In p [50; 90; 95; 99] ->
  percentile_index n (f64_of_int p) = scaled_index n (fraction_mantissa p).
Proof.
  intros n p Hn Hp. rewrite percentile_index_product.
  cbn [In] in Hp.
  destruct Hp as [<-|[<-|[<-|[<-|[]]]]];
    match goal with
    | |- context [f64_div (f64_of_int ?p) (f64_of_int 100)] =>
        let c := eval vm_compute in (f64_div (f64_of_int p) (f64_of_int 100)) in
        change (f64_div (f64_of_int p) (f64_of_int 100)) with c
    end;
    rewrite index_of_product_scaled
      by (first [exact Hn | split; [apply Z.leb_le | apply Z.ltb_lt]; reflexivity]);
    reflexivity.
Qed.

Lemma percentile_index_mono : forall n,
  1 <= n <= MaxInt64 ->
  percentile_index n (f64_of_int 50) <= percentile_index n (f64_of_int 90)
  /\ percentile_index n (f64_of_int 90) <= percentile_index n (f64_of_int 95)
  /\ percentile_index n (f64_of_int 95) <= percentile_index n (f64_of_int 99)
  /\ 0 <= percentile_index n (f64_of_int 50)
  /\ percentile_index n (f64_of_int 99) <= n - 1.
Proof.
  intros n Hn.
  pose proof (percentile_index_nearest_rank n (f64_of_int 50) Hn eq_refl) as [_ H50].
  pose proof (percentile_index_nearest_rank n (f64_of_int 99) Hn eq_refl) as [_ H99].
  rewrite !percentile_index_fraction in * by (cbn [In]; auto).
  assert (Hm : forall p q, 2 ^ 52 <= fraction_mantissa p ->
                           fraction_mantissa p <= fraction_mantissa q ->
                           scaled_index n (fraction_mantissa p)
                           <= scaled_index n (fraction_mantissa q))
    by (intros; now apply scaled_index_mono).
  split; [apply Hm; apply Z.leb_le; reflexivity|].
  split; [apply Hm; apply Z.leb_le; reflexivity|].
  split; [apply Hm; apply Z.leb_le; reflexivity|].
  lia.
Qed.

Lemma sorted_samples_facts : forall durations,
  Forall in_int64 durations -> len durations <= MaxInt64 ->
  let vals := sort_int64 (filter successful durations) in
  len vals = len (filter successful durations)
  /\ len vals <= MaxInt64
  /\ StronglySorted Z.le vals
  /\ (forall x, In x vals -> 0 <= x <= MaxInt64).
Proof.
  intros durations Hall Hlen vals.
  pose proof (sort_int64_perm (filter successful durations)) as Hperm. fold vals in Hperm.
  assert (Hl : len vals = len (filter successful durations))
    by (unfold len; now rewrite (Permutation_length Hperm)).
  split; [exact Hl|]. split.
  - rewrite Hl. pose proof (filter_length_le successful durations). unfold len in *. lia.
  - split; [apply sort_int64_sorted|].
    intros x Hx. apply (Permutation_in _ Hperm) in Hx.
    apply filter_In in Hx as [Hin Hs].
    rewrite Forall_forall in Hall. specialize (Hall x Hin).
    unfold successful in Hs. unfold in_int64, MaxInt64 in *.
    destruct (Z.ltb_spec x 0); [discriminate | lia].
Qed.

(** C4: whatever the samples, the statistics of [computeMetrics] are
    ordered, [p50 <= p90 <= p95 <= p99 <= max], as float64 numbers: the
    nearest-rank indices of the four percentiles on [n] samples are
    ordered, the last one is at most [n - 1], the samples are sorted, and
    the conversion of an integer to float64 is monotone. *)
Theorem C4_percentiles_ordered : forall durations successCount,
  0 <= successCount -> Forall in_int64 durations -> len durations <= MaxInt64 ->
  exists m,
    computeMetrics durations successCount = Returns m
    /\ f64_leb (m_p50 m) (m_p90 m) = true
    /\ f64_leb (m_p90 m) (m_p95 m) = true
    /\ f64_leb (m_p95 m) (m_p99 m) = true
    /\ f64_leb (m_p99 m) (m_max m) = true.
Proof.
  intros durations sc Hsc Hall Hlen. unfold computeMetrics.
  destruct (Z.eqb_spec sc 0); [exists zero_metrics; repeat split|].
  destruct (Z.ltb_spec sc 0); [lia|].
  destruct (sorted_samples_facts durations Hall Hlen) as [Hl [Hmax [Hsorted Hrange]]].
  destruct (Z.eqb_spec (len (filter successful durations)) 0) as [Hz|Hnz];
    [exists zero_metrics; repeat split|].
  set (vals := sort_int64 (filter successful durations)) in *.
  assert (Hn : 1 <= len vals <= MaxInt64).
  { pose proof (len_nonneg (filter successful durations)). lia. }
  eexists. split; [reflexivity|]. cbn [m_p50 m_p90 m_p95 m_p99 m_max].
  unfold percentile. destruct (Z.eqb_spec (len vals) 0); [lia|].
  destruct (percentile_index_mono (len vals) Hn) as [H1 [H2 [H3 [H0 H4]]]].
  assert (Hmono : forall i j, 0 <= i -> i <= j -> j <= len vals - 1 ->
            f64_leb (f64_of_int (nth (Z.to_nat i) vals 0))
                    (f64_of_int (nth (Z.to_nat j) vals 0)) = true).
  { intros i j Hi Hij Hj.
    assert (Hlt : (Z.to_nat i <= Z.to_nat j < List.length vals)%nat)
      by (unfold len in *; lia).
    apply f64_of_int_mono.
    - apply Hrange. apply nth_In. lia.
    - apply sorted_nth_mono; assumption.
    - apply Hrange. apply nth_In. lia. }
  repeat split; apply Hmono; lia.
Qed.

Lemma C4_percentiles_witness :
  exists m,
    computeMetrics [30; -1; 10; 20; -1; 40] 4 = Returns m
    /\ f64_leb (m_p50 m) (m_p90 m) = true
    /\ f64_leb (m_p90 m) (m_p95 m) = true
    /\ f64_leb (m_p95 m) (m_p99 m) = true
    /\ f64_leb (m_p99 m) (m_max m) = true.
Proof.
  apply (C4_percentiles_ordered [30; -1; 10; 20; -1; 40] 4).
  - lia.
  - repeat constructor; vm_compute; discriminate.
  - vm_compute. discriminate.
Defined.

(* ----------------------------------------------------------------- *)
(** ** float64: the quotient of two integers *)

Lemma new_location_quotient : forall m r,
  0 < m -> 0 <= r < m -> new_location m r = quotient_location m r.
Proof.
  intros m r Hm Hr. unfold new_location, quotient_location.
  destruct (Z.even m) eqn:Hev.
  - reflexivity.
  - unfold new_location_odd. destruct (r =? 0); [reflexivity|]. f_equal.
    assert (Hodd : Z.odd m = true) by (rewrite <- Z.negb_even, Hev; reflexivity).
    pose proof (Zmod_odd m) as Hmod. rewrite Hodd in Hmod.
    pose proof (Z.div_mod m 2 ltac:(lia)) as Hdm. rewrite Hmod in Hdm.
    destruct (Z.compare_spec (2 * r + 1) m); destruct (Z.compare_spec (2 * r) m);
      try reflexivity; lia.
Qed.

Lemma quotient_location_scale : forall m r c,
  0 < c -> quotient_location (m * c) (r * c) = quotient_location m r.
Proof.
  intros m r c Hc. unfold quotient_location.
  destruct (Z.eqb_spec r 0) as [->|Hr].
  - reflexivity.
  - destruct (Z.eqb_spec (r * c) 0); [nia|]. f_equal.
    destruct (Z.compare_spec (2 * (r * c)) (m * c));
      destruct (Z.compare_spec (2 * r) m); try reflexivity; nia.
Qed.

Lemma round_normal_value : forall M l,
  2 ^ 52 <= M ->
  let k := Zdigits2 M - 53 in
  let mrs := shr_record_of_loc M l in
  0 <= k
  /\ fst (round_normal M 0 l) * 2 ^ snd (round_normal M 0 l)
     = rne (shift_halves k (halves mrs)) (shift_sticky k (halves mrs) (shr_s mrs)) * 2 ^ k
  /\ 0 <= snd (round_normal M 0 l).
Proof.
  intros M l HM k mrs.
  destruct (Zdigits2_bounds M ltac:(lia)) as [Hd HMd].
  assert (Hd53 : 53 <= Zdigits2 M).
  { assert (52 < Zdigits2 M) by (apply pow2_lt_exponents; lia). lia. }
  assert (Hk : 0 <= k) by (subst k; lia).
  split; [exact Hk|].
  unfold round_normal. fold k mrs. set (m1 := rne _ _).
  destruct (Z.eqb_spec m1 (2 ^ 53)) as [Heq|Hne]; cbn [fst snd].
  - rewrite Heq. replace (0 + k + 1) with (1 + k) by lia.
    rewrite Z.pow_add_r by lia. split; [|lia]. change (2 ^ 53) with (2 ^ 52 * 2 ^ 1). lia.
  - replace (0 + k) with k by lia. split; [reflexivity | lia].
Qed.

Lemma rne_cases : forall h s,
  (Z.odd h = false /\ rne h s = h / 2)
  \/ (Z.odd h = true /\ s = true /\ rne h s = h / 2 + 1)
  \/ (Z.odd h = true /\ s = false /\ h / 2 <= rne h s <= h / 2 + 1).
Proof.
  intros h s. unfold rne.
  destruct (Z.odd h); [|now left]. right.
  destruct s; [left; auto | right].
  repeat split; destruct (Z.even (h / 2)); lia.
Qed.

Lemma ceil_between : forall v k t,
  0 < t -> (k - 1) * t < v <= k * t -> - ((- v) / t) = k.
Proof.
  intros v k t Ht Hv.
  assert (- v / t = - k); [|lia].
  symmetry. apply (Z.div_unique _ t (- k) (k * t - v)); lia.
Qed.

(** The quotient of [n] by [m], scaled by [2 ^ t] and rounded to 53 or 54
    digits, has the ceiling of [n / m] when [m < 2 ^ t]: the rounding never
    reaches an integer from the other side. *)
Lemma quotient_rounded_ceil : forall n m t,
  0 < m -> m < n -> 1 <= t -> m < 2 ^ t ->
  2 ^ 52 <= n * 2 ^ t / m < 2 ^ 54 ->
  - ((- quotient_rounded (n * 2 ^ t) m) / 2 ^ t) = ceil_div n m.
Proof.
  intros n m t Hm Hmn Ht Hmt Hq.
  assert (Hpt : 0 < 2 ^ t) by (apply Z.pow_pos_nonneg; lia).
  assert (Heven : exists u, 2 ^ t = 2 * u /\ 0 < u).
  { exists (2 ^ (t - 1)). split; [|apply Z.pow_pos_nonneg; lia].
    rewrite <- Z.pow_succ_r by lia. f_equal. lia. }
  destruct Heven as [u [Hu Hu0]].
  set (K := ceil_div n m).
  assert (HK : (K - 1) * m < n <= K * m).
  { subst K. unfold ceil_div.
    pose proof (Z.div_mod (n + m - 1) m ltac:(lia)).
    pose proof (Z.mod_pos_bound (n + m - 1) m Hm). nia. }
  set (A := n * 2 ^ t) in *.
  set (q := A / m) in *. set (r := A mod m).
  assert (HA : A = m * q + r) by (apply Z.div_mod; lia).
  assert (Hr : 0 <= r < m) by (apply Z.mod_pos_bound; lia).
  set (B := (K - 1) * 2 ^ t).
  assert (HAB : 2 ^ t <= A - B * m) by (subst A B; nia).
  assert (HAB' : A <= (B + 2 ^ t) * m) by (subst A B; nia).
  assert (HqB : B + 1 <= q) by nia.
  assert (HqB' : q <= B + 2 ^ t) by nia.
  assert (Hqr : q = B + 2 ^ t -> r = 0) by nia.
  assert (Hq1 : q = B + 1 -> r <> 0) by nia.
  apply ceil_between; [exact Hpt|].
  fold B. replace (K * 2 ^ t) with (B + 2 ^ t) by (subst B; lia).
  unfold quotient_rounded. fold q r.
  destruct (round_normal_value q (quotient_location m r) ltac:(lia)) as [Hk [-> _]].
  set (k := Zdigits2 q - 53) in *.
  set (mrs := shr_record_of_loc q (quotient_location m r)).
  assert (Hh : halves mrs = 2 * q + (if (r =? 0) then 0 else if 2 * r <? m then 0 else 1)
               /\ shr_s mrs = (if (r =? 0) then false else negb (2 * r =? m))).
  { subst mrs. unfold quotient_location, halves.
    destruct (Z.eqb_spec r 0); [cbn; split; [lia | reflexivity]|].
    destruct (Z.compare_spec (2 * r) m); cbn [shr_record_of_loc shr_m shr_r shr_s Z.b2z];
      destruct (Z.ltb_spec (2 * r) m); destruct (Z.eqb_spec (2 * r) m);
      cbn [negb]; split; try reflexivity; lia. }
  destruct Hh as [Hh Hs]. rewrite Hh, Hs.
  destruct (Z_lt_le_dec q (2 ^ 53)) as [Hsmall|Hlarge].
  - assert (Hk0 : k = 0) by (subst k; rewrite (Zdigits2_unique q 53); lia).
    rewrite Hk0, shift_halves_0, shift_sticky_0, Z.pow_0_r, Z.mul_1_r.
    set (h := 2 * q + _). set (s := if r =? 0 then false else _).
    assert (Hhq : h / 2 = q /\ (Z.odd h = true -> r <> 0)).
    { subst h. destruct (Z.eqb_spec r 0).
      - rewrite Z.add_0_r, Z.mul_comm, Z.odd_mul, Z.div_mul by lia.
        cbn [Z.odd]. rewrite andb_false_r. split; [reflexivity | discriminate].
      - destruct (2 * r <? m).
        + rewrite Z.add_0_r, Z.mul_comm, Z.odd_mul, Z.div_mul by lia.
          cbn [Z.odd]. rewrite andb_false_r. split; [reflexivity | discriminate].
        + split; [|auto]. rewrite Z.add_comm, Z.mul_comm, Z.div_add by lia.
          simpl. lia. }
    destruct Hhq as [Hhq Hodd].
    destruct (rne_cases h s) as [[_ ->]|[[Ho [_ ->]]|[Ho [_ Hb]]]];
      rewrite ?Hhq in *; try (specialize (Hodd Ho)); lia.
  - assert (Hk1 : k = 1) by (subst k; rewrite (Zdigits2_unique q 54); lia).
    rewrite Hk1. unfold shift_halves, shift_sticky. rewrite Z.pow_1_r.
    set (b := if r =? 0 then 0 else if 2 * r <? m then 0 else 1).
    assert (Hb : 0 <= b <= 1 /\ (r = 0 -> b = 0)).
    { subst b. destruct (Z.eqb_spec r 0); [lia|]. destruct (2 * r <? m); lia. }
    assert (Hdiv : (2 * q + b) / 2 = q).
    { symmetry. apply (Z.div_unique _ 2 q b); lia. }
    assert (Hmod : (2 * q + b) mod 2 = b).
    { symmetry. apply (Z.mod_unique _ 2 q b); lia. }
    rewrite Hdiv, Hmod.
    set (s := (_ || _)%bool).
    assert (Hs' : r <> 0 -> s = true).
    { intros Hr0. subst s b. destruct (Z.eqb_spec r 0); [contradiction|].
      destruct (Z.ltb_spec (2 * r) m); destruct (Z.eqb_spec (2 * r) m);
        cbn; try reflexivity; lia. }
    pose proof (Z.div_mod q 2 ltac:(lia)) as Hq2.
    rewrite (Zmod_odd q) in Hq2.
    destruct (rne_cases q s) as [[Ho ->]|[[Ho [_ ->]]|[Ho [Hsf Hbd]]]];
      rewrite Ho in Hq2.
    + lia.
    + lia.
    + assert (r = 0).
      { destruct (Z.eq_dec r 0); [assumption|]. rewrite Hs' in Hsf by assumption.
        discriminate. }
      assert (q <> B + 1) by (intros ->; now apply Hq1).
      lia.
Qed.

Lemma of_int_small : forall v,
  0 < v < 2 ^ 53 ->
  let d := Zdigits2 v in
  0 < d <= 53
  /\ 2 ^ (d - 1) <= v < 2 ^ d
  /\ 2 ^ 52 <= v * 2 ^ (53 - d) < 2 ^ 53
  /\ f64_of_int v = S754_finite false (Z.to_pos (v * 2 ^ (53 - d))) (d - 53).
Proof.
  intros v Hv d.
  assert (Hd : d <= 53) by (apply Zdigits2_le; lia).
  destruct (of_int_parts_bounds v ltac:(lia)) as [Hb [Hsmall _]].
  specialize (Hsmall Hd). fold d in Hsmall.
  assert (Hd0 : 0 < d /\ 2 ^ (d - 1) <= v < 2 ^ d).
  { subst d. destruct v as [|p|p]; try lia. cbn [Zdigits2].
    split; [lia | apply digits2_bounds]. }
  rewrite Hsmall in Hb. cbn [fst] in Hb.
  repeat split; try lia.
  rewrite f64_of_int_pos by (fold d; lia). now rewrite Hsmall.
Qed.

(** The float64 quotient of two integers below [2 ^ 53]. *)
Lemma f64_div_ints : forall n m,
  0 < m -> m < n -> n < 2 ^ 53 ->
  let t := 53 - Zdigits2 n + Zdigits2 m in
  let q := n * 2 ^ t / m in
  let l := quotient_location m ((n * 2 ^ t) mod m) in
  1 <= t <= 53 /\ m < 2 ^ t /\ 2 ^ 52 <= q < 2 ^ 54
  /\ f64_div (f64_of_int n) (f64_of_int m)
     = S754_finite false (Z.to_pos (fst (round_normal q (- t) l)))
         (snd (round_normal q (- t) l)).
Proof.
  intros n m Hm Hmn Hn t q l.
  destruct (of_int_small n ltac:(lia)) as [Hdn [Hnb [Hmx ->]]].
  destruct (of_int_small m ltac:(lia)) as [Hdm [Hmb [Hmy ->]]].
  set (dn := Zdigits2 n) in *. set (dm := Zdigits2 m) in *.
  assert (Hdd : dm <= dn).
  { subst dn dm. apply Zdigits2_mono. lia. }
  assert (Ht : 1 <= t <= 53) by (subst t; lia).
  assert (Hpt : 0 < 2 ^ t) by (apply Z.pow_pos_nonneg; lia).
  assert (Hmt : m < 2 ^ t).
  { apply (Z.lt_le_trans _ (2 ^ dm)); [lia|]. apply Z.pow_le_mono_r; lia. }
  set (c := 2 ^ (53 - dm)) in *.
  assert (Hc : 0 < c) by (apply Z.pow_pos_nonneg; lia).
  assert (HA : n * 2 ^ (53 - dn) * 2 ^ 53 = n * 2 ^ t * c).
  { subst c t. rewrite <- !Z.mul_assoc, <- !Z.pow_add_r by lia. do 2 f_equal. lia. }
  assert (Hq : 2 ^ 52 <= q < 2 ^ 54).
  { subst q. split.
    - apply Z.div_le_lower_bound; [lia|].
      apply (Z.le_trans _ (2 ^ (dn - 1) * 2 ^ t)).
      + rewrite <- Z.pow_add_r by lia. replace (dn - 1 + t) with (52 + dm) by lia.
        rewrite Z.pow_add_r by lia. nia.
      + apply Z.mul_le_mono_nonneg_r; lia.
    - apply Z.div_lt_upper_bound; [lia|].
      apply (Z.lt_le_trans _ (2 ^ dn * 2 ^ t)).
      + apply Z.mul_lt_mono_pos_r; lia.
      + rewrite <- Z.pow_add_r by lia. replace (dn + t) with (54 + (dm - 1)) by lia.
        rewrite Z.pow_add_r by lia. nia. }
  split; [exact Ht|]. split; [exact Hmt|]. split; [exact Hq|].
  cbn [f64_div SFdiv xorb]. unfold SFdiv_core_binary.
  rewrite !Z2Pos.id by lia.
  rewrite (Zdigits2_unique (n * 2 ^ (53 - dn)) 53) by lia.
  rewrite (Zdigits2_unique (m * c) 53) by lia.
  rewrite fexp_64.
  replace (Z.min (Z.max (53 + (dn - 53) - (53 + (dm - 53)) - 53) (-1074))
             (dn - 53 - (dm - 53))) with (- t) by lia.
  replace (dn - 53 - (dm - 53) - - t) with 53 by lia.
  rewrite Z.shiftl_mul_pow2 by lia. rewrite HA.
  pose proof (Z.div_mul_cancel_r (n * 2 ^ t) m c ltac:(lia) ltac:(lia)) as Hdiv.
  pose proof (Z.mul_mod_distr_r (n * 2 ^ t) m c ltac:(lia) ltac:(lia)) as Hmod.
  unfold Z.div, Z.modulo in Hdiv, Hmod.
  destruct (Z.div_eucl (n * 2 ^ t * c) (m * c)) as [q0 r0].
  assert (Hq0 : q0 = q) by (subst q; unfold Z.div; exact Hdiv).
  assert (Hr0 : r0 = (n * 2 ^ t) mod m * c) by (unfold Z.modulo; exact Hmod).
  subst q0 r0.
  pose proof (Z.mod_pos_bound (n * 2 ^ t) m Hm) as Hr.
  rewrite new_location_quotient by nia.
  rewrite quotient_location_scale by exact Hc. fold l.
  assert (Hsnd : 0 <= snd (round_normal q 0 l) <= 2).
  { unfold round_normal.
    assert (53 <= Zdigits2 q <= 54).
    { destruct (Zdigits2_bounds q ltac:(lia)) as [Hd0 Hup].
      assert (52 < Zdigits2 q) by (apply pow2_lt_exponents; lia).
      pose proof (Zdigits2_le q 54 ltac:(lia)). lia. }
    destruct (_ =? 2 ^ 53); cbn [snd]; lia. }
  assert (53 <= Zdigits2 q).
  { destruct (Zdigits2_bounds q ltac:(lia)) as [Hd0 Hup].
    assert (52 < Zdigits2 q) by (apply pow2_lt_exponents; lia). lia. }
  apply rounded_normal_finite; try lia.
  rewrite round_normal_shift. cbn [snd]. lia.
Qed.

(** The step of [sampleIndices] is the exact [ceil(n / maxPoints)] for a
    series shorter than [2 ^ 53]. *)
Lemma sample_step_exact : forall n m,
  0 < m -> m < n -> n < 2 ^ 53 -> sample_step n m = ceil_div n m.
Proof.
  intros n m Hm Hmn Hn. unfold sample_step.
  destruct (f64_div_ints n m Hm Hmn Hn) as [Ht [Hmt [Hq ->]]].
  set (t := 53 - Zdigits2 n + Zdigits2 m) in *.
  set (q := n * 2 ^ t / m) in *.
  set (l := quotient_location m ((n * 2 ^ t) mod m)) in *.
  assert (H53 : 53 <= Zdigits2 q).
  { destruct (Zdigits2_bounds q ltac:(lia)) as [Hd0 Hup].
    assert (52 < Zdigits2 q) by (apply pow2_lt_exponents; lia). lia. }
  destruct (round_formula_normal q (- t) l ltac:(lia) ltac:(lia)) as [_ Hb].
  rewrite round_normal_shift in *. cbn [fst snd] in *.
  destruct (round_normal_value q l ltac:(lia)) as [_ [_ Hs0]].
  destruct (int_ceil_finite (Z.to_pos (fst (round_normal q 0 l)))
              (- t + snd (round_normal q 0 l))) as [Hc1 ->];
    [rewrite Z2Pos.id; lia|].
  rewrite (ceil_finite_scaled _ _ (snd (round_normal q 0 l))) in * by lia.
  rewrite Z2Pos.id in * by lia.
  replace (snd (round_normal q 0 l) - (- t + snd (round_normal q 0 l))) with t in * by lia.
  pose proof (quotient_rounded_ceil n m t Hm Hmn ltac:(lia) Hmt Hq) as Hceil.
  unfold quotient_rounded in Hceil. fold q l in Hceil.
  rewrite Hceil in *.
  assert (HK : ceil_div n m <= n).
  { unfold ceil_div. apply Z.div_le_upper_bound; [lia | nia]. }
  unfold MaxInt64.
  destruct (Z.leb_spec (ceil_div n m) (2 ^ 63 - 1)); [|lia].
  destruct (Z.ltb_spec (ceil_div n m) 1); lia.
Qed.

(* ----------------------------------------------------------------- *)
(** ** Report synthesizer: downsampling *)

Lemma ceil_div_shift : forall a step,
  0 < step -> 0 < a -> ceil_div a step = 1 + ceil_div (a - step) step.
Proof.
  intros a step Hs Ha. unfold ceil_div.
  replace (a + step - 1) with (a - step + step - 1 + 1 * step) by lia.
  rewrite Z.div_add by lia. lia.
Qed.

Lemma ceil_div_nonpos : forall a step,
  0 < step -> a <= 0 -> ceil_div a step <= 0.
Proof.
  intros a step Hs Ha. unfold ceil_div.
  assert ((a + step - 1) / step < 1) by (apply Z.div_lt_upper_bound; lia). lia.
Qed.

Lemma ceil_div_nonneg : forall a step, 0 < step -> 0 <= a -> 0 <= ceil_div a step.
Proof.
  intros a step Hs Ha. unfold ceil_div. apply Z.div_pos; lia.
Qed.

(** The loop of [sampleIndices] ends before its fuel does, and yields the
    multiples of [step] from [i] on. *)
Lemma stride_loop_multiples : forall fuel n step i,
  0 < step -> 0 <= i -> n + step <= 2 ^ 63 -> n - i <= Z.of_nat fuel ->
  stride_loop fuel n step i
  = map (fun k => i + Z.of_nat k * step) (seq 0 (Z.to_nat (ceil_div (n - i) step))).
Proof.
  induction fuel as [|fuel IH]; intros n step i Hs Hi Hn Hf; cbn [stride_loop].
  - pose proof (ceil_div_nonpos (n - i) step Hs ltac:(lia)).
    replace (Z.to_nat (ceil_div (n - i) step)) with 0%nat by lia. reflexivity.
  - destruct (Z.ltb_spec i n) as [Hlt|Hge].
    + rewrite wrap_int64_id by (unfold in_int64; lia).
      rewrite IH by lia.
      rewrite (ceil_div_shift (n - i) step) by lia.
      pose proof (ceil_div_nonneg (n - i - step) step Hs) as Hnn.
      replace (n - (i + step)) with (n - i - step) by lia.
      destruct (Z_lt_le_dec (n - i - step) 0) as [Hneg|Hpos].
      * pose proof (ceil_div_nonpos (n - i - step) step Hs ltac:(lia)).
        assert (Hz : ceil_div (n - i - step) step = 0).
        { unfold ceil_div in *.
          assert (0 <= (n - i - step + step - 1) / step) by (apply Z.div_pos; lia). lia. }
        rewrite Hz. change (Z.to_nat (1 + 0)) with 1%nat. change (Z.to_nat 0) with 0%nat.
        cbn [seq map]. f_equal. lia.
      * specialize (Hnn Hpos).
        replace (Z.to_nat (1 + ceil_div (n - i - step) step))
          with (S (Z.to_nat (ceil_div (n - i - step) step))) by lia.
        cbn [seq map]. f_equal; [lia|].
        rewrite <- seq_shift, map_map. apply map_ext. intros k. lia.
    + pose proof (ceil_div_nonpos (n - i) step Hs ltac:(lia)).
      replace (Z.to_nat (ceil_div (n - i) step)) with 0%nat by lia. reflexivity.
Qed.

Lemma sampleIndices_kept : forall n maxPoints,
  0 < maxPoints -> maxPoints < n -> n < 2 ^ 53 ->
  sampleIndices n maxPoints = kept_indices n (ceil_div n maxPoints).
Proof.
  intros n m Hm Hmn Hn. unfold sampleIndices, kept_indices, multiples_below.
  destruct (Z.leb_spec n 0); [lia|].
  destruct (Z.leb_spec m 0); [lia|]. destruct (Z.leb_spec n m); [lia|]. cbn [orb].
  rewrite sample_step_exact by lia.
  assert (HK : 1 <= ceil_div n m <= n).
  { unfold ceil_div. split.
    - apply Z.div_le_lower_bound; lia.
    - apply Z.div_le_upper_bound; [lia | nia]. }
  rewrite stride_loop_multiples by lia.
  rewrite Z.sub_0_r. unfold ceil_div at 2 5 8.
  rewrite (map_ext (fun k => 0 + Z.of_nat k * ceil_div n m)
             (fun k => Z.of_nat k * ceil_div n m)) by (intros; lia).
  reflexivity.
Qed.

Lemma multiples_sorted : forall step count a,
  0 < step ->
  StronglySorted Z.lt (map (fun k => Z.of_nat k * step) (seq a count)).
Proof.
  intros step count. induction count as [|count IH]; intros a Hs; cbn [seq map].
  - constructor.
  - constructor; [apply IH; exact Hs|].
    apply Forall_forall. intros x Hx. apply in_map_iff in Hx as [k [<- Hk]].
    apply in_seq in Hk. nia.
Qed.

Lemma sorted_snoc : forall l x,
  StronglySorted Z.lt l -> Forall (fun y => y < x) l -> StronglySorted Z.lt (l ++ [x]).
Proof.
  intros l x Hs Hall. induction Hs as [|y l Hs IH Hy]; cbn [app].
  - repeat constructor.
  - inversion Hall as [|? ? Hyx Hall']; subst.
    constructor; [apply IH; exact Hall'|].
    apply Forall_app. split; [exact Hy | repeat constructor; exact Hyx].
Qed.

(** The kept indices start at 0, end at [n - 1], increase strictly, stay
    within the series, and are the multiples of [step] below [n] and
    [n - 1]. *)
Lemma kept_indices_facts : forall n step,
  0 < n -> 0 < step ->
  hd 0 (kept_indices n step) = 0
  /\ kept_indices n step <> []
  /\ last (kept_indices n step) 0 = n - 1
  /\ StronglySorted Z.lt (kept_indices n step)
  /\ len (kept_indices n step) <= ceil_div n step + 1
  /\ (forall i, In i (kept_indices n step) ->
        0 <= i < n /\ (i = n - 1 \/ exists k, 0 <= k /\ i = k * step)).
Proof.
  intros n step Hn Hs. unfold kept_indices, multiples_below. fold (ceil_div n step).
  assert (Hc : 1 <= ceil_div n step).
  { unfold ceil_div. apply Z.div_le_lower_bound; lia. }
  assert (Hcs : (ceil_div n step - 1) * step <= n - 1).
  { unfold ceil_div. pose proof (Z.mul_div_le (n + step - 1) step Hs). nia. }
  destruct (Z.to_nat (ceil_div n step)) as [|c] eqn:Hcn; [lia|].
  assert (Hcz : Z.of_nat c = ceil_div n step - 1) by lia.
  set (f := fun k => Z.of_nat k * step).
  assert (Hin : forall i, In i (map f (seq 0 (S c))) ->
                          0 <= i <= Z.of_nat c * step /\ exists k, 0 <= k /\ i = k * step).
  { intros i Hi. apply in_map_iff in Hi as [k [<- Hk]]. apply in_seq in Hk.
    subst f. cbn beta. split; [nia|]. exists (Z.of_nat k). split; lia. }
  assert (Hlast : last (map f (seq 0 (S c))) 0 = Z.of_nat c * step).
  { rewrite seq_S, map_app. cbn [map]. now rewrite last_last. }
  assert (Hhd : forall tl, hd 0 (map f (seq 0 (S c)) ++ tl) = 0) by (intros; reflexivity).
  assert (Hlen : len (map f (seq 0 (S c))) = ceil_div n step).
  { unfold len. rewrite length_map, length_seq. lia. }
  rewrite Hlast.
  destruct (Z.eqb_spec (Z.of_nat c * step) (n - 1)) as [Heq|Hne].
  - split; [reflexivity|]. split; [discriminate|]. split; [now rewrite Hlast|].
    split; [apply multiples_sorted; exact Hs|]. split; [lia|].
    intros i Hi. destruct (Hin i Hi) as [Hb Hk]. split; [lia | now right].
  - split; [apply (Hhd [n - 1])|].
    split; [intros Hnil; apply app_eq_nil in Hnil as [_ Hnil]; discriminate|].
    split; [apply last_last|].
    split.
    + apply sorted_snoc; [apply multiples_sorted; exact Hs|].
      apply Forall_forall. intros i Hi. destruct (Hin i Hi) as [Hb _]. lia.
    + split; [rewrite len_app, Hlen; unfold len; cbn [List.length]; lia|].
      intros i Hi. apply in_app_or in Hi as [Hi|[<-|[]]].
      * destruct (Hin i Hi) as [Hb Hk]. split; [lia | now right].
      * split; [lia | now left].
Qed.

Lemma ceil_div_ceil_div : forall n m,
  0 < m -> 0 < n -> ceil_div n (ceil_div n m) <= m.
Proof.
  intros n m Hm Hn.
  assert (Hc : 1 <= ceil_div n m).
  { unfold ceil_div. apply Z.div_le_lower_bound; lia. }
  assert (Hnm : n <= ceil_div n m * m).
  { unfold ceil_div. pose proof (Z.div_mod (n + m - 1) m ltac:(lia)).
    pose proof (Z.mod_pos_bound (n + m - 1) m Hm). nia. }
  unfold ceil_div at 1.
  assert ((n + ceil_div n m - 1) / ceil_div n m < m + 1); [|lia].
  apply Z.div_lt_upper_bound; nia.
Qed.

Lemma sample_at_in_range {A : Type} : forall (src : list A) (idxs : list Z) (d : A),
  (forall i, In i idxs -> 0 <= i < len src) ->
  sample_at src idxs = map (fun i => nth (Z.to_nat i) src d) idxs.
Proof.
  intros src idxs d Hall. unfold sample_at.
  destruct idxs as [|i0 idxs]; [now destruct (len src =? 0)|].
  destruct (Z.eqb_spec (len src) 0) as [Hz|Hnz].
  { specialize (Hall i0 ltac:(now left)). lia. }
  replace (len (i0 :: idxs) =? 0) with false
    by (symmetry; apply Z.eqb_neq; unfold len; cbn [List.length]; lia).
  cbn [orb]. revert Hall. generalize (i0 :: idxs). clear i0 idxs.
  induction l as [|i l IH]; intros Hall; cbn [flat_map map]; [reflexivity|].
  pose proof (Hall i ltac:(now left)) as Hi.
  destruct (Z.leb_spec 0 i); [|lia]. destruct (Z.ltb_spec i (len src)); [|lia].
  cbn [andb].
  rewrite (nth_error_nth' src d) by (unfold len in *; lia).
  cbn [app]. f_equal. apply IH. intros j Hj. apply Hall. now right.
Qed.

Lemma sample_at_all {A : Type} : forall (src : list A),
  sample_at src (iota (len src)) = src.
Proof.
  intros src. destruct src as [|a src]; [reflexivity|].
  rewrite (sample_at_in_range _ _ a) by (intros i Hi; now apply iota_In).
  unfold iota, len. rewrite Nat2Z.id, map_map.
  rewrite (map_ext _ (fun k => nth k (a :: src) a)) by (intros; now rewrite Nat2Z.id).
  apply nth_ext with (d := a) (d' := a).
  - now rewrite length_map, length_seq.
  - intros n Hn. rewrite length_map, length_seq in Hn.
    rewrite (nth_indep _ _ (nth 0 (a :: src) a)) by (now rewrite length_map, length_seq).
    rewrite (map_nth (fun k => nth k (a :: src) a)), seq_nth by lia. reflexivity.
Qed.

Lemma downsampleResult_sampled : forall r maxPoints,
  0 < maxPoints -> maxPoints < len (SeriesSec r) -> len (SeriesSec r) < 2 ^ 53 ->
  let kept := kept_indices (len (SeriesSec r)) (ceil_div (len (SeriesSec r)) maxPoints) in
  downsampleResult maxPoints r = with_series r kept
  /\ SeriesSec (downsampleResult maxPoints r)
     = map (fun i => nth (Z.to_nat i) (SeriesSec r) 0) kept.
Proof.
  intros r m Hm Hlt Hn kept. unfold downsampleResult.
  destruct (Z.eqb_spec (len (SeriesSec r)) 0); [lia|].
  destruct (Z.leb_spec (len (SeriesSec r)) m); [lia|]. cbn [orb].
  rewrite sampleIndices_kept by lia. fold kept.
  split; [reflexivity|]. cbn [with_series SeriesSec]. unfold sampleInts.
  apply sample_at_in_range. intros i Hi.
  apply (kept_indices_facts (len (SeriesSec r)) (ceil_div (len (SeriesSec r)) m));
    [lia | | exact Hi].
  unfold ceil_div. apply Z.div_str_pos. lia.
Qed.

Lemma downsampleResults_unchanged : forall results maxPoints,
  maxPoints <= 0 \/ Forall (fun r => len (SeriesSec r) <= maxPoints) results ->
  downsampleResults results maxPoints = results.
Proof.
  intros results m H. unfold downsampleResults.
  destruct (Z.leb_spec m 0); [reflexivity|]. destruct H as [H|H]; [lia|].
  destruct (len results =? 0); [reflexivity|]. cbn [orb].
  induction H as [|r results Hr _ IH]; cbn [map]; [reflexivity|].
  rewrite IH. f_equal. unfold downsampleResult.
  destruct (Z.leb_spec (len (SeriesSec r)) m); [|lia].
  now rewrite orb_true_r.
Qed.

(** C6: for a series of length [n] and a budget [maxPoints] with
    [0 < maxPoints < n] (and [n < 2 ^ 53], as any slice is), the step is
    [ceil(n / maxPoints)], and the kept indices are the multiples of the
    step below [n] followed by [n - 1] unless it is the last multiple:
    they start at 0, end at [n - 1], increase strictly, and are at most
    [maxPoints + 1]; the series of a result are read at these indices.
    With [n <= maxPoints] or [maxPoints <= 0] every index is kept and the
    results are returned unchanged. *)
Theorem C6_downsampling_indices : forall n maxPoints,
  0 < maxPoints -> maxPoints < n -> n < 2 ^ 53 ->
  sample_step n maxPoints = ceil_div n maxPoints
  /\ sampleIndices n maxPoints = kept_indices n (ceil_div n maxPoints)
  /\ hd 0 (sampleIndices n maxPoints) = 0
  /\ last (sampleIndices n maxPoints) 0 = n - 1
  /\ StronglySorted Z.lt (sampleIndices n maxPoints)
  /\ 1 <= len (sampleIndices n maxPoints) <= maxPoints + 1
  /\ (forall i, In i (sampleIndices n maxPoints) ->
        0 <= i < n
        /\ (i = n - 1 \/ exists k, 0 <= k /\ i = k * ceil_div n maxPoints))
  /\ (forall k, 0 <= k -> k * ceil_div n maxPoints < n ->
        In (k * ceil_div n maxPoints) (sampleIndices n maxPoints))
  /\ (forall r, len (SeriesSec r) = n ->
        downsampleResult maxPoints r = with_series r (sampleIndices n maxPoints)
        /\ SeriesSec (downsampleResult maxPoints r)
           = map (fun i => nth (Z.to_nat i) (SeriesSec r) 0) (sampleIndices n maxPoints))
  /\ (forall n' m', 0 < n' -> m' <= 0 \/ n' <= m' -> sampleIndices n' m' = iota n')
  /\ (forall A (src : list A), sample_at src (iota (len src)) = src)
  /\ (forall results m',
        m' <= 0 \/ Forall (fun r => len (SeriesSec r) <= m') results ->
        downsampleResults results m' = results).
Proof.
  intros n m Hm Hmn Hn.
  assert (Hstep : 0 < ceil_div n m).
  { unfold ceil_div. apply Z.div_str_pos. lia. }
  pose proof (sampleIndices_kept n m Hm Hmn Hn) as Hkept.
  destruct (kept_indices_facts n (ceil_div n m) ltac:(lia) Hstep)
    as [Hhd [Hne [Hlast [Hsorted [Hlen Hin]]]]].
  pose proof (ceil_div_ceil_div n m Hm ltac:(lia)) as Hcc.
  split; [apply sample_step_exact; lia|].
  rewrite Hkept.
  split; [reflexivity|]. split; [exact Hhd|]. split; [exact Hlast|].
  split; [exact Hsorted|].
  split.
  { split; [|lia]. destruct (kept_indices n (ceil_div n m)); [contradiction|].
    unfold len. cbn [List.length]. lia. }
  split; [exact Hin|].
  split.
  { intros k Hk Hkn. unfold kept_indices, multiples_below.
    assert (Hmem : In (k * ceil_div n m)
              (map (fun j => Z.of_nat j * ceil_div n m)
                 (seq 0 (Z.to_nat ((n + ceil_div n m - 1) / ceil_div n m))))).
    { apply in_map_iff. exists (Z.to_nat k). split; [lia|]. apply in_seq.
      assert (k + 1 <= (n + ceil_div n m - 1) / ceil_div n m); [|lia].
      apply Z.div_le_lower_bound; nia. }
    destruct (_ =? n - 1); [exact Hmem | apply in_or_app; now left]. }
  split.
  { intros r Hr. subst n. rewrite <- Hkept.
    pose proof (downsampleResult_sampled r m Hm Hmn Hn) as H. cbv zeta in H.
    rewrite <- (sampleIndices_kept _ m Hm Hmn Hn) in H. exact H. }
  split.
  { intros n' m' Hn' Hm'. unfold sampleIndices, iota.
    destruct (Z.leb_spec n' 0); [lia|].
    destruct (Z.leb_spec m' 0), (Z.leb_spec n' m'); cbn [orb]; try reflexivity; lia. }
  split; [intros A src; apply sample_at_all|].
  apply downsampleResults_unchanged.
Qed.

Lemma C6_downsampling_witness :
  sample_step 1000 100 = 10
  /\ hd 0 (sampleIndices 1000 100) = 0
  /\ last (sampleIndices 1000 100) 0 = 999
  /\ 1 <= len (sampleIndices 1000 100) <= 101.
Proof.
  destruct (C6_downsampling_indices 1000 100 ltac:(lia) ltac:(lia) ltac:(lia))
    as [Hs [_ [Hh [Hl [_ [Hlen _]]]]]].
  repeat split; try assumption; apply Hlen.
Defined.

(* ----------------------------------------------------------------- *)
(** ** Metrics engine: the float64 index and the exact nearest rank *)

(** A rounding does not cross the middle between two neighbours of the
    grid: below the middle above [g * U] it gives at most [g * U], and
    above the middle it gives at least [(g + 1) * U]. *)
Lemma rounded_value_below : forall M g,
  2 ^ 52 <= M ->
  2 * M < (2 * g + 1) * 2 ^ (Zdigits2 M - 53) ->
  rounded_value M <= g * 2 ^ (Zdigits2 M - 53).
Proof.
  intros M g HM Hlt.
  destruct (rounded_value_eq M HM) as [Hk [-> _]].
  set (k := Zdigits2 M - 53) in *.
  assert (Hp : 0 < 2 ^ k) by (apply Z.pow_pos_nonneg; lia).
  apply Z.mul_le_mono_nonneg_r; [lia|].
  unfold shift_halves, shift_sticky. cbn [orb].
  set (h := 2 * M / 2 ^ k).
  assert (Hh : h <= 2 * g).
  { assert (h < 2 * g + 1); [|lia]. apply Z.div_lt_upper_bound; lia. }
  pose proof (Z.div_mod h 2 ltac:(lia)) as Hh2. rewrite (Zmod_odd h) in Hh2.
  destruct (rne_cases h (negb (((2 * M) mod 2 ^ k) =? 0)))
    as [[Ho ->]|[[Ho [_ ->]]|[Ho [_ Hb]]]]; rewrite Ho in Hh2; lia.
Qed.

Lemma rounded_value_above : forall M g,
  2 ^ 52 <= M ->
  (2 * g + 1) * 2 ^ (Zdigits2 M - 53) < 2 * M ->
  (g + 1) * 2 ^ (Zdigits2 M - 53) <= rounded_value M.
Proof.
  intros M g HM Hlt.
  destruct (rounded_value_eq M HM) as [Hk [-> _]].
  set (k := Zdigits2 M - 53) in *.
  assert (Hp : 0 < 2 ^ k) by (apply Z.pow_pos_nonneg; lia).
  apply Z.mul_le_mono_nonneg_r; [lia|].
  unfold shift_halves, shift_sticky. cbn [orb].
  set (h := 2 * M / 2 ^ k). set (rem := (2 * M) mod 2 ^ k).
  assert (Hdm : 2 * M = 2 ^ k * h + rem) by (apply Z.div_mod; lia).
  assert (Hrem : 0 <= rem < 2 ^ k) by (apply Z.mod_pos_bound; lia).
  assert (Hh : 2 * g + 1 <= h) by nia.
  pose proof (Z.div_mod h 2 ltac:(lia)) as Hh2. rewrite (Zmod_odd h) in Hh2.
  destruct (Z.eq_dec h (2 * g + 1)) as [Heq|Hne].
  - assert (Hrem0 : rem <> 0) by nia.
    destruct (Z.eqb_spec rem 0); [contradiction|]. cbn [negb].
    destruct (rne_cases h true) as [[Ho ->]|[[Ho [_ ->]]|[Ho [Hs _]]]];
      try discriminate; rewrite Ho in Hh2; lia.
  - pose proof (rne_bounds h (negb (rem =? 0))). destruct (Z.odd h); lia.
Qed.

(** For a fraction [mc * 2 ^ -53] within [40 * 2 ^ -53 / 100] of [p / 100]
    and fewer than [2 ^ 46] samples, the float64 index is the exact
    nearest rank. *)
Lemma scaled_index_exact : forall n mc p eps,
  1 <= n < 2 ^ 46 -> 2 ^ 52 <= mc < 2 ^ 53 -> 0 < p ->
  100 * mc = p * 2 ^ 53 + eps -> -40 <= eps <= 20 ->
  scaled_index n mc = exact_rank_index n p.
Proof.
  intros n mc p eps Hn Hmc Hp Heps Hrange.
  unfold scaled_index, exact_rank_index.
  assert (Hdn : Zdigits2 n <= 46) by (apply Zdigits2_le; lia).
  destruct (of_int_parts_bounds n ltac:(lia)) as [Hmn [Hsmall _]].
  rewrite (Hsmall ltac:(lia)) in *. cbn [fst snd] in *.
  assert (Hd0 : 0 < Zdigits2 n) by (destruct n; try lia; reflexivity).
  set (s := 53 - Zdigits2 n) in *.
  replace (53 - (Zdigits2 n - 53)) with (53 + s) by (subst s; lia).
  set (S := 2 ^ s) in *.
  assert (HS : 2 ^ 7 <= S) by (subst S; apply Z.pow_le_mono_r; lia).
  rewrite Z.pow_add_r by lia. fold S.
  remember (2 ^ 53) as T eqn:HT.
  remember (2 ^ 52) as T2 eqn:HT2.
  assert (HTT : T = 2 * T2) by (subst T T2; reflexivity).
  assert (HT2pos : 0 < T2) by (subst T2; reflexivity).
  set (M := mc * (n * S)).
  assert (HM : T2 * T2 <= M < T * T) by (subst M; nia).
  assert (HdM : 105 <= Zdigits2 M <= 106).
  { assert (H104 : 2 ^ 104 <= M < 2 ^ 106)
      by (change (2 ^ 104) with (2 ^ 52 * 2 ^ 52);
          change (2 ^ 106) with (2 ^ 53 * 2 ^ 53); subst T T2; lia).
    destruct (Zdigits2_bounds M ltac:(lia)) as [Hd Hup].
    assert (104 < Zdigits2 M) by (apply pow2_lt_exponents; lia).
    pose proof (Zdigits2_le M 106 ltac:(lia)). lia. }
  assert (HM52 : 2 ^ 52 <= M).
  { subst T2. change (2 ^ 52) with (2 ^ 52 * 1). nia. }
  set (K := (p * n + 99) / 100).
  assert (HK : 100 * (K - 1) + 1 <= p * n <= 100 * K).
  { subst K. pose proof (Z.div_mod (p * n + 99) 100 ltac:(lia)).
    pose proof (Z.mod_pos_bound (p * n + 99) 100 ltac:(lia)). lia. }
  assert (HK1 : 1 <= K) by nia.
  assert (HU : exists U c, 2 ^ (Zdigits2 M - 53) = U /\ T = U * c /\ 1 <= c <= 2 /\ 0 < U).
  { destruct (Z.eq_dec (Zdigits2 M) 105) as [->|Hne].
    - exists T2, 2. subst T T2. repeat split; lia.
    - replace (Zdigits2 M) with 106 by lia. exists T, 1. subst T. repeat split; lia. }
  destruct HU as [U [c [HUe [HTU [Hc HUpos]]]]].
  assert (Hceil : - (- rounded_value M / (T * S)) = K).
  { apply ceil_between; [nia|]. split.
    - pose proof (rounded_value_above M ((K - 1) * c * S) HM52) as Ha.
      rewrite HUe in Ha.
      assert (Hpre : (2 * ((K - 1) * c * S) + 1) * U < 2 * M).
      { subst M. nia. }
      specialize (Ha Hpre). nia.
    - pose proof (rounded_value_below M (K * c * S) HM52) as Hb.
      rewrite HUe in Hb.
      assert (Hpre : 2 * M < (2 * (K * c * S) + 1) * U).
      { subst M. clear Hb Hsmall.
        assert (H1 : 100 * (2 * (mc * (n * S)))
                     = 2 * (p * n) * (T * S) + 2 * eps * (n * S))
          by (replace (100 * (2 * (mc * (n * S))))
                with (2 * (100 * mc) * (n * S)) by ring;
              rewrite Heps; ring).
        assert (HTS : 0 <= T * S) by nia.
        assert (H2 : 2 * (p * n) * (T * S) <= 2 * (100 * K) * (T * S))
          by (apply Z.mul_le_mono_nonneg_r; lia).
        assert (H3 : 2 * eps * (n * S) <= 40 * (n * S))
          by (apply Z.mul_le_mono_nonneg_r; lia).
        assert (H4 : 100 * ((2 * (K * c * S) + 1) * U)
                     = 2 * (100 * K) * (T * S) + 100 * U)
          by (rewrite HTU; ring).
        assert (H5 : T <= 2 * U) by nia.
        lia. }
      specialize (Hb Hpre).
      replace (K * (T * S)) with (K * c * S * U) by (rewrite HTU; ring).
      exact Hb. }
  rewrite Hceil. lia.
Qed.

Lemma percentile_index_exact : forall n p,
  1 <= n < 2 ^ 46 -> In p [50; 90; 95; 99] ->
  percentile_index n (f64_of_int p) = exact_rank_index n p.
Proof.
  intros n p Hn Hp.
  rewrite percentile_index_fraction by (unfold MaxInt64; lia || exact Hp).
  cbn [In] in Hp.
  assert (Hside : forall pz eps,
            (2 ^ 52 <=? fraction_mantissa pz) = true ->
            (fraction_mantissa pz <? 2 ^ 53) = true ->
            (0 <? pz) = true ->
            (100 * fraction_mantissa pz =? pz * 2 ^ 53 + eps) = true ->
            (-40 <=? eps) && (eps <=? 20) = true ->
            scaled_index n (fraction_mantissa pz) = exact_rank_index n pz).
  { intros pz eps H1 H2 H3 H4 H5.
    apply andb_true_iff in H5 as [H5 H6].
    apply (scaled_index_exact n _ pz eps Hn).
    - split; [apply Z.leb_le, H1 | apply Z.ltb_lt, H2].
    - apply Z.ltb_lt, H3.
    - apply Z.eqb_eq, H4.
    - split; [apply Z.leb_le, H5 | apply Z.leb_le, H6]. }
  destruct Hp as [<-|[<-|[<-|[<-|[]]]]].
  - apply (Hside 50 0); vm_compute; reflexivity.
  - apply (Hside 90 20); vm_compute; reflexivity.
  - apply (Hside 95 (-40)); vm_compute; reflexivity.
  - apply (Hside 99 (-8)); vm_compute; reflexivity.
Qed.

(** The float64 product is not the exact one for every percentage: for
    [p = 55] and [n = 100] it is [55.00000000000001], whose ceiling is 56. *)
Example float_index_above_exact_rank :
  percentile_index 100 (f64_of_int 55) = 55 /\ exact_rank_index 100 55 = 54.
Proof. split; vm_compute; reflexivity. Qed.

Lemma C2_float_product_counterexample :
  sort_int64 fixture_1_to_100 = fixture_1_to_100
  /\ len fixture_1_to_100 = 100
  /\ exact_rank_index 100 55 = 54
  /\ nth 54 fixture_1_to_100 0 = 55
  /\ percentile_index 100 (f64_of_int 55) = 55
  /\ percentile fixture_1_to_100 (f64_of_int 55) = f64_of_int 56
  /\ f64_of_int 56 <> f64_of_int 55.
Proof. repeat split; vm_compute; try reflexivity. discriminate. Qed.

(** C2 (as the code has it): for each of the percentiles the engine
    computes, 50, 90, 95 and 99, and a non-empty sample list of length
    [n < 2 ^ 46] (sorted or not), [percentile] returns the sample at the
    nearest-rank index [ceil(p/100 * n) - 1] clamped into [[0, n-1]], the
    index being taken in exact arithmetic; for these percentiles the clamp
    changes nothing.  For other percentages the float64 product of the code
    can exceed the exact one, as for [p = 55] and [n = 100]. *)
Theorem C2_percentile_nearest_rank : forall vals pz,
  vals <> [] -> len vals < 2 ^ 46 -> In pz [50; 90; 95; 99] ->
  0 <= exact_rank_index (len vals) pz < len vals
  /\ exact_rank_index (len vals) pz = (pz * len vals + 99) / 100 - 1
  /\ percentile_index (len vals) (f64_of_int pz) = exact_rank_index (len vals) pz
  /\ percentile vals (f64_of_int pz)
     = f64_of_int (nth (Z.to_nat (exact_rank_index (len vals) pz)) vals 0)
  /\ In (nth (Z.to_nat (exact_rank_index (len vals) pz)) vals 0) vals.
Proof.
  intros vals pz Hne Hlen Hpz.
  assert (Hn : 1 <= len vals).
  { unfold len. destruct vals; [contradiction|]. cbn [List.length]. lia. }
  assert (Hp : 50 <= pz <= 99) by (cbn [In] in Hpz; lia).
  assert (Hq : 1 <= (pz * len vals + 99) / 100 <= len vals).
  { split.
    - apply Z.div_le_lower_bound; nia.
    - assert ((pz * len vals + 99) / 100 < len vals + 1); [|lia].
      apply Z.div_lt_upper_bound; nia. }
  assert (He : exact_rank_index (len vals) pz = (pz * len vals + 99) / 100 - 1)
    by (unfold exact_rank_index; lia).
  pose proof (percentile_index_exact (len vals) pz (conj Hn Hlen) Hpz) as Hi.
  split; [lia|]. split; [exact He|]. split; [exact Hi|]. split.
  - unfold percentile. destruct (Z.eqb_spec (len vals) 0); [lia|].
    rewrite Hi. reflexivity.
  - apply nth_In. unfold len in *. lia.
Qed.

Lemma C2_percentile_witness :
  percentile fixture_1_to_10 (f64_of_int 90)
  = f64_of_int (nth (Z.to_nat (exact_rank_index (len fixture_1_to_10) 90))
                  fixture_1_to_10 0).
Proof.
  apply (C2_percentile_nearest_rank fixture_1_to_10 90).
  - discriminate.
  - vm_compute. reflexivity.
  - cbn [In]. lia.
Defined.

(* ================================================================= *)
(** * Part III: the code around the engine *)

(* ----------------------------------------------------------------- *)
(** ** Seeding the random source *)

Lemma byte_value_range : forall c, 0 <= byte_value c < 256.
Proof.
  intros c. unfold byte_value. pose proof (Byte.to_N_bounded c). lia.
Qed.

Lemma byte_value_inj : forall c c', byte_value c = byte_value c' -> c = c'.
Proof.
  intros c c' H. unfold byte_value in H. apply N2Z.inj in H.
  pose proof (Byte.of_to_N c) as Hc. rewrite H, Byte.of_to_N in Hc.
  congruence.
Qed.

Lemma lor_shifted_byte : forall k c, 0 <= c < 256 -> Z.lor (256 * k) c = 256 * k + c.
Proof.
  intros k c Hc.
  assert (Hland : Z.land (256 * k) c = 0).
  { apply Z.bits_inj'; intros n Hn. rewrite Z.land_spec, Z.bits_0.
    destruct (Z.ltb_spec n 8) as [Hlt|Hge].
    - replace (256 * k) with (Z.shiftl k 8)
        by (rewrite Z.shiftl_mul_pow2 by lia; change (2 ^ 8) with 256; lia).
      rewrite Z.shiftl_spec, Z.testbit_neg_r by lia. reflexivity.
    - rewrite andb_comm.
      replace (Z.testbit c n) with false; [reflexivity|].
      symmetry. destruct (Z.eq_dec c 0) as [->|Hne]; [apply Z.bits_0|].
      apply Z.bits_above_log2; [lia|].
      apply Z.log2_lt_pow2; [lia|].
      apply Z.lt_le_trans with (2 ^ 8); [change (2 ^ 8) with 256; lia|].
      apply Z.pow_le_mono_r; lia. }
  rewrite <- Z.lxor_lor by exact Hland.
  symmetry. apply Z.add_nocarry_lxor, Hland.
Qed.

(** One step of the accumulator, in arithmetic. *)
Lemma shift_or_byte : forall V c,
  0 <= c < 256 ->
  Z.lor (Z.shiftl (V mod 2 ^ 64) 8 mod 2 ^ 64) c = (256 * V + c) mod 2 ^ 64.
Proof.
  intros V c Hc.
  rewrite Z.shiftl_mul_pow2 by lia. change (2 ^ 8) with 256.
  change (2 ^ 64) with (256 * 2 ^ 56).
  rewrite (Z.mul_comm (V mod (256 * 2 ^ 56)) 256).
  rewrite Z.mul_mod_distr_l by lia.
  rewrite Z.mod_mod_divide by (exists 256; reflexivity).
  rewrite lor_shifted_byte by exact Hc.
  pose proof (Z.mod_pos_bound V (2 ^ 56) ltac:(lia)) as Hb.
  apply Z.mod_unique_pos with (q := V / 2 ^ 56); [lia|].
  pose proof (Z.div_mod V (2 ^ 56) ltac:(lia)). lia.
Qed.

Lemma binaryBigEndian_fold : forall b v V,
  v = V mod 2 ^ 64 ->
  fold_left (fun v c => Z.lor (Z.shiftl v 8 mod 2 ^ 64) (byte_value c)) b v
  = fold_left (fun v c => 256 * v + byte_value c) b V mod 2 ^ 64.
Proof.
  induction b as [|c b IH]; intros v V Hv; cbn [fold_left]; [exact Hv|].
  apply IH. subst v. apply shift_or_byte, byte_value_range.
Qed.

Lemma big_endian_value_snoc : forall b c,
  big_endian_value (b ++ [c]) = 256 * big_endian_value b + byte_value c.
Proof.
  intros b c. unfold big_endian_value. rewrite fold_left_app. reflexivity.
Qed.

Lemma big_endian_value_bound : forall b,
  0 <= big_endian_value b < 256 ^ len b.
Proof.
  induction b as [|c b IH] using rev_ind; [cbn; lia|].
  rewrite big_endian_value_snoc. unfold len in *. rewrite length_app.
  cbn [List.length]. rewrite Nat2Z.inj_add, Z.pow_add_r by lia.
  change (256 ^ Z.of_nat 1) with 256.
  pose proof (byte_value_range c). lia.
Qed.

Lemma big_endian_value_app : forall a b,
  big_endian_value (a ++ b) = big_endian_value a * 256 ^ len b + big_endian_value b.
Proof.
  intros a b. induction b as [|c b IH] using rev_ind.
  - rewrite app_nil_r. cbn. lia.
  - rewrite app_assoc, !big_endian_value_snoc, IH.
    unfold len. rewrite length_app. cbn [List.length].
    rewrite Nat2Z.inj_add, Z.pow_add_r by lia.
    change (256 ^ Z.of_nat 1) with 256. ring.
Qed.

Lemma big_endian_value_inj : forall b b',
  List.length b = List.length b' ->
  big_endian_value b = big_endian_value b' -> b = b'.
Proof.
  induction b as [|c b IH] using rev_ind; intros b' Hlen Hv.
  - destruct b'; [reflexivity|discriminate].
  - destruct b' as [|c' b'] using rev_ind.
    + rewrite length_app in Hlen. cbn in Hlen. lia.
    + clear IHb'. rewrite !length_app in Hlen. cbn [List.length] in Hlen.
      rewrite !big_endian_value_snoc in Hv.
      pose proof (byte_value_range c). pose proof (byte_value_range c').
      assert (byte_value c = byte_value c') by lia.
      assert (big_endian_value b = big_endian_value b') by lia.
      f_equal; [apply IH; [lia|assumption]|].
      f_equal. apply byte_value_inj. assumption.
Qed.

(** X1: [binaryBigEndian] reads a byte string as a base-256 number, most
    significant byte first, modulo [2 ^ 64]: up to eight bytes give their
    number itself, of a longer string only the last eight bytes count, and
    two different eight-byte strings give two different numbers and two
    different seeds. *)
Theorem binaryBigEndian_value : forall b,
  binaryBigEndian b = big_endian_value b mod 2 ^ 64
  /\ (len b <= 8 -> binaryBigEndian b = big_endian_value b)
  /\ (len b = 8 -> forall pre, binaryBigEndian (pre ++ b) = binaryBigEndian b)
  /\ (len b = 8 -> forall b' now,
        len b' = 8 ->
        newLockedRand_seed (Some b) now = newLockedRand_seed (Some b') now ->
        b = b').
Proof.
  intros b.
  assert (Hmod : forall x, binaryBigEndian x = big_endian_value x mod 2 ^ 64)
    by (intros x; apply binaryBigEndian_fold; reflexivity).
  assert (Hsmall : forall x, len x <= 8 -> big_endian_value x mod 2 ^ 64 = big_endian_value x).
  { intros x Hx. apply Z.mod_small.
    pose proof (big_endian_value_bound x) as Hb.
    assert (256 ^ len x <= 256 ^ 8) by (apply Z.pow_le_mono_r; unfold len in *; lia).
    change (256 ^ 8) with (2 ^ 64) in *. lia. }
  split; [apply Hmod|].
  split; [intros Hb; rewrite Hmod; apply Hsmall, Hb|].
  split.
  - intros Hb pre. rewrite !Hmod, big_endian_value_app, Hb.
    change (256 ^ 8) with (2 ^ 64).
    rewrite Z.add_comm, Z.mod_add by lia. reflexivity.
  - intros Hb b' now Hb' Hseed. cbn [newLockedRand_seed] in Hseed.
    rewrite !Hmod, !Hsmall in Hseed by lia.
    pose proof (big_endian_value_bound b) as B1.
    pose proof (big_endian_value_bound b') as B2.
    rewrite Hb in B1. rewrite Hb' in B2. change (256 ^ 8) with (2 ^ 64) in *.
    apply big_endian_value_inj; [unfold len in *; lia|].
    unfold wrap_int64, wrap_bits in Hseed.
    change (2 ^ (64 - 1)) with (2 ^ 63) in Hseed.
    assert (Hw : forall v, 0 <= v < 2 ^ 64 ->
              (v + 2 ^ 63) mod 2 ^ 64 = if v <? 2 ^ 63 then v + 2 ^ 63 else v - 2 ^ 63).
    { intros v Hv. destruct (Z.ltb_spec v (2 ^ 63)).
      - apply Z.mod_small. lia.
      - symmetry. apply Z.mod_unique_pos with (q := 1); lia. }
    rewrite !Hw in Hseed by lia.
    destruct (Z.ltb_spec (big_endian_value b) (2 ^ 63)),
             (Z.ltb_spec (big_endian_value b') (2 ^ 63)); lia.
Qed.

(* ----------------------------------------------------------------- *)
(** ** Shuffling *)

Lemma lockedRand_Intn_pos : forall g n,
  0 < n -> lockedRand_Intn g n = Returns (raw g (pos g) mod n, advance g).
Proof.
  intros g n Hn. unfold lockedRand_Intn, rand_Intn.
  destruct (Z.leb_spec n 0); [lia | reflexivity].
Qed.

Lemma update_nth_app_cons {A : Type} : forall (l1 l2 : list A) x y,
  update_nth (List.length l1) y (l1 ++ x :: l2) = l1 ++ y :: l2.
Proof.
  induction l1 as [|a l1 IH]; intros l2 x y; [reflexivity|].
  cbn [List.length app update_nth]. rewrite IH. reflexivity.
Qed.

Lemma nth_error_app_cons {A : Type} : forall (l1 l2 : list A) x,
  nth_error (l1 ++ x :: l2) (List.length l1) = Some x.
Proof.
  induction l1 as [|a l1 IH]; intros l2 x; [reflexivity|]. apply IH.
Qed.

Lemma nth_error_split_at {A : Type} : forall (l : list A) n x,
  nth_error l n = Some x ->
  exists l1 l2, l = l1 ++ x :: l2 /\ List.length l1 = n.
Proof.
  induction l as [|a l IH]; intros [|n] x H; try discriminate.
  - injection H as ->. exists [], l. split; reflexivity.
  - destruct (IH n x H) as [l1 [l2 [-> Hlen]]].
    exists (a :: l1), l2. split; [reflexivity|]. cbn [List.length]. lia.
Qed.

Lemma nth_error_update_nth {A : Type} : forall (l : list A) i j y,
  (i < List.length l)%nat ->
  nth_error (update_nth i y l) j = if Nat.eqb i j then Some y else nth_error l j.
Proof.
  induction l as [|a l IH]; intros i j y Hi; [cbn in Hi; lia|].
  destruct i as [|i], j as [|j]; cbn [update_nth nth_error Nat.eqb]; try reflexivity.
  apply IH. cbn [List.length] in Hi. lia.
Qed.

(** What [swap] does to a list: the two elements change places. *)
Lemma swap_returns {A : Type} : forall (a : list A) i j x y,
  nth_error a i = Some x -> nth_error a j = Some y ->
  swap a (Z.of_nat i) (Z.of_nat j)
  = Returns (update_nth j x (update_nth i y a)).
Proof.
  intros a i j x y Hx Hy. unfold swap, len.
  assert (i < List.length a)%nat by (apply nth_error_Some; congruence).
  assert (j < List.length a)%nat by (apply nth_error_Some; congruence).
  destruct (Z.leb_spec 0 (Z.of_nat i)); [|lia].
  destruct (Z.ltb_spec (Z.of_nat i) (Z.of_nat (List.length a))); [|lia].
  destruct (Z.leb_spec 0 (Z.of_nat j)); [|lia].
  destruct (Z.ltb_spec (Z.of_nat j) (Z.of_nat (List.length a))); [|lia].
  cbn [andb]. rewrite !Nat2Z.id, Hx, Hy. reflexivity.
Qed.

Lemma swap_perm {A : Type} : forall (a : list A) i j x y,
  nth_error a i = Some x -> nth_error a j = Some y ->
  Permutation a (update_nth j x (update_nth i y a)).
Proof.
  intros a i j x y Hx Hy.
  assert (Hi : (i < List.length a)%nat) by (apply nth_error_Some; congruence).
  assert (Hy' : nth_error (update_nth i y a) j = Some y).
  { rewrite nth_error_update_nth by exact Hi.
    destruct (Nat.eqb i j); [reflexivity | exact Hy]. }
  destruct (nth_error_update_split a i x y Hx) as [l1 [l2 [Ha Hu]]].
  destruct (nth_error_update_split (update_nth i y a) j y x Hy') as [m1 [m2 [Hb Hv]]].
  rewrite Hv. rewrite Hu in Hb. rewrite Ha.
  apply Permutation_trans with (x :: l1 ++ l2);
    [symmetry; apply Permutation_middle|].
  apply Permutation_trans with (x :: m1 ++ m2); [|apply Permutation_middle].
  apply perm_skip. apply Permutation_cons_inv with (a := y).
  apply Permutation_trans with (l1 ++ y :: l2); [apply Permutation_middle|].
  rewrite Hb. symmetry. apply Permutation_middle.
Qed.

Lemma shuffle_from_perm {A : Type} : forall i (a : list A) g,
  (i < List.length a)%nat ->
  exists a',
    shuffle_from i a g = Returns (a', mkSource (raw g) (pos g + i))
    /\ Permutation a a'.
Proof.
  induction i as [|i IH]; intros a g Hi.
  - exists a. cbn [shuffle_from]. rewrite Nat.add_0_r. destruct g; split; [reflexivity|].
    apply Permutation_refl.
  - cbn [shuffle_from]. rewrite lockedRand_Intn_pos by lia.
    set (j := raw g (pos g) mod (Z.of_nat (S i) + 1)).
    assert (Hj : 0 <= j < Z.of_nat (S i) + 1) by (apply Z.mod_pos_bound; lia).
    destruct (nth_error a (S i)) as [x|] eqn:Hx;
      [|apply nth_error_None in Hx; lia].
    destruct (nth_error a (Z.to_nat j)) as [y|] eqn:Hy;
      [|apply nth_error_None in Hy; lia].
    rewrite <- (Z2Nat.id j) by lia.
    rewrite (swap_returns a (S i) (Z.to_nat j) x y Hx Hy).
    pose proof (swap_perm a (S i) (Z.to_nat j) x y Hx Hy) as Hp.
    destruct (IH (update_nth (Z.to_nat j) x (update_nth (S i) y a)) (advance g))
      as [a' [Hrun Hp']].
    { rewrite !update_nth_length. lia. }
    exists a'. split; [|eapply Permutation_trans; eassumption].
    rewrite Hrun. cbn [advance raw pos]. do 2 f_equal. f_equal. lia.
Qed.

(** Every arrangement of the first [i + 1] elements is the result of the
    loop for some raw outputs of the generator. *)
Lemma shuffle_from_reaches {A : Type} : forall i (pre pre' suf : list A),
  List.length pre = S i -> Permutation pre pre' ->
  exists draws,
    List.length draws = i
    /\ forall g,
         (forall k, (k < i)%nat -> raw g (pos g + k) = nth k draws 0) ->
         shuffle_from i (pre ++ suf) g
         = Returns (pre' ++ suf, mkSource (raw g) (pos g + i)).
Proof.
  induction i as [|i IH]; intros pre pre' suf Hlen Hperm.
  - exists []. split; [reflexivity|]. intros g _.
    destruct pre as [|x [|? ?]]; try discriminate.
    apply Permutation_length_1_inv in Hperm. subst pre'.
    cbn [shuffle_from]. rewrite Nat.add_0_r. destruct g; reflexivity.
  - assert (Hlen' : List.length pre' = S (S i))
      by (rewrite <- (Permutation_length Hperm); exact Hlen).
    destruct (exists_last (l := pre')) as [init' [y Hpre']];
      [intros ->; discriminate|].
    subst pre'. rewrite length_app in Hlen'. cbn [List.length] in Hlen'.
    assert (Hin : In y pre).
    { apply (Permutation_in y (Permutation_sym Hperm)).
      apply in_or_app. right. left. reflexivity. }
    destruct (in_split y pre Hin) as [l1 [l2 Hpre]].
    assert (Hrest : Permutation (l1 ++ l2) init').
    { apply Permutation_cons_inv with (a := y).
      apply Permutation_trans with pre;
        [rewrite Hpre; apply Permutation_middle|].
      apply Permutation_trans with (init' ++ [y]); [exact Hperm|].
      symmetry. apply Permutation_cons_append. }
    (* the element the last place holds before the exchange *)
    destruct (exists_last (l := y :: l2)) as [mid [z Hmid]]; [discriminate|].
    set (pre1 := match l2 with [] => l1 | _ => l1 ++ z :: removelast l2 end).
    assert (Hpre1 : Permutation pre1 init' /\ List.length pre1 = S i
                    /\ forall g, raw g (pos g) = Z.of_nat (List.length l1) ->
                         lockedRand_Intn g (Z.of_nat (S i) + 1)
                         = Returns (Z.of_nat (List.length l1), advance g)
                         /\ swap (pre ++ suf) (Z.of_nat (S i)) (Z.of_nat (List.length l1))
                            = Returns (pre1 ++ y :: suf)).
    { assert (Hl1 : (List.length l1 <= S i)%nat).
      { rewrite Hpre, length_app in Hlen. cbn [List.length] in Hlen. lia. }
      assert (HIntn : forall g, raw g (pos g) = Z.of_nat (List.length l1) ->
                lockedRand_Intn g (Z.of_nat (S i) + 1)
                = Returns (Z.of_nat (List.length l1), advance g)).
      { intros g Hraw. rewrite lockedRand_Intn_pos by lia.
        rewrite Hraw, Z.mod_small by lia. reflexivity. }
      destruct l2 as [|b l2].
      - (* [y] is the last element already *)
        subst pre1. rewrite app_nil_r in Hrest.
        assert (Hl : List.length l1 = S i).
        { rewrite Hpre, length_app in Hlen. cbn [List.length] in Hlen. lia. }
        split; [exact Hrest|]. split; [exact Hl|].
        intros g Hraw. split; [apply HIntn, Hraw|].
        rewrite <- Hl, Hpre, <- app_assoc. cbn [app].
        rewrite (swap_returns _ _ _ y y)
          by apply nth_error_app_cons.
        rewrite !update_nth_app_cons. reflexivity.
      - (* [y] changes places with the last element [z] *)
        assert (Hl2 : b :: l2 = removelast (b :: l2) ++ [z]).
        { destruct mid as [|y' mid].
          - destruct l2; discriminate.
          - cbn [app] in Hmid. injection Hmid as <- Hmid.
            rewrite Hmid, removelast_last. reflexivity. }
        set (r := removelast (b :: l2)) in *.
        assert (Hlr : List.length (l1 ++ y :: r) = S i).
        { rewrite Hpre, Hl2, length_app in Hlen.
          cbn [List.length] in Hlen. rewrite length_app in Hlen.
          cbn [List.length] in Hlen. rewrite length_app. cbn [List.length]. lia. }
        subst pre1. cbv iota.
        split.
        { apply Permutation_trans with (l1 ++ b :: l2); [|exact Hrest].
          rewrite Hl2. apply Permutation_app_head.
          apply Permutation_cons_append. }
        split.
        { rewrite length_app in *. cbn [List.length] in *. lia. }
        intros g Hraw. split; [apply HIntn, Hraw|].
        rewrite Hpre, Hl2.
        replace ((l1 ++ y :: r ++ [z]) ++ suf)
          with ((l1 ++ y :: r) ++ z :: suf)
          by (rewrite <- !app_assoc; cbn [app]; rewrite <- app_assoc; reflexivity).
        rewrite <- Hlr at 1.
        rewrite (swap_returns _ _ _ z y).
        + rewrite update_nth_app_cons.
          rewrite <- app_assoc. cbn [app].
          rewrite update_nth_app_cons.
          rewrite <- app_assoc. reflexivity.
        + apply nth_error_app_cons.
        + rewrite <- app_assoc. cbn [app]. apply nth_error_app_cons. }
    destruct Hpre1 as [Hp1 [Hlen1 Hstep]].
    destruct (IH pre1 init' (y :: suf) Hlen1 Hp1) as [draws [Hd Hrun]].
    exists (Z.of_nat (List.length l1) :: draws).
    split; [cbn [List.length]; lia|].
    intros g Hg.
    destruct (Hstep g) as [HIntn Hswap].
    { pose proof (Hg 0%nat ltac:(lia)) as H0.
      rewrite Nat.add_0_r in H0. exact H0. }
    cbn [shuffle_from]. rewrite HIntn, Hswap.
    rewrite (Hrun (advance g)).
    + cbn [advance raw pos]. rewrite <- app_assoc. cbn [app].
      do 3 f_equal. lia.
    + intros k Hk. cbn [advance raw pos].
      replace (S (pos g) + k)%nat with (pos g + S k)%nat by lia.
      rewrite Hg by lia. reflexivity.
Qed.

(** X2: [shuffleAccounts] never panics: it returns an arrangement of the
    accounts it was given, none lost and none repeated, after one draw for
    every element but the first. *)
Theorem shuffleAccounts_permutation :
  forall (A : Type) (accounts : list A) (rng : Source),
  exists out,
    shuffleAccounts accounts rng
    = Returns (out, mkSource (raw rng) (pos rng + Z.to_nat (len accounts - 1)))
    /\ Permutation accounts out
    /\ len out = len accounts.
Proof.
  intros A accounts rng. unfold shuffleAccounts.
  destruct accounts as [|x accounts].
  - exists []. cbn. rewrite Nat.add_0_r. destruct rng.
    repeat split. apply perm_nil.
  - destruct (shuffle_from_perm (Z.to_nat (len (x :: accounts) - 1)) (x :: accounts) rng)
      as [out [Hrun Hp]].
    { unfold len. cbn [List.length]. lia. }
    exists out. split; [exact Hrun|]. split; [exact Hp|].
    unfold len. rewrite (Permutation_length Hp). reflexivity.
Qed.

(** X3: every arrangement of the accounts is a result of
    [shuffleAccounts]: for some raw outputs of the generator, one for every
    element but the first, the shuffle returns exactly that arrangement. *)
Theorem shuffleAccounts_reaches_every_arrangement :
  forall (A : Type) (accounts arranged : list A),
  Permutation accounts arranged ->
  exists draws,
    len draws = Z.max 0 (len accounts - 1)
    /\ shuffleAccounts accounts (source_of draws)
       = Returns (arranged, mkSource (raw (source_of draws)) (List.length draws)).
Proof.
  intros A accounts arranged Hperm. unfold shuffleAccounts.
  destruct accounts as [|x accounts].
  - apply Permutation_nil in Hperm. subst arranged.
    exists []. split; reflexivity.
  - destruct (shuffle_from_reaches (List.length accounts) (x :: accounts) arranged []
                eq_refl Hperm) as [draws [Hlen Hrun]].
    exists draws. unfold len. cbn [List.length].
    split; [lia|].
    replace (Z.to_nat (Z.of_nat (S (List.length accounts)) - 1))
      with (List.length accounts) by lia.
    specialize (Hrun (source_of draws)).
    rewrite !app_nil_r in Hrun. rewrite Hrun; [|intros k _; reflexivity].
    cbn [source_of pos raw]. rewrite Hlen. reflexivity.
Qed.

Lemma shuffleAccounts_reaches_witness :
  exists draws,
    len draws = Z.max 0 (len [10; 20; 30] - 1)
    /\ shuffleAccounts [10; 20; 30] (source_of draws)
       = Returns ([30; 10; 20], mkSource (raw (source_of draws)) (List.length draws)).
Proof.
  apply (shuffleAccounts_reaches_every_arrangement Z [10; 20; 30] [30; 10; 20]).
  apply Permutation_trans with [10; 30; 20].
  - apply perm_skip, perm_swap.
  - apply perm_swap.
Defined.

(* ----------------------------------------------------------------- *)
(** ** The list of work items *)

Lemma interval_empty : forall a b, b < a -> interval a b = [].
Proof.
  intros a b H. unfold interval.
  replace (Z.to_nat (b - a + 1)) with 0%nat by lia. reflexivity.
Qed.

Lemma interval_cons : forall a b, a <= b -> interval a b = a :: interval (a + 1) b.
Proof.
  intros a b H. unfold interval.
  replace (Z.to_nat (b - a + 1)) with (S (Z.to_nat (b - (a + 1) + 1))) by lia.
  cbn [seq map]. rewrite <- seq_shift, map_map.
  f_equal; [lia|]. apply map_ext. intros k. lia.
Qed.

Lemma interval_In : forall a b x, In x (interval a b) <-> a <= x <= b.
Proof.
  intros a b x. unfold interval. rewrite in_map_iff. split.
  - intros [k [<- Hk]]. apply in_seq in Hk. lia.
  - intros H. exists (Z.to_nat (x - a)). split; [lia|]. apply in_seq. lia.
Qed.

Lemma interval_len : forall a b, len (interval a b) = Z.max 0 (b - a + 1).
Proof.
  intros a b. unfold interval, len. rewrite length_map, length_seq. lia.
Qed.

(** Below the largest [int32] the counting loop ends, with the interval. *)
Lemma seq_loop_interval : forall n s last fuel,
  in_int32 s -> last < 2 ^ 31 - 1 ->
  Z.to_nat (last - s + 1) = n -> (n < fuel)%nat ->
  seq_loop fuel s last = Some (interval s last).
Proof.
  induction n as [|n IH]; intros s last fuel Hs Hlast Hn Hfuel;
    (destruct fuel as [|fuel]; [lia|]); cbn [seq_loop].
  - destruct (Z.leb_spec s last); [lia|].
    rewrite interval_empty by lia. reflexivity.
  - destruct (Z.leb_spec s last); [|lia].
    assert (Hw : wrap_int32 (s + 1) = s + 1)
      by (apply wrap_int32_id; unfold in_int32 in *; lia).
    rewrite Hw, (IH (s + 1) last fuel); try lia.
    + rewrite (interval_cons s last) by lia. reflexivity.
    + unfold in_int32 in *. lia.
Qed.

(** Up to the largest [int32] the loop variable wraps around and the loop
    goes on. *)
Lemma seq_loop_wraps : forall fuel s,
  in_int32 s -> seq_loop fuel s (2 ^ 31 - 1) = None.
Proof.
  induction fuel as [|fuel IH]; intros s Hs; cbn [seq_loop]; [reflexivity|].
  destruct (Z.leb_spec s (2 ^ 31 - 1)); [|unfold in_int32 in Hs; lia].
  rewrite IH by apply wrap_int32_range. reflexivity.
Qed.

(** In range mode a pick stays between the two ends of the range. *)
Lemma pick_range_bounds : forall p now fetch seq p',
  mode p = "range"%string ->
  in_int32 (from p) -> in_int32 (to p) -> 0 <= from p <= to p ->
  pick p now fetch = Returns (Picked seq, p') ->
  from p <= seq <= to p.
Proof.
  intros p now fetch seq p' Hmode Hf Ht Hft Hpick.
  unfold pick in Hpick. rewrite Hmode in Hpick. cbn [String.eqb] in Hpick.
  change (String.eqb "range" "range") with true in Hpick. cbv iota in Hpick.
  unfold in_int32 in *.
  rewrite (wrap_int32_id (to p - from p)) in Hpick by (unfold in_int32; lia).
  destruct (Z.eq_dec (to p - from p + 1) (2 ^ 31)) as [Hfull|Hfull].
  - rewrite Hfull in Hpick.
    change (wrap_int32 (2 ^ 31) <=? 1) with true in Hpick.
    injection Hpick as <- _. lia.
  - rewrite (wrap_int32_id (to p - from p + 1)) in Hpick by (unfold in_int32; lia).
    destruct (Z.leb_spec (to p - from p + 1) 1).
    + injection Hpick as <- _. lia.
    + destruct (draw_from_returns p (from p) (to p - from p + 1)) as [r [g [Hd Hr]]].
      rewrite Hd in Hpick. injection Hpick as <- _.
      specialize (Hr ltac:(lia)).
      rewrite (wrap_int32_id r) by (unfold in_int32; lia).
      rewrite wrap_int32_id by (unfold in_int32; lia). lia.
Qed.

(** X4: in range mode [buildBlockSeqs] asks nothing of the server and
    returns the sequence numbers [from, from+1, ..., to] in ascending order
    ([to - from + 1] of them, none when [from > to]), provided [to] is below
    the largest [int32]. *)
Theorem buildBlockSeqs_range : forall br fuel fetch,
  range_mode br = "range"%string ->
  in_int32 (range_from br) -> range_to br < 2 ^ 31 - 1 ->
  (Z.to_nat (range_to br - range_from br + 1) < fuel)%nat ->
  buildBlockSeqs fuel br fetch = Some (Built (interval (range_from br) (range_to br)))
  /\ len (interval (range_from br) (range_to br))
     = Z.max 0 (range_to br - range_from br + 1)
  /\ (forall s, In s (interval (range_from br) (range_to br))
                <-> range_from br <= s <= range_to br)
  /\ StronglySorted Z.lt (interval (range_from br) (range_to br)).
Proof.
  intros br fuel fetch Hmode Hf Ht Hfuel.
  split.
  { unfold buildBlockSeqs. rewrite Hmode.
    change (String.eqb "range" "range") with true. cbv iota.
    rewrite (seq_loop_interval _ _ _ fuel Hf Ht eq_refl Hfuel). reflexivity. }
  split; [apply interval_len|].
  split; [intros s; apply interval_In|].
  generalize (range_from br) as a. generalize (range_to br) as b. clear.
  intros b a. unfold interval.
  generalize (Z.to_nat (b - a + 1)) as n. intros n. revert a.
  induction n as [|n IH]; intros a; [constructor|].
  cbn [seq map]. constructor.
  - rewrite <- seq_shift, map_map.
    replace (map (fun k => a + Z.of_nat (S k)) (seq 0 n))
      with (map (fun k => (a + 1) + Z.of_nat k) (seq 0 n))
      by (apply map_ext; intros; lia).
    apply IH.
  - apply Forall_forall. intros x Hx. apply in_map_iff in Hx.
    destruct Hx as [k [<- Hk]]. apply in_seq in Hk. lia.
Qed.

Lemma buildBlockSeqs_range_witness :
  buildBlockSeqs 10 (mkRange 5 8 0 "range") None = Some (Built (interval 5 8))
  /\ len (interval 5 8) = Z.max 0 (8 - 5 + 1)
  /\ (forall s, In s (interval 5 8) <-> 5 <= s <= 8)
  /\ StronglySorted Z.lt (interval 5 8).
Proof.
  apply (buildBlockSeqs_range (mkRange 5 8 0 "range") 10 None).
  - reflexivity.
  - unfold in_int32; cbn; lia.
  - cbn; lia.
  - cbn; lia.
Defined.

(** X5: a range that ends at the largest [int32] is never enumerated: the
    loop variable wraps around instead of passing [to], so the loop of
    [buildBlockSeqs] has not ended after any number of iterations. *)
Theorem buildBlockSeqs_range_to_MaxInt32 : forall br fetch,
  range_mode br = "range"%string ->
  in_int32 (range_from br) -> range_to br = 2 ^ 31 - 1 ->
  forall fuel, buildBlockSeqs fuel br fetch = None.
Proof.
  intros br fetch Hmode Hf Ht fuel.
  unfold buildBlockSeqs. rewrite Hmode.
  change (String.eqb "range" "range") with true. cbv iota.
  rewrite Ht, seq_loop_wraps by exact Hf. reflexivity.
Qed.

Lemma buildBlockSeqs_range_to_MaxInt32_witness :
  buildBlockSeqs 3 (mkRange 2147483646 2147483647 0 "range") None = None
  /\ buildBlockSeqs 1000 (mkRange 2147483646 2147483647 0 "range") None = None.
Proof.
  split;
    apply (buildBlockSeqs_range_to_MaxInt32
             (mkRange 2147483646 2147483647 0 "range") None);
    first [reflexivity | unfold in_int32; cbn; lia].
Defined.

Lemma seq_loop_some : forall fuel s last l,
  in_int32 s -> in_int32 last ->
  seq_loop fuel s last = Some l -> l = interval s last.
Proof.
  induction fuel as [|fuel IH]; intros s last l Hs Hl Hrun;
    cbn [seq_loop] in Hrun; [discriminate|].
  destruct (Z.leb_spec s last).
  - destruct (Z.eq_dec last (2 ^ 31 - 1)) as [->|Hne].
    + rewrite seq_loop_wraps in Hrun by apply wrap_int32_range. discriminate.
    + assert (Hw : wrap_int32 (s + 1) = s + 1)
        by (apply wrap_int32_id; unfold in_int32 in *; lia).
      rewrite Hw in Hrun.
      destruct (seq_loop fuel (s + 1) last) as [l'|] eqn:Hrec; [|discriminate].
      injection Hrun as <-.
      rewrite (IH (s + 1) last l') by (try exact Hrec; unfold in_int32 in *; lia).
      rewrite (interval_cons s last) by lia. reflexivity.
  - injection Hrun as <-. rewrite interval_empty by lia. reflexivity.
Qed.

(** X6: outside range mode [buildBlockSeqs] returns the error of the bound
    lookup if it fails, and otherwise the window under the bound [B] it
    fetched: the sequence numbers [max(1, B - N + 1) .. B] for [last:N],
    which are [min(N, B)] numbers. *)
Theorem buildBlockSeqs_window : forall br fuel seqno,
  range_mode br <> "range"%string ->
  in_int32 (range_count br) -> 1 <= range_count br ->
  0 <= wrap_int32 seqno < 2 ^ 31 - 1 ->
  (Z.to_nat (Z.min (range_count br) (wrap_int32 seqno)) < fuel)%nat ->
  let B := wrap_int32 seqno in
  buildBlockSeqs fuel br None = Some BuildError
  /\ buildBlockSeqs fuel br (Some seqno)
     = Some (Built (interval (window_low B (range_count br)) B))
  /\ len (interval (window_low B (range_count br)) B) = Z.min (range_count br) B.
Proof.
  intros br fuel seqno Hmode Hc Hc1 HB Hfuel B.
  unfold buildBlockSeqs.
  destruct (String.eqb_spec (range_mode br) "range"); [contradiction|].
  split; [reflexivity|].
  fold B. unfold in_int32 in *. unfold window_low.
  rewrite (wrap_int32_id (B - range_count br)) by (unfold in_int32; subst B; lia).
  rewrite (wrap_int32_id (B - range_count br + 1)) by (unfold in_int32; subst B; lia).
  assert (Hstart : (if B - range_count br + 1 <? 1 then 1 else B - range_count br + 1)
                   = Z.max 1 (B - range_count br + 1))
    by (destruct (Z.ltb_spec (B - range_count br + 1) 1); lia).
  rewrite Hstart. split.
  - rewrite (seq_loop_interval
               (Z.to_nat (B - Z.max 1 (B - range_count br + 1) + 1)) _ _ fuel);
      first [reflexivity | unfold in_int32; subst B; lia].
  - rewrite interval_len. subst B. lia.
Qed.

Lemma buildBlockSeqs_window_witness :
  let B := wrap_int32 1000 in
  buildBlockSeqs 300 (mkRange 0 0 200 "last") None = Some BuildError
  /\ buildBlockSeqs 300 (mkRange 0 0 200 "last") (Some 1000)
     = Some (Built (interval (window_low B 200) B))
  /\ len (interval (window_low B 200) B) = Z.min 200 B.
Proof.
  apply (buildBlockSeqs_window (mkRange 0 0 200 "last") 300 1000).
  - discriminate.
  - unfold in_int32; cbn; lia.
  - cbn; lia.
  - vm_compute; split; [discriminate | reflexivity].
  - vm_compute; lia.
Defined.

(** X7: a pick of the selector is one of the work items [buildBlockSeqs]
    lists for the same range and the same bound: in range mode whenever
    [0 <= from <= to], and for [last:N] with [N >= 1] whenever the pick is
    made under the bound [B >= 1] the list was built from. *)
Theorem pick_among_buildBlockSeqs :
  forall br fuel bound seqs refresh since cached g now fetch seq p',
  let p := mkPicker (range_mode br) (range_from br) (range_to br) (range_count br)
             refresh since cached g in
  in_int32 (range_from br) -> in_int32 (range_to br) ->
  in_int32 (range_count br) -> in_int32 cached ->
  (range_mode br = "range"%string -> 0 <= range_from br <= range_to br) ->
  (range_mode br <> "range"%string ->
     1 <= range_count br /\ latest p' = wrap_int32 bound /\ 1 <= latest p') ->
  buildBlockSeqs fuel br (Some bound) = Some (Built seqs) ->
  pick p now fetch = Returns (Picked seq, p') ->
  In seq seqs.
Proof.
  intros br fuel bound seqs refresh since cached g now fetch seq p' p
         Hf Ht Hc Hl Hrange Hwin Hbuild Hpick.
  unfold buildBlockSeqs in Hbuild.
  destruct (String.eqb_spec (range_mode br) "range") as [Hmode|Hmode].
  - destruct (seq_loop fuel (range_from br) (range_to br)) as [l|] eqn:Hloop;
      [|discriminate].
    injection Hbuild as <-.
    rewrite (seq_loop_some _ _ _ _ Hf Ht Hloop). apply interval_In.
    apply (pick_range_bounds p now fetch seq p'); auto.
  - destruct (Hwin Hmode) as [Hc1 [Hsame Hb]].
    match type of Hbuild with
    | option_map _ (seq_loop _ ?s ?b) = _ =>
        destruct (seq_loop fuel s b) as [l|] eqn:Hloop; [|discriminate];
        apply seq_loop_some in Hloop
    end.
    + injection Hbuild as <-. rewrite Hloop. apply interval_In.
      pose proof (pick_window_bounds p now fetch seq p' Hmode Hc Hl Hc1 Hpick Hb) as Hp.
      cbn [window p] in Hp. rewrite Hsame in Hp, Hb. unfold window_low in Hp.
      unfold in_int32 in *.
      pose proof (wrap_int32_range bound) as HB. unfold in_int32 in HB.
      rewrite (wrap_int32_id (wrap_int32 bound - range_count br))
        by (unfold in_int32; lia).
      rewrite (wrap_int32_id (wrap_int32 bound - range_count br + 1))
        by (unfold in_int32; lia).
      destruct (Z.ltb_spec (wrap_int32 bound - range_count br + 1) 1); lia.
    + destruct (_ <? 1); [unfold in_int32; lia | apply wrap_int32_range].
    + apply wrap_int32_range.
Qed.

Lemma pick_among_buildBlockSeqs_witness : In 946 (interval 801 1000).
Proof.
  apply (pick_among_buildBlockSeqs (mkRange 0 0 200 "last") 300 1000
           (interval 801 1000) 5000000000 0 1000
           (mkSource (fun k => 12345 + Z.of_nat k) 0) 1000000000 None 946
           (mkPicker "last" 0 0 200 5000000000 0 1000
              (mkSource (fun k => 12345 + Z.of_nat k) 1))).
  - unfold in_int32; cbn; lia.
  - unfold in_int32; cbn; lia.
  - unfold in_int32; cbn; lia.
  - unfold in_int32; lia.
  - discriminate.
  - intros _. split; [cbn; lia | split; [vm_compute; reflexivity | cbn; lia]].
  - vm_compute. reflexivity.
  - reflexivity.
Defined.

(* ----------------------------------------------------------------- *)
(** ** What a run hands back *)

Lemma Forall_update_nth {A : Type} (P : A -> Prop) : forall l n x,
  Forall P l -> P x -> Forall P (update_nth n x l).
Proof.
  induction l as [|a l IH]; intros [|n] x Hl Hx; cbn [update_nth];
    try exact Hl; inversion Hl; subst; constructor; auto.
Qed.

Lemma Forall_nth_error {A : Type} (P : A -> Prop) : forall l n x,
  Forall P l -> nth_error l n = Some x -> P x.
Proof.
  intros l n x Hl Hn. eapply Forall_forall; [exact Hl|].
  eapply nth_error_In. exact Hn.
Qed.

Lemma count_failed_snoc : forall l d,
  count_failed (l ++ [d]) = count_failed l + (if d <? 0 then 1 else 0).
Proof.
  intros l d. unfold count_failed. rewrite filter_app, len_app.
  cbn [filter]. destruct (d <? 0); reflexivity.
Qed.

Lemma successful_count : forall l,
  len (filter successful l) = len l - count_failed l.
Proof.
  intros l. unfold count_failed, len.
  induction l as [|d l IH]; [reflexivity|].
  cbn [filter]. unfold successful at 1.
  destruct (d <? 0); cbn [negb List.length]; lia.
Qed.

Lemma timed_totals_init : forall buckets conc,
  0 <= buckets -> timed_totals buckets (timed_init buckets conc).
Proof.
  intros buckets conc Hb. constructor; cbn.
  - unfold len. rewrite repeat_length. lia.
  - reflexivity.
  - reflexivity.
  - lia.
  - apply Forall_forall. intros w Hw. apply repeat_spec in Hw. subst w. exact I.
Qed.

Lemma timed_totals_step : forall itemCount buckets s s',
  timed_totals buckets s -> timed_step itemCount buckets s s' ->
  timed_totals buckets s'.
Proof.
  intros itemCount buckets s s' [Hp Hl Hf Hs Hm] Hstep.
  destruct Hstep as [s w Hw | s w Hw | s w i ok d sec Hw Hd
                    | s w ok d sec Hw | s w ok d Hw].
  - constructor; cbn; auto. apply Forall_update_nth; [exact Hm | exact I].
  - constructor; cbn; auto. apply Forall_update_nth; [exact Hm | exact I].
  - constructor; cbn; auto. apply Forall_update_nth; [exact Hm | exact Hd].
  - pose proof (Forall_nth_error _ _ _ _ Hm Hw) as Hd. cbn in Hd.
    unfold record_bucket.
    destruct ((0 <=? sec) && (sec <? buckets))%bool; [destruct ok|];
      constructor; cbn; auto;
      try (apply Forall_update_nth; [exact Hm | exact Hd]).
    unfold push, len. rewrite update_nth_length. exact Hp.
  - pose proof (Forall_nth_error _ _ _ _ Hm Hw) as Hd. cbn in Hd.
    unfold record_total. destruct ok; constructor; cbn; auto;
      try (apply Forall_update_nth; [exact Hm | exact I]);
      try (rewrite len_app; unfold len at 2; cbn [List.length]; lia);
      try lia;
      rewrite count_failed_snoc.
    + destruct (Z.ltb_spec d 0); lia.
    + cbn. lia.
Qed.

Lemma timed_totals_steps : forall itemCount buckets s s',
  timed_totals buckets s -> timed_steps itemCount buckets s s' ->
  timed_totals buckets s'.
Proof.
  intros itemCount buckets s s' Hinv Hsteps.
  induction Hsteps as [|s1 s2 s3 _ IH Hstep]; [exact Hinv|].
  eapply timed_totals_step; [apply IH, Hinv | exact Hstep].
Qed.

Lemma jobs_successes_nonneg : forall total cap s0 s,
  0 <= j_successes s0 -> jobs_steps total cap s0 s -> 0 <= j_successes s.
Proof.
  intros total cap s0 s H0 Hsteps.
  induction Hsteps as [|s1 s2 s3 _ IH Hstep]; [exact H0|].
  specialize (IH H0).
  destruct Hstep as [s | s | s w idx rest | s w idx r | s w]; cbn; try exact IH.
  destruct r; cbn; lia.
Qed.

Lemma len_countsToFloat64 : forall counts, len (countsToFloat64 counts) = len counts.
Proof.
  intros counts. unfold countsToFloat64.
  destruct (Z.eqb_spec (len counts) 0) as [H|H]; [rewrite H; reflexivity|].
  unfold len. rewrite length_map. reflexivity.
Qed.

Lemma seconds_interval : forall b, map (fun i => i + 1) (iota b) = interval 1 b.
Proof.
  intros b. unfold iota, interval. rewrite map_map.
  replace (Z.to_nat (b - 1 + 1)) with (Z.to_nat b) by lia.
  apply map_ext. intros k. lia.
Qed.

(** [applyMetrics] returns whenever the success count is not negative, and
    touches nothing but the statistics and the rate. *)
Lemma applyMetrics_fields : forall r durations,
  0 <= Success r ->
  exists r',
    applyMetrics r durations = Returns r'
    /\ computeMetrics durations (Success r) = Returns (statistics r')
    /\ Mode r' = Mode r /\ Concurrency r' = Concurrency r
    /\ Total r' = Total r /\ Success r' = Success r /\ Errors r' = Errors r
    /\ Duration r' = Duration r
    /\ SeriesSec r' = SeriesSec r /\ SeriesRPS r' = SeriesRPS r
    /\ SeriesErr r' = SeriesErr r /\ SeriesP50 r' = SeriesP50 r
    /\ SeriesP90 r' = SeriesP90 r /\ SeriesP95 r' = SeriesP95 r
    /\ SeriesP99 r' = SeriesP99 r /\ SeriesStart r' = SeriesStart r.
Proof.
  intros r durations Hs. unfold applyMetrics.
  destruct (computeMetrics durations (Success r)) as [m|] eqn:Hm.
  - eexists. split; [reflexivity|]. destruct m. cbn.
    repeat split; reflexivity.
  - exfalso. unfold computeMetrics in Hm.
    destruct (Success r =? 0); [discriminate|].
    destruct (Z.ltb_spec (Success r) 0); [lia|].
    destruct (len (filter successful durations) =? 0); discriminate.
Qed.

(** X8: a TimeBoxed run over at least one item returns seven series of
    the same length, the number of buckets [max(1, ceil(duration))], the
    seconds being numbered [1 .. buckets]; it holds one duration for every
    outcome it counted, and its non-negative durations are as many as its
    successes, the sentinels as many as its errors. *)
Theorem runTimedJobs_series_aligned : forall itemCount conc duration jr,
  0 < itemCount ->
  runTimedJobs itemCount conc duration jr ->
  let b := timed_buckets duration in
  1 <= b
  /\ jr_seriesSec jr = interval 1 b
  /\ len (jr_seriesRPS jr) = b /\ len (jr_seriesErr jr) = b
  /\ len (jr_seriesP50 jr) = b /\ len (jr_seriesP90 jr) = b
  /\ len (jr_seriesP95 jr) = b /\ len (jr_seriesP99 jr) = b
  /\ len (jr_durations jr) = Success (jr_result jr) + Errors (jr_result jr)
  /\ len (filter successful (jr_durations jr)) = Success (jr_result jr)
  /\ count_failed (jr_durations jr) = Errors (jr_result jr).
Proof.
  intros itemCount conc duration jr Hitems Hrun b.
  pose proof (timed_buckets_pos duration) as Hb. fold b in Hb.
  destruct Hrun as [Hno | s startMs [_ [Hsteps Hdone]]]; [lia|].
  fold b in Hsteps.
  pose proof (timed_inv_steps _ _ _ _
                (timed_inv_init b conc ltac:(lia)) Hsteps) as Hinv.
  pose proof (timed_totals_steps _ _ _ _
                (timed_totals_init b conc ltac:(lia)) Hsteps) as [Hp Hl Hf Hs _].
  pose proof (tinv_len _ _ Hinv true) as Hok.
  pose proof (tinv_len _ _ Hinv false) as Herr.
  cbn [counts_of] in Hok, Herr.
  unfold runTimedJobs_result, percentileSeries.
  cbn [jr_seriesSec jr_seriesRPS jr_seriesErr jr_seriesP50 jr_seriesP90
       jr_seriesP95 jr_seriesP99 jr_durations jr_result fst snd].
  split; [exact Hb|].
  split; [apply seconds_interval|].
  rewrite !len_countsToFloat64.
  assert (Hmap : forall f : list Z -> float64, len (map f (t_perSec s)) = b)
    by (intros f; unfold len in *; rewrite length_map; exact Hp).
  do 2 (split; [assumption|]).
  do 4 (split; [apply Hmap|]).
  pose proof (successful_count (t_durations s)) as Hsc.
  cbn [counted_Result Success Errors].
  split; [exact Hl|]. split; [lia | exact Hf].
Qed.

Lemma runTimedJobs_series_aligned_witness :
  let jr := runTimedJobs_result (timed_buckets 3000000000) 0 late_run_final in
  let b := timed_buckets 3000000000 in
  1 <= b
  /\ jr_seriesSec jr = interval 1 b
  /\ len (jr_seriesRPS jr) = b /\ len (jr_seriesErr jr) = b
  /\ len (jr_seriesP50 jr) = b /\ len (jr_seriesP90 jr) = b
  /\ len (jr_seriesP95 jr) = b /\ len (jr_seriesP99 jr) = b
  /\ len (jr_durations jr) = Success (jr_result jr) + Errors (jr_result jr)
  /\ len (filter successful (jr_durations jr)) = Success (jr_result jr)
  /\ count_failed (jr_durations jr) = Errors (jr_result jr).
Proof.
  apply (runTimedJobs_series_aligned 1 1 3000000000).
  - lia.
  - apply runTimedJobs_done. exact late_run_returns.
Defined.

(** X9: a scenario never panics in [applyMetrics] and reports a
    consistent row: the mode, the concurrency and the elapsed time it was
    given, counts that are not negative, and a total equal to successes plus
    errors, which in FixedCount mode is the number of items.  Over no item
    at all, FixedCount mode reports nothing (0 successes, 0 errors) while
    TimeBoxed mode reports one error. *)
Theorem scenario_totals : forall mode items conc duration elapsed out,
  0 <= items <= MaxInt64 ->
  scenario mode items conc duration elapsed out ->
  exists r,
    out = Returns r
    /\ Mode r = mode /\ Concurrency r = conc /\ Duration r = elapsed
    /\ 0 <= Success r /\ 0 <= Errors r
    /\ Total r = wrap_int64 (Success r + Errors r)
    /\ (duration <= 0 -> Total r = items /\ Success r + Errors r = items)
    /\ (items = 0 ->
          Success r = 0 /\ Errors r = (if 0 <? duration then 1 else 0)
          /\ SeriesSec r = []).
Proof.
  intros mode items conc duration elapsed out Hitems Hrun.
  assert (Hfinish : forall jr,
    0 <= Success (jr_result jr) -> 0 <= Errors (jr_result jr) ->
    (duration <= 0 -> Success (jr_result jr) + Errors (jr_result jr) = items) ->
    (items = 0 ->
       Success (jr_result jr) = 0
       /\ Errors (jr_result jr) = (if 0 <? duration then 1 else 0)
       /\ (0 < duration -> jr_seriesSec jr = [])
       /\ SeriesSec (jr_result jr) = []) ->
    exists r,
      scenario_Result mode items conc duration elapsed jr = Returns r
      /\ Mode r = mode /\ Concurrency r = conc /\ Duration r = elapsed
      /\ 0 <= Success r /\ 0 <= Errors r
      /\ Total r = wrap_int64 (Success r + Errors r)
      /\ (duration <= 0 -> Total r = items /\ Success r + Errors r = items)
      /\ (items = 0 ->
            Success r = 0 /\ Errors r = (if 0 <? duration then 1 else 0)
            /\ SeriesSec r = [])).
  { intros jr Hs He Hfixed Hnone. unfold scenario_Result.
    destruct (Z.ltb_spec 0 duration) as [Hd|Hd].
    - match goal with |- context [applyMetrics ?r0 ?ds] =>
        destruct (applyMetrics_fields r0 ds Hs)
          as [r [-> [_ [Hm [Hc [Ht [Hsu [Her [Hdu [Hss _]]]]]]]]]] end.
      cbn in Hm, Hc, Ht, Hsu, Her, Hdu, Hss. exists r.
      rewrite Hsu, Her, Ht, Hss.
      repeat split; try assumption; try lia; apply Hnone; assumption.
    - match goal with |- context [applyMetrics ?r0 ?ds] =>
        destruct (applyMetrics_fields r0 ds Hs)
          as [r [-> [_ [Hm [Hc [Ht [Hsu [Her [Hdu [Hss _]]]]]]]]]] end.
      cbn in Hm, Hc, Ht, Hsu, Her, Hdu, Hss. exists r.
      rewrite Hsu, Her, Ht, Hss. specialize (Hfixed Hd).
      rewrite Hfixed.
      rewrite wrap_int64_id by (unfold in_int64, MaxInt64 in *; lia).
      repeat split; try assumption; try lia; apply Hnone; assumption. }
  destruct Hrun as [jr Hd Hjr | jr Hd Hjr].
  - destruct Hjr as [Hno | s startMs Hret].
    + apply Hfinish; cbn; try lia.
      intros _. destruct (Z.ltb_spec 0 duration); [|lia]. repeat split.
    + destruct Hret as [Hpos [Hsteps Hdone]].
      pose proof (timed_buckets_pos duration) as Hb.
      pose proof (timed_totals_steps _ _ _ _
                    (timed_totals_init (timed_buckets duration) conc ltac:(lia))
                    Hsteps) as [_ _ Hf Hs _].
      apply Hfinish; cbn; try lia.
      rewrite <- Hf. apply len_nonneg.
  - destruct Hjr as [s [Hsteps Hdone]].
    assert (Hcap : 1 <= effective_conc items conc)
      by (rewrite effective_conc_clamp by lia; lia).
    pose proof (jobs_inv_steps _ _ _ _ (jobs_inv_init items conc ltac:(lia)) Hsteps)
      as Hinv.
    destruct (jobs_done_facts _ _ _ Hcap Hinv Hdone) as [_ [_ [Hsum [Herr _]]]].
    pose proof (jobs_successes_nonneg _ _ (jobs_init items conc) _
                  (Z.le_refl 0) Hsteps) as Hs.
    assert (He : 0 <= j_errors s) by (rewrite Herr; apply len_nonneg).
    apply Hfinish; cbn; try lia.
    intros ->. destruct (Z.ltb_spec 0 duration); [lia|].
    repeat split; try lia.
Qed.

Lemma scenario_totals_witness :
  exists r,
    scenario_Result "blocks" 1 1 3000000000 3250000000
      (runTimedJobs_result (timed_buckets 3000000000) 0 late_run_final)
    = Returns r
    /\ Mode r = "blocks"%string /\ Concurrency r = 1 /\ Duration r = 3250000000
    /\ 0 <= Success r /\ 0 <= Errors r
    /\ Total r = wrap_int64 (Success r + Errors r)
    /\ (3000000000 <= 0 -> Total r = 1 /\ Success r + Errors r = 1)
    /\ (1 = 0 ->
          Success r = 0 /\ Errors r = (if 0 <? 3000000000 then 1 else 0)
          /\ SeriesSec r = []).
Proof.
  apply (scenario_totals "blocks" 1 1 3000000000 3250000000).
  - unfold MaxInt64. lia.
  - apply scenario_timed; [lia|].
    apply runTimedJobs_done. exact late_run_returns.
Defined.

(* ----------------------------------------------------------------- *)
(** ** Counts as float64 *)

Lemma int_of_f64_of_int : forall v,
  0 <= v < 2 ^ 53 -> int_of_float64 (f64_of_int v) = v.
Proof.
  intros v Hv. destruct (Z.eq_dec v 0) as [->|Hne]; [reflexivity|].
  destruct (of_int_small v ltac:(lia)) as [Hd [Hv2 [Hm ->]]].
  cbv zeta in *. set (d := Zdigits2 v) in *.
  cbn [int_of_float64]. unfold trunc_finite.
  rewrite Z2Pos.id by lia.
  assert (Ht : (if 0 <=? d - 53 then v * 2 ^ (53 - d) * 2 ^ (d - 53)
                else v * 2 ^ (53 - d) / 2 ^ (- (d - 53))) = v).
  { destruct (Z.leb_spec 0 (d - 53)).
    - replace d with 53 by lia. cbn. lia.
    - replace (- (d - 53)) with (53 - d) by lia.
      apply Z.div_mul. apply Z.pow_nonzero; lia. }
  rewrite Ht.
  destruct (Z.leb_spec MinInt64 v); [|unfold MinInt64 in *; lia].
  destruct (Z.leb_spec v MaxInt64); [reflexivity|unfold MaxInt64 in *; lia].
Qed.

(** X10: [countsToFloat64] keeps the length of the counts and loses
    nothing of them: every count below [2 ^ 53] is read back from its
    float64 unchanged. *)
Theorem countsToFloat64_exact : forall counts,
  Forall (fun v => 0 <= v < 2 ^ 53) counts ->
  map int_of_float64 (countsToFloat64 counts) = counts
  /\ len (countsToFloat64 counts) = len counts.
Proof.
  intros counts Hc. split; [|apply len_countsToFloat64].
  unfold countsToFloat64.
  destruct (Z.eqb_spec (len counts) 0) as [H0|H0].
  - destruct counts; [reflexivity|]. unfold len in H0. cbn in H0. lia.
  - rewrite map_map. clear H0.
    induction Hc as [|v l Hv _ IH]; [reflexivity|].
    cbn [map]. rewrite int_of_f64_of_int by exact Hv. f_equal. exact IH.
Qed.

Lemma countsToFloat64_exact_witness :
  map int_of_float64 (countsToFloat64 [0; 17; 250; 9007199254740991])
  = [0; 17; 250; 9007199254740991]
  /\ len (countsToFloat64 [0; 17; 250; 9007199254740991])
     = len [0; 17; 250; 9007199254740991].
Proof.
  apply (countsToFloat64_exact [0; 17; 250; 9007199254740991]).
  repeat constructor; lia.
Defined.

(* ----------------------------------------------------------------- *)
(** ** The item a TimeBoxed worker claims *)

(** X11: in TimeBoxed mode the items are handed out round-robin: the
    claim that finds the counter at [k < 2 ^ 63] gets the item [k mod
    itemCount], an index of the data set, and the claim [itemCount] later
    gets the same item again.  From [2 ^ 63] on, the conversion of the
    counter to [int] is negative and the index is not positive. *)
Theorem claimed_index_round_robin : forall k itemCount,
  0 < itemCount ->
  (0 <= k < 2 ^ 63 ->
     claimed_index k itemCount = k mod itemCount
     /\ 0 <= claimed_index k itemCount < itemCount)
  /\ (0 <= k -> k + itemCount < 2 ^ 63 ->
        claimed_index (k + itemCount) itemCount = claimed_index k itemCount)
  /\ (2 ^ 63 <= k < 2 ^ 64 -> claimed_index k itemCount <= 0).
Proof.
  intros k itemCount Hn.
  assert (Hlow : forall j, 0 <= j < 2 ^ 63 -> claimed_index j itemCount = j mod itemCount).
  { intros j Hj. unfold claimed_index.
    rewrite (Z.mod_small j (2 ^ 64)) by lia.
    rewrite wrap_int64_id by (unfold in_int64; lia).
    apply Z.rem_mod_nonneg; lia. }
  split; [|split].
  - intros Hk. rewrite Hlow by exact Hk.
    split; [reflexivity | apply Z.mod_pos_bound; exact Hn].
  - intros Hk Hk'. rewrite !Hlow by lia.
    rewrite <- (Z.mul_1_l itemCount) at 1. apply Z.mod_add. lia.
  - intros Hk. unfold claimed_index.
    rewrite (Z.mod_small k (2 ^ 64)) by lia.
    assert (Hw : wrap_int64 k = k - 2 ^ 64).
    { unfold wrap_int64, wrap_bits. change (2 ^ (64 - 1)) with (2 ^ 63).
      replace ((k + 2 ^ 63) mod 2 ^ 64) with (k - 2 ^ 63); [lia|].
      apply Z.mod_unique_pos with (q := 1); lia. }
    rewrite Hw. apply Z.rem_nonpos; lia.
Qed.

Lemma claimed_index_round_robin_witness :
  (0 <= 12 < 2 ^ 63 -> claimed_index 12 5 = 12 mod 5 /\ 0 <= claimed_index 12 5 < 5)
  /\ (0 <= 12 -> 12 + 5 < 2 ^ 63 -> claimed_index (12 + 5) 5 = claimed_index 12 5)
  /\ (2 ^ 63 <= 12 < 2 ^ 64 -> claimed_index 12 5 <= 0).
Proof.
  apply (claimed_index_round_robin 12 5). lia.
Defined.

(* ----------------------------------------------------------------- *)
(** ** Escaping *)

Local Open Scope string_scope.

Lemma escape_byte_cases : forall c,
  (is_markup c = false /\ escape_byte c = String c EmptyString)
  \/ (c = "&"%char /\ escape_byte c = "&amp;")
  \/ (c = "<"%char /\ escape_byte c = "&lt;")
  \/ (c = ">"%char /\ escape_byte c = "&gt;")
  \/ (c = quote_char /\ escape_byte c = "&quot;")
  \/ (c = "'"%char /\ escape_byte c = "&#39;").
Proof.
  intros c. unfold escape_byte, is_markup.
  destruct (Ascii.eqb_spec c "&"); [subst; auto|].
  destruct (Ascii.eqb_spec c "<"); [subst; auto 6|].
  destruct (Ascii.eqb_spec c ">"); [subst; auto 6|].
  destruct (Ascii.eqb_spec c quote_char); [subst; auto 8|].
  destruct (Ascii.eqb_spec c "'"); [subst; auto 8|].
  left. split; reflexivity.
Qed.

Lemma htmlEsc_app : forall s t, htmlEsc (s ++ t) = htmlEsc s ++ htmlEsc t.
Proof.
  induction s as [|c s IH]; intros t; [reflexivity|].
  cbn [htmlEsc append]. rewrite IH.
  generalize (escape_byte c) as e. intros e.
  induction e as [|a e IHe]; [reflexivity|].
  cbn [append]. rewrite IHe. reflexivity.
Qed.

Lemma list_ascii_of_string_app : forall s t,
  list_ascii_of_string (s ++ t) = (list_ascii_of_string s ++ list_ascii_of_string t)%list.
Proof.
  induction s as [|c s IH]; intros t; [reflexivity|].
  cbn [append list_ascii_of_string app]. rewrite IH. reflexivity.
Qed.

(** X12: the text [htmlEsc] returns holds no [<], [>], double quote or
    apostrophe, so it cannot open or close a tag or an attribute; text
    without these bytes and without [&] is returned as it is; and escaping
    goes piece by piece: the escape of a concatenation is the concatenation
    of the escapes. *)
Theorem htmlEsc_no_markup : forall s,
  (forall c, In c (list_ascii_of_string (htmlEsc s)) ->
     c <> "<"%char /\ c <> ">"%char /\ c <> quote_char /\ c <> "'"%char)
  /\ (forallb (fun c => negb (is_markup c)) (list_ascii_of_string s) = true ->
        htmlEsc s = s)
  /\ (forall t, htmlEsc (s ++ t) = htmlEsc s ++ htmlEsc t).
Proof.
  intros s. split; [|split; [|apply htmlEsc_app]].
  - induction s as [|a s IH]; intros c Hc; [destruct Hc|].
    cbn [htmlEsc] in Hc. rewrite list_ascii_of_string_app in Hc.
    apply in_app_or in Hc. destruct Hc as [Hc|Hc]; [|apply IH, Hc].
    destruct (escape_byte_cases a)
      as [[Hm He]|[[_ He]|[[_ He]|[[_ He]|[[_ He]|[_ He]]]]]];
      rewrite He in Hc; cbn in Hc.
    + destruct Hc as [<-|[]]. unfold is_markup in Hm.
      repeat (apply orb_false_iff in Hm; destruct Hm as [Hm ?]).
      repeat split; intros ->; discriminate.
    + repeat (destruct Hc as [<-|Hc]; [repeat split; discriminate|]). destruct Hc.
    + repeat (destruct Hc as [<-|Hc]; [repeat split; discriminate|]). destruct Hc.
    + repeat (destruct Hc as [<-|Hc]; [repeat split; discriminate|]). destruct Hc.
    + repeat (destruct Hc as [<-|Hc]; [repeat split; discriminate|]). destruct Hc.
    + repeat (destruct Hc as [<-|Hc]; [repeat split; discriminate|]). destruct Hc.
  - induction s as [|a s IH]; intros Hs; [reflexivity|].
    cbn [list_ascii_of_string forallb] in Hs.
    apply andb_true_iff in Hs. destruct Hs as [Ha Hs].
    cbn [htmlEsc]. rewrite (IH Hs).
    destruct (escape_byte_cases a)
      as [[Hm ->]|[[-> _]|[[-> _]|[[-> _]|[[-> _]|[-> _]]]]]];
      try discriminate. reflexivity.
Qed.

Lemma escape_byte_inj : forall a b u v,
  escape_byte a ++ u = escape_byte b ++ v -> a = b /\ u = v.
Proof.
  intros a b u v H.
  destruct (escape_byte_cases a)
    as [[Ha Hea]|[[Ha Hea]|[[Ha Hea]|[[Ha Hea]|[[Ha Hea]|[Ha Hea]]]]]];
  destruct (escape_byte_cases b)
    as [[Hb Heb]|[[Hb Heb]|[[Hb Heb]|[[Hb Heb]|[[Hb Heb]|[Hb Heb]]]]]];
  rewrite Hea, Heb in H; cbn [append] in H.
  all: try (subst; discriminate H).
  all: try (injection H as E _; subst;
            match goal with
            | Hm : is_markup _ = false |- _ => vm_compute in Hm; discriminate Hm
            end).
  all: try (subst; repeat (injection H as H); split; [reflexivity | exact H]).
  injection H as -> ->. split; reflexivity.
Qed.

(** X13: [htmlEsc] loses nothing: two different texts have two different
    escapes. *)
Theorem htmlEsc_injective : forall s t, htmlEsc s = htmlEsc t -> s = t.
Proof.
  induction s as [|a s IH]; intros t H.
  - destruct t as [|b t]; [reflexivity|]. cbn [htmlEsc] in H.
    destruct (escape_byte_cases b)
      as [[_ He]|[[_ He]|[[_ He]|[[_ He]|[[_ He]|[_ He]]]]]];
      rewrite He in H; discriminate.
  - destruct t as [|b t]; cbn [htmlEsc] in H.
    + destruct (escape_byte_cases a)
        as [[_ He]|[[_ He]|[[_ He]|[[_ He]|[[_ He]|[_ He]]]]]];
        rewrite He in H; discriminate.
    + apply escape_byte_inj in H. destruct H as [-> H].
      f_equal. apply IH, H.
Qed.

Lemma htmlEsc_injective_witness : "a<b & c" = "a<b & c".
Proof.
  apply (htmlEsc_injective "a<b & c" "a<b & c"). reflexivity.
Defined.

Local Close Scope string_scope.

(* ----------------------------------------------------------------- *)
(** ** Sorting *)

Section SortBy.

Variable A : Type.
Variable less : A -> A -> bool.

Lemma insert_by_perm : forall x l, Permutation (x :: l) (insert_by less x l).
Proof.
  intros x l. induction l as [|y l IH]; cbn [insert_by]; [apply Permutation_refl|].
  destruct (less y x); [|apply Permutation_refl].
  apply Permutation_trans with (y :: x :: l); [apply perm_swap|].
  apply perm_skip, IH.
Qed.

Lemma sort_by_perm : forall l, Permutation l (sort_by less l).
Proof.
  induction l as [|x l IH]; cbn [sort_by]; [apply perm_nil|].
  apply Permutation_trans with (x :: sort_by less l);
    [apply perm_skip, IH | apply insert_by_perm].
Qed.

Hypothesis less_irrefl : forall x, less x x = false.
Hypothesis less_trans : forall x y z,
  less x y = true -> less y z = true -> less x z = true.

Lemma less_asym : forall x y, less x y = true -> less y x = false.
Proof.
  intros x y H. destruct (less y x) eqn:E; [|reflexivity].
  rewrite <- (less_irrefl x). symmetry. eapply less_trans; eassumption.
Qed.

Lemma tells_apart_perm : forall l l',
  Permutation l l' -> tells_apart less l -> tells_apart less l'.
Proof.
  intros l l' Hp Hl x y Hx Hy. apply Hl; eapply Permutation_in;
    try eassumption; apply Permutation_sym; exact Hp.
Qed.

Lemma insert_by_sorted : forall x l,
  tells_apart less (x :: l) -> ~ In x l ->
  StronglySorted (fun a b => less a b = true) l ->
  StronglySorted (fun a b => less a b = true) (insert_by less x l).
Proof.
  intros x l. induction l as [|y l IH]; intros Hta Hx Hl; cbn [insert_by].
  - constructor; constructor.
  - inversion Hl as [|? ? Hl' Hy]; subst.
    destruct (less y x) eqn:E.
    + constructor.
      * apply IH; [|intros H; apply Hx; right; exact H | exact Hl'].
        intros a b Ha Hb. apply Hta.
        -- destruct Ha as [<-|Ha]; [left; reflexivity | right; right; exact Ha].
        -- destruct Hb as [<-|Hb]; [left; reflexivity | right; right; exact Hb].
      * apply Forall_forall. intros z Hz.
        apply (Permutation_in z (Permutation_sym (insert_by_perm x l))) in Hz.
        destruct Hz as [<-|Hz]; [exact E|].
        eapply Forall_forall in Hy; eassumption.
    + assert (Hxy : less x y = true).
      { destruct (less x y) eqn:E'; [reflexivity|].
        exfalso. apply Hx. left. symmetry.
        apply Hta; [left; reflexivity | right; left; reflexivity | assumption..]. }
      constructor; [exact Hl|]. constructor; [exact Hxy|].
      apply Forall_forall. intros z Hz.
      eapply less_trans; [exact Hxy|].
      eapply Forall_forall in Hy; eassumption.
Qed.

Lemma sort_by_sorted : forall l,
  tells_apart less l -> NoDup l ->
  StronglySorted (fun a b => less a b = true) (sort_by less l).
Proof.
  induction l as [|x l IH]; intros Hta Hnd; cbn [sort_by]; [constructor|].
  inversion Hnd as [|? ? Hx Hl]; subst.
  apply insert_by_sorted.
  - apply (tells_apart_perm (x :: l)); [|exact Hta].
    apply perm_skip, sort_by_perm.
  - intros H. apply Hx.
    apply (Permutation_in x (Permutation_sym (sort_by_perm l))). exact H.
  - apply IH; [|exact Hl].
    intros a b Ha Hb. apply Hta; right; assumption.
Qed.

(** An ascending list is determined by its elements. *)
Lemma sorted_unique : forall l1 l2,
  StronglySorted (fun a b => less a b = true) l1 ->
  StronglySorted (fun a b => less a b = true) l2 ->
  Permutation l1 l2 -> l1 = l2.
Proof.
  induction l1 as [|x l1 IH]; intros l2 H1 H2 Hp.
  - apply Permutation_nil in Hp. subst. reflexivity.
  - destruct l2 as [|y l2];
      [apply Permutation_sym, Permutation_nil in Hp; discriminate|].
    inversion H1 as [|? ? H1' Hx]; subst.
    inversion H2 as [|? ? H2' Hy]; subst.
    assert (Hxy : x = y).
    { assert (Hin1 : In x (y :: l2)) by (apply (Permutation_in x Hp); left; reflexivity).
      assert (Hin2 : In y (x :: l1))
        by (apply (Permutation_in y (Permutation_sym Hp)); left; reflexivity).
      destruct Hin1 as [->|Hin1]; [reflexivity|].
      destruct Hin2 as [->|Hin2]; [reflexivity|].
      eapply Forall_forall in Hx; [|exact Hin2].
      eapply Forall_forall in Hy; [|exact Hin1].
      rewrite (less_asym _ _ Hx) in Hy. discriminate. }
    subst y. f_equal. apply IH; try assumption.
    eapply Permutation_cons_inv. exact Hp.
Qed.

Lemma sort_by_any_order : forall l l',
  tells_apart less l -> NoDup l -> Permutation l l' ->
  sort_by less l = sort_by less l'.
Proof.
  intros l l' Hta Hnd Hp. apply sorted_unique.
  - apply sort_by_sorted; assumption.
  - apply sort_by_sorted.
    + eapply tells_apart_perm; eassumption.
    + eapply Permutation_NoDup; eassumption.
  - apply Permutation_trans with l; [apply Permutation_sym, sort_by_perm|].
    apply Permutation_trans with l'; [exact Hp | apply sort_by_perm].
Qed.

End SortBy.

Lemma ascii_compare_lt_trans : forall a b c,
  Ascii.compare a b = Lt -> Ascii.compare b c = Lt -> Ascii.compare a c = Lt.
Proof.
  intros a b c. unfold Ascii.compare. rewrite !N.compare_lt_iff. lia.
Qed.

Lemma string_compare_lt_trans : forall s t u,
  String.compare s t = Lt -> String.compare t u = Lt -> String.compare s u = Lt.
Proof.
  induction s as [|a s IH]; intros [|b t] [|c u] H1 H2;
    cbn [String.compare] in *; try discriminate; try reflexivity.
  destruct (Ascii.compare a b) eqn:Eab; try discriminate;
    destruct (Ascii.compare b c) eqn:Ebc; try discriminate.
  - apply Ascii.compare_eq_iff in Eab, Ebc. subst.
    assert (E : Ascii.compare c c = Eq).
    { unfold Ascii.compare. apply N.compare_refl. }
    rewrite E. eapply IH; eassumption.
  - apply Ascii.compare_eq_iff in Eab. subst. rewrite Ebc. reflexivity.
  - apply Ascii.compare_eq_iff in Ebc. subst. rewrite Eab. reflexivity.
  - rewrite (ascii_compare_lt_trans _ _ _ Eab Ebc). reflexivity.
Qed.

Lemma string_compare_refl : forall s, String.compare s s = Eq.
Proof.
  induction s as [|a s IH]; [reflexivity|]. cbn [String.compare].
  assert (E : Ascii.compare a a = Eq) by (unfold Ascii.compare; apply N.compare_refl).
  rewrite E. exact IH.
Qed.

Lemma ltb_irrefl : forall s, String.ltb s s = false.
Proof. intros s. unfold String.ltb. rewrite string_compare_refl. reflexivity. Qed.

Lemma ltb_trans : forall s t u,
  String.ltb s t = true -> String.ltb t u = true -> String.ltb s u = true.
Proof.
  intros s t u. unfold String.ltb.
  destruct (String.compare s t) eqn:E1; try discriminate.
  destruct (String.compare t u) eqn:E2; try discriminate.
  rewrite (string_compare_lt_trans _ _ _ E1 E2). reflexivity.
Qed.

Lemma ltb_total : forall s t,
  String.ltb s t = false -> String.ltb t s = false -> s = t.
Proof.
  intros s t. unfold String.ltb. rewrite (String.compare_antisym t s).
  destruct (String.compare s t) eqn:E; cbn; try discriminate.
  intros _ _. apply String.compare_eq_iff, E.
Qed.

(* ----------------------------------------------------------------- *)
(** ** The configurations of a report *)

Lemma existsb_eqb_In : forall c seen,
  existsb (String.eqb c) seen = true <-> In c seen.
Proof.
  intros c seen. rewrite existsb_exists. split.
  - intros [x [Hx He]]. apply String.eqb_eq in He. subst. exact Hx.
  - intros H. exists c. split; [exact H | apply String.eqb_refl].
Qed.

Lemma first_appearances_spec : forall results seen,
  NoDup (first_appearances seen results)
  /\ forall c, In c (first_appearances seen results)
               <-> (exists r, In r results /\ Config r = c) /\ ~ In c seen.
Proof.
  induction results as [|r rest IH]; intros seen; cbn [first_appearances].
  - split; [constructor|]. intros c. split; [intros []|intros [[r [[] _]] _]].
  - destruct (existsb (String.eqb (Config r)) seen) eqn:E.
    + apply existsb_eqb_In in E. destruct (IH seen) as [Hnd Hin].
      split; [exact Hnd|]. intros c. rewrite Hin. split.
      * intros [[r' [Hr' Hc]] Hs]. split; [|exact Hs].
        exists r'. split; [right; exact Hr' | exact Hc].
      * intros [[r' [[<-|Hr'] Hc]] Hs]; [subst c; contradiction|].
        split; [|exact Hs]. exists r'. split; assumption.
    + assert (Hns : ~ In (Config r) seen).
      { intros H. apply existsb_eqb_In in H. congruence. }
      destruct (IH (Config r :: seen)) as [Hnd Hin].
      split.
      * constructor; [|exact Hnd]. rewrite Hin. intros [_ H]. apply H. left. reflexivity.
      * intros c. cbn [In]. rewrite Hin. split.
        -- intros [<-|[[r' [Hr' Hc]] Hs]].
           ++ split; [|exact Hns]. exists r. split; [left; reflexivity | reflexivity].
           ++ split; [|intros H; apply Hs; right; exact H].
              exists r'. split; [right; exact Hr' | exact Hc].
        -- intros [[r' [Hr' Hc]] Hs].
           destruct (String.eqb_spec (Config r) c) as [Heq|Hne]; [left; exact Heq|].
           right. split.
           ++ destruct Hr' as [<-|Hr']; [contradiction|].
              exists r'. split; assumption.
           ++ intros [H|H]; [contradiction | apply Hs, H].
Qed.

(** X14: [uniqueConfigs] returns every configuration name that occurs in
    the results exactly once, in strictly ascending byte order, and no
    other name. *)
Theorem uniqueConfigs_sorted_set : forall results,
  StronglySorted (fun a b => String.ltb a b = true) (uniqueConfigs results)
  /\ NoDup (uniqueConfigs results)
  /\ (forall c, In c (uniqueConfigs results)
                <-> exists r, In r results /\ Config r = c).
Proof.
  intros results. unfold uniqueConfigs, sort_Strings.
  destruct (Z.eqb_spec (len results) 0) as [H0|H0].
  - destruct results; [|unfold len in H0; cbn in H0; lia].
    split; [constructor|]. split; [constructor|].
    intros c. split; [intros [] | intros [r [[] _]]].
  - destruct (first_appearances_spec results []) as [Hnd Hin].
    pose proof (sort_by_perm _ String.ltb (first_appearances [] results)) as Hp.
    split; [apply sort_by_sorted;
              first [exact ltb_irrefl | exact ltb_trans | exact Hnd
                    | intros x y _ _; apply ltb_total]|].
    split; [eapply Permutation_NoDup; eassumption|].
    intros c. split.
    + intros H. apply (Permutation_in c (Permutation_sym Hp)) in H.
      apply Hin in H. apply H.
    + intros H. apply (Permutation_in c Hp). apply Hin. split; [exact H|intros []].
Qed.

(* ----------------------------------------------------------------- *)
(** ** Reading the command line *)

Local Open Scope string_scope.

Lemma Atoi_range : forall s i, Atoi s = Some i -> MinInt64 <= i <= MaxInt64.
Proof.
  intros s i H. unfold Atoi in H.
  destruct s as [|c s']; [discriminate|].
  cbv zeta in H.
  destruct (if (Ascii.eqb c "-" || Ascii.eqb c "+")%bool then s' else String c s');
    [discriminate|].
  destruct (digits_value 0 _) as [n|]; [|discriminate].
  destruct (Z.leb_spec MinInt64 (if Ascii.eqb c "-" then - n else n));
    [|discriminate].
  destruct (Z.leb_spec (if Ascii.eqb c "-" then - n else n) MaxInt64);
    [|discriminate].
  cbn [andb] in H. injection H as <-. lia.
Qed.

Lemma parseIntList_loop_spec : forall parts out res,
  parseIntList_loop parts out = Some res
  <-> exists vals,
        res = (out ++ vals)%list
        /\ map Some vals
           = map Atoi (filter (fun p => negb (String.eqb p "")) (map TrimSpace parts))
        /\ Forall (fun i => 1 <= i) vals.
Proof.
  induction parts as [|p parts IH]; intros out res; cbn [parseIntList_loop map filter].
  - split.
    + intros H. injection H as <-. exists []. rewrite app_nil_r.
      repeat split. constructor.
    + intros [vals [-> [Hm _]]]. destruct vals; [|discriminate].
      rewrite app_nil_r. reflexivity.
  - destruct (String.eqb (TrimSpace p) "") eqn:Eb; cbn [negb]; [apply IH|].
    cbn [map]. destruct (Atoi (TrimSpace p)) as [i|] eqn:Ea.
    + destruct (Z.leb_spec i 0) as [Hi|Hi].
      * split; [discriminate|].
        intros [vals [_ [Hm Hpos]]]. destruct vals as [|j vals]; [discriminate|].
        injection Hm as Hj _. subst j.
        inversion Hpos; subst. lia.
      * rewrite IH. split.
        -- intros [vals [-> [Hm Hpos]]]. exists (i :: vals).
           rewrite <- app_assoc. split; [reflexivity|].
           split; [cbn [map]; rewrite Hm; reflexivity|].
           constructor; [lia | exact Hpos].
        -- intros [vals [-> [Hm Hpos]]]. destruct vals as [|j vals]; [discriminate|].
           injection Hm as Hj Hm. subst j.
           exists vals. rewrite <- app_assoc. split; [reflexivity|].
           split; [exact Hm|]. inversion Hpos; assumption.
    + split; [discriminate|].
      intros [vals [_ [Hm _]]]. destruct vals; discriminate.
Qed.

(** X15: [parseIntList] accepts a list exactly when every field between
    the commas that is not blank is a decimal integer greater than zero,
    and then returns these integers in their order; one field that is not
    rejects the whole list, and blank fields are skipped, so that an empty
    text gives the empty list. *)
Theorem parseIntList_fields : forall v,
  (forall out,
     parseIntList v = Some out
     <-> map Some out = map Atoi (int_fields v) /\ Forall (fun i => 1 <= i) out)
  /\ (forall out, parseIntList v = Some out ->
        Forall (fun i => 1 <= i <= MaxInt64) out)
  /\ parseIntList "5,10,20,50" = Some [5; 10; 20; 50]
  /\ parseIntList " 8 , ,16," = Some [8; 16]
  /\ parseIntList "4,0" = None
  /\ parseIntList "4,x" = None
  /\ parseIntList "" = Some [].
Proof.
  intros v.
  assert (Hspec : forall out,
     parseIntList v = Some out
     <-> map Some out = map Atoi (int_fields v) /\ Forall (fun i => 1 <= i) out).
  { intros out. unfold parseIntList, int_fields. rewrite parseIntList_loop_spec.
    split.
    - intros [vals [-> H]]. exact H.
    - intros H. exists out. split; [reflexivity | exact H]. }
  split; [exact Hspec|].
  split; [|repeat split; vm_compute; reflexivity].
  intros out Hout. apply Hspec in Hout. destruct Hout as [Hm Hpos].
  revert Hm Hpos. generalize (int_fields v) as fields.
  induction out as [|i out IH]; intros fields Hm Hpos; [constructor|].
  destruct fields as [|f fields]; [discriminate|].
  injection Hm as Hi Hm. inversion Hpos; subst.
  constructor; [|eapply IH; eassumption].
  symmetry in Hi. apply Atoi_range in Hi. lia.
Qed.

(** X16: [parseBlockRange] accepts a text exactly when, lower-cased and
    trimmed, it is [last:] followed by a decimal integer [N >= 1], or
    [range:] followed by two decimal integers [A] and [B] around one
    hyphen with [1 <= A <= B]; the result holds [N], or [A] and [B],
    narrowed to [int32].  The numbers are tested as [int] and narrowed
    afterwards: a window below 1, or a range that is empty or starts below
    1, comes out only for a number above [2147483647], as for
    [last:4294967296], accepted with the window 0, and
    [range:2-4294967297], accepted as the range from 2 to 1. *)
Theorem parseBlockRange_accepts : forall spec br,
  (parseBlockRange spec = Some br <->
     (HasPrefix (ToLower (TrimSpace spec)) "last:" = true
      /\ exists n,
           Atoi (TrimPrefix (ToLower (TrimSpace spec)) "last:") = Some n
           /\ 1 <= n
           /\ br = mkRange 0 0 (wrap_int32 n) "last")
     \/ (HasPrefix (ToLower (TrimSpace spec)) "last:" = false
         /\ HasPrefix (ToLower (TrimSpace spec)) "range:" = true
         /\ exists a b x y,
              Split (TrimPrefix (ToLower (TrimSpace spec)) "range:") "-" = [a; b]
              /\ Atoi (TrimSpace a) = Some x /\ Atoi (TrimSpace b) = Some y
              /\ 1 <= x <= y
              /\ br = mkRange (wrap_int32 x) (wrap_int32 y) 0 "range"))
  /\ (parseBlockRange spec = Some br ->
       (range_mode br = "last"
        /\ (1 <= range_count br
            \/ exists n,
                 Atoi (TrimPrefix (ToLower (TrimSpace spec)) "last:") = Some n
                 /\ 2147483647 < n))
       \/ (range_mode br = "range"
           /\ (1 <= range_from br <= range_to br
               \/ exists a b y,
                    Split (TrimPrefix (ToLower (TrimSpace spec)) "range:") "-" = [a; b]
                    /\ Atoi (TrimSpace b) = Some y /\ 2147483647 < y)))
  /\ parseBlockRange " LAST:200 " = Some (mkRange 0 0 200 "last")
  /\ parseBlockRange "range:100-250" = Some (mkRange 100 250 0 "range")
  /\ parseBlockRange "last:0" = None
  /\ parseBlockRange "range:7-3" = None
  /\ parseBlockRange "range:-5-3" = None
  /\ parseBlockRange "" = None
  /\ parseBlockRange "last:4294967296" = Some (mkRange 0 0 0 "last")
  /\ parseBlockRange "range:2-4294967297" = Some (mkRange 2 1 0 "range").
Proof.
  intros spec br.
  assert (Hiff : parseBlockRange spec = Some br <->
     (HasPrefix (ToLower (TrimSpace spec)) "last:" = true
      /\ exists n,
           Atoi (TrimPrefix (ToLower (TrimSpace spec)) "last:") = Some n
           /\ 1 <= n
           /\ br = mkRange 0 0 (wrap_int32 n) "last")
     \/ (HasPrefix (ToLower (TrimSpace spec)) "last:" = false
         /\ HasPrefix (ToLower (TrimSpace spec)) "range:" = true
         /\ exists a b x y,
              Split (TrimPrefix (ToLower (TrimSpace spec)) "range:") "-" = [a; b]
              /\ Atoi (TrimSpace a) = Some x /\ Atoi (TrimSpace b) = Some y
              /\ 1 <= x <= y
              /\ br = mkRange (wrap_int32 x) (wrap_int32 y) 0 "range")).
  { unfold parseBlockRange. cbv zeta.
    set (v := ToLower (TrimSpace spec)).
    assert (Hempty : String.eqb v "" = true ->
                     HasPrefix v "last:" = false /\ HasPrefix v "range:" = false).
    { intros E. apply String.eqb_eq in E. rewrite E. split; reflexivity. }
    destruct (String.eqb v "") eqn:Ev.
    - destruct (Hempty eq_refl) as [H1 H2]. rewrite H1, H2.
      split; [discriminate|]. intros [[H _]|[_ [H _]]]; discriminate.
    - clear Hempty. destruct (HasPrefix v "last:") eqn:Hl.
      + split.
        * destruct (Atoi (TrimPrefix v "last:")) as [n|]; [|discriminate].
          destruct (Z.leb_spec n 0); [discriminate|].
          intros Hbr. injection Hbr as <-. left. split; [reflexivity|].
          exists n. repeat split. lia.
        * intros [[_ [n [-> [Hn ->]]]]|[H _]]; [|discriminate].
          destruct (Z.leb_spec n 0); [lia | reflexivity].
      + destruct (HasPrefix v "range:") eqn:Hr.
        * split.
          -- destruct (Split (TrimPrefix v "range:") "-") as [|a [|b [|? ?]]];
               try discriminate.
             destruct (Atoi (TrimSpace a)) as [x|] eqn:Hx; [|discriminate].
             destruct (Atoi (TrimSpace b)) as [y|] eqn:Hy; [|discriminate].
             destruct (Z.leb_spec x 0); [discriminate|].
             destruct (Z.leb_spec y 0); [discriminate|].
             destruct (Z.gtb_spec x y); [discriminate|].
             cbn [orb]. intros Hbr. injection Hbr as <-. right.
             split; [reflexivity|]. split; [reflexivity|].
             exists a, b, x, y. repeat split; try assumption; lia.
          -- intros [[H _]|[_ [_ [a [b [x [y [-> [-> [-> [Hxy ->]]]]]]]]]]];
               [discriminate|].
             destruct (Z.leb_spec x 0); [lia|].
             destruct (Z.leb_spec y 0); [lia|].
             destruct (Z.gtb_spec x y); [lia | reflexivity].
        * split; [discriminate|].
          intros [[H _]|[_ [H _]]]; discriminate. }
  split; [exact Hiff|].
  split; [|repeat split; vm_compute; reflexivity].
  intros Hbr. apply Hiff in Hbr.
  destruct Hbr as [[_ [n [Hn [Hn1 ->]]]]|[_ [_ [a [b [x [y [Hs [Hx [Hy [Hxy ->]]]]]]]]]]].
  - left. cbn [range_mode range_count]. split; [reflexivity|].
    destruct (Z.le_gt_cases n 2147483647) as [Hle|Hgt].
    + left. rewrite wrap_int32_id by (unfold in_int32; lia). exact Hn1.
    + right. exists n. split; [exact Hn | lia].
  - right. cbn [range_mode range_from range_to]. split; [reflexivity|].
    destruct (Z.le_gt_cases y 2147483647) as [Hle|Hgt].
    + left. rewrite !wrap_int32_id by (unfold in_int32; lia). exact Hxy.
    + right. exists a, b, y. repeat split; [exact Hs | exact Hy | lia].
Qed.

Local Close Scope string_scope.

(* ----------------------------------------------------------------- *)
(** ** The environment file *)

Local Open Scope string_scope.

Lemma Setenv_other : forall env key val k,
  k <> key -> Setenv env key val k = env k.
Proof.
  intros env key val k Hk. unfold Setenv.
  destruct (_ || _ || _ || _)%bool; [reflexivity|].
  destruct (String.eqb_spec k key); [contradiction | reflexivity].
Qed.

Lemma loadDotEnv_line_keeps : forall env text k v,
  env k = Some v -> loadDotEnv_line env text k = Some v.
Proof.
  intros env text k v Hk. unfold loadDotEnv_line. cbv zeta.
  destruct (_ || _)%bool; [exact Hk|].
  destruct (cut _ "=") as [[a b]|]; [|exact Hk].
  destruct (String.eqb (TrimSpace a) ""); [exact Hk|].
  destruct (env (TrimSpace a)) as [old|] eqn:Hold; [exact Hk|].
  rewrite Setenv_other; [exact Hk|]. intros ->. congruence.
Qed.

Lemma loadDotEnv_lines_keep : forall lines env k v,
  env k = Some v -> fold_left loadDotEnv_line lines env k = Some v.
Proof.
  induction lines as [|text lines IH]; intros env k v Hk; [exact Hk|].
  cbn [fold_left]. apply IH, loadDotEnv_line_keeps, Hk.
Qed.

(** X17: [loadDotEnv] never changes a variable that is set: a variable
    the environment holds keeps its value whatever the file says, and a
    variable an earlier line has set is not touched by a later line, so the
    first assignment in the file is the one that counts.  A variable that is
    not set gets the value of its line, trimmed and without its surrounding
    quotes. *)
Theorem loadDotEnv_keeps_environment : forall path env k v,
  (env k = Some v -> forall file, loadDotEnv path file env k = Some v)
  /\ (forall lines more,
        loadDotEnv path (Some lines) env k = Some v ->
        loadDotEnv path (Some (lines ++ more)%list) env k = Some v)
  /\ (let file := Some ["# settings"; "export LS_LOAD_OUT = 'my results' ";
                        "LS_LOAD_OUT=other"; "LS_LOAD_CONFIGS=a.json"; "LS_LOAD_PROOF"] in
      let set := fun k => if String.eqb k "LS_LOAD_CONFIGS" then Some "b.json" else None in
      loadDotEnv ".env" file set "LS_LOAD_OUT" = Some "my results"
      /\ loadDotEnv ".env" file set "LS_LOAD_CONFIGS" = Some "b.json"
      /\ loadDotEnv ".env" file set "LS_LOAD_PROOF" = None
      /\ loadDotEnv "" file set "LS_LOAD_OUT" = None).
Proof.
  intros path env k v.
  split; [|split; [|repeat split; vm_compute; reflexivity]].
  - intros Hk file. unfold loadDotEnv.
    destruct (String.eqb path ""); [exact Hk|].
    destruct file as [lines|]; [apply loadDotEnv_lines_keep|]; exact Hk.
  - intros lines more. unfold loadDotEnv.
    destruct (String.eqb path ""); [intros H; exact H|].
    rewrite fold_left_app. apply loadDotEnv_lines_keep.
Qed.

Local Close Scope string_scope.

(* ----------------------------------------------------------------- *)
(** ** The request log *)

Section Assoc.

Variables K V : Type.
Variable eqb : K -> K -> bool.
Hypothesis eqb_eq : forall a b, eqb a b = true <-> a = b.

Lemma assoc_get_set_same : forall (m : list (K * V)) k v,
  assoc_get eqb k (assoc_set eqb k v m) = Some v.
Proof.
  assert (Hrefl : forall k, eqb k k = true) by (intros k; apply eqb_eq; reflexivity).
  induction m as [|[k' v'] m IH]; intros k v; cbn [assoc_set assoc_get].
  - rewrite Hrefl. reflexivity.
  - destruct (eqb k' k) eqn:E; cbn [assoc_get].
    + rewrite Hrefl. reflexivity.
    + rewrite E. apply IH.
Qed.

Lemma assoc_get_set_other : forall (m : list (K * V)) k k' v,
  k' <> k -> assoc_get eqb k' (assoc_set eqb k v m) = assoc_get eqb k' m.
Proof.
  induction m as [|[k0 v0] m IH]; intros k k' v Hne; cbn [assoc_set assoc_get].
  - destruct (eqb k k') eqn:E; [apply eqb_eq in E; congruence | reflexivity].
  - destruct (eqb k0 k) eqn:E; cbn [assoc_get].
    + apply eqb_eq in E. subst k0.
      destruct (eqb k k') eqn:E'; [apply eqb_eq in E'; congruence | reflexivity].
    + destruct (eqb k0 k'); [reflexivity | apply IH, Hne].
Qed.

End Assoc.

Lemma assoc_get_map_values {K V W : Type} (eqb : K -> K -> bool) (f : V -> W) :
  forall m k,
  assoc_get eqb k (map_values f m) = option_map f (assoc_get eqb k m).
Proof.
  induction m as [|[k' v] m IH]; intros k; [reflexivity|].
  cbn [map_values map assoc_get fst snd].
  destruct (eqb k' k); [reflexivity | apply IH].
Qed.

Lemma methodKey_eqb_eq : forall a b, methodKey.eqb a b = true <-> a = b.
Proof.
  intros [c1 m1 n1 r1] [c2 m2 n2 r2]. unfold methodKey.eqb. cbn.
  rewrite !andb_true_iff, !String.eqb_eq, Z.eqb_eq. split.
  - intros [[[-> ->] ->] ->]. reflexivity.
  - intros H. injection H as -> -> -> ->. auto.
Qed.

Lemma errorSeriesKey_eqb_eq : forall a b, errorSeriesKey.eqb a b = true <-> a = b.
Proof.
  intros [c1 m1 n1 r1] [c2 m2 n2 r2]. unfold errorSeriesKey.eqb. cbn.
  rewrite !andb_true_iff, !String.eqb_eq, Z.eqb_eq. split.
  - intros [[[-> ->] ->] ->]. reflexivity.
  - intros H. injection H as -> -> -> ->. auto.
Qed.

Lemma span_bounds : forall ts lo hi,
  lo <= hi ->
  exists lo' hi',
    span ts (Some (lo, hi)) = Some (lo', hi')
    /\ lo' <= lo /\ hi <= hi'
    /\ (forall t, In t ts -> lo' <= t <= hi')
    /\ (lo' = lo \/ In lo' ts) /\ (hi' = hi \/ In hi' ts).
Proof.
  induction ts as [|t ts IH]; intros lo hi Hle.
  - exists lo, hi. split; [reflexivity|]. split; [lia|]. split; [lia|].
    split; [intros t []|]. split; left; reflexivity.
  - unfold span. cbn [fold_left note_time]. fold (span ts).
    set (lo1 := if t <? lo then t else lo). set (hi1 := if hi <? t then t else hi).
    assert (H1 : lo1 <= lo /\ lo1 <= t /\ hi <= hi1 /\ t <= hi1
                 /\ (lo1 = lo \/ lo1 = t) /\ (hi1 = hi \/ hi1 = t)).
    { subst lo1 hi1. destruct (Z.ltb_spec t lo), (Z.ltb_spec hi t); lia. }
    destruct (IH lo1 hi1 ltac:(lia)) as [lo' [hi' [Hs [Hlo [Hhi [Hall [Hl Hh]]]]]]].
    exists lo', hi'. split; [exact Hs|].
    split; [lia|]. split; [lia|]. split.
    + intros u [<-|Hu]; [lia | apply Hall, Hu].
    + split.
      * destruct Hl as [->|Hl]; [|right; right; exact Hl].
        destruct H1 as [_ [_ [_ [_ [[->| ->] _]]]]]; [left; reflexivity | right; left; reflexivity].
      * destruct Hh as [->|Hh]; [|right; right; exact Hh].
        destruct H1 as [_ [_ [_ [_ [_ [->| ->]]]]]]; [left; reflexivity | right; left; reflexivity].
Qed.

Lemma span_first : forall ts,
  (ts = [] -> span ts None = None)
  /\ (ts <> [] ->
        exists lo hi,
          span ts None = Some (lo, hi) /\ In lo ts /\ In hi ts
          /\ forall t, In t ts -> lo <= t <= hi).
Proof.
  intros ts. split; [intros ->; reflexivity|].
  destruct ts as [|t ts]; [congruence|]. intros _.
  unfold span. cbn [fold_left note_time]. fold (span ts).
  destruct (span_bounds ts t t ltac:(lia)) as [lo [hi [Hs [Hlo [Hhi [Hall [Hl Hh]]]]]]].
  exists lo, hi. split; [exact Hs|].
  split; [destruct Hl as [->|Hl]; [left; reflexivity | right; exact Hl]|].
  split; [destruct Hh as [->|Hh]; [left; reflexivity | right; exact Hh]|].
  intros u [<-|Hu]; [lia | apply Hall, Hu].
Qed.

Lemma sumZ_bump : forall l sec,
  0 <= sec < len l -> sumZ (bump sec l) = sumZ l + 1.
Proof.
  intros l sec Hsec. unfold bump.
  destruct (nth_error l (Z.to_nat sec)) as [x|] eqn:Hx;
    [|apply nth_error_None in Hx; unfold len in Hsec; lia].
  rewrite (nth_error_nth _ _ 0 Hx).
  destruct (nth_error_update_split l _ x (x + 1) Hx) as [l1 [l2 [Hl ->]]].
  rewrite Hl, !sumZ_app. cbn [sumZ fold_right]. unfold sumZ. cbn [fold_right]. lia.
Qed.

Lemma nonneg_bump : forall l sec,
  Forall (fun v => 0 <= v) l -> Forall (fun v => 0 <= v) (bump sec l).
Proof.
  intros l sec Hl. unfold bump. apply Forall_update_nth; [exact Hl|].
  destruct (nth_in_or_default (Z.to_nat sec) l 0) as [Hin| ->]; [|lia].
  eapply Forall_forall in Hl; [|exact Hin]. lia.
Qed.

Lemma nonneg_le_sumZ : forall l,
  Forall (fun v => 0 <= v) l -> 0 <= sumZ l /\ Forall (fun v => v <= sumZ l) l.
Proof.
  intros l Hl. induction Hl as [|x l Hx _ [IH0 IH]]; [split; [cbn; lia | constructor]|].
  unfold sumZ in *. cbn [fold_right]. split; [lia|].
  constructor; [lia|].
  eapply Forall_impl; [|exact IH]. cbn. intros v Hv. lia.
Qed.

Lemma clamp_second_range : forall t start n,
  1 <= n -> 0 <= clamp_second t start n < n.
Proof.
  intros t start n Hn. unfold clamp_second. cbv zeta.
  set (sec := seconds_between t start).
  destruct (Z.ltb_spec sec 0).
  - destruct (Z.geb_spec 0 n); lia.
  - destruct (Z.geb_spec sec n); lia.
Qed.

Lemma map_nth_iota {A : Type} : forall (l : list A) d,
  map (fun i => nth (Z.to_nat i) l d) (iota (len l)) = l.
Proof.
  intros l d. unfold iota, len. rewrite map_map, Nat2Z.id.
  induction l as [|x l IH] using rev_ind; [reflexivity|].
  rewrite length_app. cbn [List.length]. rewrite Nat.add_1_r, seq_S, map_app.
  cbn [map Nat.add]. rewrite Nat2Z.id, nth_middle. f_equal.
  rewrite <- IH at 2. apply map_ext_in. intros k Hk. apply in_seq in Hk.
  rewrite Nat2Z.id. apply app_nth1. lia.
Qed.

(** Counts below [2 ^ 53] are read back from their series unchanged. *)
Lemma counts_read_back : forall l,
  Forall (fun v => 0 <= v < 2 ^ 53) l ->
  map int_of_float64
    (map (fun i => f64_of_int (nth (Z.to_nat i) l 0)) (iota (len l))) = l.
Proof.
  intros l Hl. rewrite map_map.
  transitivity (map (fun i => nth (Z.to_nat i) l 0) (iota (len l)));
    [|apply map_nth_iota].
  apply map_ext_in. intros i Hi. apply iota_In in Hi.
  apply int_of_f64_of_int.
  assert (Hin : In (nth (Z.to_nat i) l 0) l) by (apply nth_In; unfold len in Hi; lia).
  eapply Forall_forall in Hl; [|exact Hin]. exact Hl.
Qed.

Section RequestLogFacts.

Variable Unmarshal : string -> option logEntry.t.
Variable time_Parse : string -> option Z.

Lemma read_log_len : forall lines, len (read_log Unmarshal time_Parse lines) <= len lines.
Proof.
  induction lines as [|line lines IH]; [reflexivity|].
  unfold read_log, len in *. cbn [flat_map List.length]. rewrite length_app.
  assert (List.length (read_line Unmarshal time_Parse line) <= 1)%nat.
  { unfold read_line. destruct (Unmarshal line); [|cbn; lia].
    destruct (time_Parse _); cbn; lia. }
  lia.
Qed.

Lemma filter_len_le {A : Type} : forall (f : A -> bool) l, len (filter f l) <= len l.
Proof.
  intros f l. unfold len. pose proof (filter_length_le f l). lia.
Qed.

Lemma calls_of_cons : forall k line lines,
  calls_of Unmarshal time_Parse k (line :: lines)
  = filter (fun et => methodKey.eqb (method_key (fst et)) k)
      (read_line Unmarshal time_Parse line) ++ calls_of Unmarshal time_Parse k lines.
Proof.
  intros. unfold calls_of, read_log. cbn [flat_map]. apply filter_app.
Qed.

Lemma method_bounds_get : forall lines bounds k,
  assoc_get methodKey.eqb k
    (fold_left (method_bounds_line Unmarshal time_Parse) lines bounds)
  = span (map snd (calls_of Unmarshal time_Parse k lines)) (assoc_get methodKey.eqb k bounds).
Proof.
  induction lines as [|line lines IH]; intros bounds k; [reflexivity|].
  cbn [fold_left]. rewrite IH, calls_of_cons, map_app.
  unfold span. rewrite fold_left_app. f_equal.
  unfold method_bounds_line, read_line.
  destruct (Unmarshal line) as [e|]; [|reflexivity].
  destruct (time_Parse (logEntry.Ts e)) as [t|]; [|reflexivity].
  cbn [filter fst]. destruct (methodKey.eqb (method_key e) k) eqn:E.
  - apply methodKey_eqb_eq in E. subst k.
    rewrite (assoc_get_set_same _ _ _ methodKey_eqb_eq). reflexivity.
  - rewrite (assoc_get_set_other _ _ _ methodKey_eqb_eq); [reflexivity|].
    intros ->. rewrite (proj2 (methodKey_eqb_eq _ _) eq_refl) in E. discriminate.
Qed.

Lemma method_count_get : forall lines aggs k,
  assoc_get methodKey.eqb k
    (fold_left (method_count_line Unmarshal time_Parse) lines aggs)
  = option_map (fun a => fold_left method_count_entry (calls_of Unmarshal time_Parse k lines) a)
      (assoc_get methodKey.eqb k aggs).
Proof.
  induction lines as [|line lines IH]; intros aggs k.
  - cbn. destruct (assoc_get _ _ _); reflexivity.
  - cbn [fold_left]. rewrite IH, calls_of_cons.
    unfold method_count_line, read_line.
    destruct (Unmarshal line) as [e|];
      [|destruct (assoc_get _ k aggs); reflexivity].
    destruct (time_Parse (logEntry.Ts e)) as [t|];
      [|destruct (assoc_get _ k aggs); reflexivity].
    cbn [filter fst]. destruct (methodKey.eqb (method_key e) k) eqn:E.
    + apply methodKey_eqb_eq in E. subst k.
      destruct (assoc_get methodKey.eqb (method_key e) aggs) as [a|] eqn:Ha.
      * rewrite (assoc_get_set_same _ _ _ methodKey_eqb_eq). reflexivity.
      * rewrite Ha. reflexivity.
    + assert (Hne : k <> method_key e).
      { intros ->. rewrite (proj2 (methodKey_eqb_eq _ _) eq_refl) in E. discriminate. }
      destruct (assoc_get methodKey.eqb (method_key e) aggs) as [a|] eqn:Ha.
      * rewrite (assoc_get_set_other _ _ _ methodKey_eqb_eq) by exact Hne.
        destruct (assoc_get _ k aggs); reflexivity.
      * destruct (assoc_get _ k aggs); reflexivity.
Qed.

Lemma method_count_facts : forall ets a,
  method_agg_ok a ->
  let a' := fold_left method_count_entry ets a in
  method_agg_ok a'
  /\ methodAgg.start a' = methodAgg.start a
  /\ len (methodAgg.ok a') = len (methodAgg.ok a)
  /\ methodAgg.total a' = methodAgg.total a + len ets
  /\ sumZ (methodAgg.ok a')
     = sumZ (methodAgg.ok a) + len (filter (fun et => logEntry.OK (fst et)) ets)
  /\ sumZ (methodAgg.err a')
     = sumZ (methodAgg.err a)
       + len (filter (fun et => negb (logEntry.OK (fst et))) ets).
Proof.
  induction ets as [|[e t] ets IH]; intros a Hok; cbv zeta.
  - cbn [fold_left filter]. unfold len. cbn [List.length].
    repeat split; try lia; apply Hok.
  - cbn [fold_left fst snd filter].
    change (method_count_entry a (e, t)) with (method_count a e t).
    destruct Hok as [Hn [He [Hp [Hnn Hne]]]].
    pose proof (clamp_second_range t (methodAgg.start a) _ Hn) as Hsec.
    set (sec := clamp_second t (methodAgg.start a) (len (methodAgg.ok a))) in *.
    assert (Hok1 : method_agg_ok (method_count a e t)).
    { unfold method_count. fold sec.
      destruct (logEntry.OK e); unfold method_agg_ok; cbn;
        rewrite ?len_bump; unfold push, len in *; rewrite ?update_nth_length;
        repeat split; auto using nonneg_bump. }
    destruct (IH _ Hok1) as [Hok' [Hs [Hl [Ht [Hso Hse]]]]].
    split; [exact Hok'|].
    rewrite Hs, Hl, Ht, Hso, Hse. clear IH Hs Hl Ht Hso Hse Hok'.
    unfold method_count. fold sec.
    destruct (logEntry.OK e); cbn [negb methodAgg.start methodAgg.ok methodAgg.err
                                  methodAgg.total];
      rewrite ?len_bump, ?sumZ_bump by lia;
      unfold len; cbn [List.length]; repeat split; lia.
Qed.

Lemma method_agg_of_ok : forall b,
  method_agg_ok (method_agg_of b)
  /\ methodAgg.start (method_agg_of b) = fst b
  /\ methodAgg.total (method_agg_of b) = 0
  /\ sumZ (methodAgg.ok (method_agg_of b)) = 0
  /\ sumZ (methodAgg.err (method_agg_of b)) = 0.
Proof.
  intros b. unfold method_agg_of, method_agg_ok. cbn.
  assert (Hs : 1 <= span_seconds b).
  { unfold span_seconds. cbv zeta.
    destruct (_ <? 1) eqn:E; [lia | apply Z.ltb_ge in E; exact E]. }
  assert (Hz : forall n, sumZ (repeat 0 n) = 0)
    by (induction n as [|n IHn]; [reflexivity | cbn; exact IHn]).
  assert (Hf : forall n, Forall (fun v => 0 <= v) (repeat 0 n)).
  { intros n. apply Forall_forall. intros v Hv. apply repeat_spec in Hv. lia. }
  unfold len. rewrite !repeat_length.
  repeat split; auto; lia.
Qed.

(** X18: the series [buildMethodSeriesFromLog] builds account for every
    entry of the log that can be read.  A method has a series exactly when
    it has an entry; the series then covers at least one second, its seven
    sequences have one value for every second, numbered from 1; its total
    is the number of the method's entries, the counts of its successes and
    of its failures add up to the successes and the failures among them (no
    entry is left out, an instant out of the span being counted at its
    nearest end); and it starts at the earliest instant of the method. *)
Theorem buildMethodSeriesFromLog_counts_every_entry : forall lines k,
  len lines < 2 ^ 53 ->
  exists out,
    buildMethodSeriesFromLog Unmarshal time_Parse (Some lines) = Some out
    /\ (calls_of Unmarshal time_Parse k lines = [] -> assoc_get methodKey.eqb k out = None)
    /\ (calls_of Unmarshal time_Parse k lines <> [] ->
          exists s,
            assoc_get methodKey.eqb k out = Some s
            /\ 1 <= len (methodSeries.Sec s)
            /\ methodSeries.Sec s = interval 1 (len (methodSeries.Sec s))
            /\ len (methodSeries.OK s) = len (methodSeries.Sec s)
            /\ len (methodSeries.Err s) = len (methodSeries.Sec s)
            /\ len (methodSeries.P50 s) = len (methodSeries.Sec s)
            /\ len (methodSeries.P90 s) = len (methodSeries.Sec s)
            /\ len (methodSeries.P95 s) = len (methodSeries.Sec s)
            /\ len (methodSeries.P99 s) = len (methodSeries.Sec s)
            /\ methodSeries.Total s = len (calls_of Unmarshal time_Parse k lines)
            /\ sumZ (map int_of_float64 (methodSeries.OK s))
               = len (filter (fun et => logEntry.OK (fst et)) (calls_of Unmarshal time_Parse k lines))
            /\ sumZ (map int_of_float64 (methodSeries.Err s))
               = len (filter (fun et => negb (logEntry.OK (fst et)))
                        (calls_of Unmarshal time_Parse k lines))
            /\ Forall (fun n => 0 <= int_of_float64 n) (methodSeries.OK s)
            /\ Forall (fun n => 0 <= int_of_float64 n) (methodSeries.Err s)
            /\ exists first,
                 In first (calls_of Unmarshal time_Parse k lines)
                 /\ methodSeries.Start s = UnixMilli (snd first)
                 /\ forall et, In et (calls_of Unmarshal time_Parse k lines) -> snd first <= snd et).
Proof.
  intros lines k Hlen. eexists. split; [reflexivity|].
  rewrite assoc_get_map_values, method_count_get, assoc_get_map_values,
    method_bounds_get.
  cbn [assoc_get].
  destruct (span_first (map snd (calls_of Unmarshal time_Parse k lines))) as [Hnone Hsome].
  split.
  - intros Hc. rewrite Hc in Hnone. rewrite Hc. cbn. reflexivity.
  - intros Hc.
    destruct Hsome as [lo [hi [Hs [Hlo [_ Hall]]]]].
    { intros H. apply map_eq_nil in H. contradiction. }
    rewrite Hs. cbn [option_map].
    destruct (method_agg_of_ok (lo, hi)) as [Hok0 [Hst0 [Ht0 [Hso0 Hse0]]]].
    destruct (method_count_facts (calls_of Unmarshal time_Parse k lines) _ Hok0)
      as [[Hn [He [Hp [Hnn Hne]]]] [Hst [Hl [Ht [Hso Hse]]]]].
    set (a := fold_left method_count_entry (calls_of Unmarshal time_Parse k lines) (method_agg_of (lo, hi))) in *.
    eexists. split; [reflexivity|].
    unfold method_series_of. cbv zeta.
    cbn [methodSeries.Sec methodSeries.OK methodSeries.Err methodSeries.P50
         methodSeries.P90 methodSeries.P95 methodSeries.P99 methodSeries.Total
         methodSeries.Start].
    assert (Hsec : len (map (fun i => i + 1) (iota (len (methodAgg.ok a))))
                   = len (methodAgg.ok a)).
    { unfold len at 1. rewrite length_map. fold (len (iota (len (methodAgg.ok a)))).
      apply iota_len. lia. }
    assert (Hlenmap : forall (B : Type) (f : Z -> B),
              len (map f (iota (len (methodAgg.ok a)))) = len (methodAgg.ok a)).
    { intros B f. unfold len at 1. rewrite length_map.
      fold (len (iota (len (methodAgg.ok a)))). apply iota_len. lia. }
    assert (Hper : forall f : list Z -> float64,
              len (map f (methodAgg.per a)) = len (methodAgg.ok a)).
    { intros f. unfold len at 1. rewrite length_map. exact Hp. }
    assert (Hcalls : len (calls_of Unmarshal time_Parse k lines) < 2 ^ 53).
    { pose proof (filter_len_le (fun et => methodKey.eqb (method_key (fst et)) k)
                    (read_log Unmarshal time_Parse lines)).
      pose proof (read_log_len lines). unfold calls_of. lia. }
    assert (Hsmall : forall l n,
              Forall (fun v => 0 <= v) l -> sumZ l = n -> n <= len (calls_of Unmarshal time_Parse k lines) ->
              Forall (fun v => 0 <= v < 2 ^ 53) l).
    { intros l n Hnn' Hsum Hle.
      destruct (nonneg_le_sumZ l Hnn') as [_ Hup].
      apply Forall_forall. intros v Hv.
      eapply Forall_forall in Hnn'; [|exact Hv].
      eapply Forall_forall in Hup; [|exact Hv]. cbn in Hnn', Hup. lia. }
    rewrite Hsec. unfold percentileSeries. cbn [fst snd].
    split; [exact Hn|].
    split; [apply seconds_interval|].
    split; [apply Hlenmap|]. split; [apply Hlenmap|].
    do 4 (split; [apply Hper|]).
    split; [rewrite Ht, Ht0; lia|].
    split.
    { rewrite counts_read_back; [rewrite Hso, Hso0; lia|].
      eapply Hsmall; [exact Hnn | exact Hso|].
      rewrite Hso0. pose proof (filter_len_le (fun et => logEntry.OK (fst et)) (calls_of Unmarshal time_Parse k lines)).
      lia. }
    assert (Bo : Forall (fun v => 0 <= v < 2 ^ 53) (methodAgg.ok a)).
    { eapply Hsmall; [exact Hnn | exact Hso|].
      rewrite Hso0.
      pose proof (filter_len_le (fun et => logEntry.OK (fst et))
                    (calls_of Unmarshal time_Parse k lines)).
      lia. }
    assert (Be : Forall (fun v => 0 <= v < 2 ^ 53) (methodAgg.err a)).
    { eapply Hsmall; [exact Hne | exact Hse|].
      rewrite Hse0.
      pose proof (filter_len_le (fun et => negb (logEntry.OK (fst et)))
                    (calls_of Unmarshal time_Parse k lines)).
      lia. }
    split.
    { rewrite <- He. rewrite counts_read_back; [rewrite Hse, Hse0; lia | exact Be]. }
    split.
    { apply (proj1 (Forall_map int_of_float64 (fun v => 0 <= v) _)).
      rewrite counts_read_back by exact Bo. exact Hnn. }
    split.
    { rewrite <- He.
      apply (proj1 (Forall_map int_of_float64 (fun v => 0 <= v) _)).
      rewrite counts_read_back by exact Be. exact Hne. }
    apply in_map_iff in Hlo. destruct Hlo as [first [Hf Hin]].
    exists first. split; [exact Hin|].
    split; [rewrite Hst, Hst0, Hf; reflexivity|].
    intros et Het. rewrite Hf. apply Hall. apply in_map. exact Het.
Qed.

Lemma failures_of_cons : forall k line lines,
  failures_of Unmarshal time_Parse k (line :: lines)
  = filter (fun et => (negb (logEntry.OK (fst et))
                       && errorSeriesKey.eqb (error_key (fst et)) k)%bool)
      (read_line Unmarshal time_Parse line)
    ++ failures_of Unmarshal time_Parse k lines.
Proof.
  intros. unfold failures_of, read_log. cbn [flat_map]. apply filter_app.
Qed.

Lemma error_bounds_get : forall lines bounds k,
  assoc_get errorSeriesKey.eqb k
    (fold_left (error_bounds_line Unmarshal time_Parse) lines bounds)
  = span (map snd (failures_of Unmarshal time_Parse k lines))
      (assoc_get errorSeriesKey.eqb k bounds).
Proof.
  induction lines as [|line lines IH]; intros bounds k; [reflexivity|].
  cbn [fold_left]. rewrite IH, failures_of_cons, map_app.
  unfold span. rewrite fold_left_app. f_equal.
  unfold error_bounds_line, read_line.
  destruct (Unmarshal line) as [e|]; [|reflexivity].
  destruct (logEntry.OK e) eqn:Eok.
  { destruct (time_Parse (logEntry.Ts e)); [|reflexivity].
    cbn [filter fst]. rewrite Eok. reflexivity. }
  destruct (time_Parse (logEntry.Ts e)) as [t|]; [|reflexivity].
  cbn [filter fst]. rewrite Eok. cbn [negb andb].
  destruct (errorSeriesKey.eqb (error_key e) k) eqn:E.
  - apply errorSeriesKey_eqb_eq in E. subst k.
    rewrite (assoc_get_set_same _ _ _ errorSeriesKey_eqb_eq). reflexivity.
  - rewrite (assoc_get_set_other _ _ _ errorSeriesKey_eqb_eq); [reflexivity|].
    intros ->. rewrite (proj2 (errorSeriesKey_eqb_eq _ _) eq_refl) in E. discriminate.
Qed.

Lemma error_count_get : forall lines aggs k,
  assoc_get errorSeriesKey.eqb k
    (fold_left (error_count_line Unmarshal time_Parse) lines aggs)
  = option_map
      (fun a => fold_left (fun a et => error_count a (snd et))
                  (failures_of Unmarshal time_Parse k lines) a)
      (assoc_get errorSeriesKey.eqb k aggs).
Proof.
  induction lines as [|line lines IH]; intros aggs k.
  - cbn. destruct (assoc_get _ _ _); reflexivity.
  - cbn [fold_left]. rewrite IH, failures_of_cons.
    unfold error_count_line, read_line.
    destruct (Unmarshal line) as [e|];
      [|destruct (assoc_get _ k aggs); reflexivity].
    destruct (logEntry.OK e) eqn:Eok.
    { destruct (time_Parse (logEntry.Ts e));
        cbn [filter fst]; rewrite ?Eok;
        destruct (assoc_get _ k aggs); reflexivity. }
    destruct (time_Parse (logEntry.Ts e)) as [t|];
      [|destruct (assoc_get _ k aggs); reflexivity].
    cbn [filter fst]. rewrite Eok. cbn [negb andb].
    destruct (errorSeriesKey.eqb (error_key e) k) eqn:E.
    + apply errorSeriesKey_eqb_eq in E. subst k.
      destruct (assoc_get errorSeriesKey.eqb (error_key e) aggs) as [a|] eqn:Ha.
      * rewrite (assoc_get_set_same _ _ _ errorSeriesKey_eqb_eq). reflexivity.
      * rewrite Ha. reflexivity.
    + assert (Hne : k <> error_key e).
      { intros ->. rewrite (proj2 (errorSeriesKey_eqb_eq _ _) eq_refl) in E.
        discriminate. }
      destruct (assoc_get errorSeriesKey.eqb (error_key e) aggs) as [a|] eqn:Ha.
      * rewrite (assoc_get_set_other _ _ _ errorSeriesKey_eqb_eq) by exact Hne.
        destruct (assoc_get _ k aggs); reflexivity.
      * destruct (assoc_get _ k aggs); reflexivity.
Qed.

Lemma error_count_facts : forall (ets : list (logEntry.t * Z)) a,
  error_agg_ok a ->
  let a' := fold_left (fun a et => error_count a (snd et)) ets a in
  error_agg_ok a'
  /\ errorAgg.start a' = errorAgg.start a
  /\ sumZ (errorAgg.cnt a') = sumZ (errorAgg.cnt a) + len ets.
Proof.
  induction ets as [|[e t] ets IH]; intros a Hok; cbv zeta.
  - cbn [fold_left]. unfold len. cbn [List.length].
    repeat split; try lia; apply Hok.
  - cbn [fold_left snd]. destruct Hok as [Hn Hnn].
    pose proof (clamp_second_range t (errorAgg.start a) _ Hn) as Hsec.
    assert (Hok1 : error_agg_ok (error_count a t)).
    { unfold error_count, error_agg_ok. cbn. rewrite len_bump.
      split; [exact Hn | apply nonneg_bump, Hnn]. }
    destruct (IH _ Hok1) as [Hok' [Hs Hsum]].
    split; [exact Hok'|]. rewrite Hs, Hsum.
    unfold error_count. cbn [errorAgg.start errorAgg.cnt].
    rewrite sumZ_bump by lia. unfold len. cbn [List.length].
    split; [reflexivity | lia].
Qed.

(** X19: the series [buildErrorSeriesFromLog] builds account for every
    failure of the log that can be read.  A class of errors (a
    configuration, a mode, a concurrency and a code of the taxonomy) has a
    series exactly when it has a failure; the series then covers at least
    one second, has one count for every second, numbered from 1; the counts
    add up to the number of failures of the class; and the series starts at
    the earliest of them. *)
Theorem buildErrorSeriesFromLog_counts_every_failure : forall lines k,
  len lines < 2 ^ 53 ->
  exists out,
    buildErrorSeriesFromLog Unmarshal time_Parse (Some lines) = Some out
    /\ (failures_of Unmarshal time_Parse k lines = [] ->
          assoc_get errorSeriesKey.eqb k out = None)
    /\ (failures_of Unmarshal time_Parse k lines <> [] ->
          exists s,
            assoc_get errorSeriesKey.eqb k out = Some s
            /\ In (errorSeriesKey.Code k) error_codes
            /\ 1 <= len (errorSeries.Sec s)
            /\ errorSeries.Sec s = interval 1 (len (errorSeries.Sec s))
            /\ len (errorSeries.Cnt s) = len (errorSeries.Sec s)
            /\ sumZ (map int_of_float64 (errorSeries.Cnt s))
               = len (failures_of Unmarshal time_Parse k lines)
            /\ exists first,
                 In first (failures_of Unmarshal time_Parse k lines)
                 /\ errorSeries.Start s = UnixMilli (snd first)
                 /\ forall et, In et (failures_of Unmarshal time_Parse k lines) ->
                               snd first <= snd et).
Proof.
  intros lines k Hlen. eexists. split; [reflexivity|].
  rewrite assoc_get_map_values, error_count_get, assoc_get_map_values,
    error_bounds_get.
  cbn [assoc_get].
  destruct (span_first (map snd (failures_of Unmarshal time_Parse k lines)))
    as [Hnone Hsome].
  split.
  - intros Hc. rewrite Hc in Hnone. rewrite Hc. cbn. reflexivity.
  - intros Hc.
    destruct Hsome as [lo [hi [Hs [Hlo [_ Hall]]]]].
    { intros H. apply map_eq_nil in H. contradiction. }
    rewrite Hs. cbn [option_map].
    assert (Hok0 : error_agg_ok (error_agg_of (lo, hi))
                   /\ sumZ (errorAgg.cnt (error_agg_of (lo, hi))) = 0).
    { unfold error_agg_of, error_agg_ok. cbn.
      assert (Hsp : 1 <= span_seconds (lo, hi)).
      { unfold span_seconds. cbv zeta.
        destruct (_ <? 1) eqn:E; [lia | apply Z.ltb_ge in E; exact E]. }
      unfold len. rewrite repeat_length.
      split; [split; [lia|]|].
      - apply Forall_forall. intros v Hv. apply repeat_spec in Hv. lia.
      - generalize (Z.to_nat (span_seconds (lo, hi))) as n.
        induction n as [|n IHn]; [reflexivity | cbn; exact IHn]. }
    destruct Hok0 as [Hok0 Hsum0].
    destruct (error_count_facts (failures_of Unmarshal time_Parse k lines) _ Hok0)
      as [[Hn Hnn] [Hst Hsum]].
    set (a := fold_left (fun a et => error_count a (snd et))
                (failures_of Unmarshal time_Parse k lines) (error_agg_of (lo, hi))) in *.
    eexists. split; [reflexivity|].
    unfold error_series_of. cbv zeta.
    cbn [errorSeries.Sec errorSeries.Cnt errorSeries.Start].
    assert (Hlenmap : forall (B : Type) (f : Z -> B),
              len (map f (iota (len (errorAgg.cnt a)))) = len (errorAgg.cnt a)).
    { intros B f. unfold len at 1. rewrite length_map.
      fold (len (iota (len (errorAgg.cnt a)))). apply iota_len. lia. }
    rewrite !Hlenmap.
    split.
    { destruct (failures_of Unmarshal time_Parse k lines) as [|[e t] rest] eqn:Hf;
        [congruence|].
      assert (Hin : In (e, t) (failures_of Unmarshal time_Parse k lines))
        by (rewrite Hf; left; reflexivity).
      unfold failures_of in Hin. apply filter_In in Hin.
      destruct Hin as [_ Hin]. apply andb_true_iff in Hin. destruct Hin as [_ Hin].
      apply errorSeriesKey_eqb_eq in Hin. cbn [fst] in Hin. subst k.
      cbn [error_key errorSeriesKey.Code]. apply classifyNormalized_codes. }
    split; [exact Hn|].
    split; [apply seconds_interval|].
    split; [reflexivity|].
    split.
    { rewrite counts_read_back; [rewrite Hsum, Hsum0; lia|].
      destruct (nonneg_le_sumZ _ Hnn) as [_ Hup].
      assert (Hf : len (failures_of Unmarshal time_Parse k lines) < 2 ^ 53).
      { pose proof (filter_len_le
                      (fun et => (negb (logEntry.OK (fst et))
                                  && errorSeriesKey.eqb (error_key (fst et)) k)%bool)
                      (read_log Unmarshal time_Parse lines)).
        pose proof (read_log_len lines). unfold failures_of. lia. }
      apply Forall_forall. intros v Hv.
      eapply Forall_forall in Hnn; [|exact Hv].
      eapply Forall_forall in Hup; [|exact Hv]. cbn in Hnn, Hup. lia. }
    apply in_map_iff in Hlo. destruct Hlo as [first [Hf Hin]].
    exists first. split; [exact Hin|].
    split; [rewrite Hst, Hf; reflexivity|].
    intros et Het. rewrite Hf. apply Hall. apply in_map. exact Het.
Qed.

End RequestLogFacts.

Lemma buildMethodSeriesFromLog_counts_witness :
  exists out,
    buildMethodSeriesFromLog log_fixture_Unmarshal log_fixture_Parse (Some log_fixture)
    = Some out
    /\ exists s,
         assoc_get methodKey.eqb (methodKey.mk "cfg" "blocks" 5 "GetBlockRaw") out = Some s
         /\ methodSeries.Total s = 2.
Proof.
  destruct (buildMethodSeriesFromLog_counts_every_entry
              log_fixture_Unmarshal log_fixture_Parse log_fixture
              (methodKey.mk "cfg" "blocks" 5 "GetBlockRaw"))
    as [out [Hout [_ Hsome]]].
  - unfold len. cbn. lia.
  - exists out. split; [exact Hout|].
    destruct Hsome as [s [Hs [_ [_ [_ [_ [_ [_ [_ [_ [Ht _]]]]]]]]]]];
      [vm_compute; discriminate|].
    exists s. split; [exact Hs|]. rewrite Ht. reflexivity.
Defined.

Lemma buildErrorSeriesFromLog_counts_witness :
  exists out,
    buildErrorSeriesFromLog log_fixture_Unmarshal log_fixture_Parse (Some log_fixture)
    = Some out
    /\ exists s,
         assoc_get errorSeriesKey.eqb (errorSeriesKey.mk "cfg" "blocks" 5 "timeout") out
         = Some s
         /\ sumZ (map int_of_float64 (errorSeries.Cnt s)) = 1.
Proof.
  destruct (buildErrorSeriesFromLog_counts_every_failure
              log_fixture_Unmarshal log_fixture_Parse log_fixture
              (errorSeriesKey.mk "cfg" "blocks" 5 "timeout"))
    as [out [Hout [_ Hsome]]].
  - unfold len. cbn. lia.
  - exists out. split; [exact Hout|].
    destruct Hsome as [s [Hs [_ [_ [_ [_ [Ht _]]]]]]];
      [vm_compute; discriminate|].
    exists s. split; [exact Hs|]. rewrite Ht. reflexivity.
Defined.

(* ----------------------------------------------------------------- *)
(** ** Downsampling the series of the log *)

Lemma hd_map_nonempty {A B : Type} : forall (f : A -> B) l a b,
  l <> [] -> hd b (map f l) = f (hd a l).
Proof. intros f [|x l] a b H; [congruence | reflexivity]. Qed.

Lemma last_map_nonempty {A B : Type} : forall (f : A -> B) l a b,
  l <> [] -> last (map f l) b = f (last l a).
Proof.
  intros f l a b. induction l as [|x l IH]; [congruence|]. intros _.
  destruct l as [|y l]; [reflexivity|].
  change (last (map f (x :: y :: l)) b) with (last (map f (y :: l)) b).
  change (last (x :: y :: l) a) with (last (y :: l) a).
  apply IH. discriminate.
Qed.

Lemma nth_last {A : Type} : forall (l : list A) d,
  nth (List.length l - 1) l d = last l d.
Proof.
  induction l as [|x l IH]; intros d; [reflexivity|].
  destruct l as [|y l]; [reflexivity|].
  change (last (x :: y :: l) d) with (last (y :: l) d). rewrite <- IH.
  cbn [List.length].
  replace (S (S (List.length l)) - 1)%nat with (S (List.length l)) by lia.
  replace (S (List.length l) - 1)%nat with (List.length l) by lia.
  reflexivity.
Qed.

Lemma nth_hd {A : Type} : forall (l : list A) d, nth 0 l d = hd d l.
Proof. intros [|x l] d; reflexivity. Qed.

(** What a sequence of [n] values looks like after the sampling at
    [sampleIndices n m]. *)
Lemma sampled_facts {A : Type} : forall (src : list A) n m d,
  len src = n -> 0 < m -> m < n -> n < 2 ^ 53 ->
  sample_at src (sampleIndices n m)
  = map (fun i => nth (Z.to_nat i) src d) (sampleIndices n m)
  /\ len (sample_at src (sampleIndices n m)) = len (sampleIndices n m)
  /\ 1 <= len (sampleIndices n m) <= m + 1
  /\ hd d (sample_at src (sampleIndices n m)) = hd d src
  /\ last (sample_at src (sampleIndices n m)) d = last src d
  /\ (forall x, In x (sample_at src (sampleIndices n m)) -> In x src).
Proof.
  intros src n m d Hlen Hm Hmn Hn.
  assert (Hstep : 0 < ceil_div n m) by (unfold ceil_div; apply Z.div_str_pos; lia).
  rewrite (sampleIndices_kept n m Hm Hmn Hn).
  destruct (kept_indices_facts n (ceil_div n m) ltac:(lia) Hstep)
    as [Hhd [Hne [Hlast [_ [Hl Hin]]]]].
  pose proof (ceil_div_ceil_div n m Hm ltac:(lia)) as Hcc.
  assert (Hs : sample_at src (kept_indices n (ceil_div n m))
               = map (fun i => nth (Z.to_nat i) src d) (kept_indices n (ceil_div n m))).
  { apply sample_at_in_range. intros i Hi. rewrite Hlen. apply Hin, Hi. }
  rewrite Hs. split; [reflexivity|].
  split; [unfold len; rewrite length_map; reflexivity|].
  split.
  { split; [|lia]. destruct (kept_indices n (ceil_div n m)); [contradiction|].
    unfold len. cbn [List.length]. lia. }
  split.
  { rewrite (hd_map_nonempty _ _ 0 d) by exact Hne. rewrite Hhd. apply nth_hd. }
  split.
  { rewrite (last_map_nonempty _ _ 0 d) by exact Hne. rewrite Hlast.
    rewrite <- nth_last. f_equal. unfold len in Hlen. lia. }
  intros x Hx. apply in_map_iff in Hx. destruct Hx as [i [<- Hi]].
  apply nth_In. apply Hin in Hi. unfold len in Hlen. lia.
Qed.

Lemma downsampleMethod_facts : forall maxPoints v,
  method_aligned v -> len (methodSeries.Sec v) < 2 ^ 53 ->
  let v' := downsampleMethod maxPoints v in
  method_aligned v'
  /\ methodSeries.Total v' = methodSeries.Total v
  /\ methodSeries.Start v' = methodSeries.Start v
  /\ (maxPoints <= 0 \/ len (methodSeries.Sec v) <= maxPoints -> v' = v)
  /\ (0 < maxPoints < len (methodSeries.Sec v) ->
        1 <= len (methodSeries.Sec v') <= maxPoints + 1
        /\ hd 0 (methodSeries.Sec v') = hd 0 (methodSeries.Sec v)
        /\ last (methodSeries.Sec v') 0 = last (methodSeries.Sec v) 0
        /\ (forall x, In x (methodSeries.OK v') -> In x (methodSeries.OK v))
        /\ (forall x, In x (methodSeries.Err v') -> In x (methodSeries.Err v))).
Proof.
  intros m v Hal Hn. cbv zeta. unfold downsampleMethod.
  destruct (Z.eqb_spec (len (methodSeries.Sec v)) 0) as [H0|H0];
    [cbn [orb]; repeat split; try apply Hal; lia|].
  destruct (Z.leb_spec (len (methodSeries.Sec v)) m) as [Hle|Hgt];
    [cbn [orb]; repeat split; try apply Hal; lia|].
  cbn [orb]. destruct (Z.leb_spec m 0) as [Hm|Hm].
  - (* no budget: every index is kept *)
    assert (Hall : sampleIndices (len (methodSeries.Sec v)) m
                   = iota (len (methodSeries.Sec v))).
    { unfold sampleIndices, iota.
      destruct (Z.leb_spec (len (methodSeries.Sec v)) 0);
        [pose proof (len_nonneg (methodSeries.Sec v)); lia|].
      destruct (Z.leb_spec m 0); [reflexivity | lia]. }
    rewrite Hall.
    assert (Hs : forall (A : Type) (src : list A),
              len src = len (methodSeries.Sec v) ->
              sample_at src (iota (len (methodSeries.Sec v))) = src)
      by (intros A src <-; apply sample_at_all).
    unfold sampleInts, sampleFloats.
    rewrite !Hs by first [reflexivity | apply Hal].
    destruct v. split; [exact Hal|]. repeat split; lia.
  - set (n := len (methodSeries.Sec v)) in *.
    destruct Hal as [H1 [H2 [H3 [H4 [H5 H6]]]]].
    destruct (sampled_facts (methodSeries.Sec v) n m 0 eq_refl Hm Hgt Hn)
      as [_ [Ls [Lb [Hh [Hl _]]]]].
    destruct (sampled_facts (methodSeries.P50 v) n m f64_zero H1 Hm Hgt Hn)
      as [_ [L1 _]].
    destruct (sampled_facts (methodSeries.P90 v) n m f64_zero H2 Hm Hgt Hn)
      as [_ [L2 _]].
    destruct (sampled_facts (methodSeries.P95 v) n m f64_zero H3 Hm Hgt Hn)
      as [_ [L3 _]].
    destruct (sampled_facts (methodSeries.P99 v) n m f64_zero H4 Hm Hgt Hn)
      as [_ [L4 _]].
    destruct (sampled_facts (methodSeries.OK v) n m f64_zero H5 Hm Hgt Hn)
      as [_ [L5 [_ [_ [_ I5]]]]].
    destruct (sampled_facts (methodSeries.Err v) n m f64_zero H6 Hm Hgt Hn)
      as [_ [L6 [_ [_ [_ I6]]]]].
    unfold method_aligned, sampleInts, sampleFloats. cbn.
    rewrite Ls, L1, L2, L3, L4, L5, L6.
    repeat split; try reflexivity; try lia; try assumption.
Qed.

(** X20: [downsampleMethodSeries] keeps every method, its total and its
    start; a series whose seven sequences have one value for every second
    keeps this shape.  With no budget, or a budget the series fits in, the
    series is returned as it is; beyond the budget [maxPoints] it is cut to
    at most [maxPoints + 1] seconds, the first and the last second among
    them, all seven sequences at the same seconds. *)
Theorem downsampleMethodSeries_aligned : forall methods maxPoints k,
  (assoc_get methodKey.eqb k methods = None ->
     assoc_get methodKey.eqb k (downsampleMethodSeries methods maxPoints) = None)
  /\ (forall v,
        assoc_get methodKey.eqb k methods = Some v ->
        method_aligned v -> len (methodSeries.Sec v) < 2 ^ 53 ->
        exists v',
          assoc_get methodKey.eqb k (downsampleMethodSeries methods maxPoints) = Some v'
          /\ method_aligned v'
          /\ methodSeries.Total v' = methodSeries.Total v
          /\ methodSeries.Start v' = methodSeries.Start v
          /\ (maxPoints <= 0 \/ len (methodSeries.Sec v) <= maxPoints -> v' = v)
          /\ (0 < maxPoints < len (methodSeries.Sec v) ->
                1 <= len (methodSeries.Sec v') <= maxPoints + 1
                /\ hd 0 (methodSeries.Sec v') = hd 0 (methodSeries.Sec v)
                /\ last (methodSeries.Sec v') 0 = last (methodSeries.Sec v) 0
                /\ (forall x, In x (methodSeries.OK v') -> In x (methodSeries.OK v))
                /\ (forall x, In x (methodSeries.Err v') -> In x (methodSeries.Err v)))).
Proof.
  intros methods m k. unfold downsampleMethodSeries.
  destruct ((m <=? 0) || (len methods =? 0))%bool eqn:E.
  - split; [intros H; exact H|].
    intros v Hv Hal Hn. exists v. split; [exact Hv|].
    split; [exact Hal|]. split; [reflexivity|]. split; [reflexivity|].
    split; [reflexivity|].
    intros Hm. apply orb_true_iff in E. destruct E as [E|E].
    + apply Z.leb_le in E. lia.
    + apply Z.eqb_eq in E. destruct methods; [discriminate|].
      unfold len in E. cbn in E. lia.
  - rewrite assoc_get_map_values. split; [intros ->; reflexivity|].
    intros v Hv Hal Hn. rewrite Hv. cbn [option_map].
    exists (downsampleMethod m v). split; [reflexivity|].
    apply (downsampleMethod_facts m v Hal Hn).
Qed.

Lemma downsampleError_facts : forall maxPoints v,
  len (errorSeries.Cnt v) = len (errorSeries.Sec v) ->
  len (errorSeries.Sec v) < 2 ^ 53 ->
  let v' := downsampleError maxPoints v in
  len (errorSeries.Cnt v') = len (errorSeries.Sec v')
  /\ errorSeries.Start v' = errorSeries.Start v
  /\ (maxPoints <= 0 \/ len (errorSeries.Sec v) <= maxPoints -> v' = v)
  /\ (0 < maxPoints < len (errorSeries.Sec v) ->
        1 <= len (errorSeries.Sec v') <= maxPoints + 1
        /\ hd 0 (errorSeries.Sec v') = hd 0 (errorSeries.Sec v)
        /\ last (errorSeries.Sec v') 0 = last (errorSeries.Sec v) 0
        /\ (forall x, In x (errorSeries.Cnt v') -> In x (errorSeries.Cnt v))).
Proof.
  intros m v Hal Hn. cbv zeta. unfold downsampleError.
  destruct (Z.eqb_spec (len (errorSeries.Sec v)) 0) as [H0|H0];
    [cbn [orb]; repeat split; try exact Hal; lia|].
  destruct (Z.leb_spec (len (errorSeries.Sec v)) m) as [Hle|Hgt];
    [cbn [orb]; repeat split; try exact Hal; lia|].
  cbn [orb]. destruct (Z.leb_spec m 0) as [Hm|Hm].
  - assert (Hall : sampleIndices (len (errorSeries.Sec v)) m
                   = iota (len (errorSeries.Sec v))).
    { unfold sampleIndices, iota.
      destruct (Z.leb_spec (len (errorSeries.Sec v)) 0);
        [pose proof (len_nonneg (errorSeries.Sec v)); lia|].
      destruct (Z.leb_spec m 0); [reflexivity | lia]. }
    rewrite Hall.
    assert (Hs : forall (A : Type) (src : list A),
              len src = len (errorSeries.Sec v) ->
              sample_at src (iota (len (errorSeries.Sec v))) = src)
      by (intros A src <-; apply sample_at_all).
    unfold sampleInts, sampleFloats.
    rewrite !Hs by first [reflexivity | exact Hal].
    destruct v. split; [exact Hal|]. repeat split; lia.
  - set (n := len (errorSeries.Sec v)) in *.
    destruct (sampled_facts (errorSeries.Sec v) n m 0 eq_refl Hm Hgt Hn)
      as [_ [Ls [Lb [Hh [Hl _]]]]].
    destruct (sampled_facts (errorSeries.Cnt v) n m f64_zero Hal Hm Hgt Hn)
      as [_ [L1 [_ [_ [_ I1]]]]].
    unfold sampleInts, sampleFloats. cbn.
    rewrite Ls, L1.
    repeat split; try reflexivity; try lia; try assumption.
Qed.

(** X21: [downsampleErrorSeries] keeps every class of errors and the
    start of its series; a series with one count for every second keeps
    this shape.  With no budget, or a budget the series fits in, the series
    is returned as it is; beyond the budget [maxPoints] it is cut to at
    most [maxPoints + 1] seconds, the first and the last second among them,
    and every count it keeps is a count of the series. *)
Theorem downsampleErrorSeries_aligned : forall errors maxPoints k,
  (assoc_get errorSeriesKey.eqb k errors = None ->
     assoc_get errorSeriesKey.eqb k (downsampleErrorSeries errors maxPoints) = None)
  /\ (forall v,
        assoc_get errorSeriesKey.eqb k errors = Some v ->
        len (errorSeries.Cnt v) = len (errorSeries.Sec v) ->
        len (errorSeries.Sec v) < 2 ^ 53 ->
        exists v',
          assoc_get errorSeriesKey.eqb k (downsampleErrorSeries errors maxPoints)
          = Some v'
          /\ len (errorSeries.Cnt v') = len (errorSeries.Sec v')
          /\ errorSeries.Start v' = errorSeries.Start v
          /\ (maxPoints <= 0 \/ len (errorSeries.Sec v) <= maxPoints -> v' = v)
          /\ (0 < maxPoints < len (errorSeries.Sec v) ->
                1 <= len (errorSeries.Sec v') <= maxPoints + 1
                /\ hd 0 (errorSeries.Sec v') = hd 0 (errorSeries.Sec v)
                /\ last (errorSeries.Sec v') 0 = last (errorSeries.Sec v) 0
                /\ (forall x, In x (errorSeries.Cnt v') ->
                              In x (errorSeries.Cnt v)))).
Proof.
  intros errors m k. unfold downsampleErrorSeries.
  destruct ((m <=? 0) || (len errors =? 0))%bool eqn:E.
  - split; [intros H; exact H|].
    intros v Hv Hal Hn. exists v. split; [exact Hv|].
    split; [exact Hal|]. split; [reflexivity|]. split; [reflexivity|].
    intros Hm. apply orb_true_iff in E. destruct E as [E|E].
    + apply Z.leb_le in E. lia.
    + apply Z.eqb_eq in E. destruct errors; [discriminate|].
      unfold len in E. cbn in E. lia.
  - rewrite assoc_get_map_values. split; [intros ->; reflexivity|].
    intros v Hv Hal Hn. rewrite Hv. cbn [option_map].
    exists (downsampleError m v). split; [reflexivity|].
    apply (downsampleError_facts m v Hal Hn).
Qed.

(* ----------------------------------------------------------------- *)
(** ** The rows of the method table *)

Lemma sum_ints_from : forall l acc,
  Forall (fun x => 0 <= int_of_float64 x) l ->
  0 <= acc -> acc + sumZ (map int_of_float64 l) <= MaxInt64 ->
  fold_left (fun s n => wrap_int64 (s + int_of_float64 n)) l acc
  = acc + sumZ (map int_of_float64 l).
Proof.
  induction l as [|x l IH]; intros acc Hl Hacc Hsum; cbn [fold_left map].
  - unfold sumZ. cbn. lia.
  - inversion Hl as [|? ? Hx Hl']; subst.
    unfold sumZ in *. cbn [fold_right map] in *.
    assert (0 <= fold_right Z.add 0 (map int_of_float64 l)).
    { clear - Hl'. induction Hl' as [|y l Hy _ IHl]; cbn; lia. }
    rewrite wrap_int64_id by (unfold in_int64, MaxInt64 in *; lia).
    rewrite IH; try assumption; lia.
Qed.

Lemma sum_ints_exact : forall l,
  Forall (fun x => 0 <= int_of_float64 x) l ->
  sumZ (map int_of_float64 l) <= MaxInt64 ->
  sum_ints l = sumZ (map int_of_float64 l).
Proof.
  intros l Hl Hs. unfold sum_ints. rewrite sum_ints_from; try assumption; lia.
Qed.

Lemma sumZ_nonneg : forall l, Forall (fun v => 0 <= v) l -> 0 <= sumZ l.
Proof. intros l Hl. apply nonneg_le_sumZ, Hl. Qed.

Lemma skipn_nth_cons {A : Type} : forall (l : list A) i d,
  (i < List.length l)%nat -> skipn i l = nth i l d :: skipn (S i) l.
Proof.
  induction l as [|x l IH]; intros i d Hi; [cbn in Hi; lia|].
  destruct i as [|i]; [reflexivity|].
  cbn [skipn nth]. apply IH. cbn [List.length] in Hi. lia.
Qed.

Lemma sumZ_skipn_le : forall l a b,
  Forall (fun v => 0 <= v) l -> (a <= b)%nat ->
  sumZ (skipn b l) <= sumZ (skipn a l).
Proof.
  induction l as [|x l IH]; intros a b Hl Hab.
  - rewrite !skipn_nil. lia.
  - inversion Hl as [|? ? Hx Hl']; subst.
    destruct a as [|a], b as [|b]; cbn [skipn]; try lia.
    + pose proof (IH 0%nat b Hl' ltac:(lia)) as H. cbn [skipn] in H.
      unfold sumZ in *. cbn [fold_right]. lia.
    + apply IH; [exact Hl' | lia].
Qed.

(** The values at ascending places of a list of counts add up to no more
    than the whole list. *)
Lemma sumZ_sampled_le : forall l idxs lo,
  Forall (fun v => 0 <= v) l ->
  StronglySorted Z.lt idxs ->
  (forall i, In i idxs -> lo <= i < len l) -> 0 <= lo ->
  0 <= sumZ (map (fun i => nth (Z.to_nat i) l 0) idxs)
    <= sumZ (skipn (Z.to_nat lo) l).
Proof.
  intros l idxs. induction idxs as [|i idxs IH]; intros lo Hl Hs Hin Hlo.
  - cbn [map]. split; [reflexivity|]. change (sumZ []) with 0.
    destruct (le_lt_dec (Z.to_nat lo) (List.length l)) as [Hle|Hgt].
    + pose proof (sumZ_skipn_le l (Z.to_nat lo) (List.length l) Hl Hle) as H.
      rewrite skipn_all in H. exact H.
    + rewrite skipn_all2 by lia. reflexivity.
  - inversion Hs as [|? ? Hs' Hlt]; subst.
    pose proof (Hin i ltac:(left; reflexivity)) as Hi.
    destruct (IH (i + 1) Hl Hs') as [IH0 IH1]; [|lia|].
    { intros j Hj. eapply Forall_forall in Hlt; [|exact Hj].
      specialize (Hin j ltac:(right; exact Hj)). lia. }
    cbn [map]. unfold sumZ in *. cbn [fold_right].
    pose proof (sumZ_skipn_le l (Z.to_nat lo) (Z.to_nat i) Hl ltac:(lia)) as Hle.
    rewrite (skipn_nth_cons l (Z.to_nat i) 0) in Hle by (unfold len in Hi; lia).
    unfold sumZ in Hle. cbn [fold_right] in Hle.
    replace (Z.to_nat (i + 1)) with (S (Z.to_nat i)) in IH1 by lia.
    assert (0 <= nth (Z.to_nat i) l 0).
    { assert (Hn : In (nth (Z.to_nat i) l 0) l)
        by (apply nth_In; unfold len in Hi; lia).
      eapply Forall_forall in Hl; [|exact Hn]. exact Hl. }
    lia.
Qed.

Lemma sampled_counts : forall (src : list float64) n m,
  len src = n -> 0 < m -> m < n -> n < 2 ^ 53 ->
  Forall (fun x => 0 <= int_of_float64 x) src ->
  Forall (fun x => 0 <= int_of_float64 x) (sample_at src (sampleIndices n m))
  /\ 0 <= sumZ (map int_of_float64 (sample_at src (sampleIndices n m)))
       <= sumZ (map int_of_float64 src).
Proof.
  intros src n m Hlen Hm Hmn Hn Hnn.
  destruct (sampled_facts src n m f64_zero Hlen Hm Hmn Hn)
    as [Hs [_ [_ [_ [_ Hin]]]]].
  split.
  { apply Forall_forall. intros x Hx.
    eapply Forall_forall in Hnn; [exact Hnn | apply Hin, Hx]. }
  rewrite Hs, map_map.
  assert (Hstep : 0 < ceil_div n m) by (unfold ceil_div; apply Z.div_str_pos; lia).
  rewrite (sampleIndices_kept n m Hm Hmn Hn).
  destruct (kept_indices_facts n (ceil_div n m) ltac:(lia) Hstep)
    as [_ [_ [_ [Hsorted [_ Hrange]]]]].
  rewrite (map_ext _ (fun i => nth (Z.to_nat i) (map int_of_float64 src) 0)).
  - replace (sumZ (map int_of_float64 src))
      with (sumZ (skipn (Z.to_nat 0) (map int_of_float64 src))) by reflexivity.
    apply sumZ_sampled_le; [| exact Hsorted | | lia].
    + apply Forall_forall. intros v Hv. apply in_map_iff in Hv.
      destruct Hv as [x [<- Hx]]. eapply Forall_forall in Hnn; [exact Hnn | exact Hx].
    + intros i Hi. unfold len. rewrite length_map. fold (len src).
      rewrite Hlen. apply Hrange, Hi.
  - intros i. change 0 with (int_of_float64 f64_zero) at 1.
    symmetry. apply map_nth.
Qed.

(** X22: the row of the method table.  For a series with one value for
    every second whose counts add up to its total, as those read from the
    log are, the row shows the total, the sums of the successes and of the
    failures, which add up to the total, and the total divided by the
    number of seconds.  [writeHTMLReport] builds the row from the
    downsampled series: the total is the same, but the successes and the
    failures are summed over the seconds that were kept only, and the rate
    is the total divided by the number of kept seconds.  For a method called
    once in each of three seconds and a budget of two points, the row shows
    2 successes of a total of 3 and a rate of 3/2 instead of 3/3. *)
Theorem method_row_of_report : forall methods maxPoints k v,
  assoc_get methodKey.eqb k methods = Some v ->
  method_aligned v -> 1 <= len (methodSeries.Sec v) < 2 ^ 53 ->
  Forall (fun n => 0 <= int_of_float64 n) (methodSeries.OK v) ->
  Forall (fun n => 0 <= int_of_float64 n) (methodSeries.Err v) ->
  sumZ (map int_of_float64 (methodSeries.OK v))
  + sumZ (map int_of_float64 (methodSeries.Err v)) = methodSeries.Total v ->
  methodSeries.Total v <= MaxInt64 ->
  exists v',
    assoc_get methodKey.eqb k (report_methods methods maxPoints) = Some v'
    /\ 1 <= len (methodSeries.Sec v') <= len (methodSeries.Sec v)
    /\ (let row := method_row k v in
        methodRow.Total row = methodSeries.Total v
        /\ methodRow.OK row = sumZ (map int_of_float64 (methodSeries.OK v))
        /\ methodRow.Err row = sumZ (map int_of_float64 (methodSeries.Err v))
        /\ methodRow.OK row + methodRow.Err row = methodRow.Total row
        /\ methodRow.RPS row
           = f64_div (f64_of_int (methodSeries.Total v))
               (f64_of_int (len (methodSeries.Sec v))))
    /\ (let row' := method_row k v' in
        methodRow.Total row' = methodSeries.Total v
        /\ 0 <= methodRow.OK row' <= sumZ (map int_of_float64 (methodSeries.OK v))
        /\ 0 <= methodRow.Err row' <= sumZ (map int_of_float64 (methodSeries.Err v))
        /\ methodRow.RPS row'
           = f64_div (f64_of_int (methodSeries.Total v))
               (f64_of_int (len (methodSeries.Sec v'))))
    /\ (let row := method_row three_second_key three_second_series in
        let row' := method_row three_second_key
                      (downsampleMethod 2 three_second_series) in
        methodRow.Total row = 3 /\ methodRow.OK row = 3
        /\ methodRow.RPS row = f64_div (f64_of_int 3) (f64_of_int 3)
        /\ methodRow.Total row' = 3 /\ methodRow.OK row' = 2
        /\ methodRow.RPS row' = f64_div (f64_of_int 3) (f64_of_int 2)).
Proof.
  intros methods maxPoints k v Hget Hal Hlen Hok Herr Hsum Hmax.
  (* the row of any series of this shape *)
  assert (Hrow : forall u,
    method_aligned u -> 1 <= len (methodSeries.Sec u) ->
    Forall (fun n => 0 <= int_of_float64 n) (methodSeries.OK u) ->
    Forall (fun n => 0 <= int_of_float64 n) (methodSeries.Err u) ->
    methodSeries.Total u = methodSeries.Total v ->
    0 <= sumZ (map int_of_float64 (methodSeries.OK u))
      <= sumZ (map int_of_float64 (methodSeries.OK v)) ->
    0 <= sumZ (map int_of_float64 (methodSeries.Err u))
      <= sumZ (map int_of_float64 (methodSeries.Err v)) ->
    methodRow.Total (method_row k u) = methodSeries.Total v
    /\ methodRow.OK (method_row k u) = sumZ (map int_of_float64 (methodSeries.OK u))
    /\ methodRow.Err (method_row k u) = sumZ (map int_of_float64 (methodSeries.Err u))
    /\ methodRow.RPS (method_row k u)
       = f64_div (f64_of_int (methodSeries.Total v))
           (f64_of_int (len (methodSeries.Sec u)))).
  { intros u Hau Hlu Hou Heu Htu Hso Hse.
    unfold method_row. cbv zeta.
    cbn [methodRow.Total methodRow.OK methodRow.Err methodRow.RPS].
    rewrite (sum_ints_exact (methodSeries.OK u)) by (try assumption; lia).
    rewrite (sum_ints_exact (methodSeries.Err u)) by (try assumption; lia).
    destruct Hau as [_ [_ [_ [_ [Hlo _]]]]]. rewrite Hlo.
    assert (E0 : (len (methodSeries.Sec u) =? 0) = false)
      by (apply Z.eqb_neq; lia).
    rewrite E0. cbv iota. rewrite E0.
    rewrite Htu.
    assert (Ht : (if 0 <? methodSeries.Total v then methodSeries.Total v
                  else wrap_int64 (sumZ (map int_of_float64 (methodSeries.OK u))
                                   + sumZ (map int_of_float64 (methodSeries.Err u))))
                 = methodSeries.Total v).
    { destruct (Z.ltb_spec 0 (methodSeries.Total v)); [reflexivity|].
      replace (sumZ (map int_of_float64 (methodSeries.OK u))
               + sumZ (map int_of_float64 (methodSeries.Err u))) with 0 by lia.
      rewrite wrap_int64_id by (unfold in_int64; lia). lia. }
    rewrite Ht. repeat split; reflexivity. }
  assert (Hnn : 0 <= sumZ (map int_of_float64 (methodSeries.OK v))
                /\ 0 <= sumZ (map int_of_float64 (methodSeries.Err v))).
  { split; apply sumZ_nonneg, Forall_forall; intros x Hx;
      apply in_map_iff in Hx; destruct Hx as [y [<- Hy]].
    - eapply Forall_forall in Hok; [exact Hok | exact Hy].
    - eapply Forall_forall in Herr; [exact Herr | exact Hy]. }
  (* the series the report works with *)
  set (m := if maxPoints <? 0 then 0 else maxPoints).
  assert (Hv' : exists v',
    assoc_get methodKey.eqb k (report_methods methods maxPoints) = Some v'
    /\ (v' = v \/ (0 < m < len (methodSeries.Sec v) /\ v' = downsampleMethod m v))).
  { unfold report_methods, downsampleMethodSeries. fold m.
    destruct ((m <=? 0) || (len methods =? 0))%bool eqn:E.
    - exists v. split; [exact Hget | left; reflexivity].
    - rewrite assoc_get_map_values, Hget. cbn [option_map].
      exists (downsampleMethod m v). split; [reflexivity|].
      apply orb_false_iff in E. destruct E as [E _]. apply Z.leb_gt in E.
      destruct (Z.le_gt_cases (len (methodSeries.Sec v)) m) as [Hle|Hgt].
      + left.
        apply (downsampleMethod_facts m v Hal ltac:(lia)). right. exact Hle.
      + right. split; [lia | reflexivity]. }
  destruct Hv' as [v' [Hget' Hcase]].
  exists v'. split; [exact Hget'|].
  destruct (Hrow v Hal ltac:(lia) Hok Herr eq_refl ltac:(lia) ltac:(lia))
    as [R1 [R2 [R3 R4]]].
  assert (Hexample :
    let row := method_row three_second_key three_second_series in
    let row' := method_row three_second_key
                  (downsampleMethod 2 three_second_series) in
    methodRow.Total row = 3 /\ methodRow.OK row = 3
    /\ methodRow.RPS row = f64_div (f64_of_int 3) (f64_of_int 3)
    /\ methodRow.Total row' = 3 /\ methodRow.OK row' = 2
    /\ methodRow.RPS row' = f64_div (f64_of_int 3) (f64_of_int 2))
    by (repeat split; vm_compute; reflexivity).
  destruct Hcase as [->|[Hm ->]].
  - split; [lia|]. split; [cbv zeta; repeat split; try assumption; lia|].
    split; [cbv zeta; repeat split; try assumption; lia | exact Hexample].
  - destruct (downsampleMethod_facts m v Hal ltac:(lia))
      as [Hal' [Ht' [_ [_ Hcut]]]].
    destruct (Hcut Hm) as [Hl' _].
    destruct Hal as [A1 [A2 [A3 [A4 [A5 A6]]]]].
    assert (HOK : methodSeries.OK (downsampleMethod m v)
                  = sample_at (methodSeries.OK v)
                      (sampleIndices (len (methodSeries.Sec v)) m)
                  /\ methodSeries.Err (downsampleMethod m v)
                     = sample_at (methodSeries.Err v)
                         (sampleIndices (len (methodSeries.Sec v)) m)).
    { unfold downsampleMethod.
      destruct (Z.eqb_spec (len (methodSeries.Sec v)) 0); [lia|].
      destruct (Z.leb_spec (len (methodSeries.Sec v)) m); [lia|].
      split; reflexivity. }
    destruct HOK as [HOK HErr].
    destruct (sampled_counts (methodSeries.OK v) _ m A5 ltac:(lia) ltac:(lia)
                ltac:(lia) Hok) as [Fo So].
    destruct (sampled_counts (methodSeries.Err v) _ m A6 ltac:(lia) ltac:(lia)
                ltac:(lia) Herr) as [Fe Se].
    rewrite <- HOK in Fo, So. rewrite <- HErr in Fe, Se.
    destruct (Hrow (downsampleMethod m v) Hal' ltac:(lia) Fo Fe Ht' So Se)
      as [Q1 [Q2 [Q3 Q4]]].
    split; [lia|].
    split; [cbv zeta; repeat split; try assumption; lia|].
    split; [cbv zeta; rewrite Q2, Q3; repeat split; try assumption; lia
           | exact Hexample].
Qed.

Lemma method_row_of_report_witness :
  exists v',
    assoc_get methodKey.eqb three_second_key
      (report_methods [(three_second_key, three_second_series)] 2) = Some v'
    /\ 1 <= len (methodSeries.Sec v') <= len (methodSeries.Sec three_second_series).
Proof.
  destruct (method_row_of_report [(three_second_key, three_second_series)] 2
              three_second_key three_second_series) as [v' [Hv' [Hl _]]].
  - reflexivity.
  - repeat split; reflexivity.
  - vm_compute. split; [discriminate | reflexivity].
  - repeat constructor; vm_compute; discriminate.
  - repeat constructor; vm_compute; discriminate.
  - vm_compute. reflexivity.
  - vm_compute. discriminate.
  - exists v'. split; [exact Hv' | exact Hl].
Defined.

(* ----------------------------------------------------------------- *)
(** ** The series as the report lists them *)

Lemma sort_key_less_irrefl : forall a, sort_key_less a a = false.
Proof.
  intros [[[m c] n] x]. unfold sort_key_less.
  rewrite !String.eqb_refl, Z.eqb_refl. cbn [negb]. apply ltb_irrefl.
Qed.

Lemma sort_key_less_trans : forall a b c,
  sort_key_less a b = true -> sort_key_less b c = true -> sort_key_less a c = true.
Proof.
  intros [[[m1 c1] n1] x1] [[[m2 c2] n2] x2] [[[m3 c3] n3] x3].
  unfold sort_key_less.
  assert (Hs : forall s t u, String.ltb s t = true -> String.ltb t u = true ->
                 String.eqb s u = false).
  { intros s t u H1 H2. destruct (String.eqb_spec s u) as [->|]; [|reflexivity].
    pose proof (ltb_trans _ _ _ H1 H2) as H. rewrite ltb_irrefl in H. discriminate. }
  destruct (String.eqb_spec m1 m2) as [->|Hm12];
    destruct (String.eqb_spec m2 m3) as [->|Hm23]; cbn [negb].
  - rewrite ?String.eqb_refl. cbn [negb].
    destruct (String.eqb_spec c1 c2) as [->|Hc12];
      destruct (String.eqb_spec c2 c3) as [->|Hc23]; cbn [negb].
    + rewrite ?String.eqb_refl. cbn [negb].
      destruct (Z.eqb_spec n1 n2) as [->|Hn12];
        destruct (Z.eqb_spec n2 n3) as [->|Hn23]; cbn [negb].
      * rewrite ?Z.eqb_refl. cbn [negb]. apply ltb_trans.
      * destruct (Z.eqb_spec n2 n3); [contradiction|]. cbn [negb]. intros _ H. exact H.
      * destruct (Z.eqb_spec n1 n3); [contradiction|]. cbn [negb]. intros H _. exact H.
      * intros H1 H2. apply Z.ltb_lt in H1, H2.
        destruct (Z.eqb_spec n1 n3); [lia|]. cbn [negb]. apply Z.ltb_lt. lia.
    + destruct (String.eqb_spec c2 c3); [contradiction|]. cbn [negb]. intros _ H. exact H.
    + destruct (String.eqb_spec c1 c3); [contradiction|]. cbn [negb]. intros H _. exact H.
    + intros H1 H2. rewrite (Hs _ _ _ H1 H2). cbn [negb]. eapply ltb_trans; eassumption.
  - destruct (String.eqb_spec m2 m3); [contradiction|]. cbn [negb]. intros _ H. exact H.
  - destruct (String.eqb_spec m1 m3); [contradiction|]. cbn [negb]. intros H _. exact H.
  - intros H1 H2. rewrite (Hs _ _ _ H1 H2). cbn [negb]. eapply ltb_trans; eassumption.
Qed.

Lemma sort_key_less_total : forall a b,
  sort_key_less a b = false -> sort_key_less b a = false -> a = b.
Proof.
  intros [[[m1 c1] n1] x1] [[[m2 c2] n2] x2]. unfold sort_key_less.
  rewrite (String.eqb_sym m2 m1), (String.eqb_sym c2 c1), (Z.eqb_sym n2 n1).
  destruct (String.eqb_spec m1 m2) as [->|Hm]; cbn [negb].
  - destruct (String.eqb_spec c1 c2) as [->|Hc]; cbn [negb].
    + destruct (Z.eqb_spec n1 n2) as [->|Hn]; cbn [negb].
      * intros H1 H2. rewrite (ltb_total _ _ H1 H2). reflexivity.
      * intros H1 H2. apply Z.ltb_ge in H1, H2. lia.
    + intros H1 H2. elim Hc. apply ltb_total; assumption.
  - intros H1 H2. elim Hm. apply ltb_total; assumption.
Qed.

Section Flatten.

Variables KV E : Type.
Variable entry : KV -> E.
Variable key : E -> sort_key.
Variable less : E -> E -> bool.
Hypothesis less_key : forall a b, less a b = sort_key_less (key a) (key b).

Lemma entries_sorted_any_order : forall l l',
  NoDup (map (fun kv => key (entry kv)) l) -> Permutation l l' ->
  sort_by less (map entry l) = sort_by less (map entry l')
  /\ StronglySorted (fun a b => less a b = true) (sort_by less (map entry l))
  /\ Permutation (map entry l) (sort_by less (map entry l)).
Proof.
  intros l l' Hnd Hp.
  assert (Hirr : forall x, less x x = false)
    by (intros x; rewrite less_key; apply sort_key_less_irrefl).
  assert (Htr : forall x y z, less x y = true -> less y z = true -> less x z = true).
  { intros x y z. rewrite !less_key. apply sort_key_less_trans. }
  assert (Hnd' : NoDup (map entry l)).
  { apply (NoDup_map_inv key). rewrite map_map. exact Hnd. }
  assert (Hta : tells_apart less (map entry l)).
  { intros x y Hx Hy H1 H2. rewrite less_key in H1, H2.
    pose proof (sort_key_less_total _ _ H1 H2) as Hk.
    apply in_map_iff in Hx. destruct Hx as [a [<- Ha]].
    apply in_map_iff in Hy. destruct Hy as [b [<- Hb]].
    f_equal. clear - Hnd Ha Hb Hk.
    induction l as [|c l IH]; [destruct Ha|].
    cbn [map] in Hnd. inversion Hnd as [|? ? Hc Hl]; subst.
    destruct Ha as [->|Ha], Hb as [->|Hb]; try reflexivity.
    - exfalso. apply Hc. rewrite Hk.
      apply (in_map (fun kv => key (entry kv))). exact Hb.
    - exfalso. apply Hc. rewrite <- Hk.
      apply (in_map (fun kv => key (entry kv))). exact Ha.
    - apply IH; assumption. }
  split; [|split].
  - apply sort_by_any_order; try assumption. apply Permutation_map, Hp.
  - apply sort_by_sorted; assumption.
  - apply sort_by_perm.
Qed.

End Flatten.

Lemma method_entry_less_key : forall a b,
  method_entry_less a b = sort_key_less (method_sort_key a) (method_sort_key b).
Proof. intros a b. reflexivity. Qed.

Lemma error_entry_less_key : forall a b,
  error_entry_less a b = sort_key_less (error_sort_key a) (error_sort_key b).
Proof. intros a b. reflexivity. Qed.

Lemma NoDup_map_injective {A B : Type} : forall (f : A -> B) l,
  (forall x y, f x = f y -> x = y) -> NoDup l -> NoDup (map f l).
Proof.
  intros f l Hinj Hnd. apply Finite.Injective_map_NoDup; [|exact Hnd].
  intros x y. apply Hinj.
Qed.

(** X23: the lists [flattenMethodSeries] and [flattenErrorSeries] hand to
    the report do not depend on the order in which the map is walked: for a
    map (one entry for a key) they hold every entry of the map exactly
    once, in strictly ascending order of mode, configuration, concurrency
    and method (or code), so two walks of the same map give the same
    list. *)
Theorem flatten_any_iteration_order :
  (forall methods methods',
     NoDup (map fst methods) -> Permutation methods methods' ->
     flattenMethodSeries methods = flattenMethodSeries methods'
     /\ StronglySorted (fun a b => method_entry_less a b = true)
          (flattenMethodSeries methods)
     /\ Permutation (map method_entry methods) (flattenMethodSeries methods))
  /\ (forall errors errors',
        NoDup (map fst errors) -> Permutation errors errors' ->
        flattenErrorSeries errors = flattenErrorSeries errors'
        /\ StronglySorted (fun a b => error_entry_less a b = true)
             (flattenErrorSeries errors)
        /\ Permutation (map error_entry errors) (flattenErrorSeries errors)).
Proof.
  split.
  - intros methods methods' Hnd Hp. unfold flattenMethodSeries.
    assert (Hl : len methods' = len methods)
      by (unfold len; rewrite (Permutation_length Hp); reflexivity).
    rewrite Hl.
    destruct (Z.eqb_spec (len methods) 0) as [H0|H0].
    + destruct methods; [|unfold len in H0; cbn in H0; lia].
      repeat split; constructor.
    + apply (entries_sorted_any_order _ _ method_entry method_sort_key
               method_entry_less method_entry_less_key); [|exact Hp].
      replace (map (fun kv => method_sort_key (method_entry kv)) methods)
        with (map (fun k => (methodKey.Mode k, methodKey.Config k,
                             methodKey.Concurrency k, methodKey.Method k))
                  (map fst methods))
        by (rewrite map_map; apply map_ext; intros [k v]; reflexivity).
      apply NoDup_map_injective; [|exact Hnd].
      intros [c1 m1 n1 x1] [c2 m2 n2 x2] H. cbn in H. congruence.
  - intros errors errors' Hnd Hp. unfold flattenErrorSeries.
    assert (Hl : len errors' = len errors)
      by (unfold len; rewrite (Permutation_length Hp); reflexivity).
    rewrite Hl.
    destruct (Z.eqb_spec (len errors) 0) as [H0|H0].
    + destruct errors; [|unfold len in H0; cbn in H0; lia].
      repeat split; constructor.
    + apply (entries_sorted_any_order _ _ error_entry error_sort_key
               error_entry_less error_entry_less_key); [|exact Hp].
      replace (map (fun kv => error_sort_key (error_entry kv)) errors)
        with (map (fun k => (errorSeriesKey.Mode k, errorSeriesKey.Config k,
                             errorSeriesKey.Concurrency k, errorSeriesKey.Code k))
                  (map fst errors))
        by (rewrite map_map; apply map_ext; intros [k v]; reflexivity).
      apply NoDup_map_injective; [|exact Hnd].
      intros [c1 m1 n1 x1] [c2 m2 n2 x2] H. cbn in H. congruence.
Qed.

(* ----------------------------------------------------------------- *)
(** ** The error table of the log *)

Section WeakOrder.

Variable A : Type.
Variable less : A -> A -> bool.
Hypothesis less_asym : forall a b, less a b = true -> less b a = false.
Hypothesis less_neg_trans : forall a b c,
  less a b = false -> less b c = false -> less a c = false.

Lemma insert_by_no_inversion : forall x l,
  StronglySorted (fun a b => less b a = false) l ->
  StronglySorted (fun a b => less b a = false) (insert_by less x l).
Proof.
  intros x l. induction l as [|y l IH]; intros Hs; cbn [insert_by].
  - constructor; constructor.
  - inversion Hs as [|? ? Hl Hy]; subst.
    destruct (less y x) eqn:E.
    + constructor; [apply IH, Hl|].
      apply Forall_forall. intros w Hw.
      apply (Permutation_in _ (Permutation_sym (insert_by_perm _ less x l))) in Hw.
      destruct Hw as [<-|Hw]; [apply less_asym, E|].
      rewrite Forall_forall in Hy. apply Hy, Hw.
    + constructor; [exact Hs|].
      constructor; [exact E|].
      apply Forall_forall. intros z Hz.
      rewrite Forall_forall in Hy.
      apply less_neg_trans with y; [apply Hy, Hz | exact E].
Qed.

Lemma sort_by_no_inversion : forall l,
  StronglySorted (fun a b => less b a = false) (sort_by less l).
Proof.
  induction l as [|x l IH]; cbn [sort_by]; [constructor|].
  apply insert_by_no_inversion, IH.
Qed.

End WeakOrder.

Lemma count_key_less_asym : forall a b,
  count_key_less a b = true -> count_key_less b a = false.
Proof.
  intros [c1 k1] [c2 k2]. unfold count_key_less. cbn [fst snd].
  rewrite (Z.eqb_sym c2 c1).
  destruct (Z.eqb_spec c1 c2) as [->|Hc]; cbn [negb].
  - intros H. destruct (sort_key_less k2 k1) eqn:E; [|reflexivity].
    pose proof (sort_key_less_trans _ _ _ H E) as Hk.
    rewrite sort_key_less_irrefl in Hk. discriminate.
  - intros H. apply Z.ltb_lt in H. apply Z.ltb_ge. lia.
Qed.

Lemma count_key_less_neg_trans : forall a b c,
  count_key_less a b = false -> count_key_less b c = false ->
  count_key_less a c = false.
Proof.
  intros [c1 k1] [c2 k2] [c3 k3]. unfold count_key_less. cbn [fst snd].
  destruct (Z.eqb_spec c1 c2) as [H12|H12];
    destruct (Z.eqb_spec c2 c3) as [H23|H23];
    destruct (Z.eqb_spec c1 c3) as [H13|H13]; cbn [negb];
    rewrite ?Z.ltb_ge; try lia.
  intros Hab Hbc.
  destruct (sort_key_less k1 k3) eqn:Hac; [|reflexivity].
  destruct (sort_key_less k2 k1) eqn:Hba.
  - rewrite (sort_key_less_trans _ _ _ Hba Hac) in Hbc. discriminate.
  - rewrite (sort_key_less_total _ _ Hab Hba) in Hac. congruence.
Qed.

Lemma summary_less_key : forall a b,
  summary_less a b = count_key_less (summary_sort_key a) (summary_sort_key b).
Proof. intros a b. reflexivity. Qed.

Lemma errorKey_eqb_eq : forall a b, errorKey.eqb a b = true <-> a = b.
Proof.
  intros [c1 m1 n1 r1 d1 e1] [c2 m2 n2 r2 d2 e2]. unfold errorKey.eqb. cbn.
  rewrite !andb_true_iff, !String.eqb_eq, Z.eqb_eq. split.
  - intros [[[[[-> ->] ->] ->] ->] ->]. reflexivity.
  - intros H. injection H as -> -> -> -> -> ->. auto 10.
Qed.

Lemma entry_key_summary_entry : forall kv, entry_key (summary_entry kv) = fst kv.
Proof. intros [[c m n r d e] v]. reflexivity. Qed.

Lemma map_count_set_same : forall m k v,
  map_count (assoc_set errorKey.eqb k v m) k = v.
Proof.
  intros m k v. unfold map_count.
  rewrite (assoc_get_set_same _ _ _ errorKey_eqb_eq). reflexivity.
Qed.

Lemma map_count_set_other : forall m k k' v,
  k' <> k -> map_count (assoc_set errorKey.eqb k v m) k' = map_count m k'.
Proof.
  intros m k k' v Hne. unfold map_count.
  rewrite (assoc_get_set_other _ _ _ errorKey_eqb_eq) by exact Hne. reflexivity.
Qed.

Lemma sum_assoc_set : forall m k v,
  sumZ (map snd (assoc_set errorKey.eqb k v m))
  = sumZ (map snd m) - map_count m k + v.
Proof.
  induction m as [|[k0 v0] m IH]; intros k v.
  - cbn. lia.
  - unfold map_count. cbn [assoc_set assoc_get].
    destruct (errorKey.eqb k0 k) eqn:E.
    + cbn. lia.
    + cbn [map snd sumZ fold_right]. fold (sumZ (map snd (assoc_set errorKey.eqb k v m))).
      rewrite IH. unfold map_count. fold (sumZ (map snd m)). lia.
Qed.

Lemma In_assoc_set : forall (m : list (errorKey.t * Z)) k v k' v',
  In (k', v') (assoc_set errorKey.eqb k v m) ->
  (k' = k /\ v' = v) \/ In (k', v') m.
Proof.
  induction m as [|[k0 v0] m IH]; intros k v k' v' Hin; cbn [assoc_set] in Hin.
  - destruct Hin as [H|[]]. injection H as <- <-. left. split; reflexivity.
  - destruct (errorKey.eqb k0 k) eqn:E.
    + destruct Hin as [H|Hin].
      * injection H as <- <-. left. split; reflexivity.
      * right. right. exact Hin.
    + destruct Hin as [H|Hin].
      * right. left. exact H.
      * destruct (IH _ _ _ _ Hin) as [H|H]; [left; exact H | right; right; exact H].
Qed.

Lemma keys_assoc_set : forall m k (v : Z) k',
  In k' (map fst (assoc_set errorKey.eqb k v m)) -> k' = k \/ In k' (map fst m).
Proof.
  intros m k v k' Hin. apply in_map_iff in Hin. destruct Hin as [[k1 v1] [<- Hin]].
  destruct (In_assoc_set _ _ _ _ _ Hin) as [[-> _]|H]; [left; reflexivity|].
  right. apply (in_map fst) in H. exact H.
Qed.

Lemma NoDup_assoc_set : forall m k (v : Z),
  NoDup (map fst m) -> NoDup (map fst (assoc_set errorKey.eqb k v m)).
Proof.
  induction m as [|[k0 v0] m IH]; intros k v Hnd; cbn [assoc_set].
  - cbn. constructor; [intros [] | constructor].
  - cbn [map fst] in Hnd. inversion Hnd as [|? ? Hk Hm]; subst.
    destruct (errorKey.eqb k0 k) eqn:E.
    + apply errorKey_eqb_eq in E. subst k0. cbn [map fst]. constructor; assumption.
    + cbn [map fst]. constructor; [|apply IH, Hm].
      intros Hin. destruct (keys_assoc_set _ _ _ _ Hin) as [->|H]; [|apply Hk, H].
      rewrite (proj2 (errorKey_eqb_eq k k) eq_refl) in E. discriminate.
Qed.

Lemma In_map_count : forall m k v,
  NoDup (map fst m) -> In (k, v) m -> map_count m k = v.
Proof.
  induction m as [|[k0 v0] m IH]; intros k v Hnd Hin; [destruct Hin|].
  cbn [map fst] in Hnd. inversion Hnd as [|? ? Hk Hm]; subst.
  unfold map_count. cbn [assoc_get].
  destruct Hin as [H|Hin].
  - injection H as -> ->. rewrite (proj2 (errorKey_eqb_eq k k) eq_refl). reflexivity.
  - destruct (errorKey.eqb k0 k) eqn:E.
    + apply errorKey_eqb_eq in E. subst k0. elim Hk.
      apply (in_map fst) in Hin. exact Hin.
    + apply (IH _ _ Hm Hin).
Qed.

Lemma summary_occurrences_snoc : forall k es e,
  summary_occurrences k (es ++ [e])
  = summary_occurrences k es + (if errorKey.eqb (summary_key e) k then 1 else 0).
Proof.
  intros k es e. unfold summary_occurrences, len.
  rewrite filter_app, length_app. cbn [filter].
  destruct (errorKey.eqb (summary_key e) k); cbn [List.length]; lia.
Qed.

Lemma summary_occurrences_bounds : forall k es,
  0 <= summary_occurrences k es <= len es.
Proof.
  intros k es. unfold summary_occurrences, len.
  pose proof (filter_length_le (fun e => errorKey.eqb (summary_key e) k) es). lia.
Qed.

Lemma sumZ_perm : forall l l', Permutation l l' -> sumZ l = sumZ l'.
Proof.
  intros l l' Hp. unfold sumZ.
  induction Hp; cbn [fold_right]; [reflexivity | | | ]; lia.
Qed.

Section ErrorSummaryFacts.

Variable Unmarshal : string -> option logEntry.t.

Lemma failed_line_len : forall line, len (failed_line Unmarshal line) <= 1.
Proof.
  intros line. unfold failed_line, len.
  destruct (Unmarshal line) as [e|]; [destruct (logEntry.OK e)|]; cbn; lia.
Qed.

Lemma failed_entries_len : forall lines,
  len (failed_entries Unmarshal lines) <= len lines.
Proof.
  induction lines as [|line lines IH]; [unfold len; cbn; lia|].
  unfold failed_entries in *. cbn [flat_map].
  pose proof (failed_line_len line) as H.
  unfold len in *. rewrite length_app. cbn [List.length]. lia.
Qed.

Lemma summary_count_line_ok : forall counts es line,
  summary_counts_ok counts es ->
  len es + 1 <= MaxInt64 ->
  summary_counts_ok (summary_count_line Unmarshal counts line)
    (es ++ failed_line Unmarshal line).
Proof.
  intros counts es line [Hnd [Hc [Hpos [Hsum Hcode]]]] Hlen.
  unfold summary_count_line, failed_line.
  destruct (Unmarshal line) as [e|];
    [destruct (logEntry.OK e)|];
    try (rewrite app_nil_r; repeat split; assumption).
  assert (Hw : wrap_int64 (map_count counts (summary_key e) + 1)
               = summary_occurrences (summary_key e) es + 1).
  { rewrite Hc. pose proof (summary_occurrences_bounds (summary_key e) es) as Hb.
    apply wrap_int64_id. unfold in_int64, MaxInt64, MinInt64 in *. lia. }
  rewrite Hw. split; [|split; [|split; [|split]]].
  - apply NoDup_assoc_set, Hnd.
  - intros k. rewrite summary_occurrences_snoc.
    destruct (errorKey.eqb (summary_key e) k) eqn:E.
    + apply errorKey_eqb_eq in E. subst k. apply map_count_set_same.
    + rewrite map_count_set_other, Hc; [lia|].
      intros ->. rewrite (proj2 (errorKey_eqb_eq _ _) eq_refl) in E. discriminate.
  - intros k v Hin. destruct (In_assoc_set _ _ _ _ _ Hin) as [[_ ->]|H].
    + pose proof (summary_occurrences_bounds (summary_key e) es). lia.
    + apply (Hpos _ _ H).
  - rewrite sum_assoc_set, Hsum, Hc. unfold len. rewrite length_app. cbn. lia.
  - intros k v Hin. destruct (In_assoc_set _ _ _ _ _ Hin) as [[-> _]|H].
    + reflexivity.
    + apply (Hcode _ _ H).
Qed.

Lemma summary_counts_from : forall lines counts es,
  summary_counts_ok counts es ->
  len es + len lines <= MaxInt64 ->
  summary_counts_ok (fold_left (summary_count_line Unmarshal) lines counts)
    (es ++ failed_entries Unmarshal lines).
Proof.
  induction lines as [|line lines IH]; intros counts es Hok Hlen.
  - cbn. rewrite app_nil_r. exact Hok.
  - cbn [fold_left]. unfold failed_entries. cbn [flat_map]. rewrite app_assoc.
    assert (Hl : len (line :: lines) = len lines + 1)
      by (unfold len; cbn [List.length]; lia).
    pose proof (failed_line_len line) as H1.
    assert (H0 : 0 <= len lines) by (unfold len; lia).
    apply IH.
    + apply summary_count_line_ok; [exact Hok | lia].
    + unfold len in *. rewrite length_app. lia.
Qed.

Lemma summary_counts_facts : forall lines,
  len lines <= MaxInt64 ->
  summary_counts_ok (summary_counts Unmarshal lines) (failed_entries Unmarshal lines).
Proof.
  intros lines Hlen. unfold summary_counts.
  apply (summary_counts_from lines [] []); [|unfold len in *; cbn [List.length]; lia].
  split; [constructor|]. split; [intros k; reflexivity|].
  split; [intros _ _ []|]. split; [reflexivity | intros _ _ []].
Qed.

End ErrorSummaryFacts.

(** X24: the error table [buildErrorSummaryFromLog] makes of a readable
    log accounts for every failed request once.  A table exists, whatever
    the order of the walk over the map; in every table the counts add up to
    the number of lines that decode to a failed request, no two rows have
    the same configuration, mode, concurrency, request, code and error
    text, and a row counts the failed requests with exactly its fields,
    at least one.  Lines that do not decode count nowhere. *)
Theorem buildErrorSummaryFromLog_counts_every_failure :
  forall (Unmarshal : string -> option logEntry.t) lines,
  len lines <= MaxInt64 ->
  (exists out, buildErrorSummaryFromLog Unmarshal (Some lines) (Some out))
  /\ forall out,
       buildErrorSummaryFromLog Unmarshal (Some lines) (Some out) ->
       sumZ (map errorSummaryEntry.Count out) = len (failed_entries Unmarshal lines)
       /\ NoDup (map entry_key out)
       /\ forall x, In x out ->
            errorSummaryEntry.Count x
            = summary_occurrences (entry_key x) (failed_entries Unmarshal lines)
            /\ 1 <= errorSummaryEntry.Count x
            /\ errorSummaryEntry.Code x = classifyError (errorSummaryEntry.Error x).
Proof.
  intros Unmarshal lines Hlen.
  destruct (summary_counts_facts Unmarshal lines Hlen)
    as [Hnd [Hc [Hpos [Hsum Hcode]]]].
  split.
  - exists (sort_by summary_less (map summary_entry (summary_counts Unmarshal lines))).
    constructor; [apply sort_by_perm|].
    apply sort_by_no_inversion.
    + intros a b. rewrite !summary_less_key. apply count_key_less_asym.
    + intros a b c. rewrite !summary_less_key. apply count_key_less_neg_trans.
  - intros out Hout. inversion Hout as [|? ? Hp Hs]; subst.
    split; [|split].
    + rewrite <- (sumZ_perm _ _ (Permutation_map errorSummaryEntry.Count Hp)), map_map.
      rewrite <- Hsum. f_equal.
    + apply (Permutation_NoDup (Permutation_map entry_key Hp)).
      rewrite map_map.
      rewrite (map_ext _ fst entry_key_summary_entry). exact Hnd.
    + intros x Hx.
      apply (Permutation_in _ (Permutation_sym Hp)) in Hx.
      apply in_map_iff in Hx. destruct Hx as [[k v] [<- Hin]].
      rewrite entry_key_summary_entry. cbn [fst summary_entry snd errorSummaryEntry.Count].
      rewrite <- Hc, (In_map_count _ _ _ Hnd Hin).
      split; [reflexivity|]. split; [apply (Hpos _ _ Hin)|].
      apply (Hcode _ _ Hin).
Qed.

Lemma buildErrorSummaryFromLog_counts_witness :
  exists out,
    buildErrorSummaryFromLog log_fixture_Unmarshal (Some log_fixture) (Some out)
    /\ sumZ (map errorSummaryEntry.Count out) = 1.
Proof.
  destruct (buildErrorSummaryFromLog_counts_every_failure
              log_fixture_Unmarshal log_fixture) as [[out Hout] Hall].
  - vm_compute. discriminate.
  - exists out. split; [exact Hout|].
    destruct (Hall out Hout) as [Hs _]. rewrite Hs. reflexivity.
Defined.

(* ----------------------------------------------------------------- *)
(** ** The configurations of a run *)

Section ResolveConfigPathsFacts.

Variable Glob : string -> option (list string).
Variable Base : string -> string.

Lemma resolve_matches_ok : forall name count matches st,
  resolve_ok st ->
  resolve_ok (resolve_matches Base name count matches st)
  /\ forall m, In m (map configItem.Path (snd (resolve_matches Base name count matches st)))
               <-> In m (map configItem.Path (snd st)) \/ In m matches.
Proof.
  intros name count matches. induction matches as [|m0 rest IH]; intros st Hok.
  - cbn [resolve_matches]. split; [exact Hok|]. intros m. cbn [In]. tauto.
  - cbn [resolve_matches]. destruct Hok as [Hnd Hseen].
    destruct (existsb (String.eqb m0) (fst st)) eqn:E.
    + destruct (IH st (conj Hnd Hseen)) as [Hok' Hin]. split; [exact Hok'|].
      intros m. rewrite Hin. cbn [In]. split; [tauto|].
      intros [H|[<-|H]]; [tauto| |tauto].
      left. apply Hseen. apply existsb_exists in E. destruct E as [x [Hx Hxe]].
      apply String.eqb_eq in Hxe. subst x. exact Hx.
    + match goal with |- context [resolve_matches _ _ _ _ ?s] => set (st' := s) end.
      assert (Hnot : ~ In m0 (fst st)).
      { intros Hx. apply Bool.not_true_iff_false in E. apply E.
        apply existsb_exists. exists m0. split; [exact Hx | apply String.eqb_refl]. }
      assert (Hok' : resolve_ok st').
      { unfold resolve_ok, st'. cbn [fst snd]. rewrite map_app. cbn [map configItem.Path].
        split.
        - apply (Permutation_NoDup (l := m0 :: map configItem.Path (snd st))).
          + apply Permutation_cons_append.
          + constructor; [|exact Hnd]. intros Hx. apply Hnot, Hseen, Hx.
        - intros m. rewrite in_app_iff. cbn [In]. rewrite Hseen. tauto. }
      destruct (IH st' Hok') as [Hok'' Hin]. split; [exact Hok''|].
      intros m. rewrite Hin. unfold st'. cbn [snd]. rewrite map_app, in_app_iff.
      cbn [map configItem.Path In]. tauto.
Qed.

Lemma resolve_parts_ok : forall parts st,
  resolve_ok st ->
  (resolve_parts Glob Base parts st = None
   <-> exists p, In p (patterns_of parts) /\ Glob p = None)
  /\ forall st', resolve_parts Glob Base parts st = Some st' ->
       resolve_ok st'
       /\ forall m, In m (map configItem.Path (snd st'))
                    <-> In m (map configItem.Path (snd st))
                        \/ exists p, In p (patterns_of parts) /\ In m (paths_of Glob p).
Proof.
  induction parts as [|part rest IH]; intros st Hok.
  - cbn [resolve_parts patterns_of flat_map]. split.
    + split; [discriminate | intros [p [[] _]]].
    + intros st' H. injection H as <-. split; [exact Hok|].
      intros m. split; [tauto | intros [H|[p [[] _]]]; exact H].
  - cbn [resolve_parts]. unfold patterns_of. cbn [flat_map]. fold (patterns_of rest).
    destruct (String.eqb (TrimSpace part) "") eqn:E.
    + cbn [app]. apply IH, Hok.
    + set (np := name_and_pattern (TrimSpace part)).
      cbn [app].
      destruct (Glob (snd np)) as [matches|] eqn:G.
      * set (ms := if (len matches =? 0)%Z then [snd np] else matches).
        assert (Hpaths : paths_of Glob (snd np) = ms)
          by (unfold paths_of; rewrite G; reflexivity).
        destruct (resolve_matches_ok (fst np) (len ms) ms st Hok) as [Hok1 Hin1].
        destruct (IH _ Hok1) as [Hnone Hsome]. split.
        -- rewrite Hnone. split.
           ++ intros [p [Hp Hg]]. exists p. split; [right; exact Hp | exact Hg].
           ++ intros [p [[<-|Hp] Hg]]; [congruence|]. exists p. split; assumption.
        -- intros st' Hst'. destruct (Hsome st' Hst') as [Hok' Hin']. split; [exact Hok'|].
           intros m. rewrite Hin', Hin1. split.
           ++ intros [[H|H]|[p [Hp Hm]]].
              ** left. exact H.
              ** right. exists (snd np). split; [left; reflexivity|]. rewrite Hpaths. exact H.
              ** right. exists p. split; [right; exact Hp | exact Hm].
           ++ intros [H|[p [[<-|Hp] Hm]]].
              ** left. left. exact H.
              ** left. right. rewrite <- Hpaths. exact Hm.
              ** right. exists p. split; assumption.
      * split.
        -- split; [|reflexivity]. intros _. exists (snd np).
           split; [left; reflexivity | exact G].
        -- discriminate.
Qed.

End ResolveConfigPathsFacts.

(** X25: [resolveConfigPaths] lists every configuration file once.  It
    fails exactly when one of the patterns of the list is malformed for
    [filepath.Glob]; otherwise no two items have the same path, and the
    paths are those the patterns stand for (the matches of a pattern, or
    the pattern itself when nothing matches), so a file that two patterns
    match, or that is named twice, is run once. *)
Theorem resolveConfigPaths_each_path_once :
  forall (Glob : string -> option (list string)) (Base : string -> string) spec,
  (resolveConfigPaths Glob Base spec = None
   <-> exists p, In p (patterns_of (Split spec ",")) /\ Glob p = None)
  /\ forall out, resolveConfigPaths Glob Base spec = Some out ->
       NoDup (map configItem.Path out)
       /\ forall m, In m (map configItem.Path out)
                    <-> exists p, In p (patterns_of (Split spec ","))
                                  /\ In m (paths_of Glob p).
Proof.
  intros Glob Base spec. unfold resolveConfigPaths.
  assert (Hinit : resolve_ok ([], [])).
  { split; [constructor|]. intros m. cbn. tauto. }
  destruct (resolve_parts_ok Glob Base (Split spec ",") ([], []) Hinit) as [Hnone Hsome].
  split.
  - rewrite <- Hnone.
    destruct (resolve_parts Glob Base (Split spec ",") ([], [])); cbn [option_map];
      split; intros H; congruence.
  - intros out Hout.
    destruct (resolve_parts Glob Base (Split spec ",") ([], [])) as [st'|] eqn:E;
      [|discriminate].
    cbn [option_map] in Hout. injection Hout as <-.
    destruct (Hsome st' eq_refl) as [[Hnd _] Hin]. split; [exact Hnd|].
    intros m. rewrite Hin. cbn [snd map In]. tauto.
Qed.
